(** * D* Lite planner (azul3d dstarlite): shallow embedding and properties

    The Go package has three parts, all embedded here:
    - [key] and [compare]                      (the key source file),
    - [priorityQueue] over Go's [container/heap] (priorityqueue.go),
    - [valueMap] and the [Planner]               (the planner source file).

    Numbers.  Every number of the package is a [float64].  The operations
    the package uses on them are collected in the class [Float64]; the
    code is embedded once, over that class.  Two instances are given:
    - [ieee]: IEEE-754 binary64 as specified by the standard library's
      [SpecFloat] (the specification of Rocq's primitive floats), with
      rounding; comparisons, [float64Equals], the growth of [km] and
      every concrete run are stated on it;
    - [exact]: the IEEE special values (both infinities and NaN) around
      integers added without rounding.  An integer [z] stands for the
      float64 [z * 2^sc] of a grid ([of_exact]); while the sums stay below
      2^53 units the float64 code computes what the exact instance
      computes, and the graph-search properties, which the package inherits
      from the D* Lite paper, are proved of the float64 code through it.

    Panics.  Indexing out of range and calling a method on a nil [State]
    panic in Go.  Queue operations return [option] ([None] is a panic);
    planner operations return [res] ([Panics], or [Diverges] when the
    given number of loop iterations did not suffice). *)

From Stdlib Require Import ZArith Lia Bool List.
From Stdlib Require Import Floats.SpecFloat.
From stdpp Require Import base option list gmap.

Open Scope Z_scope.

(** ** The float64 operations the package uses *)

Class Float64 (F : Type) := {
  f_zero : F;                  (* the literal 0 / 0.0 *)
  f_inf : F;                   (* math.Inf(1), also math.Inf(0) *)
  f_add : F -> F -> F;         (* a + b *)
  f_sub : F -> F -> F;         (* a - b *)
  f_abs : F -> F;              (* math.Abs(a) *)
  f_min : F -> F -> F;         (* math.Min(a, b) *)
  f_ltb : F -> F -> bool;      (* a < b *)
  f_eqb : F -> F -> bool;      (* a == b *)
  f_is_inf : F -> bool;        (* math.IsInf(a, 0) *)
  f_smallest_nonzero : F       (* math.SmallestNonzeroFloat64 *)
}.

(** [a > b] is [b < a], also in IEEE-754. *)
Definition f_gtb {F} `{Float64 F} (a b : F) : bool := f_ltb b a.

(** Lexicographic comparison of integer triples. *)
Definition lex3 (a b : Z * Z * Z) : comparison :=
  match a, b with
  | (a1, a2, a3), (b1, b2, b3) =>
      match a1 ?= b1 with
      | Eq => match a2 ?= b2 with Eq => a3 ?= b3 | c => c end
      | c => c
      end
  end.

Definition lt3 (a b : Z * Z * Z) : Prop :=
  match a, b with
  | (a1, a2, a3), (b1, b2, b3) =>
      a1 < b1 \/ (a1 = b1 /\ (a2 < b2 \/ (a2 = b2 /\ a3 < b3)))
  end.

(** [a <= b] as Go evaluates it: [a < b || a == b]. *)
Definition f_leb {F} `{Float64 F} (a b : F) : bool := f_ltb a b || f_eqb a b.

(** *** IEEE-754 binary64 *)

Module IEEE.
Definition prec : Z := 53.
Definition emax : Z := 1024.

Definition is_nan (x : spec_float) : bool :=
  match x with S754_nan => true | _ => false end.

Definition is_inf (x : spec_float) : bool :=
  match x with S754_infinity _ => true | _ => false end.

Definition is_neg_inf (x : spec_float) : bool :=
  match x with S754_infinity true => true | _ => false end.

Definition signbit (x : spec_float) : bool :=
  match x with
  | S754_zero s | S754_infinity s | S754_finite s _ _ => s
  | S754_nan => false
  end.

Definition ltb : spec_float -> spec_float -> bool := SFltb.
Definition eqb : spec_float -> spec_float -> bool := SFeqb.
Definition add : spec_float -> spec_float -> spec_float := SFadd prec emax.
Definition sub : spec_float -> spec_float -> spec_float := SFsub prec emax.

(** Go's [math.Min], special cases included. *)
Definition min (x y : spec_float) : spec_float :=
  if is_neg_inf x || is_neg_inf y then S754_infinity true
  else if is_nan x || is_nan y then S754_nan
  else if eqb x (S754_zero false) && eqb x y
       then (if signbit x then x else y)
  else if ltb x y then x else y.

(** [math.SmallestNonzeroFloat64], 2^-1074. *)
Definition smallest_nonzero : spec_float := S754_finite false 1 (-1074).

(** Where a float that is not NaN stands in the order of [SFcompare]:
    sign class first, then exponent, then mantissa (both negated for
    negative numbers). *)
Definition rank (x : spec_float) : Z * Z * Z :=
  match x with
  | S754_infinity true => (-2, 0, 0)
  | S754_finite true m e => (-1, - e, Z.neg m)
  | S754_zero _ => (0, 0, 0)
  | S754_finite false m e => (1, e, Z.pos m)
  | S754_infinity false => (2, 0, 0)
  | S754_nan => (3, 0, 0)
  end.

(** The float64 nearest to an integer. *)
Definition of_Z (z : Z) : spec_float := binary_normalize prec emax z 0 false.
End IEEE.

#[export] Instance ieee : Float64 spec_float := {|
  f_zero := S754_zero false;
  f_inf := S754_infinity false;
  f_add := IEEE.add;
  f_sub := IEEE.sub;
  f_abs := SFabs;
  f_min := IEEE.min;
  f_ltb := IEEE.ltb;
  f_eqb := IEEE.eqb;
  f_is_inf := IEEE.is_inf;
  f_smallest_nonzero := IEEE.smallest_nonzero
|}.

(** *** Exact arithmetic on integers, with the IEEE special values *)

Inductive xnum : Type :=
  | XFin (z : Z)
  | XPInf
  | XNInf
  | XNaN.

#[export] Instance xnum_eq_dec : EqDecision xnum.
Proof. solve_decision. Defined.

Module Exact.
Definition add (a b : xnum) : xnum :=
  match a, b with
  | XNaN, _ | _, XNaN => XNaN
  | XPInf, XNInf | XNInf, XPInf => XNaN
  | XPInf, _ | _, XPInf => XPInf
  | XNInf, _ | _, XNInf => XNInf
  | XFin x, XFin y => XFin (x + y)
  end.

Definition opp (a : xnum) : xnum :=
  match a with
  | XFin x => XFin (- x)
  | XPInf => XNInf
  | XNInf => XPInf
  | XNaN => XNaN
  end.

Definition sub (a b : xnum) : xnum := add a (opp b).

Definition abs (a : xnum) : xnum :=
  match a with
  | XFin x => XFin (Z.abs x)
  | XPInf | XNInf => XPInf
  | XNaN => XNaN
  end.

Definition ltb (a b : xnum) : bool :=
  match a, b with
  | XNaN, _ | _, XNaN => false
  | XNInf, XNInf => false
  | XNInf, _ => true
  | _, XNInf => false
  | XPInf, _ => false
  | XFin _, XPInf => true
  | XFin x, XFin y => x <? y
  end.

Definition eqb (a b : xnum) : bool :=
  match a, b with
  | XFin x, XFin y => x =? y
  | XPInf, XPInf | XNInf, XNInf => true
  | _, _ => false
  end.

Definition is_inf (a : xnum) : bool :=
  match a with XPInf | XNInf => true | _ => false end.

(** Go's [math.Min]; there is one zero here, so its signed-zero case
    is the general one. *)
Definition min (x y : xnum) : xnum :=
  match x, y with
  | XNInf, _ | _, XNInf => XNInf
  | XNaN, _ | _, XNaN => XNaN
  | _, _ => if ltb x y then x else y
  end.
End Exact.

#[export] Instance exact : Float64 xnum := {|
  f_zero := XFin 0;
  f_inf := XPInf;
  f_add := Exact.add;
  f_sub := Exact.sub;
  f_abs := Exact.abs;
  f_min := Exact.min;
  f_ltb := Exact.ltb;
  f_eqb := Exact.eqb;
  f_is_inf := Exact.is_inf;
  f_smallest_nonzero := XFin 1      (* the least positive integer *)
|}.

(** ** key.go: keys and their comparison *)

Record key (F : Type) : Type := Key { A : F; B : F }.
Arguments Key {F} _ _.
Arguments A {F} _.
Arguments B {F} _.

Section KeyCompare.
Context {F : Type} `{Float64 F}.

(** [func (a key) compare(b key) int] *)
Definition compare (a b : key F) : Z :=
  if f_ltb (A a) (A b) then -1
  else if f_gtb (A a) (A b) then 1
  else if f_ltb (B a) (B b) then -1
  else if f_gtb (B a) (B b) then 1
  else 0.

(** [func float64Equals(a, b float64) bool] *)
Definition float64Equals (a b : F) : bool :=
  if f_eqb a b then true
  else if f_ltb (f_abs (f_sub a b)) f_smallest_nonzero then true
  else false.
End KeyCompare.

(** ** priorityqueue.go: the queue and Go's container/heap

    [State] is the Go interface type; a map keyed by it compares keys
    with Go's [==], here equality of a countable type. *)

Section QueueTypes.
Context (State : Type) `{Countable State} (F : Type).

(** [type pqItem struct { s State; k key }] *)
Record pqItem : Type := PqItem { item_s : State; item_k : key F }.

(** [type priorityQueue struct { lookups map[State]int; items []pqItem }]
    Indices are never negative where the code stores them. *)
Record priorityQueue : Type :=
  PriorityQueue { lookups : gmap State nat; items : list pqItem }.
End QueueTypes.

Arguments PqItem {State F} _ _.
Arguments item_s {State F} _.
Arguments item_k {State F} _.
Arguments PriorityQueue {State _ _ F} _ _.
Arguments lookups {State _ _ F} _.
Arguments items {State _ _ F} _.

(** *** The heap.Interface methods of the queue *)

Module pqi.
Section Methods.
Context {State : Type} `{Countable State} {F : Type} `{Float64 F}.
Local Abbreviation queue := (priorityQueue State F).

Definition Len (q : queue) : nat := length (items q).

(** [a.k.compare(b.k) == -1]; an index out of range panics. *)
Definition Less (q : queue) (i j : nat) : option bool :=
  a ← items q !! i;
  b ← items q !! j;
  Some (bool_decide (compare (item_k a) (item_k b) = -1)).

(** The two slots are exchanged, then the index of each is recorded,
    slot [i] first. *)
Definition Swap (q : queue) (i j : nat) : option queue :=
  a ← items q !! i;
  b ← items q !! j;
  let items' := <[j := a]> (<[i := b]> (items q)) in
  x ← items' !! i;
  let lookups1 := <[item_s x := i]> (lookups q) in
  y ← items' !! j;
  let lookups2 := <[item_s y := j]> lookups1 in
  Some (PriorityQueue lookups2 items').

Definition Push (q : queue) (item : pqItem State F) : queue :=
  let n := length (items q) in
  PriorityQueue (<[item_s item := n]> (lookups q)) (items q ++ [item]).

(** [old[n-1]] panics on an empty queue. *)
Definition Pop (q : queue) : option (queue * pqItem State F) :=
  match length (items q) with
  | O => None
  | S m =>
      item ← items q !! m;
      Some (PriorityQueue (delete (item_s item) (lookups q)) (take m (items q)), item)
  end.
End Methods.
End pqi.

(** *** Go's container/heap, over the methods above

    [up] and [down] are loops; each iteration moves the index strictly
    (to the parent, to a child below [n]), so the first argument bounds
    the iterations: [S j] for [up] from [j], [n] for [down] below [n]. *)

(** [(j - 1) / 2]; Go's division truncates, so the parent of 0 is 0. *)
Definition parent (j : nat) : nat := ((j - 1) / 2)%nat.
Arguments parent : simpl never.

Module heap.
Section Heap.
Context {State : Type} `{Countable State} {F : Type} `{Float64 F}.
Local Abbreviation queue := (priorityQueue State F).

Fixpoint up_loop (fuel : nat) (q : queue) (j : nat) : option queue :=
  match fuel with
  | O => Some q
  | S fuel' =>
      let i := parent j in
      if decide (i = j) then Some q
      else
        less ← pqi.Less q j i;
        if negb less then Some q
        else q' ← pqi.Swap q i j; up_loop fuel' q' i
  end.

Definition up (q : queue) (j : nat) : option queue := up_loop (S j) q j.

(** Returns the queue and the index reached. *)
Fixpoint down_loop (fuel : nat) (q : queue) (i n : nat) : option (queue * nat) :=
  match fuel with
  | O => Some (q, i)
  | S fuel' =>
      let j1 := (2 * i + 1)%nat in
      if decide (n ≤ j1)%nat then Some (q, i)
      else
        lt21 ← (if decide (j1 + 1 < n)%nat then pqi.Less q (j1 + 1) j1 else Some false);
        let j := if (lt21 : bool) then (j1 + 1)%nat else j1 in    (* the lesser child *)
        less ← pqi.Less q j i;
        if negb less then Some (q, i)
        else q' ← pqi.Swap q i j; down_loop fuel' q' j n
  end.

(** [down(h, i0, n)] returns [i > i0]. *)
Definition down (q : queue) (i0 n : nat) : option (queue * bool) :=
  '(q', i) ← down_loop n q i0 n;
  Some (q', bool_decide (i0 < i)%nat).

(** [heap.Push(h, x)] *)
Definition Push (q : queue) (x : pqItem State F) : option queue :=
  let q1 := pqi.Push q x in
  up q1 (pqi.Len q1 - 1).

(** [heap.Pop(h)]; with an empty queue [n] is -1 and [Swap] panics. *)
Definition Pop (q : queue) : option (queue * pqItem State F) :=
  match pqi.Len q with
  | O => None
  | S n =>
      q1 ← pqi.Swap q 0 n;
      '(q2, _) ← down q1 0 n;
      pqi.Pop q2
  end.

(** [heap.Remove(h, i)]; with an empty queue [n] is -1, never [i], and
    [Swap] panics. *)
Definition Remove (q : queue) (i : nat) : option (queue * pqItem State F) :=
  match pqi.Len q with
  | O => None
  | S n =>
      if decide (n = i) then pqi.Pop q
      else
        q1 ← pqi.Swap q i n;
        '(q2, moved) ← down q1 i n;
        q3 ← (if negb moved then up q2 i else Some q2);
        pqi.Pop q3
  end.
End Heap.
End heap.

(** *** The queue operations of the paper *)

Module pq.
Section Queue.
Context {State : Type} `{Countable State} {F : Type} `{Float64 F}.
Local Abbreviation queue := (priorityQueue State F).

Definition newPriorityQueue : queue := PriorityQueue ∅ [].

Definition contains (q : queue) (s : State) : bool :=
  bool_decide (is_Some (lookups q !! s)).

(** [len(q.lookups) == 0] *)
Definition isEmpty (q : queue) : bool := bool_decide (size (lookups q) = 0%nat).

(** [q.items[0].s], a panic on an empty queue. *)
Definition top (q : queue) : option State :=
  it ← items q !! 0%nat; Some (item_s it).

Definition topKey (q : queue) : key F :=
  match items q with
  | [] => Key f_inf f_inf
  | it :: _ => item_k it
  end.

Definition pop (q : queue) : option (queue * State) :=
  '(q', it) ← heap.Pop q; Some (q', item_s it).

Definition insert (q : queue) (s : State) (k : key F) : option queue :=
  heap.Push q (PqItem s k).

(** [q.lookups[s]] of an absent [s] is 0. *)
Definition update (q : queue) (s : State) (k : key F) : option queue :=
  let index := default 0%nat (lookups q !! s) in
  it ← items q !! index;
  if decide (compare (item_k it) k ≠ 0) then
    '(q1, _) ← heap.Remove q index;
    heap.Push q1 (PqItem s k)
  else Some q.

Definition remove (q : queue) (s : State) : option queue :=
  let index := default 0%nat (lookups q !! s) in
  let q1 := PriorityQueue (delete s (lookups q)) (items q) in
  '(q2, _) ← heap.Remove q1 index;
  Some q2.
End Queue.
End pq.

(** ** The planner

    A planner operation returns a value, panics, or is still looping when
    the iterations it was given are used up. *)

Inductive res (X : Type) : Type :=
  | Returns (x : X)
  | Panics
  | Diverges.
Arguments Returns {X} _.
Arguments Panics {X}.
Arguments Diverges {X}.

#[export] Instance res_bind : MBind res := fun X Y (f : X -> res Y) (r : res X) =>
  match r with
  | Returns x => f x
  | Panics => Panics
  | Diverges => Diverges
  end.

(** A queue operation inside the planner. *)
Definition lift {X : Type} (o : option X) : res X :=
  match o with
  | Some x => Returns x
  | None => Panics
  end.

(** The statements of a [for _, st := range l] body, in order. *)
Fixpoint for_range {X S : Type} (body : S -> X -> res S) (l : list X) (s : S) : res S :=
  match l with
  | [] => Returns s
  | x :: l' => s' ← body s x; for_range body l' s'
  end.

Section PlannerTypes.
Context (State : Type) `{Countable State} (F : Type).

(** [type Data interface { Succ; Pred; Dist; Cost }]: the graph of the
    host.  The planner only calls it; it is passed to every operation. *)
Record Data : Type := {
  Succ : State -> list State;
  Pred : State -> list State;
  Dist : State -> State -> F;
  Cost : State -> State -> F
}.

(** [type Planner struct { d; start, goal; rhs, g; u; km }], without [d]. *)
Record Planner : Type := {
  start : State;
  goal : State;
  rhs : gmap State F;
  g : gmap State F;
  u : priorityQueue State F;
  km : F
}.
End PlannerTypes.

Arguments Succ {State F} _ _.
Arguments Pred {State F} _ _.
Arguments Dist {State F} _ _ _.
Arguments Cost {State F} _ _ _.
Arguments Build_Planner {State _ _ F} _ _ _ _ _ _.
Arguments start {State _ _ F} _.
Arguments goal {State _ _ F} _.
Arguments rhs {State _ _ F} _.
Arguments g {State _ _ F} _.
Arguments u {State _ _ F} _.
Arguments km {State _ _ F} _.

Section Planner.
Context {State : Type} `{Countable State} {F : Type} `{Float64 F}.
(** [Equals] of the [State] interface, supplied by the host. *)
Variable Equals : State -> State -> bool.
Variable d : Data State F.
Local Abbreviation planner := (Planner State F).

(** [func (v valueMap) get(s State) float64] *)
Definition get (v : gmap State F) (s : State) : F := default f_inf (v !! s).

Definition set_u (p : planner) (q : priorityQueue State F) : planner :=
  Build_Planner (start p) (goal p) (rhs p) (g p) q (km p).

Definition set_rhs (p : planner) (s : State) (x : F) : planner :=
  Build_Planner (start p) (goal p) (<[s := x]> (rhs p)) (g p) (u p) (km p).

Definition set_g (p : planner) (s : State) (x : F) : planner :=
  Build_Planner (start p) (goal p) (rhs p) (<[s := x]> (g p)) (u p) (km p).

Definition calcKey (p : planner) (st : State) : key F :=
  let a := f_add (f_add (f_min (get (g p) st) (get (rhs p) st)) (Dist d (start p) st)) (km p) in
  let b := f_min (get (g p) st) (get (rhs p) st) in
  Key a b.

Definition updateVertex (p : planner) (v : State) : res planner :=
  let eq := float64Equals (get (g p) v) (get (rhs p) v) in
  let cont := pq.contains (u p) v in
  if negb eq && cont then
    q ← lift (pq.update (u p) v (calcKey p v)); Returns (set_u p q)
  else if negb eq && negb cont then
    q ← lift (pq.insert (u p) v (calcKey p v)); Returns (set_u p q)
  else if eq && cont then
    q ← lift (pq.remove (u p) v); Returns (set_u p q)
  else Returns p.

(** The least of [Cost(st, s') + g(s')] over the successors, the first
    successor reaching it, and [nil] when none is below +Inf. *)
Definition minSucc (p : planner) (st : State) : F * option State :=
  fold_left
    (fun (acc : F * option State) (sPrime : State) =>
       let rhsPrime := f_add (Cost d st sPrime) (get (g p) sPrime) in
       if f_ltb rhsPrime (fst acc) then (rhsPrime, Some sPrime) else acc)
    (Succ d st) (f_inf, None).

(** The condition of the loop of [computeShortestPath]. *)
Definition unfinished (p : planner) : bool :=
  negb (pq.isEmpty (u p)) &&
  (bool_decide (compare (pq.topKey (u p)) (calcKey p (start p)) = -1)
   || f_gtb (get (rhs p) (start p)) (get (g p) (start p))).

(** The body run for a predecessor [st] of [x] when [x] is overconsistent. *)
Definition lower (x : State) (p : planner) (st : State) : res planner :=
  let p1 :=
    if negb (Equals st (goal p)) then
      set_rhs p st (f_min (get (rhs p) st) (f_add (Cost d st x) (get (g p) x)))
    else p in
  updateVertex p1 st.

(** The body run for [st], a predecessor of [x] or [x] itself, otherwise. *)
Definition raise (x : State) (gOld : F) (p : planner) (st : State) : res planner :=
  let p1 :=
    if float64Equals (get (rhs p) st) (f_add (Cost d st x) gOld) then
      if negb (Equals st (goal p)) then set_rhs p st (fst (minSucc p st)) else p
    else p in
  updateVertex p1 st.

(** One iteration of the loop of [computeShortestPath]. *)
Definition step (p : planner) : res planner :=
  x ← lift (pq.top (u p));
  let kOld := pq.topKey (u p) in
  let kNew := calcKey p x in
  if decide (compare kOld kNew = -1) then
    q ← lift (pq.update (u p) x kNew); Returns (set_u p q)
  else if f_gtb (get (g p) x) (get (rhs p) x) then
    let p1 := set_g p x (get (rhs p) x) in
    q ← lift (pq.remove (u p1) x);
    for_range (lower x) (Pred d x) (set_u p1 q)
  else
    let gOld := get (g p) x in
    let p1 := set_g p x f_inf in
    for_range (raise x gOld) (Pred d x ++ [x]) p1.

Fixpoint computeShortestPath (fuel : nat) (p : planner) : res planner :=
  if unfinished p then
    match fuel with
    | O => Diverges
    | S fuel' => p' ← step p; computeShortestPath fuel' p'
    end
  else Returns p.

Definition FlagChanged (p : planner) (x v : State) (cOld cNew : F) : res planner :=
  let p1 :=
    if f_gtb cOld cNew then
      if negb (Equals x (goal p)) then
        set_rhs p x (f_min (get (rhs p) x) (f_add cNew (get (g p) v)))
      else p
    else if float64Equals (get (rhs p) x) (f_add cOld (get (g p) v)) then
      if negb (Equals x (goal p)) then set_rhs p x (fst (minSucc p x)) else p
    else p in
  updateVertex p1 x.

Definition UpdateStart (p : planner) (s : State) : planner :=
  let oldStart := start p in
  Build_Planner s (goal p) (rhs p) (g p) (u p) (f_add (km p) (Dist d oldStart s)).

(** The loop of [Plan] from [st], with the path so far.  [None] is the
    nil result.  When no successor is below +Inf, [st] becomes nil and the
    next [st.Equals] panics. *)
Fixpoint walk (fuel : nat) (p : planner) (st : State) (path : list State)
  : res (option (list State)) :=
  if Equals st (goal p) then Returns (Some path)
  else
    match fuel with
    | O => Diverges
    | S fuel' =>
        if f_is_inf (get (rhs p) st) then Returns None
        else
          match snd (minSucc p st) with
          | None => Panics
          | Some minS => walk fuel' p minS (path ++ [minS])
          end
    end.

(** [Plan]: the path (or nil) and the planner as the call leaves it. *)
Definition Plan (fuel : nat) (p : planner) : res (option (list State) * planner) :=
  let st := start p in
  p' ← computeShortestPath fuel p;
  path ← walk fuel p' st [st];
  Returns (path, p').

Definition New (start goal : State) : res planner :=
  let k := Key (Dist d start goal) f_zero in
  q ← lift (pq.insert pq.newPriorityQueue goal k);
  Returns (Build_Planner start goal (<[goal := f_zero]> ∅) ∅ q f_zero).
End Planner.

(** ** Predicates used in the statements *)

(** A key of two numbers, neither of them NaN (the keys of the data
    model: pairs of finite or infinite reals). *)
Definition key_ok (k : key spec_float) : Prop :=
  IEEE.is_nan (A k) = false /\ IEEE.is_nan (B k) = false.

(** A float64 that is finite and not below emin, or an infinity. *)
Definition big_enough (x : spec_float) : Prop :=
  match x with
  | S754_finite _ _ e => -1074 <= e
  | S754_infinity _ => True
  | _ => False
  end.

(** The value of the positive float of mantissa [m] and exponent [e], in
    units of 2^-1074. *)
Definition fvalue (m : positive) (e : Z) : Z := Z.pos m * 2 ^ (e + 1074).

(** A float64 that is not negative: a zero, a positive number or +Inf. *)
Definition float_nn (x : spec_float) : Prop :=
  valid_binary IEEE.prec IEEE.emax x = true /\
  (IEEE.ltb (S754_zero false) x || IEEE.eqb (S754_zero false) x) = true.

(** The lexicographic order of the package documentation,
    [a1 < b1 || a1 == b1 && a2 < b2], on ranks. *)
Definition key_lt (a b : key spec_float) : Prop :=
  lt3 (IEEE.rank (A a)) (IEEE.rank (A b)) \/
  (IEEE.rank (A a) = IEEE.rank (A b) /\ lt3 (IEEE.rank (B a)) (IEEE.rank (B b))).

Definition key_eq (a b : key spec_float) : Prop :=
  IEEE.rank (A a) = IEEE.rank (A b) /\ IEEE.rank (B a) = IEEE.rank (B b).

Section QueueSpec.
Context {State : Type} `{Countable State} {F : Type} `{Float64 F}.
Local Abbreviation queue := (priorityQueue State F).

(** The states of the entries, in array order. *)
Definition states (q : queue) : list State := item_s <$> items q.

(** The index map agrees with the array: the keys of [lookups] are the
    states that occur in [items], each state occurs once, and
    [lookups[s]] is the index of the entry of [s]. *)
Definition index_ok (q : queue) : Prop :=
  (forall s, is_Some (lookups q !! s) <-> s ∈ states q) /\
  NoDup (states q) /\
  (forall s i, lookups q !! s = Some i -> states q !! i = Some s).

(** The same in one sentence. *)
Definition index_inv (q : queue) : Prop :=
  forall s i, lookups q !! s = Some i <-> states q !! i = Some s.

(** What an exchange with the last slot [n] sets up, and what every later
    exchange below [n] keeps: the entry to remove waits in slot [n]. *)
Definition parked (q0 : queue) (x : pqItem State F) (n : nat) (q : queue) : Prop :=
  index_inv q /\ length (items q) = S n /\ items q !! n = Some x /\
  (forall it, it ∈ items q <-> it ∈ items q0).

(** The key under which [s] is queued. *)
Definition key_of (q : queue) (s : State) : option (key F) :=
  i ← lookups q !! s; it ← items q !! i; Some (item_k it).

(** [x] is not above [y]: [y < x] is not the case. *)
Definition kle (x y : key F) : Prop := compare y x <> -1.

(** The entry at [a] is not above the entry at [b]. *)
Definition le_at (l : list (pqItem State F)) (a b : nat) : Prop :=
  forall x y, l !! a = Some x -> l !! b = Some y -> kle (item_k x) (item_k y).

(** Every queued key satisfies [ok]. *)
Definition all_ok (ok : key F -> Prop) (l : list (pqItem State F)) : Prop :=
  forall it, it ∈ l -> ok (item_k it).

(** The heap order on the first [n] entries: no entry is below its parent. *)
Definition heap_upto (l : list (pqItem State F)) (n : nat) : Prop :=
  forall j, (0 < j < n)%nat -> le_at l (parent j) j.

Definition heap_ok (q : queue) : Prop := heap_upto (items q) (length (items q)).

(** The representation invariant of the queue, for keys that [ok] holds
    of: the index map is consistent and the array is a heap. *)
Definition queue_inv (ok : key F -> Prop) (q : queue) : Prop :=
  index_inv q /\ heap_ok q /\ all_ok ok (items q).

(** The heap order but for the entry at [j] against its parent; its
    children are not below its parent. *)
Definition heap_but_up (l : list (pqItem State F)) (j n : nat) : Prop :=
  (forall c, (0 < c < n)%nat -> c <> j -> le_at l (parent c) c) /\
  (forall c, (0 < c < n)%nat -> parent c = j -> (0 < j)%nat -> le_at l (parent j) c).

(** The heap order but for the entry at [i] against its children. *)
Definition heap_but_down (l : list (pqItem State F)) (i n : nat) : Prop :=
  (forall c, (0 < c < n)%nat -> parent c <> i -> le_at l (parent c) c) /\
  (forall c, (0 < c < n)%nat -> parent c = i -> (0 < i)%nat -> le_at l (parent i) c).

(** [j] is the lesser child of [i] below [n], as [down] picks it. *)
Definition lesser_child (q : queue) (i j n : nat) : Prop :=
  (j = (2 * i + 2)%nat /\ (2 * i + 2 < n)%nat /\
   pqi.Less q (2 * i + 2) (2 * i + 1) = Some true) \/
  (j = (2 * i + 1)%nat /\
   ((2 * i + 2 < n)%nat -> pqi.Less q (2 * i + 2) (2 * i + 1) = Some false)).

(** The heap order but for the entry at [i], against parent and children. *)
Definition heap_hole (l : list (pqItem State F)) (i n : nat) : Prop :=
  (forall c, (0 < c < n)%nat -> c <> i -> parent c <> i -> le_at l (parent c) c) /\
  (forall c, (0 < c < n)%nat -> parent c = i -> (0 < i)%nat -> le_at l (parent i) c).
End QueueSpec.

(** A well-formed queue of float64 keys: the index map is consistent
    with the array, the array is a heap, and no key holds a NaN. *)
Definition wf_queue {State : Type} `{Countable State}
    (q : priorityQueue State spec_float) : Prop :=
  index_ok q /\ heap_ok q /\ all_ok key_ok (items q).

(** A host whose distances and costs are float64 that are not negative. *)
Definition data_nn {State : Type} (d : Data State spec_float) : Prop :=
  (forall a b, float_nn (Dist d a b)) /\ (forall a b, float_nn (Cost d a b)).

(** A well-formed planner on float64: its queue is well formed, and every
    g, every rhs and km are float64 that are not negative. *)
Definition planner_wf {State : Type} `{Countable State}
    (p : Planner State spec_float) : Prop :=
  wf_queue (u p) /\
  (forall v, float_nn (get (g p) v)) /\
  (forall v, float_nn (get (rhs p) v)) /\
  float_nn (km p).


(** ** Concrete inputs of the examples *)

(** The float64 of a small integer. *)
Definition fl (z : Z) : spec_float := IEEE.of_Z z.

(** States are numbered; [Equals] is [==] on the numbers. *)
Definition nat_equals (a b : nat) : bool := bool_decide (a = b).

(** A queue of two states: 1 under key(1, 1) and 3 under key(3, 0). *)
Definition queue13 : priorityQueue nat spec_float :=
  PriorityQueue {[1%nat := 0%nat; 3%nat := 1%nat]}
    [PqItem 1%nat (Key (fl 1) (fl 1)); PqItem 3%nat (Key (fl 3) (fl 0))].

Section PlannerSpec.
Context {State : Type} `{Countable State} {F : Type}.

(** The fields other than the queue: [updateVertex] only touches [u]. *)
Definition same_fields (p p' : Planner State F) : Prop :=
  start p' = start p /\ goal p' = goal p /\ km p' = km p /\
  rhs p' = rhs p /\ g p' = g p.

(** [start], [goal] and [km] are kept. *)
Definition same_ends (p p' : Planner State F) : Prop :=
  start p' = start p /\ goal p' = goal p /\ km p' = km p.

(** The goal and its rhs are those of before. *)
Definition keeps_goal (p p' : Planner State F) : Prop :=
  goal p' = goal p /\ rhs p' !! goal p = rhs p !! goal p.

End PlannerSpec.

(** Every state of [l] but the first is a successor of the one before. *)
Fixpoint chain {State F : Type} (d : Data State F) (l : list State) : Prop :=
  match l with
  | a :: l' =>
      match l' with
      | b :: _ => b ∈ Succ d a /\ chain d l'
      | [] => True
      end
  | [] => True
  end.

(** *** The life of a planner *)

(** The calls a client makes on a planner after [New]. *)
Inductive call (State F : Type) : Type :=
  | CallFlagChanged (x v : State) (cOld cNew : F)
  | CallUpdateStart (s : State)
  | CallPlan (fuel : nat).
Arguments CallFlagChanged {State F} x v cOld cNew.
Arguments CallUpdateStart {State F} s.
Arguments CallPlan {State F} fuel.

Section PlannerLife.
Context {State : Type} `{Countable State} {F : Type} `{Float64 F}.
Variable Equals : State -> State -> bool.
Variable d : Data State F.

Definition run_call (p : Planner State F) (c : call State F) : res (Planner State F) :=
  match c with
  | CallFlagChanged x v cOld cNew => FlagChanged Equals d p x v cOld cNew
  | CallUpdateStart s => Returns (UpdateStart d p s)
  | CallPlan fuel => r ← Plan Equals d fuel p; Returns (snd r)
  end.

Fixpoint run_calls (p : Planner State F) (cs : list (call State F)) : res (Planner State F) :=
  match cs with
  | [] => Returns p
  | c :: cs' => p' ← run_call p c; run_calls p' cs'
  end.

End PlannerLife.

(** The costs that a call hands to the planner are not negative. *)
Definition call_nn {State : Type} (c : call State spec_float) : Prop :=
  match c with
  | CallFlagChanged _ _ _ cNew => float_nn cNew
  | _ => True
  end.

(** *** Predicates on exact numbers *)

(** A cost: an integer that is not negative, or +Inf. *)
Definition nn (x : xnum) : Prop :=
  match x with
  | XFin z => 0 <= z
  | XPInf => True
  | _ => False
  end.

(** A cost above zero. *)
Definition pos_cost (x : xnum) : Prop :=
  match x with
  | XFin z => 0 < z
  | XPInf => True
  | _ => False
  end.

(** A key of two costs. *)
Definition xkey_ok (k : key xnum) : Prop := nn (A k) /\ nn (B k).

(** *** Costs on a grid of float64

    The costs of a path add up without rounding when the costs of the
    host are multiples [z * 2^sc] of one power of 2 and the sums stay
    below [2^53 * 2^sc].  An exact number [z] then stands for the float64
    [z * 2^sc], and the exact instance of the code computes, in units of
    [2^sc], what the float64 instance computes. *)

(** The float64 nearest to [z * 2^sc]. *)
Definition gridf (sc z : Z) : spec_float :=
  binary_normalize IEEE.prec IEEE.emax z sc false.

Definition of_exact (sc : Z) (x : xnum) : spec_float :=
  match x with
  | XFin z => gridf sc z
  | XPInf => S754_infinity false
  | XNInf => S754_infinity true
  | XNaN => S754_nan
  end.

(** A cost of at most [b] units, or +Inf. *)
Definition below (b : Z) (x : xnum) : Prop :=
  match x with
  | XFin z => 0 <= z <= b
  | XPInf => True
  | _ => False
  end.

(** The scales at which every [z * 2^sc] with [0 <= z < 2^53] is a
    float64. *)
Definition scale_ok (sc : Z) : Prop := -1074 <= sc <= 971.

(** A key whose components are float64 on the grid. *)
Definition key_below (k : key xnum) : Prop :=
  below (2 ^ 53 - 1) (A k) /\ below (2 ^ 53 - 1) (B k).

Definition res_map {X Y : Type} (f : X -> Y) (r : res X) : res Y :=
  match r with
  | Returns x => Returns (f x)
  | Panics => Panics
  | Diverges => Diverges
  end.

Section Grid.
Context {State : Type} `{Countable State}.
Variable sc : Z.

Definition grid_key (k : key xnum) : key spec_float :=
  Key (of_exact sc (A k)) (of_exact sc (B k)).

Definition grid_item (it : pqItem State xnum) : pqItem State spec_float :=
  PqItem (item_s it) (grid_key (item_k it)).

Definition grid_queue (q : priorityQueue State xnum) : priorityQueue State spec_float :=
  PriorityQueue (lookups q) (grid_item <$> items q).

Definition grid_planner (p : Planner State xnum) : Planner State spec_float :=
  Build_Planner (start p) (goal p) (of_exact sc <$> rhs p) (of_exact sc <$> g p)
                (grid_queue (u p)) (of_exact sc (km p)).

(** The float64 host whose costs and distances are those of [d], in
    units of [2^sc]. *)
Definition grid_host (d : Data State xnum) : Data State spec_float := {|
  Succ := Succ d;
  Pred := Pred d;
  Dist := fun a b => of_exact sc (Dist d a b);
  Cost := fun a b => of_exact sc (Cost d a b)
|}.
End Grid.

(** *** Shortest paths on a static graph *)

(** The calls under which the graph does not change. *)
Definition static_call {State F : Type} (c : call State F) : Prop :=
  match c with
  | CallFlagChanged _ _ _ _ => False
  | _ => True
  end.

(** What the moves of the start among the calls [cs] add to [km]: the
    sum of [Dist(old start, new start)], in units of the grid. *)
Fixpoint travel {State F : Type} (d : Data State xnum) (s : State)
    (cs : list (call State F)) : xnum :=
  match cs with
  | [] => XFin 0
  | CallUpdateStart s' :: cs' => f_add (Dist d s s') (travel d s' cs')
  | _ :: cs' => travel d s cs'
  end.

(** The sums of the planner stay on the grid: an edge costs at most [C]
    units, the heuristic is at most [Hh] units, and with [km] at most [K]
    units no key of a graph of [n] states reaches [2^53] units. *)
Definition on_grid {State : Type} (d : Data State xnum) (n : nat) (C Hh K : Z) : Prop :=
  0 <= C /\ 0 <= K /\
  (forall a b, b ∈ Succ d a -> below C (Cost d a b)) /\
  (forall a v, below Hh (Dist d a v)) /\
  C * (Z.of_nat n + 1) + Hh + K <= 2 ^ 53 - 1.

(** A planner whose numbers leave the sums of the code on the grid. *)
Definition tame {State : Type} `{Countable State} (Bg Br K : Z)
    (p : Planner State xnum) : Prop :=
  all_ok key_below (items (u p)) /\
  (forall v, below Bg (get (g p) v)) /\
  (forall v, below Br (get (rhs p) v)) /\
  below K (km p).

Section StaticGraph.
Context {State : Type} `{Countable State}.
Variable Equals : State -> State -> bool.
Variable d : Data State xnum.
Variable t : State.                         (* the goal *)
Variable V : gset State.                    (* the states of the graph *)
Variable C : Z.                             (* the bound of the finite edge costs *)
Variable K : Z.                             (* the bound of km *)

(** [route v l c]: [l] lists the states of a path from [v] to the goal
    along successor edges, and [c] is the sum of its edge costs. *)
Inductive route : State -> list State -> xnum -> Prop :=
  | route_stop : route t [t] (XFin 0)
  | route_step (v w : State) (l : list State) (c : xnum) :
      w ∈ Succ d v -> route w l c -> route v (v :: l) (f_add (Cost d v w) c).

(** [x] is the cost of a shortest path from [v] to the goal: no path
    costs less, and [x] is +Inf or the cost of a path. *)
Definition shortest (v : State) (x : xnum) : Prop :=
  (forall l c, route v l c -> f_leb x c = true) /\
  (x = XPInf \/ exists l, route v l x).

(** The assumptions on the host: [Equals] is equality; the graph is
    finite (the goal is in [V], and [V] has the predecessors of its
    states); [Pred] and [Succ] describe the same edges; edge costs are not
    negative; the heuristic [Dist] is finite and not negative, and it is
    consistent: along an edge it grows by at most the cost of the edge, and
    it satisfies the triangle inequality. *)
Definition static_graph : Prop :=
  (forall a b, Equals a b = true <-> a = b) /\
  t ∈ V /\
  (forall v p, v ∈ V -> p ∈ Pred d v -> p ∈ V) /\
  (forall a b, a ∈ Pred d b <-> b ∈ Succ d a) /\
  (forall a b, b ∈ Succ d a -> nn (Cost d a b)) /\
  (forall a v, exists z, 0 <= z /\ Dist d a v = XFin z) /\
  (forall s a b, b ∈ Succ d a ->
     f_leb (Dist d s b) (f_add (Dist d s a) (Cost d a b)) = true) /\
  (forall a b v, f_leb (Dist d a v) (f_add (Dist d a b) (Dist d b v)) = true).

(** The state of the planner while the graph does not change, and while
    the predecessors [rest] of the state [x] being expanded still wait
    for their update ([rest] is empty between iterations):
    - km is a cost of at most [K], and the queue is well formed, with
      keys on the grid;
    - rhs is 0 at the goal and elsewhere the least of cost + g over the
      successors (but for the part of [x] in the rhs of [rest]);
    - a state with a finite g is consistent, and its g is the cost of a
      route and of no route more than the cost; it is at most [C] times
      the number of states that have a g, and no rhs is more than [C]
      above that;
    - g is stored only when finite, and only for states of [V]. *)
Definition static_core (x : State) (rest : list State) (p : Planner State xnum) : Prop :=
  (goal p = t /\ exists k, 0 <= k <= K /\ km p = XFin k) /\
  queue_inv key_below (u p) /\
  (forall v, below (C * Z.of_nat (size (dom (g p)))) (get (g p) v) /\
             below (C * (Z.of_nat (size (dom (g p))) + 1)) (get (rhs p) v)) /\
  get (rhs p) t = XFin 0 /\
  (forall v w, v <> t -> w ∈ Succ d v ->
     (w = x /\ v ∈ rest) \/
     f_leb (get (rhs p) v) (f_add (Cost d v w) (get (g p) w)) = true) /\
  (forall v, v <> t -> get (rhs p) v = XPInf \/
     exists w, w ∈ Succ d v /\ get (rhs p) v = f_add (Cost d v w) (get (g p) w)) /\
  (forall v, get (g p) v = XPInf \/ get (g p) v = get (rhs p) v) /\
  (forall v, get (g p) v <> XPInf -> exists l, route v l (get (g p) v)) /\
  (forall v l c, get (g p) v <> XPInf -> route v l c -> f_leb (get (g p) v) c = true) /\
  (forall v, get (rhs p) v <> XPInf -> v ∈ V) /\
  (forall v y, g p !! v = Some y -> y <> XPInf).

(** The key under which [v] belongs in the queue, if it does. *)
Definition queue_key (p : Planner State xnum) (v : State) : option (key xnum) :=
  if f_eqb (get (g p) v) (get (rhs p) v) then None else Some (calcKey d p v).

(** The entry [o] of [v] in the queue is as it should be: the key that
    [calcKey] gives now, or, for the states of [S], whose keys date from
    before a move of the start, a key with the same second component and
    a first component that is not above the one [calcKey] gives now. *)
Definition stored_ok (S : gset State) (p : Planner State xnum) (v : State)
    (o : option (key xnum)) : Prop :=
  if decide (v ∈ S) then
    exists k, o = Some k /\ f_eqb (get (g p) v) (get (rhs p) v) = false /\
      B k = B (calcKey d p v) /\ f_leb (A k) (A (calcKey d p v)) = true
  else o = queue_key p v.

(** The queue holds exactly the states with g <> rhs, each under its
    key. *)
Definition static_run (x : State) (rest : list State) (S : gset State)
    (p : Planner State xnum) : Prop :=
  static_core x rest p /\ forall v, stored_ok S p v (key_of (u p) v).
End StaticGraph.



(** The line 0 - 1 - 2 - 3 with unit costs in both directions, in exact
    arithmetic; the heuristic is the distance along the line. *)
Definition line4 : Data nat xnum := {|
  Succ := fun s =>
    match s with
    | 0 => [1] | 1 => [0; 2] | 2 => [1; 3] | 3 => [2] | _ => []
    end%nat;
  Pred := fun s =>
    match s with
    | 0 => [1] | 1 => [0; 2] | 2 => [1; 3] | 3 => [2] | _ => []
    end%nat;
  Dist := fun a b => XFin (Z.abs (Z.of_nat b - Z.of_nat a));
  Cost := fun _ _ => XFin 1
|}.

Definition line4_states : gset nat := {[0%nat; 1%nat; 2%nat; 3%nat]}.

(** One edge 0 -> 1 of cost 1, on float64; the heuristic is 0 from a
    state to itself and 1 otherwise. *)
Definition pair64 : Data nat spec_float := {|
  Succ := fun s => match s with 0%nat => [1%nat] | _ => [] end;
  Pred := fun s => match s with 1%nat => [0%nat] | _ => [] end;
  Dist := fun a b => if nat_equals a b then S754_zero false else fl 1;
  Cost := fun _ _ => fl 1
|}.

(** A planner over [pair64] whose queue is [queue13]: state 3 is queued
    with g(3) = rhs(3) = 0. *)
Definition planner13 : Planner nat spec_float :=
  Build_Planner 0%nat 3%nat {[3%nat := fl 0]} {[3%nat := fl 0]} queue13 (fl 0).

(** A host that contradicts itself, on float64: [Pred] lists the edge
    0 -> 1 (of cost 1) and [Succ] does not.  The heuristic is 0. *)
Definition broken64 : Data nat spec_float := {|
  Succ := fun _ => [];
  Pred := fun s => match s with 1%nat => [0%nat] | _ => [] end;
  Dist := fun _ _ => S754_zero false;
  Cost := fun _ _ => fl 1
|}.

(** A cycle of cost 0 on float64: 0 -> 1 of cost 1, 1 <-> 2 of cost 0,
    2 -> 3 of cost 1; the successors of 2 are listed 1 first.  The
    heuristic is 0 everywhere. *)
Definition cycle64 : Data nat spec_float := {|
  Succ := fun s =>
    match s with
    | 0 => [1] | 1 => [2] | 2 => [1; 3] | _ => []
    end%nat;
  Pred := fun s =>
    match s with
    | 1 => [0; 2] | 2 => [1] | 3 => [2] | _ => []
    end%nat;
  Dist := fun _ _ => S754_zero false;
  Cost := fun a b =>
    match a, b with
    | 1, 2 | 2, 1 => S754_zero false
    | _, _ => fl 1
    end%nat
|}.

(** The planner that [New] returns for [cycle64] from 0 to 3. *)
Definition cycle64_new : Planner nat spec_float :=
  Eval vm_compute in
    match New cycle64 0%nat 3%nat with
    | Returns p => p
    | _ => Build_Planner 0%nat 0%nat ∅ ∅ pq.newPriorityQueue (S754_zero false)
    end.

(** The same planner after [computeShortestPath]. *)
Definition cycle64_repaired : Planner nat spec_float :=
  Eval vm_compute in
    match computeShortestPath nat_equals cycle64 10 cycle64_new with
    | Returns p => p
    | _ => cycle64_new
    end.

(** The line 0 - 1 - 2 - 3 with unit costs in both directions, in units
    of the grid; the heuristic is the distance along the line, the
    states beyond 3 counting as 3. *)
Definition line4g : Data nat xnum := {|
  Succ := Succ line4;
  Pred := Pred line4;
  Dist := fun a b => XFin (Z.abs (Z.of_nat (b `min` 3) - Z.of_nat (a `min` 3)));
  Cost := fun _ _ => XFin 1
|}.

(** Two ways from 0 to 4: the edges 0 -> 1 -> 2 -> 3 of cost 1 and
    3 -> 4 of cost 2^53, and the edge 0 -> 4 of cost 2^53 + 2.  The
    heuristic is 0. *)
Definition big5 : Data nat xnum := {|
  Succ := fun s =>
    match s with
    | 0 => [1; 4] | 1 => [2] | 2 => [3] | 3 => [4] | _ => []
    end%nat;
  Pred := fun s =>
    match s with
    | 1 => [0] | 2 => [1] | 3 => [2] | 4 => [3; 0] | _ => []
    end%nat;
  Dist := fun _ _ => XFin 0;
  Cost := fun a b =>
    match a, b with
    | 3, 4 => XFin (2 ^ 53)
    | 0, 4 => XFin (2 ^ 53 + 2)
    | _, _ => XFin 1
    end%nat
|}.

Definition big5_states : gset nat := {[0%nat; 1%nat; 2%nat; 3%nat; 4%nat]}.

(** A cycle of cost 2 before an edge of cost 2^53: 0 -> 1 of cost 1,
    1 <-> 2 of cost 1, 2 -> 3 of cost 2^53; the successors of 2 are listed
    1 first.  The heuristic is 0. *)
Definition round4 : Data nat xnum := {|
  Succ := fun s =>
    match s with
    | 0 => [1] | 1 => [2] | 2 => [1; 3] | _ => []
    end%nat;
  Pred := fun s =>
    match s with
    | 1 => [0; 2] | 2 => [1] | 3 => [2] | _ => []
    end%nat;
  Dist := fun _ _ => XFin 0;
  Cost := fun a b =>
    match a, b with
    | 2, 3 => XFin (2 ^ 53)
    | _, _ => XFin 1
    end%nat
|}.

(** The planner that [New] returns for [round4] in float64, from 0 to 3. *)
Definition round4_new : Planner nat spec_float :=
  Eval vm_compute in
    match New (grid_host 0 round4) 0%nat 3%nat with
    | Returns p => p
    | _ => Build_Planner 0%nat 0%nat ∅ ∅ pq.newPriorityQueue (S754_zero false)
    end.

(** The same planner after [computeShortestPath]. *)
Definition round4_repaired : Planner nat spec_float :=
  Eval vm_compute in
    match computeShortestPath nat_equals (grid_host 0 round4) 10 round4_new with
    | Returns p => p
    | _ => round4_new
    end.

(** A detour: 0 -> 1 of cost 1, 1 <-> 2 of cost 1, 2 -> 3 of cost 5; the
    successors of 2 are listed 1 first.  The heuristic is 0. *)
Definition detour4 : Data nat xnum := {|
  Succ := Succ round4;
  Pred := Pred round4;
  Dist := fun _ _ => XFin 0;
  Cost := fun a b =>
    match a, b with
    | 2, 3 => XFin 5
    | _, _ => XFin 1
    end%nat
|}.

(** The planner for [detour4] in float64, from 0 to 3, after [Plan] and
    a call of [FlagChanged] that reports a cost of 1 from 1 to 3, where
    the host has no edge. *)
Definition detour4_flagged : Planner nat spec_float :=
  Eval vm_compute in
    match (p0 ← New (grid_host 0 detour4) 0%nat 3%nat;
           run_calls nat_equals (grid_host 0 detour4) p0
             [CallPlan 10; CallFlagChanged 1%nat 3%nat (fl 9) (fl 1)]) with
    | Returns p => p
    | _ => Build_Planner 0%nat 0%nat ∅ ∅ pq.newPriorityQueue (S754_zero false)
    end.

(** The same planner after [computeShortestPath]. *)
Definition detour4_repaired : Planner nat spec_float :=
  Eval vm_compute in
    match computeShortestPath nat_equals (grid_host 0 detour4) 10 detour4_flagged with
    | Returns p => p
    | _ => detour4_flagged
    end.


(** * Properties *)

(** ** The order on keys *)

Section Float64Order.

(** On floats that are not NaN, [SFcompare] is the lexicographic order on
    [rank]. *)
Lemma SFcompare_rank (x y : spec_float) :
  IEEE.is_nan x = false -> IEEE.is_nan y = false ->
  SFcompare x y = Some (lex3 (IEEE.rank x) (IEEE.rank y)).
Proof.
  intros Hx Hy.
  destruct x as [sx|sx| |sx mx ex], y as [sy|sy| |sy my ey];
    try discriminate; try destruct sx; try destruct sy; try reflexivity;
    cbn [SFcompare IEEE.rank lex3].
  (* both negative: exponent and mantissa are compared in reverse *)
    rewrite Pos.compare_cont_spec, Z.compare_opp. cbn [Pos.switch_Eq Z.opp].
    change (-1 ?= -1) with Eq. cbn [Z.compare].
    rewrite (Z.compare_antisym ex ey).
    destruct (ex ?= ey), (mx ?= my)%positive; reflexivity.
Qed.

Lemma lex3_Lt (a b : Z * Z * Z) : lex3 a b = Lt <-> lt3 a b.
Proof.
  destruct a as [[a1 a2] a3], b as [[b1 b2] b3]. unfold lex3, lt3.
  destruct (Z.compare_spec a1 b1), (Z.compare_spec a2 b2), (Z.compare_spec a3 b3);
    split; intros; try discriminate; try reflexivity; lia.
Qed.

Lemma lex3_Eq (a b : Z * Z * Z) : lex3 a b = Eq <-> a = b.
Proof.
  destruct a as [[a1 a2] a3], b as [[b1 b2] b3]. unfold lex3.
  destruct (Z.compare_spec a1 b1), (Z.compare_spec a2 b2), (Z.compare_spec a3 b3);
    split; intros E; try discriminate; try reflexivity;
    try (inversion E; lia); subst; reflexivity.
Qed.

Lemma lex3_Gt (a b : Z * Z * Z) : lex3 a b = Gt <-> lt3 b a.
Proof.
  destruct a as [[a1 a2] a3], b as [[b1 b2] b3]. unfold lex3, lt3.
  destruct (Z.compare_spec a1 b1), (Z.compare_spec a2 b2), (Z.compare_spec a3 b3);
    split; intros; try discriminate; try reflexivity; lia.
Qed.

Lemma ltb_rank (x y : spec_float) :
  IEEE.is_nan x = false -> IEEE.is_nan y = false ->
  (IEEE.ltb x y = true <-> lt3 (IEEE.rank x) (IEEE.rank y)).
Proof.
  intros Hx Hy. unfold IEEE.ltb, SFltb. rewrite SFcompare_rank by assumption.
  rewrite <- lex3_Lt. destruct (lex3 _ _); split; congruence.
Qed.

Lemma eqb_rank (x y : spec_float) :
  IEEE.is_nan x = false -> IEEE.is_nan y = false ->
  (IEEE.eqb x y = true <-> IEEE.rank x = IEEE.rank y).
Proof.
  intros Hx Hy. unfold IEEE.eqb, SFeqb. rewrite SFcompare_rank by assumption.
  rewrite <- lex3_Eq. destruct (lex3 _ _); split; congruence.
Qed.

Lemma lt3_cases (a b : Z * Z * Z) : lt3 a b \/ a = b \/ lt3 b a.
Proof.
  destruct a as [[a1 a2] a3], b as [[b1 b2] b3]. unfold lt3.
  destruct (Z.lt_trichotomy a1 b1) as [?|[?|?]],
           (Z.lt_trichotomy a2 b2) as [?|[?|?]],
           (Z.lt_trichotomy a3 b3) as [?|[?|?]]; subst; auto; lia.
Qed.

Lemma lt3_irrefl (a : Z * Z * Z) : ~ lt3 a a.
Proof. destruct a as [[a1 a2] a3]. unfold lt3. lia. Qed.

Lemma lt3_trans (a b c : Z * Z * Z) : lt3 a b -> lt3 b c -> lt3 a c.
Proof.
  destruct a as [[a1 a2] a3], b as [[b1 b2] b3], c as [[c1 c2] c3].
  unfold lt3. lia.
Qed.

Lemma ltb_rank_false (x y : spec_float) :
  IEEE.is_nan x = false -> IEEE.is_nan y = false ->
  (IEEE.ltb x y = false <-> ~ lt3 (IEEE.rank x) (IEEE.rank y)).
Proof.
  intros Hx Hy. rewrite <- (ltb_rank x y Hx Hy).
  destruct (IEEE.ltb x y); split; congruence.
Qed.

(** Turns every float comparison of the context into a fact on ranks. *)
Ltac ranks :=
  repeat match goal with
  | E : IEEE.ltb _ _ = true |- _ => apply ltb_rank in E; [|assumption..]
  | E : IEEE.ltb _ _ = false |- _ => apply ltb_rank_false in E; [|assumption..]
  end.

Ltac triples :=
  repeat match goal with
  | |- context [IEEE.rank ?x] =>
      let r := fresh "r" in
      generalize dependent (IEEE.rank x); intros [[? ?] ?]
  end.

Lemma compare_cases (a b : key spec_float) :
  key_ok a -> key_ok b ->
  (compare a b = -1 /\ key_lt a b) \/
  (compare a b = 0 /\ key_eq a b) \/
  (compare a b = 1 /\ key_lt b a).
Proof.
  intros [Ha1 Ha2] [Hb1 Hb2]. unfold compare, f_gtb, key_lt, key_eq. cbn [f_ltb ieee].
  destruct (IEEE.ltb (A a) (A b)) eqn:E1; [ranks; tauto|].
  destruct (IEEE.ltb (A b) (A a)) eqn:E2; [ranks; tauto|].
  assert (IEEE.rank (A a) = IEEE.rank (A b)) as EA.
  { ranks. destruct (lt3_cases (IEEE.rank (A a)) (IEEE.rank (A b))) as [?|[?|?]]; tauto. }
  destruct (IEEE.ltb (B a) (B b)) eqn:E3; [ranks; tauto|].
  destruct (IEEE.ltb (B b) (B a)) eqn:E4; [ranks; right; right; split; auto|].
  right; left. split; [reflexivity|]. split; [assumption|].
  ranks. destruct (lt3_cases (IEEE.rank (B a)) (IEEE.rank (B b))) as [?|[?|?]]; tauto.
Qed.

Lemma key_lt_irrefl (a : key spec_float) : ~ key_lt a a.
Proof. unfold key_lt. intros [H|[_ H]]; eapply lt3_irrefl; eassumption. Qed.

Lemma key_lt_trans (a b c : key spec_float) : key_lt a b -> key_lt b c -> key_lt a c.
Proof.
  unfold key_lt. intros [H1|[E1 H1]] [H2|[E2 H2]].
  - left. eapply lt3_trans; eassumption.
  - left. rewrite <- E2. assumption.
  - left. rewrite E1. assumption.
  - right. split; [congruence|]. eapply lt3_trans; eassumption.
Qed.

Lemma key_lt_not_eq (a b : key spec_float) : key_lt a b -> ~ key_eq a b.
Proof.
  unfold key_lt, key_eq. intros [H|[_ H]] [E1 E2].
  - rewrite E1 in H. eapply lt3_irrefl; eassumption.
  - rewrite E2 in H. eapply lt3_irrefl; eassumption.
Qed.

Lemma key_lt_asym (a b : key spec_float) : key_lt a b -> ~ key_lt b a.
Proof. intros H1 H2. exact (key_lt_irrefl a (key_lt_trans a b a H1 H2)). Qed.

Lemma key_eq_sym (a b : key spec_float) : key_eq a b -> key_eq b a.
Proof. unfold key_eq. intros [-> ->]. split; reflexivity. Qed.

(** [compare] decides the order: each result stands for one case. *)
Lemma compare_lt_iff (a b : key spec_float) :
  key_ok a -> key_ok b -> (compare a b = -1 <-> key_lt a b).
Proof.
  intros Ha Hb. destruct (compare_cases a b Ha Hb) as [[E H]|[[E H]|[E H]]];
    rewrite E; split; intros; try discriminate; try assumption; try reflexivity; exfalso.
  - eapply key_lt_not_eq; eassumption.
  - eapply key_lt_asym; eassumption.
Qed.

Lemma compare_eq_iff (a b : key spec_float) :
  key_ok a -> key_ok b -> (compare a b = 0 <-> key_eq a b).
Proof.
  intros Ha Hb. destruct (compare_cases a b Ha Hb) as [[E H]|[[E H]|[E H]]];
    rewrite E; split; intros; try discriminate; try assumption; try reflexivity; exfalso.
  - eapply key_lt_not_eq; eassumption.
  - eapply key_lt_not_eq; [eassumption|]. apply key_eq_sym. assumption.
Qed.

Lemma compare_gt_iff (a b : key spec_float) :
  key_ok a -> key_ok b -> (compare a b = 1 <-> key_lt b a).
Proof.
  intros Ha Hb. destruct (compare_cases a b Ha Hb) as [[E H]|[[E H]|[E H]]];
    rewrite E; split; intros; try discriminate; try assumption; try reflexivity; exfalso.
  - eapply key_lt_asym; eassumption.
  - eapply key_lt_not_eq; [eassumption|]. apply key_eq_sym. assumption.
Qed.

Lemma key_lt_spec (a b : key spec_float) :
  key_ok a -> key_ok b ->
  (key_lt a b <->
   f_ltb (A a) (A b) = true \/ (f_eqb (A a) (A b) = true /\ f_ltb (B a) (B b) = true)).
Proof.
  intros [Ha1 Ha2] [Hb1 Hb2]. unfold key_lt. cbn [f_ltb f_eqb ieee].
  rewrite !ltb_rank, eqb_rank by assumption. reflexivity.
Qed.

Lemma key_eq_spec (a b : key spec_float) :
  key_ok a -> key_ok b ->
  (key_eq a b <-> f_eqb (A a) (A b) = true /\ f_eqb (B a) (B b) = true).
Proof.
  intros [Ha1 Ha2] [Hb1 Hb2]. unfold key_eq. cbn [f_eqb ieee].
  rewrite !eqb_rank by assumption. reflexivity.
Qed.

(** C4.  On keys without NaN, [compare] is a strict total order taken
    lexicographically, first on A and then on B: of a<b, a=b and b<a
    (results -1, 0 and 1) exactly one holds, b<a is a>b, a<b is
    transitive, a<b says [a.A < b.A || a.A == b.A && a.B < b.B], and the
    result is 0 exactly when both components are equal ([==]). *)
Theorem compare_strict_total_order (a b c : key spec_float) :
  key_ok a -> key_ok b -> key_ok c ->
  ((compare a b = -1 /\ compare a b <> 0 /\ compare b a <> -1) \/
   (compare a b <> -1 /\ compare a b = 0 /\ compare b a <> -1) \/
   (compare a b <> -1 /\ compare a b <> 0 /\ compare b a = -1)) /\
  (compare a b = 1 <-> compare b a = -1) /\
  (compare a b = -1 -> compare b c = -1 -> compare a c = -1) /\
  (compare a b = -1 <->
   f_ltb (A a) (A b) = true \/ (f_eqb (A a) (A b) = true /\ f_ltb (B a) (B b) = true)) /\
  (compare a b = 0 <-> f_eqb (A a) (A b) = true /\ f_eqb (B a) (B b) = true).
Proof.
  intros Ha Hb Hc.
  pose proof (compare_lt_iff a b Ha Hb) as Lab.
  pose proof (compare_lt_iff b a Hb Ha) as Lba.
  pose proof (compare_lt_iff b c Hb Hc) as Lbc.
  pose proof (compare_lt_iff a c Ha Hc) as Lac.
  pose proof (compare_eq_iff a b Ha Hb) as Eab.
  pose proof (compare_gt_iff a b Ha Hb) as Gab.
  pose proof (key_lt_spec a b Ha Hb) as Sl.
  pose proof (key_eq_spec a b Ha Hb) as Se.
  split; [|split; [|split; [|split]]].
  - destruct (compare_cases a b Ha Hb) as [[E H]|[[E H]|[E H]]]; rewrite E.
    + left. repeat split; try discriminate.
      intros H'. apply Lba in H'. exact (key_lt_asym _ _ H H').
    + right; left. repeat split; try discriminate.
      intros H'. apply Lba in H'.
      exact (key_lt_not_eq _ _ H' (key_eq_sym _ _ H)).
    + right; right. repeat split; try discriminate. apply Lba. assumption.
  - tauto.
  - intros H1 H2. apply Lac. apply (key_lt_trans a b c); tauto.
  - tauto.
  - tauto.
Qed.

(** The theorem at key(1, 2), key(1, +Inf) and key(3, 0): the first is
    below the second, which is below the third. *)
Lemma compare_strict_total_order_witness :
  (key_ok (Key (IEEE.of_Z 1) (IEEE.of_Z 2)) /\
   key_ok (Key (IEEE.of_Z 1) (S754_infinity false)) /\
   key_ok (Key (IEEE.of_Z 3) (S754_zero false))) /\
  compare (Key (IEEE.of_Z 1) (IEEE.of_Z 2)) (Key (IEEE.of_Z 1) (S754_infinity false)) = -1 /\
  compare (Key (IEEE.of_Z 1) (S754_infinity false)) (Key (IEEE.of_Z 3) (S754_zero false)) = -1 /\
  compare (Key (IEEE.of_Z 1) (IEEE.of_Z 2)) (Key (IEEE.of_Z 3) (S754_zero false)) = -1.
Proof.
  assert (key_ok (Key (IEEE.of_Z 1) (IEEE.of_Z 2))) as H1 by (split; reflexivity).
  assert (key_ok (Key (IEEE.of_Z 1) (S754_infinity false))) as H2 by (split; reflexivity).
  assert (key_ok (Key (IEEE.of_Z 3) (S754_zero false))) as H3 by (split; reflexivity).
  split; [auto|].
  split; [reflexivity|]. split; [reflexivity|].
  apply (proj1 (proj2 (proj2 (compare_strict_total_order _ _ _ H1 H2 H3)))); reflexivity.
Defined.

(** With a NaN in a key, [compare] answers 0 for keys that differ: NaN is
    neither below nor above any number. *)
Lemma compare_nan_not_equal :
  compare (Key S754_nan (S754_zero false)) (Key (IEEE.of_Z 1) (S754_zero false)) = 0 /\
  f_eqb (A (Key S754_nan (S754_zero false))) (A (Key (IEEE.of_Z 1) (S754_zero false))) = false.
Proof. split; reflexivity. Qed.

End Float64Order.


(** ** float64Equals on IEEE-754 binary64 *)

Section Float64Equals.

Lemma fexp_ge_emin (e : Z) : -1074 <= fexp IEEE.prec IEEE.emax e.
Proof. unfold fexp, emin, IEEE.prec, IEEE.emax. lia. Qed.

Lemma fexp_above (e : Z) :
  -1074 < fexp IEEE.prec IEEE.emax e -> fexp IEEE.prec IEEE.emax e = e - 53.
Proof. unfold fexp, emin, IEEE.prec, IEEE.emax. lia. Qed.

(** A float64 with a finite value has its exponent at or above emin. *)
Lemma valid_exponent (s : bool) (m : positive) (e : Z) :
  valid_binary IEEE.prec IEEE.emax (S754_finite s m e) = true -> -1074 <= e.
Proof.
  cbn. unfold bounded, canonical_mantissa. intros V.
  apply andb_true_iff in V as [V _]. apply Z.eqb_eq in V.
  rewrite <- V. apply fexp_ge_emin.
Qed.

Lemma valid_canonical (s : bool) (m : positive) (e : Z) :
  valid_binary IEEE.prec IEEE.emax (S754_finite s m e) = true ->
  fexp IEEE.prec IEEE.emax (Z.pos (digits2_pos m) + e) = e.
Proof.
  cbn. unfold bounded, canonical_mantissa. intros V.
  apply andb_true_iff in V as [V _]. apply Z.eqb_eq in V. exact V.
Qed.

(** Nothing finite and positive at or above emin is below 2^-1074. *)
Lemma not_below_smallest (s : bool) (m : positive) (e : Z) :
  -1074 <= e ->
  IEEE.ltb (SFabs (S754_finite s m e)) IEEE.smallest_nonzero = false.
Proof.
  intros He. unfold IEEE.ltb, SFltb, IEEE.smallest_nonzero. cbn [SFabs SFcompare].
  destruct (Z.compare_spec e (-1074)) as [E|L|G]; try lia; try reflexivity.
  rewrite Pos.compare_cont_spec. cbn [Pos.switch_Eq].
  destruct (Pos.compare_spec m 1) as [E'|L'|G']; try reflexivity. lia.
Qed.

(** *** Shifting a mantissa *)

Lemma digits2_shift (m d : positive) :
  Z.pos (digits2_pos (Pos.iter xO m d)) = Z.pos (digits2_pos m) + Z.pos d.
Proof.
  induction d as [|d IH] using Pos.peano_ind.
  - cbn. lia.
  - rewrite Pos.iter_succ. cbn [digits2_pos]. lia.
Qed.

Lemma shift_value (m d : positive) :
  Z.pos (Pos.iter xO m d) = Z.pos m * 2 ^ Z.pos d.
Proof.
  induction d as [|d IH] using Pos.peano_ind.
  - cbn. lia.
  - rewrite Pos.iter_succ, Pos2Z.inj_succ, Z.pow_succ_r by lia.
    rewrite Pos2Z.inj_xO, IH. lia.
Qed.

(** Shifting right by less than the number of digits leaves a positive
    mantissa. *)
Lemma shr_1_pos (mrs : shr_record) (m : positive) :
  shr_m mrs = Z.pos m -> 1 < Z.pos (digits2_pos m) ->
  exists m', shr_m (shr_1 mrs) = Z.pos m' /\
    Z.pos (digits2_pos m') = Z.pos (digits2_pos m) - 1.
Proof.
  destruct mrs as [mm r s]. cbn [shr_m]. intros -> Hd.
  destruct m as [m|m|]; cbn [shr_1 shr_m digits2_pos] in *.
  - exists m. split; [reflexivity|lia].
  - exists m. split; [reflexivity|lia].
  - lia.
Qed.

Lemma iter_shr_pos (p : positive) :
  forall (mrs : shr_record) (m : positive),
  shr_m mrs = Z.pos m -> Z.pos p < Z.pos (digits2_pos m) ->
  exists m', shr_m (SpecFloat.iter_pos shr_1 p mrs) = Z.pos m' /\
    Z.pos (digits2_pos m') = Z.pos (digits2_pos m) - Z.pos p.
Proof.
  induction p as [p IH|p IH|]; intros mrs m Hm Hp; cbn [SpecFloat.iter_pos].
  - destruct (shr_1_pos mrs m Hm) as (m1 & H1 & D1); [lia|].
    destruct (IH _ m1 H1) as (m2 & H2 & D2); [lia|].
    destruct (IH _ m2 H2) as (m3 & H3 & D3); [lia|].
    exists m3. split; [exact H3|lia].
  - destruct (IH _ m Hm) as (m2 & H2 & D2); [lia|].
    destruct (IH _ m2 H2) as (m3 & H3 & D3); [lia|].
    exists m3. split; [exact H3|lia].
  - destruct (shr_1_pos mrs m Hm) as (m1 & H1 & D1); [lia|].
    exists m1. split; [exact H1|lia].
Qed.

Lemma shr_record_of_loc_m (m : Z) (l : location) : shr_m (shr_record_of_loc m l) = m.
Proof. destruct l as [|[| |]]; reflexivity. Qed.

Lemma shr_fexp_pos (m : positive) (e : Z) (l : location) (mrs : shr_record) (e' : Z) :
  -1074 <= e ->
  shr_fexp IEEE.prec IEEE.emax (Z.pos m) e l = (mrs, e') ->
  -1074 <= e' /\ exists m', shr_m mrs = Z.pos m'.
Proof.
  intros He. unfold shr_fexp, shr. cbn [Zdigits2].
  pose proof (fexp_ge_emin (Z.pos (digits2_pos m) + e)) as Hf.
  destruct (fexp IEEE.prec IEEE.emax (Z.pos (digits2_pos m) + e) - e) as [|p|p] eqn:En;
    intros [= <- <-].
  - split; [exact He|]. exists m. apply shr_record_of_loc_m.
  - split; [lia|].
    assert (fexp IEEE.prec IEEE.emax (Z.pos (digits2_pos m) + e)
            = Z.pos (digits2_pos m) + e - 53) as Ef by (apply fexp_above; lia).
    destruct (iter_shr_pos p (shr_record_of_loc (Z.pos m) l) m) as (m' & Hm' & _);
      [apply shr_record_of_loc_m|lia|].
    exists m'. exact Hm'.
  - split; [exact He|]. exists m. apply shr_record_of_loc_m.
Qed.

Lemma round_nearest_even_pos (m : positive) (l : location) :
  exists m', round_nearest_even (Z.pos m) l = Z.pos m'.
Proof.
  destruct l as [|[| |]]; cbn [round_nearest_even];
    try destruct (Z.even (Z.pos m)); eexists; reflexivity.
Qed.

Lemma binary_round_aux_big (s : bool) (m : positive) (e : Z) (l : location) :
  -1074 <= e -> big_enough (binary_round_aux IEEE.prec IEEE.emax s (Z.pos m) e l).
Proof.
  intros He. unfold binary_round_aux.
  destruct (shr_fexp IEEE.prec IEEE.emax (Z.pos m) e l) as [mrs1 e1] eqn:E1.
  destruct (shr_fexp_pos m e l mrs1 e1 He E1) as (He1 & m1 & Hm1).
  rewrite Hm1.
  destruct (round_nearest_even_pos m1 (loc_of_shr_record mrs1)) as (m2 & ->).
  destruct (shr_fexp IEEE.prec IEEE.emax (Z.pos m2) e1 loc_Exact) as [mrs2 e2] eqn:E2.
  destruct (shr_fexp_pos m2 e1 loc_Exact mrs2 e2 He1 E2) as (He2 & m3 & Hm3).
  rewrite Hm3. destruct (e2 <=? IEEE.emax - IEEE.prec); cbn; [exact He2|exact I].
Qed.

Lemma binary_round_big (s : bool) (m : positive) (e : Z) :
  -1074 <= e -> big_enough (binary_round IEEE.prec IEEE.emax s m e).
Proof.
  intros He. unfold binary_round, shl_align.
  pose proof (fexp_ge_emin (Z.pos (digits2_pos m) + e)) as Hf.
  destruct (fexp IEEE.prec IEEE.emax (Z.pos (digits2_pos m) + e) - e);
    apply binary_round_aux_big; assumption.
Qed.

Lemma big_enough_not_below (x : spec_float) :
  big_enough x -> IEEE.ltb (SFabs x) IEEE.smallest_nonzero = false.
Proof.
  destruct x as [s|s| |s m e]; cbn [big_enough]; intros Hx; try contradiction.
  - reflexivity.
  - apply not_below_smallest. exact Hx.
Qed.

(** Two float64 of the same value have the same mantissa and exponent. *)
Lemma aligned_same (sx sy : bool) (mx my : positive) (ex ey : Z) :
  valid_binary IEEE.prec IEEE.emax (S754_finite sx mx ex) = true ->
  valid_binary IEEE.prec IEEE.emax (S754_finite sy my ey) = true ->
  fst (shl_align mx ex (Z.min ex ey)) = fst (shl_align my ey (Z.min ex ey)) ->
  ex = ey /\ mx = my.
Proof.
  intros Vx Vy. apply valid_canonical in Vx, Vy. unfold shl_align.
  destruct (Z.min ex ey - ex) as [|p|p] eqn:Ex; destruct (Z.min ex ey - ey) as [|q|q] eqn:Ey;
    cbn [fst]; intros E; try (exfalso; lia).
  - split; [lia|exact E].
  - exfalso. pose proof (digits2_shift my q) as D. rewrite <- E in D.
    assert (Z.pos (digits2_pos mx) + ex = Z.pos (digits2_pos my) + ey) as Es by lia.
    rewrite Es in Vx. lia.
  - exfalso. pose proof (digits2_shift mx p) as D. rewrite E in D.
    assert (Z.pos (digits2_pos mx) + ex = Z.pos (digits2_pos my) + ey) as Es by lia.
    rewrite Es in Vx. lia.
Qed.

Lemma eqb_same (s : bool) (m : positive) (e : Z) :
  IEEE.eqb (S754_finite s m e) (S754_finite s m e) = true.
Proof.
  unfold IEEE.eqb, SFeqb. cbn [SFcompare].
  rewrite Z.compare_refl, Pos.compare_cont_spec, Pos.compare_refl.
  destruct s; reflexivity.
Qed.

(** The difference of two float64 that are not [==] is no zero and not
    below 2^-1074 in magnitude. *)
Lemma sub_not_below (a b : spec_float) :
  valid_binary IEEE.prec IEEE.emax a = true ->
  valid_binary IEEE.prec IEEE.emax b = true ->
  IEEE.eqb a b = false ->
  IEEE.ltb (SFabs (IEEE.sub a b)) IEEE.smallest_nonzero = false.
Proof.
  intros Va Vb Hne.
  destruct a as [sa|sa| |sa ma ea], b as [sb|sb| |sb mb eb];
    try reflexivity; try discriminate;
    try (destruct sa, sb; try reflexivity; discriminate).
  - (* 0 - y *)
    cbn [IEEE.sub SFsub]. apply not_below_smallest. eapply valid_exponent; exact Vb.
  - (* x - 0 *)
    cbn [IEEE.sub SFsub]. apply not_below_smallest. eapply valid_exponent; exact Va.
  - (* x - y *)
    apply big_enough_not_below. unfold IEEE.sub. cbn [SFsub]. cbv zeta.
    pose proof (valid_exponent _ _ _ Va) as Hea. pose proof (valid_exponent _ _ _ Vb) as Heb.
    set (z := cond_Zopp sa (Z.pos (fst (shl_align ma ea (Z.min ea eb)))) -
              cond_Zopp sb (Z.pos (fst (shl_align mb eb (Z.min ea eb))))).
    destruct z as [|p|p] eqn:Ez; cbn [binary_normalize].
    + exfalso. subst z.
      assert (sa = sb /\ fst (shl_align ma ea (Z.min ea eb)) = fst (shl_align mb eb (Z.min ea eb)))
        as [-> E] by (destruct sa, sb; cbn [cond_Zopp] in Ez; split; try reflexivity; lia).
      destruct (aligned_same sb sb ma mb ea eb Va Vb E) as [-> ->].
      rewrite eqb_same in Hne. discriminate.
    + apply binary_round_big. lia.
    + apply binary_round_big. lia.
Qed.

(** C10.  On float64 values (NaN or not), [float64Equals(a, b)] is
    [a == b]: when [a == b] is false, the test
    [math.Abs(a-b) < math.SmallestNonzeroFloat64] is false too. *)
Theorem float64Equals_is_eq (a b : spec_float) :
  valid_binary IEEE.prec IEEE.emax a = true ->
  valid_binary IEEE.prec IEEE.emax b = true ->
  float64Equals a b = f_eqb a b /\
  (f_eqb a b = false -> f_ltb (f_abs (f_sub a b)) f_smallest_nonzero = false).
Proof.
  intros Va Vb. unfold float64Equals. cbn [f_eqb f_ltb f_abs f_sub f_smallest_nonzero ieee].
  destruct (IEEE.eqb a b) eqn:E.
  - split; [reflexivity|discriminate].
  - rewrite (sub_not_below a b Va Vb E). split; reflexivity.
Qed.

(** The theorem at 1 and the next float64 above 1: they are not [==], and
    their difference, 2^-52, is not below 2^-1074. *)
Lemma float64Equals_is_eq_witness :
  (valid_binary IEEE.prec IEEE.emax (fl 1) = true /\
   valid_binary IEEE.prec IEEE.emax (S754_finite false 4503599627370497 (-52)) = true) /\
  float64Equals (fl 1) (S754_finite false 4503599627370497 (-52)) = false /\
  f_ltb (f_abs (f_sub (fl 1) (S754_finite false 4503599627370497 (-52))))
        f_smallest_nonzero = false.
Proof.
  split; [split; reflexivity|].
  destruct (float64Equals_is_eq (fl 1) (S754_finite false 4503599627370497 (-52))
              eq_refl eq_refl) as [E1 E2].
  split; [rewrite E1; reflexivity|apply E2; reflexivity].
Defined.

End Float64Equals.



(** ** Rounding to float64 keeps the order *)

Section Rounding.

Lemma digits2_bounds (m : positive) :
  2 ^ (Z.pos (digits2_pos m) - 1) <= Z.pos m < 2 ^ Z.pos (digits2_pos m).
Proof.
  induction m as [m IH|m IH|]; cbn [digits2_pos]; [| |cbn; lia].
  - rewrite Pos2Z.inj_succ, (Pos2Z.inj_xI m).
    replace (Z.succ (Z.pos (digits2_pos m)) - 1) with (Z.succ (Z.pos (digits2_pos m) - 1)) by lia.
    rewrite !Z.pow_succ_r by lia.
    destruct IH as [IH1 IH2]. revert IH1 IH2.
    generalize (2 ^ (Z.pos (digits2_pos m) - 1)) (2 ^ Z.pos (digits2_pos m)). lia.
  - rewrite Pos2Z.inj_succ, (Pos2Z.inj_xO m).
    replace (Z.succ (Z.pos (digits2_pos m)) - 1) with (Z.succ (Z.pos (digits2_pos m) - 1)) by lia.
    rewrite !Z.pow_succ_r by lia.
    destruct IH as [IH1 IH2]. revert IH1 IH2.
    generalize (2 ^ (Z.pos (digits2_pos m) - 1)) (2 ^ Z.pos (digits2_pos m)). lia.
Qed.

(** A float is canonical when it has at most 53 digits, and exactly 53
    unless its exponent is emin. *)
Lemma canonical_digits (m : positive) (e : Z) :
  fexp IEEE.prec IEEE.emax (Z.pos (digits2_pos m) + e) = e <->
  -1074 <= e /\ Z.pos (digits2_pos m) <= 53 /\
  (e = -1074 \/ Z.pos (digits2_pos m) = 53).
Proof. unfold fexp, emin, IEEE.prec, IEEE.emax. split; lia. Qed.

Lemma fvalue_pos (m : positive) (e : Z) : -1074 <= e -> 0 < fvalue m e.
Proof. intros He. unfold fvalue. apply Z.mul_pos_pos; [lia|]. apply Z.pow_pos_nonneg; lia. Qed.

(** The value grows with the exponent among canonical floats. *)
Lemma fvalue_exponent (m1 m2 : positive) (e1 e2 : Z) :
  fexp IEEE.prec IEEE.emax (Z.pos (digits2_pos m1) + e1) = e1 ->
  fexp IEEE.prec IEEE.emax (Z.pos (digits2_pos m2) + e2) = e2 ->
  e1 < e2 -> fvalue m1 e1 < fvalue m2 e2.
Proof.
  intros C1 C2 Hlt. apply canonical_digits in C1 as (H1 & D1 & _).
  apply canonical_digits in C2 as (H2 & D2 & [E2|E2]); [lia|].
  pose proof (digits2_bounds m1) as [_ B1]. pose proof (digits2_bounds m2) as [B2 _].
  rewrite E2 in B2. change (2 ^ (53 - 1)) with (2 ^ 52) in B2.
  assert (Z.pos m1 < 2 ^ 53) as B1'.
  { eapply Z.lt_le_trans; [exact B1|]. apply Z.pow_le_mono_r; lia. }
  unfold fvalue.
  replace (e2 + 1074) with (Z.succ (e2 - 1 + 1074)) by lia.
  rewrite Z.pow_succ_r by lia.
  assert (2 ^ (e1 + 1074) <= 2 ^ (e2 - 1 + 1074)) as Hp by (apply Z.pow_le_mono_r; lia).
  assert (0 < 2 ^ (e1 + 1074)) as Hp1 by (apply Z.pow_pos_nonneg; lia).
  change (2 ^ 53) with (2 * 2 ^ 52) in B1'.
  nia.
Qed.

Lemma fvalue_mantissa (m1 m2 : positive) (e : Z) :
  -1074 <= e -> (fvalue m1 e <= fvalue m2 e <-> Z.pos m1 <= Z.pos m2).
Proof.
  intros He. unfold fvalue.
  assert (0 < 2 ^ (e + 1074)) as Hp by (apply Z.pow_pos_nonneg; lia).
  split; intros Hle; nia.
Qed.

(** Among float64 above zero, [<] is the order of the values. *)
Lemma ltb_fvalue (m1 m2 : positive) (e1 e2 : Z) :
  valid_binary IEEE.prec IEEE.emax (S754_finite false m1 e1) = true ->
  valid_binary IEEE.prec IEEE.emax (S754_finite false m2 e2) = true ->
  fvalue m1 e1 <= fvalue m2 e2 ->
  IEEE.ltb (S754_finite false m2 e2) (S754_finite false m1 e1) = false.
Proof.
  intros V1 V2 Hle.
  pose proof (valid_canonical _ _ _ V1) as C1. pose proof (valid_canonical _ _ _ V2) as C2.
  pose proof (valid_exponent _ _ _ V1) as H1.
  unfold IEEE.ltb, SFltb. cbn [SFcompare].
  destruct (Z.compare_spec e2 e1) as [E|L|G]; [| |reflexivity].
  - subst e2. rewrite Pos.compare_cont_spec. cbn [Pos.switch_Eq].
    apply fvalue_mantissa in Hle; [|exact H1].
    destruct (Pos.compare_spec m2 m1) as [?|L|?]; try reflexivity. lia.
  - pose proof (fvalue_exponent m2 m1 e2 e1 C2 C1 L). lia.
Qed.

(** *** Shifting right *)

Lemma shr_1_value (mrs : shr_record) :
  0 <= shr_m mrs -> shr_m (shr_1 mrs) = shr_m mrs / 2.
Proof.
  destruct mrs as [m r s]. cbn [shr_m]. intros Hm.
  destruct m as [|[p|p|]|p]; cbn [shr_1 shr_m]; try reflexivity; [| |lia].
  - apply (Z.div_unique _ _ _ 1); lia.
  - apply (Z.div_unique _ _ _ 0); lia.
Qed.

Lemma iter_shr_value (p : positive) :
  forall mrs : shr_record, 0 <= shr_m mrs ->
  shr_m (SpecFloat.iter_pos shr_1 p mrs) = shr_m mrs / 2 ^ Z.pos p.
Proof.
  assert (forall k, 0 < 2 ^ Z.pos k) as Hpow by (intros k; apply Z.pow_pos_nonneg; lia).
  induction p as [p IH|p IH|]; intros mrs Hm; cbn [SpecFloat.iter_pos].
  - pose proof (Hpow p) as Hp.
    assert (0 <= shr_m (shr_1 mrs)) as H1
      by (rewrite shr_1_value by exact Hm; apply Z.div_pos; lia).
    assert (0 <= shr_m (SpecFloat.iter_pos shr_1 p (shr_1 mrs))) as H2
      by (rewrite IH by exact H1; apply Z.div_pos; lia).
    rewrite IH, IH, shr_1_value by assumption.
    rewrite !Z.div_div by lia. f_equal.
    rewrite (Pos2Z.inj_xI p).
    replace (2 * Z.pos p + 1) with (1 + Z.pos p + Z.pos p) by lia.
    rewrite !Z.pow_add_r by lia. change (2 ^ 1) with 2. lia.
  - pose proof (Hpow p) as Hp.
    assert (0 <= shr_m (SpecFloat.iter_pos shr_1 p mrs)) as H2
      by (rewrite IH by exact Hm; apply Z.div_pos; lia).
    rewrite IH, IH by assumption.
    rewrite !Z.div_div by lia. f_equal.
    rewrite (Pos2Z.inj_xO p).
    replace (2 * Z.pos p) with (Z.pos p + Z.pos p) by lia.
    rewrite !Z.pow_add_r by lia. reflexivity.
  - rewrite shr_1_value by exact Hm. reflexivity.
Qed.

(** [shr_fexp] on a mantissa whose exponent is not above the canonical
    one: the mantissa is divided by a power of 2, and the float that
    comes out is canonical. *)
Lemma shr_fexp_floor (m : positive) (e : Z) (l : location) (mrs : shr_record) (e' : Z) :
  -1074 <= e ->
  e <= fexp IEEE.prec IEEE.emax (Z.pos (digits2_pos m) + e) ->
  shr_fexp IEEE.prec IEEE.emax (Z.pos m) e l = (mrs, e') ->
  exists m', shr_m mrs = Z.pos m' /\ e <= e' /\
    fexp IEEE.prec IEEE.emax (Z.pos (digits2_pos m') + e') = e' /\
    Z.pos m' = Z.pos m / 2 ^ (e' - e).
Proof.
  intros He Hf. unfold shr_fexp, shr. cbn [Zdigits2].
  destruct (fexp IEEE.prec IEEE.emax (Z.pos (digits2_pos m) + e) - e) as [|p|p] eqn:En;
    intros [= <- <-]; [| |lia].
  - exists m. rewrite shr_record_of_loc_m. split; [reflexivity|]. split; [lia|].
    split; [lia|]. rewrite Z.sub_diag. change (2 ^ 0) with 1. rewrite Z.div_1_r. reflexivity.
  - assert (fexp IEEE.prec IEEE.emax (Z.pos (digits2_pos m) + e)
            = Z.pos (digits2_pos m) + e - 53) as Ef by (apply fexp_above; lia).
    destruct (iter_shr_pos p (shr_record_of_loc (Z.pos m) l) m) as (m' & Hm' & Hd');
      [apply shr_record_of_loc_m|lia|].
    exists m'. split; [exact Hm'|]. split; [lia|]. split.
    + apply canonical_digits. lia.
    + rewrite <- Hm', iter_shr_value by (rewrite shr_record_of_loc_m; lia).
      rewrite shr_record_of_loc_m. f_equal. f_equal. lia.
Qed.

(** Rounding down to the format stays above every float64 below. *)
Lemma floor_bound (mr m m' : positive) (er e e' : Z) :
  fexp IEEE.prec IEEE.emax (Z.pos (digits2_pos mr) + er) = er ->
  fexp IEEE.prec IEEE.emax (Z.pos (digits2_pos m') + e') = e' ->
  -1074 <= e -> e <= e' ->
  Z.pos m' = Z.pos m / 2 ^ (e' - e) ->
  fvalue mr er <= fvalue m e ->
  fvalue mr er <= fvalue m' e'.
Proof.
  intros Cr C' He Hee Hm Hle.
  assert (0 < 2 ^ (e' - e)) as Hn by (apply Z.pow_pos_nonneg; lia).
  assert (0 < 2 ^ (e + 1074)) as Hp by (apply Z.pow_pos_nonneg; lia).
  assert (2 ^ (e' + 1074) = 2 ^ (e' - e) * 2 ^ (e + 1074)) as Hsplit.
  { rewrite <- Z.pow_add_r by lia. f_equal. lia. }
  destruct (Z.lt_trichotomy er e') as [L|[E|G]].
  - apply Z.lt_le_incl. apply fvalue_exponent; assumption.
  - subst er. apply fvalue_mantissa; [lia|].
    rewrite Hm. apply Z.div_le_lower_bound; [exact Hn|].
    unfold fvalue in Hle. rewrite Hsplit in Hle. nia.
  - (* the float below would have a greater exponent *)
    exfalso.
    pose proof (fvalue_exponent m' mr e' er C' Cr G) as Hlt.
    apply canonical_digits in Cr as (_ & _ & [E|Dr]); [lia|].
    apply canonical_digits in C' as (_ & D' & _).
    pose proof (digits2_bounds mr) as [Br _]. rewrite Dr in Br.
    change (2 ^ (53 - 1)) with (2 ^ 52) in Br.
    pose proof (digits2_bounds m') as [_ B'].
    assert (Z.pos m' < 2 ^ 53) as B'53.
    { eapply Z.lt_le_trans; [exact B'|]. apply Z.pow_le_mono_r; lia. }
    pose proof (Z.mul_succ_div_gt (Z.pos m) (2 ^ (e' - e)) Hn) as Hup.
    rewrite <- Hm in Hup.
    (* value m e < 2^53 * 2^(e'+1074) <= value mr er *)
    assert (fvalue m e < 2 ^ 53 * 2 ^ (e' + 1074)) as H1.
    { unfold fvalue. rewrite Hsplit. nia. }
    assert (2 ^ 53 * 2 ^ (e' + 1074) <= fvalue mr er) as H2.
    { unfold fvalue.
      assert (2 * 2 ^ (e' + 1074) <= 2 ^ (er + 1074)) as Hpw.
      { rewrite <- Z.pow_succ_r by lia. apply Z.pow_le_mono_r; lia. }
      assert (0 < 2 ^ (e' + 1074)) as Hp' by (apply Z.pow_pos_nonneg; lia).
      change (2 ^ 53) with (2 * 2 ^ 52). nia. }
    lia.
Qed.

(** *** Rounding *)

Lemma digits2_mono (a b : positive) :
  Z.pos a <= Z.pos b -> Z.pos (digits2_pos a) <= Z.pos (digits2_pos b).
Proof.
  intros Hab. pose proof (digits2_bounds a) as [Ba _].
  pose proof (digits2_bounds b) as [_ Bb].
  assert (2 ^ (Z.pos (digits2_pos a) - 1) < 2 ^ Z.pos (digits2_pos b)) as Hlt by lia.
  apply Z.pow_lt_mono_r_iff in Hlt; lia.
Qed.

Lemma round_nearest_even_ge (m : positive) (l : location) :
  exists m', round_nearest_even (Z.pos m) l = Z.pos m' /\ Z.pos m <= Z.pos m'.
Proof.
  destruct l as [|[| |]]; cbn [round_nearest_even];
    try destruct (Z.even (Z.pos m)); eexists; (split; [reflexivity|lia]).
Qed.

(** What [binary_round_aux] returns for a positive number is +Inf or a
    float64, in both cases not below any float64 that the number is not
    below. *)
Lemma binary_round_aux_above (m mr : positive) (e er : Z) :
  -1074 <= e ->
  e <= fexp IEEE.prec IEEE.emax (Z.pos (digits2_pos m) + e) ->
  fexp IEEE.prec IEEE.emax (Z.pos (digits2_pos mr) + er) = er ->
  fvalue mr er <= fvalue m e ->
  match binary_round_aux IEEE.prec IEEE.emax false (Z.pos m) e loc_Exact with
  | S754_finite false m3 e3 =>
      valid_binary IEEE.prec IEEE.emax (S754_finite false m3 e3) = true /\
      fvalue mr er <= fvalue m3 e3
  | S754_infinity false => True
  | _ => False
  end.
Proof.
  intros He Hf Cr Hle. unfold binary_round_aux.
  destruct (shr_fexp IEEE.prec IEEE.emax (Z.pos m) e loc_Exact) as [mrs1 e1] eqn:E1.
  destruct (shr_fexp_floor m e loc_Exact mrs1 e1 He Hf E1) as (m1 & Hm1 & Hee1 & C1 & V1).
  pose proof (floor_bound mr m m1 er e e1 Cr C1 He Hee1 V1 Hle) as Hle1.
  rewrite Hm1.
  destruct (round_nearest_even_ge m1 (loc_of_shr_record mrs1)) as (m2 & -> & H12).
  assert (-1074 <= e1) as He1 by lia.
  assert (e1 <= fexp IEEE.prec IEEE.emax (Z.pos (digits2_pos m2) + e1)) as Hf2.
  { pose proof (digits2_mono m1 m2 H12) as Hd. rewrite <- C1 at 1.
    unfold fexp. lia. }
  assert (fvalue mr er <= fvalue m2 e1) as Hle2.
  { apply Z.le_trans with (1 := Hle1). apply fvalue_mantissa; assumption. }
  destruct (shr_fexp IEEE.prec IEEE.emax (Z.pos m2) e1 loc_Exact) as [mrs2 e2] eqn:E2.
  destruct (shr_fexp_floor m2 e1 loc_Exact mrs2 e2 He1 Hf2 E2) as (m3 & Hm3 & Hee2 & C3 & V3).
  pose proof (floor_bound mr m2 m3 er e1 e2 Cr C3 He1 Hee2 V3 Hle2) as Hle3.
  rewrite Hm3. destruct (e2 <=? IEEE.emax - IEEE.prec) eqn:Eb; [|exact I].
  split; [|exact Hle3].
  cbn [valid_binary]. unfold bounded, canonical_mantissa.
  rewrite C3, Z.eqb_refl, Eb. reflexivity.
Qed.

Lemma shl_align_spec (m : positive) (e e0 : Z) :
  -1074 <= e0 ->
  snd (shl_align m e e0) = Z.min e e0 /\
  fvalue (fst (shl_align m e e0)) (snd (shl_align m e e0)) = fvalue m e /\
  Z.pos (digits2_pos (fst (shl_align m e e0))) + snd (shl_align m e e0)
    = Z.pos (digits2_pos m) + e.
Proof.
  intros He0. unfold shl_align.
  destruct (e0 - e) as [|p|p] eqn:En; cbn [fst snd].
  - split; [lia|]. split; reflexivity.
  - split; [lia|]. split; reflexivity.
  - split; [lia|]. split.
    + unfold fvalue. rewrite shift_value.
      replace (e + 1074) with (Z.pos p + (e0 + 1074)) by lia.
      rewrite (Z.pow_add_r 2 (Z.pos p) (e0 + 1074)) by lia. ring.
    + rewrite digits2_shift. lia.
Qed.

Lemma binary_round_above (m mr : positive) (e er : Z) :
  -1074 <= e ->
  fexp IEEE.prec IEEE.emax (Z.pos (digits2_pos mr) + er) = er ->
  fvalue mr er <= fvalue m e ->
  match binary_round IEEE.prec IEEE.emax false m e with
  | S754_finite false m3 e3 =>
      valid_binary IEEE.prec IEEE.emax (S754_finite false m3 e3) = true /\
      fvalue mr er <= fvalue m3 e3
  | S754_infinity false => True
  | _ => False
  end.
Proof.
  intros He Cr Hle. unfold binary_round.
  pose proof (fexp_ge_emin (Z.pos (digits2_pos m) + e)) as Hf.
  destruct (shl_align_spec m e (fexp IEEE.prec IEEE.emax (Z.pos (digits2_pos m) + e)) Hf)
    as (Hs & Hv & Hd).
  destruct (shl_align m e (fexp IEEE.prec IEEE.emax (Z.pos (digits2_pos m) + e)))
    as [mz ez]. cbn [fst snd] in *.
  apply binary_round_aux_above; [lia| |exact Cr|rewrite Hv; exact Hle].
  rewrite Hd. lia.
Qed.

(** *** Addition *)

Lemma add_finite_above (mx my : positive) (ex ey : Z) :
  valid_binary IEEE.prec IEEE.emax (S754_finite false mx ex) = true ->
  valid_binary IEEE.prec IEEE.emax (S754_finite false my ey) = true ->
  match IEEE.add (S754_finite false mx ex) (S754_finite false my ey) with
  | S754_finite false m3 e3 =>
      valid_binary IEEE.prec IEEE.emax (S754_finite false m3 e3) = true /\
      fvalue mx ex <= fvalue m3 e3
  | S754_infinity false => True
  | _ => False
  end.
Proof.
  intros Vx Vy.
  pose proof (valid_exponent _ _ _ Vx) as Hx. pose proof (valid_exponent _ _ _ Vy) as Hy.
  unfold IEEE.add, SFadd. cbn [cond_Zopp].
  assert (-1074 <= Z.min ex ey) as Hz by lia.
  destruct (shl_align_spec mx ex (Z.min ex ey) Hz) as (Sx & Fx & _).
  destruct (shl_align_spec my ey (Z.min ex ey) Hz) as (Sy & Fy & _).
  rewrite <- Pos2Z.inj_add. cbn [binary_normalize].
  apply binary_round_above; [exact Hz|apply valid_canonical with (s := false); exact Vx|].
  replace (snd (shl_align mx ex (Z.min ex ey))) with (Z.min ex ey) in Fx by lia.
  replace (snd (shl_align my ey (Z.min ex ey))) with (Z.min ex ey) in Fy by lia.
  pose proof (fvalue_pos my ey Hy) as Hpos.
  rewrite <- Fx. rewrite <- Fy in Hpos. unfold fvalue in *.
  rewrite Pos2Z.inj_add. lia.
Qed.

Lemma float_nn_cases (x : spec_float) :
  float_nn x <->
  match x with
  | S754_zero _ => True
  | S754_infinity s => s = false
  | S754_nan => False
  | S754_finite s m e =>
      s = false /\ valid_binary IEEE.prec IEEE.emax (S754_finite false m e) = true
  end.
Proof.
  unfold float_nn. destruct x as [s|[|]| |[|] m e]; cbn; split; intros Hx;
    try tauto; try (destruct Hx; discriminate); try discriminate; auto.
Qed.

(** Adding a float64 that is not negative to another one does not
    decrease it, and the sum is again a float64 that is not negative. *)
Lemma add_nondecreasing (x y : spec_float) :
  float_nn x -> float_nn y ->
  float_nn (IEEE.add x y) /\
  (IEEE.ltb x (IEEE.add x y) || IEEE.eqb x (IEEE.add x y)) = true.
Proof.
  intros Hx Hy. pose proof Hx as Hx'. pose proof Hy as Hy'.
  apply float_nn_cases in Hx'. apply float_nn_cases in Hy'.
  destruct x as [sx|sx| |sx mx ex]; try contradiction;
    destruct y as [sy|sy| |sy my ey]; try contradiction;
    repeat match goal with
    | H : _ /\ _ |- _ => destruct H
    end; subst.
  - (* zero, zero *)
    split; [apply float_nn_cases; destruct sx, sy; exact I|destruct sx, sy; reflexivity].
  - split; [exact Hy|destruct sx; reflexivity].
  - split; [exact Hy|]. apply Hy.
  - split; [exact Hx|]. reflexivity.
  - split; [exact Hx|]. reflexivity.
  - split; [exact Hx|]. reflexivity.
  - (* finite, zero *)
    split; [exact Hx|]. change (IEEE.add (S754_finite false mx ex) (S754_zero sy))
      with (S754_finite false mx ex).
    apply orb_true_iff. right. unfold IEEE.eqb, SFeqb. cbn [SFcompare].
    rewrite Z.compare_refl, Pos.compare_cont_refl. reflexivity.
  - split; [exact Hy|]. reflexivity.
  - (* finite, finite *)
    match goal with
    | Vx : valid_binary _ _ (S754_finite false mx ex) = true,
      Vy : valid_binary _ _ (S754_finite false my ey) = true |- _ =>
        pose proof (add_finite_above mx my ex ey Vx Vy) as Hadd;
        pose proof Vx as Vx'
    end.
    destruct (IEEE.add (S754_finite false mx ex) (S754_finite false my ey))
      as [s|[|]| |[|] m3 e3]; try contradiction.
    + split; [apply float_nn_cases; reflexivity|reflexivity].
    + destruct Hadd as [V3 Hle].
      split; [apply float_nn_cases; split; [reflexivity|exact V3]|].
      pose proof (ltb_fvalue mx m3 ex e3 Vx' V3 Hle) as Hlt.
      (* not above, so below or equal *)
      assert (IEEE.is_nan (S754_finite false mx ex) = false) as N1 by reflexivity.
      assert (IEEE.is_nan (S754_finite false m3 e3) = false) as N3 by reflexivity.
      apply orb_true_iff.
      destruct (lt3_cases (IEEE.rank (S754_finite false mx ex))
                          (IEEE.rank (S754_finite false m3 e3))) as [L|[E|G]].
      * left. apply ltb_rank; assumption.
      * right. apply eqb_rank; assumption.
      * apply (ltb_rank _ _ N3 N1) in G. rewrite G in Hlt. discriminate.
Qed.

(** *** The order on float64 that are not negative *)

Lemma float_nn_not_nan (x : spec_float) : float_nn x -> IEEE.is_nan x = false.
Proof. intros Hx. apply float_nn_cases in Hx. destruct x; [reflexivity..|contradiction|reflexivity]. Qed.

Lemma leb_ieee_rank (x y : spec_float) :
  IEEE.is_nan x = false -> IEEE.is_nan y = false ->
  (f_leb x y = true <-> lt3 (IEEE.rank x) (IEEE.rank y) \/ IEEE.rank x = IEEE.rank y).
Proof.
  intros Nx Ny. unfold f_leb. rewrite orb_true_iff.
  change (f_ltb x y) with (IEEE.ltb x y). change (f_eqb x y) with (IEEE.eqb x y).
  rewrite (ltb_rank x y Nx Ny), (eqb_rank x y Nx Ny). reflexivity.
Qed.

Lemma leb_ieee_refl (x : spec_float) : float_nn x -> f_leb x x = true.
Proof.
  intros Hx. apply float_nn_not_nan in Hx. apply leb_ieee_rank; [exact Hx..|].
  right. reflexivity.
Qed.

Lemma leb_ieee_trans (x y z : spec_float) :
  float_nn x -> float_nn y -> float_nn z ->
  f_leb x y = true -> f_leb y z = true -> f_leb x z = true.
Proof.
  intros Hx Hy Hz. apply float_nn_not_nan in Hx, Hy, Hz.
  rewrite !leb_ieee_rank by assumption.
  intros [L1|E1] [L2|E2].
  - left. eapply lt3_trans; eassumption.
  - left. rewrite <- E2. exact L1.
  - left. rewrite E1. exact L2.
  - right. congruence.
Qed.

Lemma float_nn_zero : float_nn f_zero.
Proof. split; reflexivity. Qed.

Lemma add_ieee_nondecreasing (x y : spec_float) :
  float_nn x -> float_nn y -> float_nn (f_add x y) /\ f_leb x (f_add x y) = true.
Proof. exact (add_nondecreasing x y). Qed.

End Rounding.






(** ** The index map of the queue *)

Section QueueIndex.
Context {State : Type} `{Countable State} {F : Type} `{Float64 F}.
Local Abbreviation queue := (priorityQueue State F).
Implicit Types (q : queue) (s t : State) (i j n : nat).

Lemma states_lookup q i :
  states q !! i = item_s <$> items q !! i.
Proof. unfold states. apply list_lookup_fmap. Qed.

Lemma states_length q : length (states q) = length (items q).
Proof. unfold states. apply length_fmap. Qed.

Lemma index_inv_inj q s i j :
  index_inv q -> states q !! i = Some s -> states q !! j = Some s -> i = j.
Proof.
  intros Hq Hi Hj. apply Hq in Hi, Hj. congruence.
Qed.

Lemma index_ok_inv q : index_ok q <-> index_inv q.
Proof.
  split.
  - intros (Hdom & Hnd & Hidx) s i. split; [apply Hidx|].
    intros Hi. assert (s ∈ states q) as Hin by (eapply list_elem_of_lookup_2; eassumption).
    apply Hdom in Hin as [j Hj]. rewrite Hj. f_equal.
    eapply NoDup_lookup; [exact Hnd| |exact Hi]. apply Hidx. exact Hj.
  - intros Hq. split; [|split].
    + intros s. rewrite list_elem_of_lookup. split.
      * intros [i Hi]. exists i. apply Hq. exact Hi.
      * intros [i Hi]. exists i. apply Hq. exact Hi.
    + apply NoDup_alt. intros i j s Hi Hj. eapply index_inv_inj; eassumption.
    + intros s i. apply Hq.
Qed.

Lemma index_inv_lt q s i : index_inv q -> lookups q !! s = Some i -> (i < length (items q))%nat.
Proof.
  intros Hq Hs. apply Hq in Hs. apply lookup_lt_Some in Hs.
  rewrite states_length in Hs. exact Hs.
Qed.

Lemma index_inv_item q s i :
  index_inv q -> lookups q !! s = Some i ->
  exists it, items q !! i = Some it /\ item_s it = s.
Proof.
  intros Hq Hs. apply Hq in Hs. rewrite states_lookup in Hs.
  destruct (items q !! i) as [it|]; [|discriminate]. exists it. split; [reflexivity|].
  simpl in Hs. congruence.
Qed.

(** *** Swap *)

(** The entries after an exchange of slots [i] and [j]. *)
Lemma exchange_lookup {X : Type} (l : list X) i j a b k :
  l !! i = Some a -> l !! j = Some b ->
  <[j := a]> (<[i := b]> l) !! k =
    if decide (k = j) then Some a else if decide (k = i) then Some b else l !! k.
Proof.
  intros Ha Hb.
  pose proof (lookup_lt_Some _ _ _ Ha) as Li.
  pose proof (lookup_lt_Some _ _ _ Hb) as Lj.
  destruct (decide (k = j)) as [->|Hkj].
  - apply list_lookup_insert_eq. rewrite length_insert. exact Lj.
  - rewrite list_lookup_insert_ne by done.
    destruct (decide (k = i)) as [->|Hki].
    + apply list_lookup_insert_eq. exact Li.
    + apply list_lookup_insert_ne. done.
Qed.

Lemma exchange_length {X : Type} (l : list X) i j (a b : X) :
  length (<[j := a]> (<[i := b]> l)) = length l.
Proof. rewrite !length_insert. reflexivity. Qed.

Lemma Swap_Some q i j a b :
  items q !! i = Some a -> items q !! j = Some b ->
  pqi.Swap q i j =
    Some (PriorityQueue (<[item_s a := j]> (<[item_s b := i]> (lookups q)))
                        (<[j := a]> (<[i := b]> (items q)))).
Proof.
  intros Ha Hb. unfold pqi.Swap. rewrite Ha, Hb. cbn.
  rewrite (exchange_lookup _ i j a b i Ha Hb), (exchange_lookup _ i j a b j Ha Hb).
  rewrite decide_True by reflexivity.
  destruct (decide (i = j)) as [->|Hij]; cbn.
  - assert (a = b) by congruence. subst b. reflexivity.
  - rewrite decide_True by reflexivity. reflexivity.
Qed.

Lemma Swap_is_Some q i j :
  (i < length (items q))%nat -> (j < length (items q))%nat ->
  exists a b, items q !! i = Some a /\ items q !! j = Some b /\
    pqi.Swap q i j =
      Some (PriorityQueue (<[item_s a := j]> (<[item_s b := i]> (lookups q)))
                          (<[j := a]> (<[i := b]> (items q)))).
Proof.
  intros Li Lj.
  destruct (lookup_lt_is_Some_2 _ _ Li) as [a Ha].
  destruct (lookup_lt_is_Some_2 _ _ Lj) as [b Hb].
  exists a, b. split; [exact Ha|]. split; [exact Hb|]. apply Swap_Some; assumption.
Qed.

Lemma Swap_index_inv q i j q' :
  index_inv q -> pqi.Swap q i j = Some q' -> index_inv q'.
Proof.
  intros Hq HS.
  destruct (items q !! i) as [a|] eqn:Ha; [|unfold pqi.Swap in HS; rewrite Ha in HS; discriminate].
  destruct (items q !! j) as [b|] eqn:Hb;
    [|unfold pqi.Swap in HS; rewrite Ha, Hb in HS; discriminate].
  rewrite (Swap_Some q i j a b Ha Hb) in HS. injection HS as <-.
  assert (states q !! i = Some (item_s a)) as Sa by (rewrite states_lookup, Ha; reflexivity).
  assert (states q !! j = Some (item_s b)) as Sb by (rewrite states_lookup, Hb; reflexivity).
  intros s k. rewrite states_lookup. cbn [lookups items].
  rewrite (exchange_lookup _ i j a b k Ha Hb).
  destruct (decide (s = item_s a)) as [->|Hsa].
  - rewrite lookup_insert_eq.
    destruct (decide (k = j)) as [->|Hkj]; [tauto|].
    split; [congruence|]. intros Hk. exfalso.
    destruct (decide (k = i)) as [->|Hki].
    + cbn in Hk. apply Hkj. eapply index_inv_inj; [exact Hq| |exact Sb]. congruence.
    + rewrite <- states_lookup in Hk. apply Hki. eapply index_inv_inj; eassumption.
  - rewrite lookup_insert_ne by congruence.
    destruct (decide (k = j)) as [->|Hkj].
    + cbn. split; [|congruence]. intros Hl. exfalso.
      destruct (decide (s = item_s b)) as [->|Hsb].
      * rewrite lookup_insert_eq in Hl. injection Hl as ->.
        apply Hsa. congruence.
      * rewrite lookup_insert_ne in Hl by congruence. apply Hq in Hl. congruence.
    + destruct (decide (s = item_s b)) as [->|Hsb].
      * rewrite lookup_insert_eq.
        destruct (decide (k = i)) as [->|Hki]; [tauto|].
        split; [congruence|]. intros Hk. exfalso. rewrite <- states_lookup in Hk.
        apply Hkj. eapply index_inv_inj; eassumption.
      * rewrite lookup_insert_ne by congruence.
        destruct (decide (k = i)) as [->|Hki].
        -- cbn. split; [|congruence]. intros Hl. apply Hq in Hl. congruence.
        -- rewrite <- states_lookup. apply Hq.
Qed.

Lemma Swap_inv q i j q' :
  pqi.Swap q i j = Some q' ->
  exists a b, items q !! i = Some a /\ items q !! j = Some b /\
    q' = PriorityQueue (<[item_s a := j]> (<[item_s b := i]> (lookups q)))
                       (<[j := a]> (<[i := b]> (items q))).
Proof.
  intros HS.
  destruct (items q !! i) as [a|] eqn:Ha; [|unfold pqi.Swap in HS; rewrite Ha in HS; discriminate].
  destruct (items q !! j) as [b|] eqn:Hb;
    [|unfold pqi.Swap in HS; rewrite Ha, Hb in HS; discriminate].
  rewrite (Swap_Some q i j a b Ha Hb) in HS. injection HS as <-.
  exists a, b. auto.
Qed.

Lemma Swap_length q i j q' :
  pqi.Swap q i j = Some q' -> length (items q') = length (items q).
Proof.
  intros HS. apply Swap_inv in HS as (a & b & _ & _ & ->). apply exchange_length.
Qed.

Lemma Swap_lookup q i j q' k :
  pqi.Swap q i j = Some q' ->
  items q' !! k =
    if decide (k = j) then items q !! i else if decide (k = i) then items q !! j
    else items q !! k.
Proof.
  intros HS. apply Swap_inv in HS as (a & b & Ha & Hb & ->). cbn [items].
  rewrite (exchange_lookup _ i j a b k Ha Hb), Ha, Hb. reflexivity.
Qed.

Lemma Swap_elem_of q i j q' it :
  pqi.Swap q i j = Some q' -> (it ∈ items q' <-> it ∈ items q).
Proof.
  intros HS. rewrite !list_elem_of_lookup. split; intros [k Hk].
  - rewrite (Swap_lookup q i j q' k HS) in Hk.
    repeat case_decide; eauto.
  - destruct (decide (k = i)) as [->|Hki].
    + exists j. rewrite (Swap_lookup q i j q' j HS). rewrite decide_True by reflexivity. exact Hk.
    + destruct (decide (k = j)) as [->|Hkj].
      * exists i. rewrite (Swap_lookup q i j q' i HS).
        destruct (decide (i = j)) as [->|?]; [exact Hk|].
        rewrite decide_True by reflexivity. exact Hk.
      * exists k. rewrite (Swap_lookup q i j q' k HS).
        rewrite !decide_False by assumption. exact Hk.
Qed.

Lemma Less_is_Some q i j :
  (i < length (items q))%nat -> (j < length (items q))%nat -> is_Some (pqi.Less q i j).
Proof.
  intros Li Lj. unfold pqi.Less.
  destruct (lookup_lt_is_Some_2 _ _ Li) as [a ->].
  destruct (lookup_lt_is_Some_2 _ _ Lj) as [b ->]. cbn. eauto.
Qed.

Lemma Less_inv q i j r :
  pqi.Less q i j = Some r ->
  exists a b, items q !! i = Some a /\ items q !! j = Some b /\
    r = bool_decide (compare (item_k a) (item_k b) = -1).
Proof.
  unfold pqi.Less. intros HL.
  destruct (items q !! i) as [a|]; [|discriminate].
  destruct (items q !! j) as [b|]; [|discriminate].
  cbn in HL. injection HL as <-. eauto.
Qed.

Lemma parent_le j : (parent j <= j)%nat.
Proof. unfold parent. apply Nat.Div0.div_le_upper_bound; lia. Qed.

Lemma parent_lt j : (0 < j)%nat -> (parent j < j)%nat.
Proof. unfold parent. intros. apply Nat.Div0.div_lt_upper_bound; lia. Qed.

Lemma parent_0 j : parent j = j -> j = 0%nat.
Proof. intros E. destruct j; [reflexivity|]. pose proof (parent_lt (S j)). lia. Qed.

Lemma parent_child i c : parent c = i -> (0 < c)%nat -> c = (2 * i + 1)%nat \/ c = (2 * i + 2)%nat.
Proof.
  unfold parent. intros E Hc.
  pose proof (Nat.div_mod_eq (c - 1) 2) as D.
  pose proof (Nat.mod_upper_bound (c - 1) 2). lia.
Qed.

Lemma parent_left i : parent (2 * i + 1) = i.
Proof.
  unfold parent. replace (2 * i + 1 - 1)%nat with (i * 2)%nat by lia.
  apply Nat.div_mul. lia.
Qed.

Lemma parent_right i : parent (2 * i + 2) = i.
Proof.
  unfold parent. replace (2 * i + 2 - 1)%nat with (1 + i * 2)%nat by lia.
  rewrite Nat.div_add by lia. reflexivity.
Qed.

(** One iteration of [up]: stop at the root, stop when the entry is not
    below its parent, or exchange them and go on from the parent. *)
Lemma up_loop_S_inv fuel q j q' :
  heap.up_loop (S fuel) q j = Some q' ->
  (parent j = j /\ q' = q) \/
  (parent j <> j /\ pqi.Less q j (parent j) = Some false /\ q' = q) \/
  (parent j <> j /\ pqi.Less q j (parent j) = Some true /\
   exists q1, pqi.Swap q (parent j) j = Some q1 /\ heap.up_loop fuel q1 (parent j) = Some q').
Proof.
  cbn [heap.up_loop]. intros Hup.
  destruct (decide (parent j = j)) as [E|NE]; [left; split; congruence|right].
  destruct (pqi.Less q j (parent j)) as [[|]|]; cbn in Hup; try discriminate.
  - right. destruct (pqi.Swap q (parent j) j) as [q1|]; cbn in Hup; [|discriminate].
    repeat split; eauto.
  - left. repeat split; congruence.
Qed.

(** One iteration of [down]: stop without a child below [n], else take
    the lesser child [j]; stop when it is not below the entry, or exchange
    them and go on from [j]. *)
Lemma down_loop_S_inv fuel q i n q' i' :
  heap.down_loop (S fuel) q i n = Some (q', i') ->
  ((n <= 2 * i + 1)%nat /\ q' = q /\ i' = i) \/
  exists j, (2 * i + 1 < n)%nat /\
    ((j = (2 * i + 2)%nat /\ (2 * i + 2 < n)%nat /\
      pqi.Less q (2 * i + 2) (2 * i + 1) = Some true) \/
     (j = (2 * i + 1)%nat /\
      ((2 * i + 2 < n)%nat -> pqi.Less q (2 * i + 2) (2 * i + 1) = Some false))) /\
    ((pqi.Less q j i = Some false /\ q' = q /\ i' = i) \/
     (pqi.Less q j i = Some true /\
      exists q1, pqi.Swap q i j = Some q1 /\ heap.down_loop fuel q1 j n = Some (q', i'))).
Proof.
  cbn [heap.down_loop]. intros Hd.
  destruct (decide (n <= 2 * i + 1)%nat) as [L|L];
    [left; injection Hd as <- <-; auto|right].
  replace (2 * i + 1 + 1)%nat with (2 * i + 2)%nat in Hd by lia.
  destruct (decide (2 * i + 2 < n)%nat) as [L2|L2].
  - destruct (pqi.Less q (2 * i + 2) (2 * i + 1)) as [[|]|] eqn:E21; cbn [mbind option_bind negb] in Hd; [| |discriminate].
    + exists (2 * i + 2)%nat. split; [lia|]. split; [left; auto|].
      destruct (pqi.Less q (2 * i + 2) i) as [[|]|]; cbn [mbind option_bind negb] in Hd; try discriminate.
      * right. destruct (pqi.Swap q i (2 * i + 2)) as [q1|]; cbn [mbind option_bind negb] in Hd; [|discriminate]. eauto.
      * left. injection Hd as <- <-. auto.
    + exists (2 * i + 1)%nat. split; [lia|]. split; [right; auto|].
      destruct (pqi.Less q (2 * i + 1) i) as [[|]|]; cbn [mbind option_bind negb] in Hd; try discriminate.
      * right. destruct (pqi.Swap q i (2 * i + 1)) as [q1|]; cbn [mbind option_bind negb] in Hd; [|discriminate]. eauto.
      * left. injection Hd as <- <-. auto.
  - cbn [mbind option_bind negb] in Hd. exists (2 * i + 1)%nat. split; [lia|]. split; [right; split; [reflexivity|lia]|].
    destruct (pqi.Less q (2 * i + 1) i) as [[|]|]; cbn [mbind option_bind negb] in Hd; try discriminate.
    + right. destruct (pqi.Swap q i (2 * i + 1)) as [q1|]; cbn [mbind option_bind negb] in Hd; [|discriminate]. eauto.
    + left. injection Hd as <- <-. auto.
Qed.

(** *** What the loops of container/heap keep

    A property of the queue kept by every exchange of two slots below [n]
    is kept by [up] from below [n] and by [down] below [n]. *)

Section LoopPreserves.
Variable P : queue -> Prop.
Variable n : nat.
Hypothesis P_Swap : forall q i j q',
  (i < n)%nat -> (j < n)%nat -> P q -> pqi.Swap q i j = Some q' -> P q'.

Lemma up_loop_preserves fuel q j q' :
  (j < n)%nat -> P q -> heap.up_loop fuel q j = Some q' -> P q'.
Proof.
  revert q j. induction fuel as [|fuel IH]; intros q j Hj HP Hup.
  - injection Hup as <-. exact HP.
  - apply up_loop_S_inv in Hup as [(_ & ->)|[(_ & _ & ->)|(Hne & _ & q1 & HS & Hup)]];
      try exact HP.
    pose proof (parent_le j).
    apply (IH q1 (parent j)); [lia| |exact Hup].
    apply (P_Swap q (parent j) j); [lia|lia|exact HP|exact HS].
Qed.

Lemma down_loop_preserves fuel q i q' i' :
  (i < n)%nat -> P q -> heap.down_loop fuel q i n = Some (q', i') -> P q'.
Proof.
  revert q i. induction fuel as [|fuel IH]; intros q i Hi HP Hd.
  - injection Hd as <- <-. exact HP.
  - apply down_loop_S_inv in Hd as [(_ & -> & ->)|(j & Hlt & Hj & Hd)]; [exact HP|].
    assert (j < n)%nat as Ljn by (destruct Hj as [(-> & ? & _)|(-> & _)]; lia).
    destruct Hd as [(_ & -> & ->)|(_ & q1 & HS & Hd)]; [exact HP|].
    apply (IH q1 j); [exact Ljn| |exact Hd].
    apply (P_Swap q i j); [exact Hi|exact Ljn|exact HP|exact HS].
Qed.
End LoopPreserves.

Lemma up_loop_length fuel q j q' :
  heap.up_loop fuel q j = Some q' -> length (items q') = length (items q).
Proof.
  intros Hup.
  apply (up_loop_preserves (fun q1 => length (items q1) = length (items q)) (S j))
    with (fuel := fuel) (q := q) (j := j); [|lia|reflexivity|exact Hup].
  intros q0 i0 j0 q0' _ _ E HS. cbn beta in *.
  rewrite (Swap_length _ _ _ _ HS). exact E.
Qed.

Lemma down_loop_length fuel q i n q' i' :
  heap.down_loop fuel q i n = Some (q', i') -> length (items q') = length (items q).
Proof.
  intros Hd. destruct (decide (i < n)%nat) as [Hi|Hi].
  - apply (down_loop_preserves (fun q1 => length (items q1) = length (items q)) n)
      with (fuel := fuel) (q := q) (i := i) (i' := i'); [|exact Hi|reflexivity|exact Hd].
    intros q0 i0 j0 q0' _ _ E HS. cbn beta in *.
    rewrite (Swap_length _ _ _ _ HS). exact E.
  - destruct fuel as [|fuel]; [injection Hd as <- <-; reflexivity|].
    apply down_loop_S_inv in Hd as [(_ & -> & ->)|(j & Hlt & _)]; [reflexivity|lia].
Qed.

(** The loops do not panic on indices in range. *)
Lemma up_loop_is_Some fuel q j :
  (j < length (items q))%nat -> is_Some (heap.up_loop fuel q j).
Proof.
  revert q j. induction fuel as [|fuel IH]; intros q j Hj; cbn [heap.up_loop]; [eauto|].
  destruct (decide (parent j = j)); [eauto|].
  pose proof (parent_le j) as Hp.
  destruct (Less_is_Some q j (parent j)) as [r ->]; [lia..|]. cbn [mbind option_bind].
  destruct r; cbn [negb]; [|eauto].
  destruct (Swap_is_Some q (parent j) j) as (a & b & _ & _ & HS); [lia..|].
  rewrite HS. cbn [mbind option_bind]. apply IH. cbn [items].
  rewrite exchange_length. lia.
Qed.

Lemma down_loop_is_Some fuel q i n :
  (i < n)%nat -> (n <= length (items q))%nat -> is_Some (heap.down_loop fuel q i n).
Proof.
  revert q i. induction fuel as [|fuel IH]; intros q i Hi Hn; cbn [heap.down_loop]; [eauto|].
  destruct (decide (n <= 2 * i + 1)%nat) as [L|L]; [eauto|].
  assert (exists lt21 : bool,
    (if decide (2 * i + 1 + 1 < n)%nat then pqi.Less q (2 * i + 1 + 1) (2 * i + 1)
     else Some false) = Some lt21 /\ ((if lt21 then 2 * i + 1 + 1 else 2 * i + 1) < n)%nat)
    as (lt21 & -> & Hj).
  { destruct (decide (2 * i + 1 + 1 < n)%nat) as [L2|L2].
    - destruct (Less_is_Some q (2 * i + 1 + 1) (2 * i + 1)) as [r Hr]; [lia..|].
      exists r. split; [exact Hr|]. destruct r; lia.
    - exists false. split; [reflexivity|lia]. }
  cbn [mbind option_bind].
  set (j := (if lt21 then 2 * i + 1 + 1 else 2 * i + 1)%nat) in *.
  destruct (Less_is_Some q j i) as [r ->]; [lia..|]. cbn [mbind option_bind].
  destruct r; cbn [negb]; [|eauto].
  destruct (Swap_is_Some q i j) as (a & b & _ & _ & HS); [lia..|].
  rewrite HS. cbn [mbind option_bind]. apply IH; [exact Hj|]. cbn [items].
  rewrite exchange_length. exact Hn.
Qed.

(** *** Push and Pop of the queue *)

Lemma Push_index_inv q it :
  index_inv q -> lookups q !! item_s it = None -> index_inv (pqi.Push q it).
Proof.
  intros Hq Hfresh s i. unfold pqi.Push, states. cbn [lookups items].
  rewrite fmap_app. cbn [fmap list_fmap]. fold (states q).
  pose proof (states_length q) as SL.
  destruct (decide (s = item_s it)) as [->|Hs].
  - rewrite lookup_insert_eq. split.
    + intros [= <-]. rewrite lookup_app_r by lia.
      rewrite SL, Nat.sub_diag. reflexivity.
    + intros Hi. f_equal. destruct (decide (i < length (states q))%nat) as [L|L].
      * rewrite lookup_app_l in Hi by exact L. apply Hq in Hi. congruence.
      * apply lookup_lt_Some in Hi. rewrite length_app in Hi. cbn in Hi. lia.
  - rewrite lookup_insert_ne by congruence. split.
    + intros Hl. apply Hq in Hl. rewrite lookup_app_l; [exact Hl|].
      eapply lookup_lt_Some. exact Hl.
    + intros Hi. apply Hq. destruct (decide (i < length (states q))%nat) as [L|L].
      * rewrite lookup_app_l in Hi by exact L. exact Hi.
      * rewrite lookup_app_r in Hi by lia.
        destruct (i - length (states q))%nat; cbn in Hi; [congruence|discriminate].
Qed.

Lemma Pop_inv q q' it :
  pqi.Pop q = Some (q', it) ->
  exists m, length (items q) = S m /\ items q !! m = Some it /\
    q' = PriorityQueue (delete (item_s it) (lookups q)) (take m (items q)).
Proof.
  unfold pqi.Pop. intros HP.
  destruct (length (items q)) as [|m] eqn:L; [discriminate|].
  destruct (items q !! m) as [x|] eqn:E; [|discriminate].
  cbn in HP. injection HP as <- <-. eauto.
Qed.

Lemma Pop_is_Some q :
  (0 < length (items q))%nat -> is_Some (pqi.Pop q).
Proof.
  unfold pqi.Pop. intros L.
  destruct (length (items q)) as [|m] eqn:E; [lia|].
  destruct (lookup_lt_is_Some_2 (items q) m) as [x ->]; [lia|]. cbn. eauto.
Qed.

Lemma Pop_index_inv q q' it :
  index_inv q -> pqi.Pop q = Some (q', it) -> index_inv q'.
Proof.
  intros Hq HP. apply Pop_inv in HP as (m & L & Hm & ->).
  intros s i. unfold states. cbn [lookups items]. rewrite fmap_take. fold (states q).
  assert (states q !! m = Some (item_s it)) as Sm by (rewrite states_lookup, Hm; reflexivity).
  destruct (decide (s = item_s it)) as [->|Hs].
  - rewrite lookup_delete_eq. split; [discriminate|].
    intros Hi. exfalso. pose proof (lookup_lt_Some _ _ _ Hi) as Li.
    rewrite length_take in Li. rewrite lookup_take_lt in Hi by lia.
    assert (i = m) by (eapply index_inv_inj; eassumption). lia.
  - rewrite lookup_delete_ne by congruence. split.
    + intros Hl. apply Hq in Hl. pose proof (lookup_lt_Some _ _ _ Hl) as Li.
      rewrite states_length in Li.
      assert (i <> m) by congruence. rewrite lookup_take_lt by lia. exact Hl.
    + intros Hi. apply Hq. pose proof (lookup_lt_Some _ _ _ Hi) as Li.
      rewrite length_take in Li. rewrite lookup_take_lt in Hi by lia. exact Hi.
Qed.

Lemma Pop_spec q n x :
  index_inv q -> length (items q) = S n -> items q !! n = Some x ->
  exists q', pqi.Pop q = Some (q', x) /\ index_inv q' /\
    items q' = take n (items q) /\
    (forall it, it ∈ items q' <-> it ∈ items q /\ it <> x).
Proof.
  intros Hq L Hx.
  exists (PriorityQueue (delete (item_s x) (lookups q)) (take n (items q))).
  assert (pqi.Pop q = Some (PriorityQueue (delete (item_s x) (lookups q)) (take n (items q)), x))
    as HP by (unfold pqi.Pop; rewrite L, Hx; reflexivity).
  split; [exact HP|]. split; [exact (Pop_index_inv _ _ _ Hq HP)|].
  split; [reflexivity|]. cbn [items]. intros it.
  assert (items q = take n (items q) ++ [x]) as E.
  { rewrite <- (take_S_r _ _ _ Hx). rewrite <- L. symmetry. apply firstn_all. }
  assert (x ∉ take n (items q)) as Hnx.
  { intros Hin. apply list_elem_of_lookup in Hin as [k Hk].
    pose proof (lookup_lt_Some _ _ _ Hk) as Lk. rewrite length_take in Lk.
    rewrite lookup_take_lt in Hk by lia.
    assert (k = n); [|lia].
    apply (index_inv_inj q (item_s x)); [exact Hq| |]; rewrite states_lookup.
    - rewrite Hk. reflexivity.
    - rewrite Hx. reflexivity. }
  rewrite E at 2. rewrite elem_of_app, list_elem_of_singleton. split.
  - intros Hin. split; [left; exact Hin|]. intros ->. contradiction.
  - intros [[Hin| ->] Hne]; [exact Hin|contradiction].
Qed.

(** *** heap.Push, heap.Pop and heap.Remove *)

Lemma heap_Push_index q x :
  index_inv q -> lookups q !! item_s x = None ->
  exists q', heap.Push q x = Some q' /\ index_inv q' /\
    length (items q') = S (length (items q)) /\
    (forall it, it ∈ items q' <-> it = x \/ it ∈ items q).
Proof.
  intros Hq Hfresh. unfold heap.Push, heap.up.
  set (q1 := pqi.Push q x).
  assert (length (items q1) = S (length (items q))) as L1
    by (subst q1; unfold pqi.Push; cbn [items]; rewrite length_app; cbn; lia).
  unfold pqi.Len. rewrite L1. cbn [Nat.sub]. rewrite Nat.sub_0_r.
  set (n := length (items q)) in *.
  destruct (up_loop_is_Some (S n) q1 n) as [q' Hup]; [lia|].
  exists q'. split; [exact Hup|].
  pose (P := fun q0 : queue =>
    index_inv q0 /\ forall it, it ∈ items q0 <-> it = x \/ it ∈ items q).
  assert (P q') as [HP1 HP2].
  { apply (up_loop_preserves P (S n)) with (fuel := S n) (q := q1) (j := n);
      [|lia| |exact Hup].
    - intros q0 i0 j0 q0' _ _ [I M] HS. split; [eapply Swap_index_inv; eassumption|].
      intros it. rewrite (Swap_elem_of _ _ _ _ it HS). apply M.
    - split; [apply Push_index_inv; assumption|].
      intros it. subst q1. unfold pqi.Push. cbn [items].
      rewrite elem_of_app, list_elem_of_singleton. tauto. }
  split; [exact HP1|]. split; [|exact HP2].
  rewrite (up_loop_length _ _ _ _ Hup). exact L1.
Qed.

Lemma parked_Swap q0 x n q i j q' :
  (i < n)%nat -> (j < n)%nat -> parked q0 x n q -> pqi.Swap q i j = Some q' ->
  parked q0 x n q'.
Proof.
  intros Hi Hj (I & L & X & M) HS. split; [eapply Swap_index_inv; eassumption|].
  split; [rewrite (Swap_length _ _ _ _ HS); exact L|]. split.
  - rewrite (Swap_lookup _ _ _ _ n HS).
    rewrite !decide_False by lia. exact X.
  - intros it. rewrite (Swap_elem_of _ _ _ _ it HS). apply M.
Qed.

Lemma parked_Pop q0 x n q :
  parked q0 x n q ->
  exists q', pqi.Pop q = Some (q', x) /\ index_inv q' /\
    items q' = take n (items q) /\
    (forall it, it ∈ items q' <-> it ∈ items q0 /\ it <> x).
Proof.
  intros (I & L & X & M).
  destruct (Pop_spec q n x I L X) as (q' & HP & I' & T & M').
  exists q'. split; [exact HP|]. split; [exact I'|]. split; [exact T|].
  intros it. rewrite M', M. reflexivity.
Qed.

Lemma heap_Remove_index q i x :
  index_inv q -> items q !! i = Some x ->
  exists q', heap.Remove q i = Some (q', x) /\ index_inv q' /\
    S (length (items q')) = length (items q) /\
    (forall it, it ∈ items q' <-> it ∈ items q /\ it <> x).
Proof.
  intros Hq Hx. pose proof (lookup_lt_Some _ _ _ Hx) as Li.
  unfold heap.Remove, pqi.Len.
  destruct (length (items q)) as [|n] eqn:L; [lia|].
  destruct (decide (n = i)) as [->|Hni].
  - destruct (Pop_spec q i x Hq L Hx) as (q' & HP & I' & T & M').
    exists q'. split; [exact HP|]. split; [exact I'|]. split; [|exact M'].
    rewrite T, length_take. lia.
  - destruct (Swap_is_Some q i n) as (a & b & Ha & Hb & HS); [lia..|].
    assert (a = x) by congruence. subst a.
    rewrite HS. cbn [mbind option_bind].
    set (q1 := PriorityQueue _ _) in *.
    assert (parked q x n q1) as P1.
    { split; [eapply Swap_index_inv; eassumption|].
      split; [rewrite (Swap_length _ _ _ _ HS); exact L|]. split.
      - rewrite (Swap_lookup _ _ _ _ n HS). rewrite decide_True by reflexivity. exact Hx.
      - intros it. apply (Swap_elem_of _ _ _ _ it HS). }
    assert (length (items q1) = S n) as L1 by apply P1.
    unfold heap.down.
    destruct (down_loop_is_Some n q1 i n) as [[q2 i2] Hd]; [lia..|].
    rewrite Hd. cbn [mbind option_bind].
    assert (parked q x n q2) as P2.
    { apply (down_loop_preserves (parked q x n) n) with (fuel := n) (q := q1) (i := i) (i' := i2);
        [|lia|exact P1|exact Hd].
      intros q0 i0 j0 q0' Hi0 Hj0 HP0 HS0.
      exact (parked_Swap _ _ _ _ _ _ _ Hi0 Hj0 HP0 HS0). }
    assert (exists q3, (if negb (bool_decide (i < i2)%nat) then heap.up q2 i else Some q2) = Some q3
                       /\ parked q x n q3) as (q3 & -> & P3).
    { destruct (bool_decide (i < i2)%nat); cbn [negb]; [eauto|].
      unfold heap.up.
      destruct (up_loop_is_Some (S i) q2 i) as [q3 Hup];
        [destruct P2 as (_ & -> & _); lia|].
      exists q3. split; [exact Hup|].
      apply (up_loop_preserves (parked q x n) n) with (fuel := S i) (q := q2) (j := i);
        [|lia|exact P2|exact Hup].
      intros q0 i0 j0 q0' Hi0 Hj0 HP0 HS0.
      exact (parked_Swap _ _ _ _ _ _ _ Hi0 Hj0 HP0 HS0). }
    cbn [mbind option_bind].
    destruct (parked_Pop q x n q3 P3) as (q' & HP & I' & T & M').
    exists q'. split; [exact HP|]. split; [exact I'|]. split; [|exact M'].
    rewrite T, length_take. destruct P3 as (_ & -> & _). lia.
Qed.

Lemma heap_Push_is_Some q x : is_Some (heap.Push q x).
Proof.
  unfold heap.Push, heap.up. apply up_loop_is_Some.
  unfold pqi.Len, pqi.Push. cbn [items]. rewrite length_app. cbn. lia.
Qed.

Lemma heap_Pop_index q x :
  index_inv q -> items q !! 0%nat = Some x ->
  exists q', heap.Pop q = Some (q', x) /\ index_inv q' /\
    S (length (items q')) = length (items q) /\
    (forall it, it ∈ items q' <-> it ∈ items q /\ it <> x).
Proof.
  intros Hq Hx. pose proof (lookup_lt_Some _ _ _ Hx) as Li.
  unfold heap.Pop, pqi.Len.
  destruct (length (items q)) as [|n] eqn:L; [lia|].
  destruct (Swap_is_Some q 0 n) as (a & b & Ha & Hb & HS); [lia..|].
  assert (a = x) by congruence. subst a.
  rewrite HS. cbn [mbind option_bind].
  set (q1 := PriorityQueue _ _) in *.
  assert (parked q x n q1) as P1.
  { split; [eapply Swap_index_inv; eassumption|].
    split; [rewrite (Swap_length _ _ _ _ HS); exact L|]. split.
    - rewrite (Swap_lookup _ _ _ _ n HS). rewrite decide_True by reflexivity. exact Hx.
    - intros it. apply (Swap_elem_of _ _ _ _ it HS). }
  unfold heap.down.
  assert (exists q2 i2, heap.down_loop n q1 0 n = Some (q2, i2) /\ parked q x n q2)
    as (q2 & i2 & Hd & P2).
  { destruct n as [|n]; [exists q1, 0%nat; split; [reflexivity|exact P1]|].
    destruct (down_loop_is_Some (S n) q1 0 (S n)) as [[q2 i2] Hd];
      [lia|destruct P1 as (_ & -> & _); lia|].
    exists q2, i2. split; [exact Hd|].
    apply (down_loop_preserves (parked q x (S n)) (S n))
      with (fuel := S n) (q := q1) (i := 0%nat) (i' := i2); [|lia|exact P1|exact Hd].
    intros q0 i0 j0 q0' Hi0 Hj0 HP0 HS0.
    exact (parked_Swap _ _ _ _ _ _ _ Hi0 Hj0 HP0 HS0). }
  rewrite Hd. cbn [mbind option_bind].
  destruct (parked_Pop q x n q2 P2) as (q' & HP & I' & T & M').
  exists q'. split; [exact HP|]. split; [exact I'|]. split; [|exact M'].
  rewrite T, length_take. destruct P2 as (_ & -> & _). lia.
Qed.

(** [remove] deletes [lookups[s]] before [heap.Remove]; the exchange with
    the last slot, or [Pop], writes or deletes that entry anyway. *)
Lemma heap_Remove_delete q s i :
  index_inv q -> lookups q !! s = Some i ->
  heap.Remove (PriorityQueue (delete s (lookups q)) (items q)) i = heap.Remove q i.
Proof.
  intros Hq Hs. destruct (index_inv_item q s i Hq Hs) as (x & Hx & Hxs).
  unfold heap.Remove, pqi.Len. cbn [items].
  destruct (length (items q)) as [|n] eqn:L; [reflexivity|].
  destruct (decide (n = i)) as [->|Hni].
  - unfold pqi.Pop. cbn [items lookups]. rewrite L, Hx. cbn [mbind option_bind].
    rewrite Hxs, delete_delete_eq. reflexivity.
  - destruct (lookup_lt_is_Some_2 (items q) n) as [b Hb]; [lia|].
    rewrite (Swap_Some q i n x b Hx Hb).
    rewrite (Swap_Some (PriorityQueue (delete s (lookups q)) (items q)) i n x b Hx Hb).
    cbn [lookups items]. rewrite Hxs.
    replace (<[s:=n]> (<[item_s b:=i]> (delete s (lookups q))))
      with (<[s:=n]> (<[item_s b:=i]> (lookups q))); [reflexivity|].
    apply map_eq. intros t.
    destruct (decide (t = s)) as [->|Hts]; [rewrite !lookup_insert_eq; reflexivity|].
    rewrite !(lookup_insert_ne _ s t) by congruence.
    destruct (decide (t = item_s b)) as [->|Htb]; [rewrite !lookup_insert_eq; reflexivity|].
    rewrite !(lookup_insert_ne _ (item_s b) t) by congruence.
    rewrite lookup_delete_ne by congruence. reflexivity.
Qed.

(** *** The queue operations *)

Lemma contains_true q s : pq.contains q s = true <-> is_Some (lookups q !! s).
Proof. unfold pq.contains. apply bool_decide_eq_true. Qed.

Lemma contains_false q s : pq.contains q s = false <-> lookups q !! s = None.
Proof.
  unfold pq.contains. rewrite bool_decide_eq_false, eq_None_not_Some. reflexivity.
Qed.

Lemma insert_index q s k :
  index_inv q -> pq.contains q s = false ->
  exists q', pq.insert q s k = Some q' /\ index_inv q' /\
    length (items q') = S (length (items q)) /\
    (forall it, it ∈ items q' <-> it = PqItem s k \/ it ∈ items q).
Proof.
  intros Hq Hc. apply contains_false in Hc. unfold pq.insert.
  apply heap_Push_index; assumption.
Qed.

Lemma remove_index q s i x :
  index_inv q -> lookups q !! s = Some i -> items q !! i = Some x ->
  exists q', pq.remove q s = Some q' /\ index_inv q' /\
    S (length (items q')) = length (items q) /\
    (forall it, it ∈ items q' <-> it ∈ items q /\ it <> x).
Proof.
  intros Hq Hs Hx. unfold pq.remove. cbv zeta. rewrite Hs. cbn [default from_option id].
  rewrite (heap_Remove_delete q s i Hq Hs).
  destruct (heap_Remove_index q i x Hq Hx) as (q' & -> & I' & L' & M').
  exists q'. cbn [mbind option_bind]. auto.
Qed.

(** Whatever index [remove] and [update] start from, what they return
    has a consistent index. *)
Lemma remove_index_inv q s q' :
  index_inv q -> pq.remove q s = Some q' -> index_inv q'.
Proof.
  intros Hq HR. destruct (lookups q !! s) as [i|] eqn:Hs.
  - destruct (index_inv_item q s i Hq Hs) as (x & Hx & _).
    destruct (remove_index q s i x Hq Hs Hx) as (q2 & E & I2 & _).
    rewrite E in HR. injection HR as <-. exact I2.
  - unfold pq.remove in HR. cbv zeta in HR. rewrite Hs in HR. cbn [default from_option id] in HR.
    rewrite (delete_id _ _ Hs) in HR.
    replace (PriorityQueue (lookups q) (items q)) with q in HR by (destruct q; reflexivity).
    destruct (items q !! 0%nat) as [x|] eqn:Hx.
    + destruct (heap_Remove_index q 0 x Hq Hx) as (q2 & E & I2 & _).
      rewrite E in HR. cbn in HR. injection HR as <-. exact I2.
    + exfalso. apply lookup_ge_None in Hx. unfold heap.Remove, pqi.Len in HR.
      destruct (length (items q)); [discriminate|lia].
Qed.

Lemma pop_index_inv q q' s :
  index_inv q -> pq.pop q = Some (q', s) -> index_inv q'.
Proof.
  intros Hq HP. unfold pq.pop in HP.
  destruct (items q !! 0%nat) as [x|] eqn:Hx.
  - destruct (heap_Pop_index q x Hq Hx) as (q2 & E & I2 & _).
    rewrite E in HP. cbn in HP. injection HP as <- _. exact I2.
  - exfalso. apply lookup_ge_None in Hx. unfold heap.Pop, pqi.Len in HP.
    destruct (length (items q)); [discriminate|lia].
Qed.

Lemma update_index_inv q s k q' :
  index_inv q -> pq.update q s k = Some q' -> index_inv q'.
Proof.
  intros Hq HU. unfold pq.update in HU. cbv zeta in HU.
  set (i := default 0%nat (lookups q !! s)) in *.
  destruct (items q !! i) as [x|] eqn:Hx; [|discriminate].
  cbn [mbind option_bind] in HU.
  destruct (decide (compare (item_k x) k <> 0)); [|injection HU as <-; exact Hq].
  destruct (heap_Remove_index q i x Hq Hx) as (q1 & E & I1 & _ & M1).
  rewrite E in HU. cbn [mbind option_bind] in HU.
  destruct (lookups q1 !! s) as [j|] eqn:Hs1.
  - (* the entry removed was the one of [s], if [s] had one *)
    exfalso. destruct (index_inv_item q1 s j I1 Hs1) as (y & Hy & Hys).
    assert (y ∈ items q1) as Hin by (eapply list_elem_of_lookup_2; exact Hy).
    apply M1 in Hin as [Hin Hne]. apply list_elem_of_lookup in Hin as [j0 Hj0].
    assert (lookups q !! s = Some j0) as Hl
      by (apply Hq; rewrite states_lookup, Hj0; cbn; congruence).
    subst i. rewrite Hl in Hx. cbn [default from_option id] in Hx. congruence.
  - destruct (heap_Push_index q1 (PqItem s k) I1 Hs1) as (q2 & E2 & I2 & _).
    rewrite E2 in HU. injection HU as <-. exact I2.
Qed.

Lemma update_is_Some q s k :
  index_inv q -> pq.contains q s = true -> is_Some (pq.update q s k).
Proof.
  intros Hq Hc. apply contains_true in Hc as [i Hs].
  destruct (index_inv_item q s i Hq Hs) as (x & Hx & _).
  unfold pq.update. cbv zeta. rewrite Hs. cbn [default from_option id].
  rewrite Hx. cbn [mbind option_bind].
  destruct (decide (compare (item_k x) k <> 0)); [|eauto].
  destruct (heap_Remove_index q i x Hq Hx) as (q1 & -> & _).
  cbn [mbind option_bind]. apply heap_Push_is_Some.
Qed.

Lemma pop_is_Some q :
  index_inv q -> items q <> [] -> is_Some (pq.pop q).
Proof.
  intros Hq Hne. unfold pq.pop.
  destruct (items q) as [|x l] eqn:E; [congruence|].
  destruct (heap_Pop_index q x Hq) as (q' & -> & _); [rewrite E; reflexivity|].
  cbn. eauto.
Qed.

(** The queue is empty for [isEmpty] exactly when [items] is. *)
Lemma isEmpty_items q : index_inv q -> (pq.isEmpty q = true <-> items q = []).
Proof.
  intros Hq. unfold pq.isEmpty. rewrite bool_decide_eq_true, map_size_empty_iff. split.
  - intros E. destruct (items q) as [|x l] eqn:Ei; [reflexivity|exfalso].
    assert (lookups q !! item_s x = Some 0%nat) as Hl
      by (apply Hq; rewrite states_lookup, Ei; reflexivity).
    rewrite E, lookup_empty in Hl. discriminate.
  - intros E. apply map_eq. intros s. rewrite lookup_empty.
    destruct (lookups q !! s) as [i|] eqn:Hs; [|reflexivity].
    apply Hq in Hs. rewrite states_lookup, E in Hs. discriminate.
Qed.

(** The key of a queued state, read off the array. *)
Lemma key_of_elem q s k :
  index_inv q -> (key_of q s = Some k <-> PqItem s k ∈ items q).
Proof.
  intros Hq. unfold key_of. split.
  - destruct (lookups q !! s) as [i|] eqn:Hs; [|discriminate].
    destruct (index_inv_item q s i Hq Hs) as (x & Hx & Hxs).
    cbn [mbind option_bind]. rewrite Hx. cbn [mbind option_bind]. intros [= <-].
    apply list_elem_of_lookup. exists i. rewrite Hx. destruct x; cbn in *. congruence.
  - intros Hin. apply list_elem_of_lookup in Hin as [i Hi].
    assert (lookups q !! s = Some i) as ->
      by (apply Hq; rewrite states_lookup, Hi; reflexivity).
    cbn [mbind option_bind]. rewrite Hi. reflexivity.
Qed.

Lemma key_of_contains q s :
  index_inv q -> (pq.contains q s = true <-> is_Some (key_of q s)).
Proof.
  intros Hq. rewrite contains_true. unfold key_of. split.
  - intros [i Hs]. destruct (index_inv_item q s i Hq Hs) as (x & Hx & _).
    rewrite Hs. cbn. rewrite Hx. cbn. eauto.
  - intros [k Hk]. destruct (lookups q !! s); [eauto|discriminate].
Qed.

Lemma key_of_unique q s k1 k2 :
  index_inv q -> PqItem s k1 ∈ items q -> PqItem s k2 ∈ items q -> k1 = k2.
Proof.
  intros Hq H1 H2. apply (key_of_elem q s k1 Hq) in H1. apply (key_of_elem q s k2 Hq) in H2.
  congruence.
Qed.

(** C9.  The index map stays consistent with the array across every
    operation on a consistent queue: the heap.Interface methods [Swap]
    (indices in range), [Push] (of a state not queued) and [Pop] (queue not
    empty), and the operations [insert] (state not queued), [pop] (queue not
    empty), [update] and [remove] (state queued); each of these returns. *)
Theorem index_ok_preserved (q : queue) :
  index_ok q ->
  (forall i j, (i < length (items q))%nat -> (j < length (items q))%nat ->
     exists q', pqi.Swap q i j = Some q' /\ index_ok q') /\
  (forall it, pq.contains q (item_s it) = false -> index_ok (pqi.Push q it)) /\
  (items q <> [] -> exists q' it, pqi.Pop q = Some (q', it) /\ index_ok q') /\
  (forall s k, pq.contains q s = false ->
     exists q', pq.insert q s k = Some q' /\ index_ok q') /\
  (items q <> [] -> exists q' s, pq.pop q = Some (q', s) /\ index_ok q') /\
  (forall s k, pq.contains q s = true ->
     exists q', pq.update q s k = Some q' /\ index_ok q') /\
  (forall s, pq.contains q s = true ->
     exists q', pq.remove q s = Some q' /\ index_ok q').
Proof.
  intros Hq. apply index_ok_inv in Hq.
  split; [|split; [|split; [|split; [|split; [|split]]]]].
  - intros i j Hi Hj. destruct (Swap_is_Some q i j Hi Hj) as (a & b & _ & _ & HS).
    eexists. split; [exact HS|]. apply index_ok_inv. eapply Swap_index_inv; eassumption.
  - intros it Hc. apply index_ok_inv. apply Push_index_inv; [exact Hq|].
    apply contains_false. exact Hc.
  - intros Hne. destruct (Pop_is_Some q) as [[q' it] HP].
    { destruct (items q); [congruence|cbn; lia]. }
    exists q', it. split; [exact HP|]. apply index_ok_inv. eapply Pop_index_inv; eassumption.
  - intros s k Hc. destruct (insert_index q s k Hq Hc) as (q' & HI & I' & _).
    exists q'. split; [exact HI|]. apply index_ok_inv. exact I'.
  - intros Hne. destruct (pop_is_Some q Hq Hne) as [[q' s] HP].
    exists q', s. split; [exact HP|]. apply index_ok_inv. eapply pop_index_inv; eassumption.
  - intros s k Hc. destruct (update_is_Some q s k Hq Hc) as [q' HU].
    exists q'. split; [exact HU|]. apply index_ok_inv. eapply update_index_inv; eassumption.
  - intros s Hc. apply contains_true in Hc as [i Hs].
    destruct (index_inv_item q s i Hq Hs) as (x & Hx & _).
    destruct (remove_index q s i x Hq Hs Hx) as (q' & HR & I' & _).
    exists q'. split; [exact HR|]. apply index_ok_inv. exact I'.
Qed.

(** C7.  On a consistent queue where [s] is queued under the key [kc]:
    when [kc] compares equal to [k], [update(s, k)] returns the queue as it
    is; otherwise it returns, and returns the very queue that [remove(s)]
    followed by [insert(s, k)] returns. *)
Theorem update_remove_insert (q : queue) (s : State) (k kc : key F) :
  index_ok q -> key_of q s = Some kc ->
  (compare kc k = 0 -> pq.update q s k = Some q) /\
  (compare kc k <> 0 ->
     is_Some (pq.update q s k) /\
     pq.update q s k = (q1 ← pq.remove q s; pq.insert q1 s k)).
Proof.
  intros Hq Hk. apply index_ok_inv in Hq.
  assert (pq.contains q s = true) as Hc by (apply key_of_contains; eauto).
  unfold key_of in Hk.
  destruct (lookups q !! s) as [i|] eqn:Hs; [|discriminate].
  cbn [mbind option_bind] in Hk.
  destruct (items q !! i) as [x|] eqn:Hx; [|discriminate].
  cbn [mbind option_bind] in Hk. injection Hk as <-.
  split.
  - intros E. unfold pq.update. cbv zeta. rewrite Hs. cbn [default from_option id].
    rewrite Hx. cbn [mbind option_bind]. rewrite decide_False by tauto. reflexivity.
  - intros NE. split; [apply update_is_Some; assumption|].
    unfold pq.update, pq.remove, pq.insert. cbv zeta. rewrite Hs. cbn [default from_option id].
    rewrite Hx. cbn [mbind option_bind]. rewrite decide_True by assumption.
    rewrite (heap_Remove_delete q s i Hq Hs).
    destruct (heap.Remove q i) as [[q1 y]|]; reflexivity.
Qed.

(** [update] of a queued state returns, keeps the index consistent and
    keeps the state queued. *)
Lemma update_index q s k :
  index_inv q -> pq.contains q s = true ->
  exists q', pq.update q s k = Some q' /\ index_inv q' /\ pq.contains q' s = true.
Proof.
  intros Hq Hc. destruct (update_is_Some q s k Hq Hc) as [q' HU].
  exists q'. split; [exact HU|]. split; [eapply update_index_inv; eassumption|].
  apply contains_true in Hc as [i Hs].
  destruct (index_inv_item q s i Hq Hs) as (x & Hx & Hxs).
  unfold pq.update in HU. cbv zeta in HU. rewrite Hs in HU. cbn [default from_option id] in HU.
  rewrite Hx in HU. cbn [mbind option_bind] in HU.
  destruct (decide (compare (item_k x) k <> 0)).
  - destruct (heap.Remove q i) as [[q1 y]|]; [|discriminate]. cbn [mbind option_bind] in HU.
    unfold heap.Push, heap.up in HU.
    apply contains_true.
    assert (forall q0 : queue, is_Some (lookups q0 !! s) -> forall fuel j q2,
              heap.up_loop fuel q0 j = Some q2 -> is_Some (lookups q2 !! s)) as Hkeep.
    { intros q0 H0' fuel j q2 Hup.
      apply (up_loop_preserves (fun q3 => is_Some (lookups q3 !! s)) (S j))
        with (fuel := fuel) (q := q0) (j := j); [|lia|exact H0'|exact Hup].
      intros q3 i3 j3 q3' _ _ [v Hv] HS.
      apply Swap_inv in HS as (a & b & _ & _ & ->). cbn [lookups].
      destruct (decide (item_s a = s)) as [<-|?]; [rewrite lookup_insert_eq; eauto|].
      rewrite lookup_insert_ne by assumption.
      destruct (decide (item_s b = s)) as [<-|?]; [rewrite lookup_insert_eq; eauto|].
      rewrite lookup_insert_ne by assumption. eauto. }
    eapply Hkeep; [|exact HU]. unfold pqi.Push. cbn [lookups item_s].
    rewrite lookup_insert_eq. eauto.
  - injection HU as <-. apply contains_true. eauto.
Qed.

Lemma insert_contains q s k q' :
  index_inv q -> pq.contains q s = false -> pq.insert q s k = Some q' ->
  pq.contains q' s = true.
Proof.
  intros Hq Hc HI. destruct (insert_index q s k Hq Hc) as (q2 & E & I2 & _ & M2).
  rewrite E in HI. injection HI as <-.
  apply (key_of_contains q2 s I2). exists k. apply (key_of_elem q2 s k I2).
  apply M2. left. reflexivity.
Qed.

Lemma remove_contains q s q' :
  index_inv q -> pq.contains q s = true -> pq.remove q s = Some q' ->
  pq.contains q' s = false.
Proof.
  intros Hq Hc HR. apply contains_true in Hc as [i Hs].
  destruct (index_inv_item q s i Hq Hs) as (x & Hx & Hxs).
  destruct (remove_index q s i x Hq Hs Hx) as (q2 & E & I2 & _ & M2).
  rewrite E in HR. injection HR as <-.
  destruct (pq.contains q2 s) eqn:Hc2; [exfalso|reflexivity].
  apply (key_of_contains q2 s I2) in Hc2 as [k Hk].
  apply (key_of_elem q2 s k I2) in Hk. apply M2 in Hk as [Hin Hne].
  apply Hne. apply list_elem_of_lookup in Hin as [j Hj].
  assert (lookups q !! s = Some j) as Hl
    by (apply Hq; rewrite states_lookup, Hj; reflexivity).
  congruence.
Qed.

End QueueIndex.



(** ** The heap order of the queue

    [compare] is only assumed to order the keys that satisfy [ok]
    (on float64: the keys without NaN). *)

Section QueueOrder.
Context {State : Type} `{Countable State} {F : Type} `{Float64 F}.
Local Abbreviation queue := (priorityQueue State F).
Implicit Types (q : queue) (l : list (pqItem State F)) (i j n c : nat).

Variable ok : key F -> Prop.
Hypothesis kle_refl : forall x, ok x -> kle x x.
Hypothesis kle_trans : forall x y z, ok x -> ok y -> ok z -> kle x y -> kle y z -> kle x z.
Hypothesis lt_kle : forall x y, ok x -> ok y -> compare x y = -1 -> kle x y.

Lemma all_ok_lookup l i x : all_ok ok l -> l !! i = Some x -> ok (item_k x).
Proof. intros Hl Hx. apply Hl. eapply list_elem_of_lookup_2. exact Hx. Qed.

Lemma Swap_all_ok q i j q' :
  all_ok ok (items q) -> pqi.Swap q i j = Some q' -> all_ok ok (items q').
Proof.
  intros Hq HS it Hit. apply Hq. apply (Swap_elem_of q i j q' it HS). exact Hit.
Qed.

Lemma le_at_trans l a b c :
  all_ok ok l -> is_Some (l !! b) -> le_at l a b -> le_at l b c -> le_at l a c.
Proof.
  intros Hl [y Hy] Hab Hbc x z Hx Hz.
  apply (kle_trans _ (item_k y)); eauto using all_ok_lookup.
Qed.

(** What [Less] answers, on the order. *)
Lemma Less_true_le q a b :
  all_ok ok (items q) -> pqi.Less q a b = Some true -> le_at (items q) a b.
Proof.
  intros Hq HL x y Hx Hy. apply Less_inv in HL as (x' & y' & Hx' & Hy' & E).
  assert (x' = x) by congruence. assert (y' = y) by congruence. subst.
  symmetry in E. apply bool_decide_eq_true in E.
  apply lt_kle; eauto using all_ok_lookup.
Qed.

Lemma Less_false_le q a b :
  pqi.Less q a b = Some false -> le_at (items q) b a.
Proof.
  intros HL y x Hy Hx. apply Less_inv in HL as (x' & y' & Hx' & Hy' & E).
  assert (x' = x) by congruence. assert (y' = y) by congruence. subst.
  symmetry in E. apply bool_decide_eq_false in E. exact E.
Qed.

(** [le_at] after an exchange, read on the list before it. *)
Lemma le_at_Swap q i j q' a b a0 b0 :
  pqi.Swap q i j = Some q' ->
  a0 = (if decide (a = j) then i else if decide (a = i) then j else a) ->
  b0 = (if decide (b = j) then i else if decide (b = i) then j else b) ->
  le_at (items q) a0 b0 -> le_at (items q') a b.
Proof.
  intros HS -> -> Hle x y Hx Hy.
  rewrite (Swap_lookup q i j q' a HS) in Hx. rewrite (Swap_lookup q i j q' b HS) in Hy.
  apply Hle; repeat case_decide; assumption.
Qed.

(** *** up *)

Lemma up_step_heap q j n q1 :
  all_ok ok (items q) -> (j < n <= length (items q))%nat ->
  heap_but_up (items q) j n ->
  parent j <> j -> pqi.Less q j (parent j) = Some true ->
  pqi.Swap q (parent j) j = Some q1 ->
  heap_but_up (items q1) (parent j) n.
Proof.
  intros Hok Hj [H1 H2] Hne HL HS.
  assert (0 < j)%nat as Hj0 by (destruct j; [exfalso; apply Hne; reflexivity|lia]).
  pose proof (parent_lt j Hj0) as Hpj.
  pose proof (Less_true_le q j (parent j) Hok HL) as Hjp.
  assert (forall k, (k < n)%nat -> is_Some (items q !! k)) as Hin
    by (intros k Hk; apply lookup_lt_is_Some_2; lia).
  split.
  - intros c Hc Hcp.
    destruct (decide (c = j)) as [->|Hcj].
    + eapply le_at_Swap; [exact HS|reflexivity|reflexivity|].
      rewrite decide_False by lia. rewrite !decide_True by reflexivity. exact Hjp.
    + pose proof (parent_lt c ltac:(lia)) as Hpc.
      eapply le_at_Swap; [exact HS|reflexivity|reflexivity|].
      rewrite (decide_False (P := c = j)), (decide_False (P := c = parent j)) by assumption.
      destruct (decide (parent c = j)) as [E|NE].
      * apply H2; [lia|exact E|exact Hj0].
      * destruct (decide (parent c = parent j)) as [E'|NE'].
        -- apply (le_at_trans _ j (parent j) c Hok); [apply Hin; lia|exact Hjp|].
           rewrite <- E'. apply H1; [lia|exact Hcj].
        -- apply H1; [lia|exact Hcj].
  - intros c Hc Hcp Hp0.
    pose proof (parent_lt (parent j) Hp0) as Hpp.
    eapply le_at_Swap; [exact HS|reflexivity|reflexivity|].
    rewrite (decide_False (P := parent (parent j) = j)),
            (decide_False (P := parent (parent j) = parent j)) by lia.
    destruct (decide (c = j)) as [->|Hcj].
    + apply H1; lia.
    + assert (c <> parent j) by (pose proof (parent_lt c ltac:(lia)); lia).
      rewrite (decide_False (P := c = parent j)) by assumption.
      apply (le_at_trans _ _ (parent j) c Hok); [apply Hin; lia| |].
      * apply H1; lia.
      * rewrite <- Hcp. apply H1; [lia|exact Hcj].
Qed.

Lemma up_loop_heap fuel q j n q' :
  all_ok ok (items q) -> (j < fuel)%nat -> (j < n <= length (items q))%nat ->
  heap_but_up (items q) j n ->
  heap.up_loop fuel q j = Some q' ->
  heap_upto (items q') n.
Proof.
  revert q j. induction fuel as [|fuel IH]; intros q j Hok Hf Hj Hh Hup; [lia|].
  apply up_loop_S_inv in Hup as [(E & ->)|[(NE & HL & ->)|(NE & HL & q1 & HS & Hup)]].
  - apply parent_0 in E. subst j. intros c Hc. apply Hh; lia.
  - intros c Hc. destruct (decide (c = j)) as [->|Hcj].
    + apply (Less_false_le q _ _ HL).
    + apply Hh; assumption.
  - assert (0 < j)%nat as Hj0 by (destruct j; [exfalso; apply NE; reflexivity|lia]).
    pose proof (parent_lt j Hj0) as Hpj.
    apply (IH q1 (parent j)); [| | | |exact Hup].
    + eapply Swap_all_ok; eassumption.
    + lia.
    + rewrite (Swap_length _ _ _ _ HS). lia.
    + eapply up_step_heap; eassumption.
Qed.

(** *** down *)

Lemma lesser_child_parent q i j n : lesser_child q i j n -> parent j = i /\ (i < j)%nat.
Proof.
  intros [(-> & _)|(-> & _)]; split; try lia; [apply parent_right|apply parent_left].
Qed.

Lemma lesser_child_le q i j n c :
  all_ok ok (items q) -> (n <= length (items q))%nat -> (2 * i + 1 < n)%nat ->
  lesser_child q i j n -> (0 < c < n)%nat -> parent c = i -> le_at (items q) j c.
Proof.
  intros Hok Hn Hlt Hj Hc Hp.
  assert (forall x0, ok x0 -> kle x0 x0) as R by exact kle_refl.
  assert (forall k, le_at (items q) k k) as Rk.
  { intros k x y Hx Hy. assert (x = y) by congruence. subst y.
    apply R. eapply all_ok_lookup; eassumption. }
  destruct (parent_child i c Hp ltac:(lia)) as [->| ->];
    destruct Hj as [(-> & L2 & HL)|(-> & HL)]; try apply Rk.
  - apply (Less_true_le q _ _ Hok HL).
  - apply (Less_false_le q _ _ (HL ltac:(lia))).
Qed.

Lemma down_step_heap q i j n q1 :
  all_ok ok (items q) -> (i < n <= length (items q))%nat -> (2 * i + 1 < n)%nat ->
  heap_hole (items q) i n ->
  lesser_child q i j n -> pqi.Less q j i = Some true ->
  pqi.Swap q i j = Some q1 ->
  heap_but_down (items q1) j n.
Proof.
  intros Hok Hi Hlt [H1 H2] Hj HL HS.
  destruct (lesser_child_parent q i j n Hj) as [Hpj Hij].
  assert (j < n)%nat as Hjn by (destruct Hj as [(-> & ? & _)|(-> & _)]; lia).
  pose proof (Less_true_le q j i Hok HL) as Hji.
  assert (forall k, (k < n)%nat -> is_Some (items q !! k)) as Hin
    by (intros k Hk; apply lookup_lt_is_Some_2; lia).
  split.
  - intros c Hc Hcp.
    eapply le_at_Swap; [exact HS|reflexivity|reflexivity|].
    destruct (decide (c = j)) as [->|Hcj].
    + rewrite Hpj. rewrite (decide_False (P := i = j)) by lia.
      rewrite (decide_True (P := i = i)) by reflexivity. exact Hji.
    + destruct (decide (c = i)) as [->|Hci].
      * pose proof (parent_lt i ltac:(lia)).
        rewrite (decide_False (P := parent i = j)), (decide_False (P := parent i = i)) by lia.
        apply H2; [lia|exact Hpj|lia].
      * rewrite (decide_False (P := parent c = j)) by assumption.
        destruct (decide (parent c = i)) as [E|NE].
        -- eapply lesser_child_le; try eassumption; lia.
        -- apply H1; assumption.
  - intros c Hc Hcp Hj0.
    pose proof (parent_lt c ltac:(lia)).
    eapply le_at_Swap; [exact HS|reflexivity|reflexivity|].
    rewrite Hpj. rewrite (decide_False (P := i = j)) by lia.
    rewrite (decide_True (P := i = i)) by reflexivity.
    rewrite (decide_False (P := c = j)), (decide_False (P := c = i)) by lia.
    rewrite <- Hcp. apply H1; lia.
Qed.

Lemma heap_but_down_hole l i n : heap_but_down l i n -> heap_hole l i n.
Proof. intros [H1 H2]. split; [intros; apply H1; assumption|exact H2]. Qed.

(** When [down] stops, the entry is not above its children. *)
Lemma down_stop_le q i j n c :
  all_ok ok (items q) -> (i < n <= length (items q))%nat -> (2 * i + 1 < n)%nat ->
  lesser_child q i j n -> pqi.Less q j i = Some false ->
  (0 < c < n)%nat -> parent c = i -> le_at (items q) i c.
Proof.
  intros Hok Hi Hlt Hj HL Hc Hp.
  assert (j < n)%nat as Hjn by (destruct Hj as [(-> & ? & _)|(-> & _)]; lia).
  apply (le_at_trans _ i j c Hok).
  - apply lookup_lt_is_Some_2. lia.
  - apply (Less_false_le q _ _ HL).
  - eapply lesser_child_le; try eassumption; lia.
Qed.

Lemma down_loop_heap fuel q i n q' i' :
  all_ok ok (items q) -> (n - i <= fuel)%nat -> (i < n <= length (items q))%nat ->
  heap_but_down (items q) i n ->
  heap.down_loop fuel q i n = Some (q', i') ->
  heap_upto (items q') n /\ (i <= i')%nat.
Proof.
  revert q i. induction fuel as [|fuel IH]; intros q i Hok Hf Hi Hh Hd; [lia|].
  apply down_loop_S_inv in Hd as [(L & -> & ->)|(j & Hlt & Hj & Hd)].
  - split; [|lia]. intros c Hc. apply Hh; [exact Hc|].
    intros E. destruct (parent_child i c E ltac:(lia)); lia.
  - fold (lesser_child q i j n) in Hj.
    destruct Hd as [(HL & -> & ->)|(HL & q1 & HS & Hd)].
    + split; [|lia]. intros c Hc. destruct (decide (parent c = i)) as [E|NE].
      * rewrite E. eapply down_stop_le; eassumption.
      * apply Hh; assumption.
    + destruct (lesser_child_parent q i j n Hj) as [Hpj Hij].
      assert (j < n)%nat as Hjn by (destruct Hj as [(-> & ? & _)|(-> & _)]; lia).
      destruct (IH q1 j) as [IH1 IH2]; [| | | |exact Hd|].
      * eapply Swap_all_ok; eassumption.
      * lia.
      * rewrite (Swap_length _ _ _ _ HS). lia.
      * eapply down_step_heap; try eassumption. apply heap_but_down_hole. exact Hh.
      * split; [exact IH1|lia].
Qed.

(** [down] from a hole: either it moved the entry and the order holds, or
    nothing changed and only the parent of the entry may be above it. *)
Lemma down_hole q i n q' moved :
  all_ok ok (items q) -> (i < n <= length (items q))%nat ->
  heap_hole (items q) i n ->
  heap.down q i n = Some (q', moved) ->
  if moved then heap_upto (items q') n else q' = q /\ heap_but_up (items q) i n.
Proof.
  intros Hok Hi Hh Hd. unfold heap.down in Hd.
  destruct (heap.down_loop n q i n) as [[q2 i2]|] eqn:Hl; cbn in Hd; [|discriminate].
  injection Hd as <- <-.
  destruct n as [|n]; [lia|].
  apply down_loop_S_inv in Hl as [(L & -> & ->)|(j & Hlt & Hj & Hl)].
  - rewrite bool_decide_eq_false_2 by lia. split; [reflexivity|].
    destruct Hh as [H1 H2]. split; [|exact H2].
    intros c Hc Hci. apply H1; [exact Hc|exact Hci|].
    intros E. destruct (parent_child i c E ltac:(lia)); lia.
  - fold (lesser_child q i j (S n)) in Hj.
    destruct Hl as [(HL & -> & ->)|(HL & q1 & HS & Hl)].
    + rewrite bool_decide_eq_false_2 by lia. split; [reflexivity|].
      destruct Hh as [H1 H2]. split; [|exact H2].
      intros c Hc Hci. destruct (decide (parent c = i)) as [E|NE].
      * rewrite E. eapply down_stop_le; eassumption.
      * apply H1; assumption.
    + destruct (lesser_child_parent q i j (S n) Hj) as [Hpj Hij].
      assert (j < S n)%nat as Hjn by (destruct Hj as [(-> & ? & _)|(-> & _)]; lia).
      destruct (down_loop_heap n q1 j (S n) q2 i2) as [D1 D2]; [| | | |exact Hl|].
      * eapply Swap_all_ok; eassumption.
      * lia.
      * rewrite (Swap_length _ _ _ _ HS). lia.
      * eapply down_step_heap; eassumption.
      * rewrite bool_decide_eq_true_2 by lia. exact D1.
Qed.

(** *** The heap order across heap.Push, heap.Pop and heap.Remove *)

Lemma up_loop_all_ok fuel q j q' :
  all_ok ok (items q) -> heap.up_loop fuel q j = Some q' -> all_ok ok (items q').
Proof.
  intros Hok Hup.
  apply (up_loop_preserves (fun q0 => all_ok ok (items q0)) (S j))
    with (fuel := fuel) (q := q) (j := j); [|lia|exact Hok|exact Hup].
  intros q0 i0 j0 q0' _ _ H0' HS. exact (Swap_all_ok _ _ _ _ H0' HS).
Qed.

Lemma down_all_ok q i n q' moved :
  all_ok ok (items q) -> (i < n)%nat -> heap.down q i n = Some (q', moved) ->
  all_ok ok (items q') /\ length (items q') = length (items q).
Proof.
  intros Hok Hi Hd. unfold heap.down in Hd.
  destruct (heap.down_loop n q i n) as [[q2 i2]|] eqn:Hl; cbn in Hd; [|discriminate].
  injection Hd as <- <-. split; [|exact (down_loop_length _ _ _ _ _ _ Hl)].
  apply (down_loop_preserves (fun q0 => all_ok ok (items q0)) n)
    with (fuel := n) (q := q) (i := i) (i' := i2); [|exact Hi|exact Hok|exact Hl].
  intros q0 i0 j0 q0' _ _ H0' HS. exact (Swap_all_ok _ _ _ _ H0' HS).
Qed.

Lemma heap_upto_take l n :
  (n <= length l)%nat -> heap_upto l n -> heap_upto (take n l) (length (take n l)).
Proof.
  intros Hn Hh j Hj x y Hx Hy. rewrite length_take in Hj.
  pose proof (parent_le j).
  rewrite lookup_take_lt in Hx by lia. rewrite lookup_take_lt in Hy by lia.
  apply (Hh j ltac:(lia) x y Hx Hy).
Qed.

Lemma heap_Push_heap q x q' :
  all_ok ok (items q) -> ok (item_k x) -> heap_ok q ->
  heap.Push q x = Some q' -> heap_ok q' /\ all_ok ok (items q').
Proof.
  intros Hok Hx Hh HP. unfold heap.Push, heap.up, pqi.Len in HP.
  set (q1 := pqi.Push q x) in *. set (n := length (items q)).
  assert (items q1 = items q ++ [x]) as E1 by reflexivity.
  assert (length (items q1) = S n) as L1 by (rewrite E1, length_app; cbn; lia).
  rewrite L1 in HP. cbn [Nat.sub] in HP. rewrite Nat.sub_0_r in HP.
  assert (all_ok ok (items q1)) as Hok1.
  { intros it. rewrite E1, elem_of_app, list_elem_of_singleton.
    intros [Hin| ->]; [apply Hok; exact Hin|exact Hx]. }
  split; [|exact (up_loop_all_ok _ _ _ _ Hok1 HP)].
  unfold heap_ok. rewrite (up_loop_length _ _ _ _ HP), L1.
  apply (up_loop_heap (S n) q1 n (S n) q' Hok1); [lia|lia| |exact HP].
  split.
  - intros c Hc Hcn a b Ha Hb. pose proof (parent_le c).
    rewrite E1 in Ha, Hb. rewrite lookup_app_l in Ha by (fold n; lia).
    rewrite lookup_app_l in Hb by (fold n; lia).
    apply (Hh c ltac:(fold n; lia) a b Ha Hb).
  - intros c Hc Hp. pose proof (parent_lt c ltac:(lia)). lia.
Qed.

Lemma Swap_last_hole q i n q1 :
  all_ok ok (items q) -> length (items q) = S n -> (i < n)%nat ->
  heap_ok q -> pqi.Swap q i n = Some q1 -> heap_hole (items q1) i n.
Proof.
  intros Hok L Hi Hh HS. unfold heap_ok in Hh. rewrite L in Hh. split.
  - intros c Hc Hci Hpi. pose proof (parent_le c).
    eapply le_at_Swap; [exact HS|reflexivity|reflexivity|].
    rewrite !decide_False by lia. apply Hh. lia.
  - intros c Hc Hpi Hi0. pose proof (parent_lt c ltac:(lia)). pose proof (parent_lt i Hi0).
    eapply le_at_Swap; [exact HS|reflexivity|reflexivity|].
    rewrite !decide_False by lia.
    apply (le_at_trans _ _ i c Hok); [apply lookup_lt_is_Some_2; lia| |].
    + apply Hh. lia.
    + rewrite <- Hpi. apply Hh. lia.
Qed.

Lemma Pop_heap q n q' x :
  length (items q) = S n -> heap_upto (items q) n -> all_ok ok (items q) ->
  pqi.Pop q = Some (q', x) -> heap_ok q' /\ all_ok ok (items q').
Proof.
  intros L Hh Hok HP. apply Pop_inv in HP as (m & L' & _ & ->).
  assert (m = n) by lia. subst m. cbn [items]. split.
  - unfold heap_ok. cbn [items]. apply heap_upto_take; [lia|exact Hh].
  - intros it Hin. apply Hok. apply elem_of_take in Hin as (k & Hk & _).
    eapply list_elem_of_lookup_2. exact Hk.
Qed.

Lemma heap_Remove_heap q i q' x :
  all_ok ok (items q) -> heap_ok q ->
  heap.Remove q i = Some (q', x) -> heap_ok q' /\ all_ok ok (items q').
Proof.
  intros Hok Hh HR. unfold heap.Remove, pqi.Len in HR.
  destruct (length (items q)) as [|n] eqn:L; [discriminate|].
  destruct (decide (n = i)) as [->|Hni].
  - apply (Pop_heap q i q' x L); [|exact Hok|exact HR].
    intros j Hj. apply Hh. lia.
  - destruct (pqi.Swap q i n) as [q1|] eqn:HS; [|discriminate].
    cbn [mbind option_bind] in HR.
    assert (i < n)%nat as Hi.
    { apply Swap_inv in HS as (a & b & Ha & _). apply lookup_lt_Some in Ha. lia. }
    pose proof (Swap_all_ok _ _ _ _ Hok HS) as Hok1.
    pose proof (Swap_length _ _ _ _ HS) as L1. rewrite L in L1.
    pose proof (Swap_last_hole q i n q1 Hok L Hi Hh HS) as Hhole.
    destruct (heap.down q1 i n) as [[q2 moved]|] eqn:Hd; [|discriminate].
    cbn [mbind option_bind] in HR.
    destruct (down_all_ok q1 i n q2 moved Hok1 Hi Hd) as [Hok2 L2]. rewrite L1 in L2.
    pose proof (down_hole q1 i n q2 moved Hok1 ltac:(lia) Hhole Hd) as Hdown.
    destruct moved; cbn [negb] in HR.
    + cbn [mbind option_bind] in HR. exact (Pop_heap q2 n q' x L2 Hdown Hok2 HR).
    + destruct Hdown as [-> Hup].
      destruct (heap.up q1 i) as [q3|] eqn:Hu; [|discriminate].
      cbn [mbind option_bind] in HR. unfold heap.up in Hu.
      apply (Pop_heap q3 n q' x); [| | |exact HR].
      * rewrite (up_loop_length _ _ _ _ Hu). exact L1.
      * apply (up_loop_heap (S i) q1 i n q3 Hok1); [lia|lia|exact Hup|exact Hu].
      * exact (up_loop_all_ok _ _ _ _ Hok1 Hu).
Qed.

Lemma heap_Pop_heap q q' x :
  all_ok ok (items q) -> heap_ok q ->
  heap.Pop q = Some (q', x) -> heap_ok q' /\ all_ok ok (items q').
Proof.
  intros Hok Hh HR. unfold heap.Pop, pqi.Len in HR.
  destruct (length (items q)) as [|n] eqn:L; [discriminate|].
  destruct (pqi.Swap q 0 n) as [q1|] eqn:HS; [|discriminate].
  cbn [mbind option_bind] in HR.
  pose proof (Swap_all_ok _ _ _ _ Hok HS) as Hok1.
  pose proof (Swap_length _ _ _ _ HS) as L1. rewrite L in L1.
  destruct (heap.down q1 0 n) as [[q2 moved]|] eqn:Hd; [|discriminate].
  cbn [mbind option_bind] in HR.
  destruct n as [|n].
  - unfold heap.down in Hd. cbn in Hd. injection Hd as <- <-.
    apply (Pop_heap q1 0 q' x L1); [|exact Hok1|exact HR]. intros j Hj. lia.
  - destruct (down_all_ok q1 0 (S n) q2 moved Hok1 ltac:(lia) Hd) as [Hok2 L2].
    rewrite L1 in L2.
    apply (Pop_heap q2 (S n) q' x L2); [|exact Hok2|exact HR].
    unfold heap.down in Hd.
    destruct (heap.down_loop (S n) q1 0 (S n)) as [[q3 i3]|] eqn:Hl; cbn in Hd; [|discriminate].
    injection Hd as <- <-.
    apply (down_loop_heap (S n) q1 0 (S n) q3 i3 Hok1); [lia|lia| |exact Hl].
    unfold heap_ok in Hh. rewrite L in Hh. split.
    + intros c Hc Hp. pose proof (parent_le c).
      eapply le_at_Swap; [exact HS|reflexivity|reflexivity|].
      rewrite !decide_False by lia. apply Hh. lia.
    + intros; lia.
Qed.

(** The root is not above any entry. *)
Lemma heap_root_le l n j :
  all_ok ok l -> (n <= length l)%nat -> heap_upto l n -> (j < n)%nat -> le_at l 0 j.
Proof.
  intros Hok Hn Hh. induction j as [j IH] using lt_wf_ind. intros Hj.
  destruct (decide (j = 0%nat)) as [->|Hj0].
  - intros x y Hx Hy. assert (x = y) by congruence. subst y.
    apply kle_refl. eapply all_ok_lookup; eassumption.
  - pose proof (parent_lt j ltac:(lia)) as Hp.
    apply (le_at_trans _ 0%nat (parent j) j Hok).
    + apply lookup_lt_is_Some_2. lia.
    + apply IH; lia.
    + apply Hh. lia.
Qed.

(** *** The queue operations on the representation invariant *)

Lemma queue_inv_new : queue_inv ok (@pq.newPriorityQueue State _ _ F).
Proof.
  split; [|split].
  - intros s i. unfold states. cbn. rewrite lookup_empty. split; discriminate.
  - intros j Hj. cbn in Hj. lia.
  - intros it Hin. cbn in Hin. apply elem_of_nil in Hin. contradiction.
Qed.

Lemma top_spec q :
  queue_inv ok q -> items q <> [] ->
  exists x, items q !! 0%nat = Some x /\ pq.top q = Some (item_s x) /\
    pq.topKey q = item_k x /\
    forall it, it ∈ items q -> kle (item_k x) (item_k it).
Proof.
  intros (Hi & Hh & Hok) Hne. unfold pq.top, pq.topKey.
  assert (forall j it, items q !! j = Some it -> le_at (items q) 0 j) as Hroot.
  { intros j it Hj.
    exact (heap_root_le (items q) (length (items q)) j Hok (Nat.le_refl _) Hh
             (lookup_lt_Some _ _ _ Hj)). }
  destruct (items q) as [|x l] eqn:E; [congruence|].
  exists x. cbn. repeat split. intros it Hin.
  apply list_elem_of_lookup in Hin as [j Hj].
  exact (Hroot j it Hj x it eq_refl Hj).
Qed.

Lemma insert_spec q s k :
  queue_inv ok q -> pq.contains q s = false -> ok k ->
  exists q', pq.insert q s k = Some q' /\ queue_inv ok q' /\
    (forall it, it ∈ items q' <-> it = PqItem s k \/ it ∈ items q).
Proof.
  intros (Hi & Hh & Hok) Hc Hk.
  destruct (insert_index q s k Hi Hc) as (q' & HI & I' & _ & M').
  exists q'. split; [exact HI|]. split; [|exact M'].
  destruct (heap_Push_heap q (PqItem s k) q' Hok Hk Hh HI) as [Hh' Hok'].
  split; [exact I'|]. split; assumption.
Qed.

Lemma remove_spec q s i x :
  queue_inv ok q -> lookups q !! s = Some i -> items q !! i = Some x ->
  exists q', pq.remove q s = Some q' /\ queue_inv ok q' /\
    (forall it, it ∈ items q' <-> it ∈ items q /\ it <> x).
Proof.
  intros (Hi & Hh & Hok) Hs Hx.
  destruct (remove_index q s i x Hi Hs Hx) as (q' & HR & I' & _ & M').
  exists q'. split; [exact HR|]. split; [|exact M'].
  unfold pq.remove in HR. cbv zeta in HR. rewrite Hs in HR. cbn [default from_option id] in HR.
  rewrite (heap_Remove_delete q s i Hi Hs) in HR.
  destruct (heap.Remove q i) as [[q2 y]|] eqn:ER; [|discriminate].
  cbn in HR. injection HR as ->.
  destruct (heap_Remove_heap q i q' y Hok Hh ER) as [Hh' Hok'].
  split; [exact I'|]. split; assumption.
Qed.

Lemma update_spec q s i x k :
  queue_inv ok q -> lookups q !! s = Some i -> items q !! i = Some x -> ok k ->
  exists q', pq.update q s k = Some q' /\ queue_inv ok q' /\
    (compare (item_k x) k = 0 -> q' = q) /\
    (compare (item_k x) k <> 0 ->
       forall it, it ∈ items q' <-> it = PqItem s k \/ (it ∈ items q /\ it <> x)).
Proof.
  intros Hq Hs Hx Hk. pose proof Hq as (Hi & Hh & Hok).
  unfold pq.update. cbv zeta. rewrite Hs. cbn [default from_option id].
  rewrite Hx. cbn [mbind option_bind].
  destruct (decide (compare (item_k x) k <> 0)) as [NE|E].
  - destruct (heap_Remove_index q i x Hi Hx) as (q1 & ER & I1 & _ & M1).
    rewrite ER. cbn [mbind option_bind].
    destruct (heap_Remove_heap q i q1 x Hok Hh ER) as [Hh1 Hok1].
    assert (lookups q1 !! s = None) as Hs1.
    { destruct (lookups q1 !! s) as [j|] eqn:Hs1; [exfalso|reflexivity].
      destruct (index_inv_item q1 s j I1 Hs1) as (y & Hy & Hys).
      assert (y ∈ items q1) as Hin by (eapply list_elem_of_lookup_2; exact Hy).
      apply M1 in Hin as [Hin Hne]. apply list_elem_of_lookup in Hin as [j0 Hj0].
      assert (lookups q !! s = Some j0) as Hl
        by (apply Hi; rewrite states_lookup, Hj0; cbn; congruence).
      congruence. }
    destruct (heap_Push_index q1 (PqItem s k) I1 Hs1) as (q2 & EP & I2 & _ & M2).
    destruct (heap_Push_heap q1 (PqItem s k) q2 Hok1 Hk Hh1 EP) as [Hh2 Hok2].
    exists q2. split; [exact EP|]. split; [split; [exact I2|split; assumption]|].
    split; [tauto|]. intros _ it. rewrite M2, M1. reflexivity.
  - exists q. split; [reflexivity|]. split; [exact Hq|]. split; [reflexivity|tauto].
Qed.

(** *** The queue as a map from states to keys *)

Lemma option_ext {X : Type} (o1 o2 : option X) :
  (forall x, o1 = Some x <-> o2 = Some x) -> o1 = o2.
Proof.
  intros E. destruct o1 as [x|], o2 as [y|]; try reflexivity.
  - apply E. reflexivity.
  - symmetry. apply E. reflexivity.
  - apply E. reflexivity.
Qed.

Lemma insert_key_of q s k :
  queue_inv ok q -> pq.contains q s = false -> ok k ->
  exists q', pq.insert q s k = Some q' /\ queue_inv ok q' /\
    forall w, key_of q' w = if decide (w = s) then Some k else key_of q w.
Proof.
  intros Hq Hc Hk. destruct (insert_spec q s k Hq Hc Hk) as (q' & E & Hq' & M).
  exists q'. split; [exact E|]. split; [exact Hq'|].
  destruct Hq as (Hi & _), Hq' as (Hi' & _).
  intros w. apply option_ext. intros kw.
  rewrite (key_of_elem q' w kw Hi'), M.
  destruct (decide (w = s)) as [->|Hne].
  - split.
    + intros [[= ->]|Hin]; [reflexivity|].
      exfalso. apply (key_of_elem q s kw Hi) in Hin.
      assert (is_Some (key_of q s)) as Hs by eauto.
      apply (key_of_contains q s Hi) in Hs. congruence.
    + intros [= ->]. left. reflexivity.
  - rewrite (key_of_elem q w kw Hi). split; [|tauto].
    intros [[= -> _]|Hin]; [contradiction|exact Hin].
Qed.

Lemma remove_key_of q s :
  queue_inv ok q -> pq.contains q s = true ->
  exists q', pq.remove q s = Some q' /\ queue_inv ok q' /\
    forall w, key_of q' w = if decide (w = s) then None else key_of q w.
Proof.
  intros Hq Hc. pose proof Hq as (Hi & _).
  pose proof Hc as Hc'. apply contains_true in Hc' as [i Hs].
  destruct (index_inv_item q s i Hi Hs) as (x & Hx & Hxs).
  destruct (remove_spec q s i x Hq Hs Hx) as (q' & E & Hq' & M).
  exists q'. split; [exact E|]. split; [exact Hq'|].
  destruct Hq' as (Hi' & _).
  intros w. apply option_ext. intros kw.
  rewrite (key_of_elem q' w kw Hi'), M.
  destruct (decide (w = s)) as [->|Hne].
  - split; [|discriminate]. intros [Hin Hnx]. exfalso. apply Hnx.
    apply list_elem_of_lookup in Hin as [j Hj].
    assert (lookups q !! s = Some j) as Hl
      by (apply Hi; rewrite states_lookup, Hj; reflexivity).
    congruence.
  - rewrite (key_of_elem q w kw Hi). split; [tauto|].
    intros Hin. split; [exact Hin|]. intros <-. apply Hne. exact Hxs.
Qed.

Lemma update_key_of q s k kc :
  queue_inv ok q -> key_of q s = Some kc -> ok k ->
  exists q', pq.update q s k = Some q' /\ queue_inv ok q' /\
    forall w, key_of q' w =
      if decide (w = s) then Some (if decide (compare kc k = 0) then kc else k)
      else key_of q w.
Proof.
  intros Hq Hkc Hk. pose proof Hq as (Hi & _).
  pose proof Hkc as Hkc'. unfold key_of in Hkc'.
  destruct (lookups q !! s) as [i|] eqn:Hs; [|discriminate].
  cbn [mbind option_bind] in Hkc'.
  destruct (items q !! i) as [x|] eqn:Hx; [|discriminate].
  cbn [mbind option_bind] in Hkc'. injection Hkc' as <-.
  destruct (index_inv_item q s i Hi Hs) as (x' & Hx' & Hxs).
  assert (x' = x) by congruence. subst x'.
  destruct (update_spec q s i x k Hq Hs Hx Hk) as (q' & E & Hq' & Same & M).
  exists q'. split; [exact E|]. split; [exact Hq'|].
  destruct (decide (compare (item_k x) k = 0)) as [E0|NE].
  - rewrite (Same E0). intros w. destruct (decide (w = s)) as [->|]; [exact Hkc|reflexivity].
  - destruct Hq' as (Hi' & _). specialize (M NE).
    intros w. apply option_ext. intros kw.
    rewrite (key_of_elem q' w kw Hi'), M.
    destruct (decide (w = s)) as [->|Hne].
    + split.
      * intros [[= ->]|[Hin Hnx]]; [reflexivity|]. exfalso. apply Hnx.
        apply list_elem_of_lookup in Hin as [j Hj].
        assert (lookups q !! s = Some j) as Hl
          by (apply Hi; rewrite states_lookup, Hj; reflexivity).
        congruence.
      * intros [= ->]. left. reflexivity.
    + rewrite (key_of_elem q w kw Hi). split.
      * intros [[= -> _]|[Hin _]]; [contradiction|exact Hin].
      * intros Hin. right. split; [exact Hin|]. intros <-. apply Hne. exact Hxs.
Qed.

Lemma top_key_of q :
  queue_inv ok q -> items q <> [] ->
  exists s k, pq.top q = Some s /\ pq.topKey q = k /\ key_of q s = Some k /\
    forall w kw, key_of q w = Some kw -> kle k kw.
Proof.
  intros Hq Hne. pose proof Hq as (Hi & _).
  destruct (top_spec q Hq Hne) as (x & Hx & Ht & Hk & Hmin).
  exists (item_s x), (item_k x). split; [exact Ht|]. split; [exact Hk|]. split.
  - apply (key_of_elem q _ _ Hi). apply list_elem_of_lookup. exists 0%nat.
    rewrite Hx. destruct x; reflexivity.
  - intros w kw Hw. apply (key_of_elem q w kw Hi) in Hw.
    apply (Hmin _ Hw).
Qed.

Lemma isEmpty_key_of q :
  index_inv q -> (pq.isEmpty q = true <-> forall w, key_of q w = None).
Proof.
  intros Hi. rewrite (isEmpty_items q Hi). split.
  - intros E w. destruct (key_of q w) as [k|] eqn:Hk; [|reflexivity].
    apply (key_of_elem q w k Hi) in Hk. rewrite E in Hk.
    apply elem_of_nil in Hk. contradiction.
  - intros Hn. destruct (items q) as [|x l] eqn:E; [reflexivity|exfalso].
    assert (key_of q (item_s x) = Some (item_k x)) as Hk.
    { apply (key_of_elem q _ _ Hi). rewrite E. destruct x. apply list_elem_of_here. }
    rewrite Hn in Hk. discriminate.
Qed.

End QueueOrder.


(** *** The order of [compare] on float64 keys without NaN *)

Lemma key_lt_eq_r (a b c : key spec_float) : key_lt a b -> key_eq c b -> key_lt a c.
Proof.
  unfold key_lt, key_eq. intros [H1|[E1 H1]] [E2 E3].
  - left. rewrite E2. exact H1.
  - right. split; [congruence|]. rewrite E3. exact H1.
Qed.

Lemma kle_ieee_refl (x : key spec_float) : key_ok x -> kle x x.
Proof.
  intros Hx. unfold kle. rewrite compare_lt_iff by assumption. apply key_lt_irrefl.
Qed.

Lemma kle_ieee_trans (x y z : key spec_float) :
  key_ok x -> key_ok y -> key_ok z -> kle x y -> kle y z -> kle x z.
Proof.
  unfold kle. intros Hx Hy Hz. rewrite !compare_lt_iff by assumption.
  intros Hyx Hzy Hzx.
  destruct (compare_cases y x Hy Hx) as [[_ L]|[[_ E]|[_ L]]].
  - exact (Hyx L).
  - apply Hzy. eapply key_lt_eq_r; eassumption.
  - apply Hzy. eapply key_lt_trans; eassumption.
Qed.

Lemma lt_kle_ieee (x y : key spec_float) :
  key_ok x -> key_ok y -> compare x y = -1 -> kle x y.
Proof.
  unfold kle. intros Hx Hy. rewrite !compare_lt_iff by assumption. apply key_lt_asym.
Qed.

(** C8.  On a well-formed queue of float64 keys without NaN (a consistent
    index, the heap order): when the queue is empty, [topKey] is the
    sentinel key(+Inf, +Inf); when it is not, [topKey] is the key of a
    queued state and no queued key is below it. *)
Theorem topKey_sentinel_or_minimum {State : Type} `{Countable State}
    (q : priorityQueue State spec_float) :
  index_ok q -> heap_ok q -> all_ok key_ok (items q) ->
  (pq.isEmpty q = true ->
     pq.topKey q = Key (S754_infinity false) (S754_infinity false)) /\
  (pq.isEmpty q = false ->
     (exists it, it ∈ items q /\ pq.topKey q = item_k it) /\
     (forall it, it ∈ items q -> compare (item_k it) (pq.topKey q) <> -1)).
Proof.
  intros Hi Hh Hok. apply index_ok_inv in Hi. split.
  - intros E. apply (isEmpty_items q Hi) in E. unfold pq.topKey. rewrite E. reflexivity.
  - intros E. assert (items q <> []) as Hne.
    { intros E'. apply (isEmpty_items q Hi) in E'. congruence. }
    destruct (top_spec key_ok kle_ieee_refl kle_ieee_trans q) as (x & Hx & _ & -> & Hmin).
    { split; [exact Hi|]. split; assumption. }
    { exact Hne. }
    split; [|exact Hmin].
    exists x. split; [|reflexivity]. eapply list_elem_of_lookup_2. exact Hx.
Qed.



(** ** The planner: what its operations leave alone *)

Section PlannerFrame.
Context {State : Type} `{Countable State} {F : Type} `{Float64 F}.
Variable Equals : State -> State -> bool.
Variable d : Data State F.
Local Abbreviation planner := (Planner State F).
Implicit Types (p : planner) (v x st : State).

Lemma res_bind_Returns {X Y : Type} (r : res X) (f : X -> res Y) (y : Y) :
  (a ← r; f a) = Returns y -> exists a, r = Returns a /\ f a = Returns y.
Proof. destruct r as [a| |]; cbn; intros E; try discriminate. eauto. Qed.

Lemma lift_Returns {X : Type} (o : option X) (a : X) : lift o = Returns a -> o = Some a.
Proof. destruct o; cbn; intros E; congruence. Qed.

Lemma same_ends_refl p : same_ends p p.
Proof. repeat split. Qed.

Lemma same_ends_trans p1 p2 p3 : same_ends p1 p2 -> same_ends p2 p3 -> same_ends p1 p3.
Proof. unfold same_ends. intros (? & ? & ?) (? & ? & ?). repeat split; congruence. Qed.

Lemma updateVertex_fields p v p' :
  updateVertex d p v = Returns p' -> same_fields p p'.
Proof.
  unfold updateVertex. intros E.
  repeat match type of E with
  | (if ?c then _ else _) = _ => destruct c
  end;
  try (apply res_bind_Returns in E as (q & _ & E)); injection E as <-;
  repeat split.
Qed.

Lemma updateVertex_ends p v p' :
  updateVertex d p v = Returns p' -> same_ends p p'.
Proof. intros E. apply updateVertex_fields in E as (? & ? & ? & _). repeat split; assumption. Qed.

Lemma lower_ends x p st p' : lower Equals d x p st = Returns p' -> same_ends p p'.
Proof.
  unfold lower. intros E. apply updateVertex_ends in E.
  destruct (negb (Equals st (goal p))); exact E.
Qed.

Lemma raise_ends x gOld p st p' : raise Equals d x gOld p st = Returns p' -> same_ends p p'.
Proof.
  unfold raise. intros E. apply updateVertex_ends in E.
  destruct (float64Equals _ _); [|exact E].
  destruct (negb (Equals st (goal p))); exact E.
Qed.

Lemma for_range_ends (body : planner -> State -> res planner) :
  (forall p st p', body p st = Returns p' -> same_ends p p') ->
  forall l p p', for_range body l p = Returns p' -> same_ends p p'.
Proof.
  intros Hb l. induction l as [|st l IH]; intros p p' E; cbn in E.
  - injection E as <-. apply same_ends_refl.
  - apply res_bind_Returns in E as (p1 & E1 & E2).
    eapply same_ends_trans; [eapply Hb; exact E1|eapply IH; exact E2].
Qed.

Lemma step_ends p p' : step Equals d p = Returns p' -> same_ends p p'.
Proof.
  unfold step. intros E. apply res_bind_Returns in E as (x & _ & E).
  destruct (decide (compare _ _ = -1)).
  - apply res_bind_Returns in E as (q & _ & E). injection E as <-. repeat split.
  - destruct (f_gtb _ _).
    + apply res_bind_Returns in E as (q & _ & E).
      apply (for_range_ends _ (lower_ends x)) in E. exact E.
    + apply (for_range_ends _ (raise_ends x _)) in E. exact E.
Qed.

Lemma computeShortestPath_ends fuel p p' :
  computeShortestPath Equals d fuel p = Returns p' -> same_ends p p'.
Proof.
  revert p. induction fuel as [|fuel IH]; intros p E; cbn in E.
  - destruct (unfinished d p); [discriminate|]. injection E as <-. apply same_ends_refl.
  - destruct (unfinished d p); [|injection E as <-; apply same_ends_refl].
    apply res_bind_Returns in E as (p1 & E1 & E2).
    eapply same_ends_trans; [eapply step_ends; exact E1|eapply IH; exact E2].
Qed.

(** The loop only returns when its condition is false. *)
Lemma computeShortestPath_finished fuel p p' :
  computeShortestPath Equals d fuel p = Returns p' -> unfinished d p' = false.
Proof.
  revert p. induction fuel as [|fuel IH]; intros p E; cbn in E.
  - destruct (unfinished d p) eqn:U; [discriminate|]. injection E as <-. exact U.
  - destruct (unfinished d p) eqn:U; [|injection E as <-; exact U].
    apply res_bind_Returns in E as (p1 & E1 & E2). eapply IH. exact E2.
Qed.

Lemma computeShortestPath_done fuel p :
  unfinished d p = false -> computeShortestPath Equals d fuel p = Returns p.
Proof. intros U. destruct fuel; cbn; rewrite U; reflexivity. Qed.

Lemma FlagChanged_ends p x v cOld cNew p' :
  FlagChanged Equals d p x v cOld cNew = Returns p' -> same_ends p p'.
Proof.
  unfold FlagChanged. intros E. apply updateVertex_ends in E.
  destruct (f_gtb cOld cNew).
  - destruct (negb (Equals x (goal p))); exact E.
  - destruct (float64Equals _ _); [|exact E].
    destruct (negb (Equals x (goal p))); exact E.
Qed.

(** More iterations do not change what [walk] returns. *)
Lemma walk_more fuel fuel' p st path r :
  (fuel <= fuel')%nat ->
  walk Equals d fuel p st path = Returns r -> walk Equals d fuel' p st path = Returns r.
Proof.
  revert fuel' st path. induction fuel as [|fuel IH]; intros fuel' st path Hle E.
  - cbn in E. destruct fuel'; cbn; destruct (Equals st (goal p)); congruence.
  - destruct fuel' as [|fuel']; [lia|]. cbn in E. cbn.
    destruct (Equals st (goal p)); [exact E|].
    destruct (f_is_inf _); [exact E|].
    destruct (snd (minSucc d p st)) as [minS|]; [|exact E].
    apply IH; [lia|exact E].
Qed.

(** C2.  For a planner whose queue has a consistent index, and every
    state [v]: [updateVertex(v)] returns, changes neither [g] nor [rhs],
    and leaves [v] queued exactly when [float64Equals(g(v), rhs(v))] is
    false; so a queued [v] with g(v) = rhs(v) leaves the queue. *)
Theorem updateVertex_frontier (p : planner) (v : State) :
  index_ok (u p) ->
  exists p', updateVertex d p v = Returns p' /\
    index_ok (u p') /\ g p' = g p /\ rhs p' = rhs p /\
    (pq.contains (u p') v = true <->
     float64Equals (get (g p') v) (get (rhs p') v) = false).
Proof.
  intros Hq. apply index_ok_inv in Hq. unfold updateVertex.
  destruct (float64Equals (get (g p) v) (get (rhs p) v)) eqn:Eq;
    destruct (pq.contains (u p) v) eqn:Hc; cbn [negb andb].
  - (* consistent and queued: removed *)
    pose proof Hc as Hc'. apply contains_true in Hc' as [i Hs].
    destruct (index_inv_item (u p) v i Hq Hs) as (x & Hx & _).
    destruct (remove_index (u p) v i x Hq Hs Hx) as (q' & HR & I' & _).
    rewrite HR. cbn. eexists. split; [reflexivity|]. cbn.
    split; [apply index_ok_inv; exact I'|]. split; [reflexivity|]. split; [reflexivity|].
    rewrite (remove_contains (u p) v q' Hq Hc HR), Eq. split; discriminate.
  - (* consistent and not queued: nothing to do *)
    exists p. split; [reflexivity|]. split; [apply index_ok_inv; exact Hq|].
    split; [reflexivity|]. split; [reflexivity|]. rewrite Hc, Eq. split; discriminate.
  - (* inconsistent and queued: re-keyed *)
    destruct (update_index (u p) v (calcKey d p v) Hq Hc) as (q' & HU & I' & Hc').
    rewrite HU. cbn. eexists. split; [reflexivity|]. cbn.
    split; [apply index_ok_inv; exact I'|]. split; [reflexivity|]. split; [reflexivity|].
    rewrite Hc', Eq. tauto.
  - (* inconsistent and not queued: inserted *)
    destruct (insert_index (u p) v (calcKey d p v) Hq Hc) as (q' & HI & I' & _).
    rewrite HI. cbn. eexists. split; [reflexivity|]. cbn.
    split; [apply index_ok_inv; exact I'|]. split; [reflexivity|]. split; [reflexivity|].
    rewrite (insert_contains (u p) v _ q' Hq Hc HI), Eq. tauto.
Qed.

(** C5.  When [Plan] returns a path (or nil) and leaves the planner [p'],
    a second [Plan], on [p'] and the same graph, with as many iterations
    or more, returns the same path (or nil) and leaves [p'] as it is. *)
Theorem Plan_twice (fuel fuel' : nat) (p p' : planner) (path : option (list State)) :
  Plan Equals d fuel p = Returns (path, p') ->
  (fuel <= fuel')%nat ->
  Plan Equals d fuel' p' = Returns (path, p').
Proof.
  unfold Plan. intros E Hle.
  apply res_bind_Returns in E as (p1 & E1 & E).
  apply res_bind_Returns in E as (r & E2 & E). injection E as <- <-.
  pose proof (computeShortestPath_finished _ _ _ E1) as U.
  pose proof (computeShortestPath_ends _ _ _ E1) as (Hs & _).
  rewrite (computeShortestPath_done fuel' p1 U). cbn [mbind res_bind].
  rewrite Hs. rewrite (walk_more fuel fuel' p1 (start p) [start p] r Hle E2).
  reflexivity.
Qed.

End PlannerFrame.


(** ** Exact arithmetic on costs *)

Section ExactCosts.
Implicit Types (a b c x y z : xnum) (k : key xnum).

(** Case analysis on every exact number of the context, then arithmetic. *)
Ltac xcases :=
  repeat match goal with
  | x : xnum |- _ => destruct x
  end;
  cbn in *; try contradiction; try discriminate; try reflexivity; try tauto;
  try lia.

Lemma nn_add a b : nn a -> nn b -> nn (f_add a b).
Proof. xcases. Qed.

Lemma nn_min a b : nn a -> nn b -> nn (f_min a b).
Proof. xcases. destruct (_ <? _); cbn; lia. Qed.

Lemma nn_zero : nn f_zero.
Proof. cbn. lia. Qed.

Lemma nn_inf : nn f_inf.
Proof. exact I. Qed.

(** On costs, [float64Equals] is [==], and [==] is equality. *)
Lemma float64Equals_exact a b : nn a -> nn b -> float64Equals a b = f_eqb a b.
Proof.
  unfold float64Equals. xcases.
  destruct (z0 =? z) eqn:E; [reflexivity|]. apply Z.eqb_neq in E.
  destruct (Z.abs (z0 + - z) <? 1) eqn:L; [|reflexivity]. apply Z.ltb_lt in L. lia.
Qed.

Lemma eqb_exact a b : nn a -> nn b -> (f_eqb a b = true <-> a = b).
Proof.
  xcases.
  - rewrite Z.eqb_eq. split; congruence.
  - split; discriminate.
  - split; discriminate.
Qed.

Lemma leb_exact a b : nn a -> nn b -> (f_leb a b = true <-> f_ltb b a = false).
Proof.
  unfold f_leb. destruct a, b; cbn; try contradiction; intros _ _;
    try (split; intros; reflexivity); try (split; intros; discriminate).
  rewrite orb_true_iff, Z.ltb_lt, Z.eqb_eq, Z.ltb_ge. lia.
Qed.

Lemma leb_exact_refl a : nn a -> f_leb a a = true.
Proof.
  intros Ha. apply leb_exact; [exact Ha..|].
  destruct a; try contradiction; simpl; [apply Z.ltb_irrefl|reflexivity].
Qed.

Lemma leb_exact_trans a b c :
  nn a -> nn b -> nn c -> f_leb a b = true -> f_leb b c = true -> f_leb a c = true.
Proof.
  intros Ha Hb Hc. rewrite !leb_exact by assumption.
  destruct a, b, c; try contradiction; simpl;
    try reflexivity; try discriminate; rewrite ?Z.ltb_ge; lia.
Qed.

Lemma leb_exact_add a b : nn a -> nn b -> f_leb a (f_add a b) = true.
Proof.
  intros Ha Hb. apply leb_exact; [exact Ha|apply nn_add; assumption|].
  destruct a, b; try contradiction; simpl in *; try reflexivity.
  apply Z.ltb_ge. lia.
Qed.

Lemma min_exact a b : nn a -> nn b -> f_min a b = if f_ltb a b then a else b.
Proof. xcases. Qed.

(** *** The order of [compare] on keys of costs *)

Lemma kle_exact_refl k : xkey_ok k -> kle k k.
Proof.
  destruct k as [a b]. unfold xkey_ok, kle, compare, f_gtb. cbn [A B].
  intros [Ha Hb]. xcases; rewrite ?Z.ltb_irrefl; discriminate.
Qed.

Lemma lt_kle_exact k1 k2 : xkey_ok k1 -> xkey_ok k2 -> compare k1 k2 = -1 -> kle k1 k2.
Proof.
  destruct k1 as [a1 b1], k2 as [a2 b2]. unfold xkey_ok, kle, compare, f_gtb. cbn [A B].
  intros [Ha1 Hb1] [Ha2 Hb2].
  destruct a1, a2; cbn in *; try contradiction;
    destruct b1, b2; cbn in *; try contradiction;
    repeat match goal with
    | |- context [?x <? ?y] => destruct (Z.ltb_spec x y)
    end; intros; try discriminate; try lia.
Qed.

(** [compare] on keys of costs, as the lexicographic order. *)
Lemma compare_exact_lt k1 k2 :
  xkey_ok k1 -> xkey_ok k2 ->
  (compare k1 k2 = -1 <->
   f_ltb (A k1) (A k2) = true \/ (A k1 = A k2 /\ f_ltb (B k1) (B k2) = true)).
Proof.
  destruct k1 as [a1 b1], k2 as [a2 b2]. unfold xkey_ok, compare, f_gtb. cbn [A B].
  intros [Ha1 Hb1] [Ha2 Hb2].
  destruct a1, a2; cbn in *; try contradiction;
    destruct b1, b2; cbn in *; try contradiction;
    repeat match goal with
    | |- context [?x <? ?y] => destruct (Z.ltb_spec x y)
    end;
    split; intros E; try discriminate; try reflexivity; try lia;
    try (destruct E as [E|[E1 E]]; try discriminate; try (injection E1 as E1); lia);
    try (left; reflexivity); try (right; split; [f_equal; lia|reflexivity]).
Qed.

Lemma compare_exact_eq k1 k2 :
  xkey_ok k1 -> xkey_ok k2 -> (compare k1 k2 = 0 <-> k1 = k2).
Proof.
  destruct k1 as [a1 b1], k2 as [a2 b2]. unfold xkey_ok, compare, f_gtb. cbn [A B].
  intros [Ha1 Hb1] [Ha2 Hb2].
  destruct a1, a2; cbn in *; try contradiction;
    destruct b1, b2; cbn in *; try contradiction;
    repeat match goal with
    | |- context [?x <? ?y] => destruct (Z.ltb_spec x y)
    end;
    split; intros E; try discriminate; try reflexivity; try lia;
    try (injection E; intros; lia); try (repeat f_equal; lia).
Qed.

Lemma kle_exact_trans k1 k2 k3 :
  xkey_ok k1 -> xkey_ok k2 -> xkey_ok k3 -> kle k1 k2 -> kle k2 k3 -> kle k1 k3.
Proof.
  intros H1 H2 H3. unfold kle. rewrite !compare_exact_lt by assumption.
  destruct k1 as [a1 b1], k2 as [a2 b2], k3 as [a3 b3]. cbn [A B].
  destruct H1 as [Ha1 Hb1], H2 as [Ha2 Hb2], H3 as [Ha3 Hb3]. cbn [A B] in *.
  intros N1 N2 [L|[E L]].
  - destruct a1, a2, a3; cbn in *; try contradiction; try discriminate;
      try (apply N1; left; reflexivity); try (apply N2; left; reflexivity).
    + apply Z.ltb_lt in L.
      destruct (Z.lt_trichotomy z0 z) as [?|[?|?]].
      * apply N1. left. apply Z.ltb_lt. assumption.
      * subst z0. apply N2. left. apply Z.ltb_lt. assumption.
      * apply N2. left. apply Z.ltb_lt. lia.
  - subst a3.
    destruct (f_ltb a2 a1) eqn:L21; [apply N1; left; reflexivity|].
    destruct (f_ltb a1 a2) eqn:L12; [apply N2; left; reflexivity|].
    assert (a1 = a2) as <-.
    { destruct a1, a2; cbn in *; try contradiction; try discriminate; try reflexivity.
      apply Z.ltb_ge in L21, L12. f_equal. lia. }
    destruct b1, b2, b3; cbn in *; try contradiction; try discriminate;
      try (apply N1; right; split; reflexivity); try (apply N2; right; split; reflexivity).
    apply Z.ltb_lt in L.
    destruct (Z.lt_trichotomy z0 z) as [?|[?|?]].
    + apply N1. right. split; [reflexivity|]. apply Z.ltb_lt. assumption.
    + subst z0. apply N2. right. split; [reflexivity|]. apply Z.ltb_lt. assumption.
    + apply N2. right. split; [reflexivity|]. apply Z.ltb_lt. lia.
Qed.

End ExactCosts.


(** ** Float64 arithmetic without rounding *)

Section GridFloats.

(** Shifting right the bits that a shift to the left brought in loses
    nothing. *)
Lemma iter_shr_exact (p : positive) :
  forall k : positive,
  SpecFloat.iter_pos shr_1 p (Build_shr_record (Z.pos (Pos.iter xO k p)) false false)
  = Build_shr_record (Z.pos k) false false.
Proof.
  induction p as [p IH|p IH|]; intros k; cbn [SpecFloat.iter_pos].
  - change (Pos.iter xO k p~1) with (xO (Pos.iter xO (Pos.iter xO k p) p)).
    cbn [shr_1 orb]. rewrite IH, IH. reflexivity.
  - change (Pos.iter xO k p~0) with (Pos.iter xO (Pos.iter xO k p) p).
    rewrite IH, IH. reflexivity.
  - reflexivity.
Qed.

(** Two floats of the same value have the same magnitude. *)
Lemma fvalue_magnitude (m1 m2 : positive) (e1 e2 : Z) :
  -1074 <= e1 -> -1074 <= e2 -> fvalue m1 e1 = fvalue m2 e2 ->
  Z.pos (digits2_pos m1) + e1 = Z.pos (digits2_pos m2) + e2.
Proof.
  intros H1 H2 E. unfold fvalue in E.
  pose proof (digits2_bounds m1) as [L1 U1]. pose proof (digits2_bounds m2) as [L2 U2].
  assert (forall (ma mb : positive) (ea eb : Z),
            -1074 <= ea -> -1074 <= eb ->
            Z.pos ma * 2 ^ (ea + 1074) = Z.pos mb * 2 ^ (eb + 1074) ->
            Z.pos (digits2_pos ma) + ea <= Z.pos (digits2_pos mb) + eb) as Hle.
  { intros ma mb ea eb Ha Hb Eab.
    pose proof (digits2_bounds ma) as [La _]. pose proof (digits2_bounds mb) as [_ Ub].
    assert (2 ^ (Z.pos (digits2_pos ma) - 1) * 2 ^ (ea + 1074)
            < 2 ^ Z.pos (digits2_pos mb) * 2 ^ (eb + 1074)) as Hlt.
    { assert (0 < 2 ^ (ea + 1074)) by (apply Z.pow_pos_nonneg; lia).
      assert (0 < 2 ^ (eb + 1074)) by (apply Z.pow_pos_nonneg; lia).
      nia. }
    rewrite <- !Z.pow_add_r in Hlt by lia.
    apply Z.pow_lt_mono_r_iff in Hlt; lia. }
  pose proof (Hle m1 m2 e1 e2 H1 H2 E). pose proof (Hle m2 m1 e2 e1 H2 H1 (eq_sym E)). lia.
Qed.

(** Rounding a number that is a float64 gives that float64. *)
Lemma binary_round_exact (m mr : positive) (e er : Z) :
  -1074 <= e ->
  valid_binary IEEE.prec IEEE.emax (S754_finite false mr er) = true ->
  fvalue m e = fvalue mr er ->
  binary_round IEEE.prec IEEE.emax false m e = S754_finite false mr er.
Proof.
  intros He Vr Ev.
  pose proof (valid_canonical _ _ _ Vr) as Cr. pose proof (valid_exponent _ _ _ Vr) as Her.
  assert (er <= IEEE.emax - IEEE.prec) as Hmax.
  { cbn in Vr. unfold bounded in Vr. apply andb_true_iff in Vr as [_ Vr].
    apply Z.leb_le in Vr. exact Vr. }
  unfold binary_round.
  pose proof (fexp_ge_emin (Z.pos (digits2_pos m) + e)) as Hf.
  destruct (shl_align_spec m e (fexp IEEE.prec IEEE.emax (Z.pos (digits2_pos m) + e)) Hf)
    as (Hs & Hv & Hd).
  rewrite (fvalue_magnitude m mr e er He Her Ev), Cr in *.
  destruct (shl_align m e er) as [mz ez]. cbn [fst snd] in *.
  assert (-1074 <= ez) as Hez by lia.
  assert (fvalue mz ez = fvalue mr er) as Ev' by congruence.
  assert (Z.pos (digits2_pos mz) + ez = Z.pos (digits2_pos mr) + er) as Hm
    by (apply fvalue_magnitude; assumption).
  unfold binary_round_aux, shr_fexp, shr. cbn [Zdigits2 shr_record_of_loc].
  rewrite Hm, Cr.
  assert (ez <= er) as Hle by lia.
  destruct (er - ez) as [|n|n] eqn:En; [| |lia].
  - (* no shift *)
    assert (ez = er) as Eez by lia. clear Hs. subst ez.
    assert (mz = mr) as ->.
    { assert (Z.pos mz <= Z.pos mr) as L1
        by (apply (fvalue_mantissa mz mr er Her); rewrite Ev'; apply Z.le_refl).
      assert (Z.pos mr <= Z.pos mz) as L2
        by (apply (fvalue_mantissa mr mz er Her); rewrite Ev'; apply Z.le_refl).
      apply Pos2Z.inj. lia. }
    cbn [shr_m loc_of_shr_record round_nearest_even Zdigits2 shr_record_of_loc].
    rewrite Cr, Z.sub_diag. cbn [shr_m].
    apply Z.leb_le in Hmax. rewrite Hmax. reflexivity.
  - (* the mantissa is that of the float64, shifted *)
    assert (mz = Pos.iter xO mr n) as ->.
    { apply Pos2Z.inj. rewrite shift_value. unfold fvalue in Ev'.
      replace (er + 1074) with (Z.pos n + (ez + 1074)) in Ev' by lia.
      rewrite (Z.pow_add_r 2 (Z.pos n) (ez + 1074)) in Ev' by lia.
      assert (0 < 2 ^ (ez + 1074)) by (apply Z.pow_pos_nonneg; lia).
      nia. }
    rewrite iter_shr_exact.
    cbn [shr_m loc_of_shr_record round_nearest_even Zdigits2 shr_record_of_loc].
    replace (ez + Z.pos n) with er by lia.
    rewrite Cr, Z.sub_diag. cbn [shr_m].
    apply Z.leb_le in Hmax. rewrite Hmax. reflexivity.
Qed.

(** *** The float64 of the grid *)

Section OnGrid.
Variable sc : Z.
Hypothesis Hsc : scale_ok sc.

Local Abbreviation E := (of_exact sc).
Local Abbreviation top := (2 ^ 53 - 1).

Lemma gridf_finite (z : Z) :
  0 < z <= top ->
  exists m e, gridf sc z = S754_finite false m e /\
    valid_binary IEEE.prec IEEE.emax (S754_finite false m e) = true /\
    fvalue m e = z * 2 ^ (sc + 1074).
Proof.
  intros Hz. destruct z as [|zp|zp]; try lia.
  unfold gridf. cbn [binary_normalize]. unfold scale_ok in Hsc.
  pose proof (digits2_bounds zp) as [Lz _].
  assert (Z.pos (digits2_pos zp) <= 53) as Hd.
  { assert (2 ^ (Z.pos (digits2_pos zp) - 1) < 2 ^ 53) as Hlt by lia.
    apply Z.pow_lt_mono_r_iff in Hlt; lia. }
  pose proof (fexp_ge_emin (Z.pos (digits2_pos zp) + sc)) as Hf.
  destruct (shl_align_spec zp sc (fexp IEEE.prec IEEE.emax (Z.pos (digits2_pos zp) + sc)) Hf)
    as (Hs & Hv & Hdg).
  destruct (shl_align zp sc (fexp IEEE.prec IEEE.emax (Z.pos (digits2_pos zp) + sc)))
    as [mr er] eqn:Ea. cbn [fst snd] in *.
  assert (fexp IEEE.prec IEEE.emax (Z.pos (digits2_pos zp) + sc) <= sc) as Hle
    by (unfold fexp, emin, IEEE.prec, IEEE.emax; lia).
  assert (valid_binary IEEE.prec IEEE.emax (S754_finite false mr er) = true) as Vr.
  { cbn [valid_binary]. unfold bounded, canonical_mantissa. rewrite Hdg.
    apply andb_true_iff. split; [apply Z.eqb_eq; lia|].
    apply Z.leb_le. unfold IEEE.emax, IEEE.prec. lia. }
  exists mr, er. split; [|split; [exact Vr|exact Hv]].
  apply binary_round_exact; [lia|exact Vr|symmetry; exact Hv].
Qed.

Lemma E_valid (x : xnum) : below top x -> valid_binary IEEE.prec IEEE.emax (E x) = true.
Proof.
  destruct x as [z| | |]; cbn [below of_exact]; try reflexivity; try contradiction.
  intros Hz. destruct (Z.eq_dec z 0) as [->|Hne]; [reflexivity|].
  destruct (gridf_finite z) as (m & e & -> & V & _); [lia|exact V].
Qed.

Lemma ltb_fvalue_lt (m1 m2 : positive) (e1 e2 : Z) :
  valid_binary IEEE.prec IEEE.emax (S754_finite false m1 e1) = true ->
  valid_binary IEEE.prec IEEE.emax (S754_finite false m2 e2) = true ->
  fvalue m1 e1 < fvalue m2 e2 ->
  IEEE.ltb (S754_finite false m1 e1) (S754_finite false m2 e2) = true.
Proof.
  intros V1 V2 Hlt.
  pose proof (valid_canonical _ _ _ V1) as C1. pose proof (valid_canonical _ _ _ V2) as C2.
  pose proof (valid_exponent _ _ _ V1) as H1.
  unfold IEEE.ltb, SFltb. cbn [SFcompare].
  destruct (Z.compare_spec e1 e2) as [Ee|L|G]; [|reflexivity|].
  - subst e2. rewrite Pos.compare_cont_spec. cbn [Pos.switch_Eq].
    destruct (Pos.compare_spec m1 m2) as [Em|L|G]; [|reflexivity|].
    + subst m2. lia.
    + assert (fvalue m2 e1 <= fvalue m1 e1) by (apply fvalue_mantissa; [exact H1|lia]). lia.
  - pose proof (fvalue_exponent m2 m1 e2 e1 C2 C1 G). lia.
Qed.

Lemma E_ltb (x y : xnum) :
  below top x -> below top y -> f_ltb (E x) (E y) = f_ltb x y.
Proof.
  assert (0 < 2 ^ (sc + 1074)) as Hp
    by (unfold scale_ok in Hsc; apply Z.pow_pos_nonneg; lia).
  destruct x as [z1| | |], y as [z2| | |]; cbn [below of_exact]; try contradiction;
    intros H1 H2; cbn [f_ltb exact ieee Exact.ltb].
  - destruct (Z.eq_dec z1 0) as [->|N1]; destruct (Z.eq_dec z2 0) as [->|N2].
    + reflexivity.
    + destruct (gridf_finite z2) as (m & e & -> & _); [lia|].
      symmetry. apply Z.ltb_lt. lia.
    + destruct (gridf_finite z1) as (m & e & -> & _); [lia|].
      symmetry. apply Z.ltb_ge. lia.
    + destruct (gridf_finite z1) as (m1 & e1 & -> & V1 & F1); [lia|].
      destruct (gridf_finite z2) as (m2 & e2 & -> & V2 & F2); [lia|].
      destruct (Z.ltb_spec z1 z2) as [L|G].
      * apply ltb_fvalue_lt; [assumption..|]. nia.
      * apply ltb_fvalue; [assumption..|]. nia.
  - destruct (Z.eq_dec z1 0) as [->|N1]; [reflexivity|].
    destruct (gridf_finite z1) as (m & e & -> & _); [lia|reflexivity].
  - destruct (Z.eq_dec z2 0) as [->|N2]; [reflexivity|].
    destruct (gridf_finite z2) as (m & e & -> & _); [lia|reflexivity].
  - reflexivity.
Qed.

Lemma E_inj (x y : xnum) : below top x -> below top y -> E x = E y -> x = y.
Proof.
  intros Hx Hy Exy.
  pose proof (E_ltb x y Hx Hy) as L1. pose proof (E_ltb y x Hy Hx) as L2.
  rewrite Exy in L1. rewrite Exy in L2.
  assert (f_ltb (E y) (E y) = false) as Irr.
  { pose proof (E_ltb y y Hy Hy) as L. rewrite L.
    destruct y; cbn in *; try contradiction; try reflexivity. apply Z.ltb_irrefl. }
  rewrite Irr in L1, L2.
  destruct x as [z1| | |], y as [z2| | |]; cbn in *; try contradiction;
    try reflexivity; try discriminate.
  symmetry in L1, L2. apply Z.ltb_ge in L1, L2. f_equal. lia.
Qed.

Lemma E_eqb (x y : xnum) :
  below top x -> below top y -> f_eqb (E x) (E y) = f_eqb x y.
Proof.
  intros Hx Hy.
  assert (IEEE.is_nan (E x) = false) as Nx.
  { apply float_nn_not_nan. split; [apply E_valid; exact Hx|].
    pose proof (E_ltb (XFin 0) x ltac:(cbn; lia) Hx) as L. cbn [of_exact] in L.
    change (gridf sc 0) with (S754_zero false) in L.
    destruct x as [z| | |]; cbn [below] in Hx; try contradiction; [|reflexivity].
    destruct (Z.eq_dec z 0) as [->|N]; [reflexivity|].
    change (IEEE.ltb (S754_zero false) (E (XFin z))) with (f_ltb (S754_zero false) (E (XFin z))).
    rewrite L. cbn. apply orb_true_iff. left. apply Z.ltb_lt. lia. }
  assert (IEEE.is_nan (E y) = false) as Ny.
  { destruct y as [z| | |]; cbn [below] in Hy; try contradiction; [|reflexivity].
    destruct (Z.eq_dec z 0) as [->|N]; [reflexivity|].
    destruct (gridf_finite z) as (m & e & Eg & _); [lia|]. cbn [of_exact]. rewrite Eg.
    reflexivity. }
  destruct (f_eqb x y) eqn:Exy.
  - assert (x = y) as ->.
    { destruct x, y; cbn in *; try contradiction; try discriminate; try reflexivity.
      apply Z.eqb_eq in Exy. congruence. }
    apply (eqb_rank _ _ Ny Ny). reflexivity.
  - destruct (f_eqb (E x) (E y)) eqn:Ee; [exfalso|reflexivity].
    pose proof (E_ltb x y Hx Hy) as L1. pose proof (E_ltb y x Hy Hx) as L2.
    change (f_eqb (E x) (E y)) with (IEEE.eqb (E x) (E y)) in Ee.
    apply (eqb_rank _ _ Nx Ny) in Ee.
    assert (f_ltb (E x) (E y) = false) as F1.
    { destruct (f_ltb (E x) (E y)) eqn:L; [|reflexivity].
      apply (ltb_rank _ _ Nx Ny) in L. rewrite Ee in L. destruct (lt3_irrefl _ L). }
    assert (f_ltb (E y) (E x) = false) as F2.
    { destruct (f_ltb (E y) (E x)) eqn:L; [|reflexivity].
      apply (ltb_rank _ _ Ny Nx) in L. rewrite Ee in L. destruct (lt3_irrefl _ L). }
    rewrite F1 in L1. rewrite F2 in L2.
    destruct x as [z1| | |], y as [z2| | |]; cbn in *; try contradiction;
      try discriminate.
    symmetry in L1, L2. apply Z.ltb_ge in L1, L2. apply Z.eqb_neq in Exy. lia.
Qed.

Lemma E_zero : E (XFin 0) = S754_zero false.
Proof. reflexivity. Qed.

Lemma E_not_nan (x : xnum) : below top x -> IEEE.is_nan (E x) = false.
Proof.
  destruct x as [z| | |]; cbn [below of_exact]; try reflexivity; try contradiction.
  intros Hz. destruct (Z.eq_dec z 0) as [->|N]; [reflexivity|].
  destruct (gridf_finite z) as (m & e & -> & _); [lia|reflexivity].
Qed.

Lemma E_is_inf (x : xnum) : below top x -> f_is_inf (E x) = f_is_inf x.
Proof.
  destruct x as [z| | |]; cbn [below of_exact]; try reflexivity; try contradiction.
  intros Hz. destruct (Z.eq_dec z 0) as [->|N]; [reflexivity|].
  destruct (gridf_finite z) as (m & e & -> & _); [lia|reflexivity].
Qed.

(** Sums that stay on the grid are not rounded. *)
Lemma E_add (x y : xnum) :
  below top x -> below top y -> below top (f_add x y) ->
  f_add (E x) (E y) = E (f_add x y).
Proof.
  assert (0 < 2 ^ (sc + 1074)) as Hp
    by (unfold scale_ok in Hsc; apply Z.pow_pos_nonneg; lia).
  destruct x as [z1| | |], y as [z2| | |]; cbn [below of_exact]; try contradiction;
    intros H1 H2 H3; cbn [f_add exact ieee Exact.add of_exact below] in *.
  - destruct (Z.eq_dec z1 0) as [->|N1]; destruct (Z.eq_dec z2 0) as [->|N2].
    + reflexivity.
    + rewrite Z.add_0_l. destruct (gridf_finite z2) as (m & e & -> & _); [lia|]. reflexivity.
    + rewrite Z.add_0_r. destruct (gridf_finite z1) as (m & e & -> & _); [lia|]. reflexivity.
    + destruct (gridf_finite z1) as (m1 & e1 & -> & V1 & F1); [lia|].
      destruct (gridf_finite z2) as (m2 & e2 & -> & V2 & F2); [lia|].
      destruct (gridf_finite (z1 + z2)) as (m3 & e3 & -> & V3 & F3); [lia|].
      pose proof (valid_exponent _ _ _ V1) as Hx. pose proof (valid_exponent _ _ _ V2) as Hy.
      unfold IEEE.add, SFadd. cbn [cond_Zopp].
      assert (-1074 <= Z.min e1 e2) as Hz by lia.
      destruct (shl_align_spec m1 e1 (Z.min e1 e2) Hz) as (Sx & Fx & _).
      destruct (shl_align_spec m2 e2 (Z.min e1 e2) Hz) as (Sy & Fy & _).
      rewrite <- Pos2Z.inj_add. cbn [binary_normalize].
      apply binary_round_exact; [exact Hz|exact V3|].
      replace (snd (shl_align m1 e1 (Z.min e1 e2))) with (Z.min e1 e2) in Fx by lia.
      replace (snd (shl_align m2 e2 (Z.min e1 e2))) with (Z.min e1 e2) in Fy by lia.
      rewrite F3. rewrite <- Fx in F1. rewrite <- Fy in F2. unfold fvalue in *.
      rewrite Pos2Z.inj_add. lia.
  - destruct (Z.eq_dec z1 0) as [->|N1]; [reflexivity|].
    destruct (gridf_finite z1) as (m & e & -> & _); [lia|reflexivity].
  - destruct (Z.eq_dec z2 0) as [->|N2]; [reflexivity|].
    destruct (gridf_finite z2) as (m & e & -> & _); [lia|reflexivity].
  - reflexivity.
Qed.

Lemma E_min (x y : xnum) :
  below top x -> below top y -> f_min (E x) (E y) = E (f_min x y).
Proof.
  intros Hx Hy.
  pose proof (E_ltb x y Hx Hy) as L. pose proof (E_eqb x y Hx Hy) as Q.
  pose proof (E_not_nan x Hx) as Nx. pose proof (E_not_nan y Hy) as Ny.
  cbn [f_min f_ltb f_eqb ieee exact] in *. unfold IEEE.min. rewrite Nx, Ny, L. cbn [orb].
  assert (IEEE.is_neg_inf (E x) = false) as ->.
  { destruct x as [z| | |]; cbn [below of_exact] in *; try reflexivity; try contradiction.
    destruct (Z.eq_dec z 0) as [->|N]; [reflexivity|].
    destruct (gridf_finite z) as (m & e & -> & _); [lia|reflexivity]. }
  assert (IEEE.is_neg_inf (E y) = false) as ->.
  { destruct y as [z| | |]; cbn [below of_exact] in *; try reflexivity; try contradiction.
    destruct (Z.eq_dec z 0) as [->|N]; [reflexivity|].
    destruct (gridf_finite z) as (m & e & -> & _); [lia|reflexivity]. }
  cbn [orb].
  assert (Exact.min x y = if Exact.ltb x y then x else y) as ->
    by (destruct x, y; cbn in *; try contradiction; reflexivity).
  destruct (IEEE.eqb (E x) (S754_zero false) && IEEE.eqb (E x) (E y)) eqn:Z0.
  - apply andb_true_iff in Z0 as [Z1 Z2]. rewrite Q in Z2.
    assert (x = y) as <-.
    { destruct x, y; cbn in *; try contradiction; try discriminate; try reflexivity.
      apply Z.eqb_eq in Z2. congruence. }
    assert (IEEE.signbit (E x) = false) as ->.
    { destruct x as [z| | |]; cbn [below of_exact] in *; try reflexivity; try contradiction.
      destruct (Z.eq_dec z 0) as [->|N]; [reflexivity|].
      destruct (gridf_finite z) as (m & e & -> & _); [lia|reflexivity]. }
    destruct (Exact.ltb x x); reflexivity.
  - destruct (Exact.ltb x y); reflexivity.
Qed.

Lemma E_float_nn (x : xnum) : below top x -> float_nn (E x).
Proof.
  intros Hx. split; [apply E_valid; exact Hx|].
  pose proof (E_ltb (XFin 0) x ltac:(cbn; lia) Hx) as L.
  pose proof (E_eqb (XFin 0) x ltac:(cbn; lia) Hx) as Q.
  cbn [f_ltb f_eqb ieee] in L, Q. rewrite E_zero in L, Q. rewrite L, Q.
  destruct x as [z| | |]; cbn in *; try contradiction; try reflexivity.
  apply orb_true_iff. destruct (Z.eq_dec z 0) as [->|N]; [right; reflexivity|left].
  apply Z.ltb_lt. lia.
Qed.

Lemma E_float64Equals (x y : xnum) :
  below top x -> below top y -> float64Equals (E x) (E y) = float64Equals x y.
Proof.
  intros Hx Hy.
  assert (nn x /\ nn y) as [Nx Ny]
    by (destruct x, y; cbn in *; try contradiction; repeat split; lia).
  rewrite (float64Equals_exact x y Nx Ny). rewrite <- (E_eqb x y Hx Hy).
  unfold float64Equals. destruct (f_eqb (E x) (E y)) eqn:Q; [reflexivity|].
  cbn [f_ltb f_abs f_sub f_smallest_nonzero ieee].
  rewrite (sub_not_below (E x) (E y) (E_valid x Hx) (E_valid y Hy) Q). reflexivity.
Qed.

Lemma E_compare (a b : key xnum) :
  key_below a -> key_below b -> compare (grid_key sc a) (grid_key sc b) = compare a b.
Proof.
  intros [Ha1 Ha2] [Hb1 Hb2]. unfold compare, f_gtb, grid_key. cbn [A B].
  rewrite !E_ltb by assumption. reflexivity.
Qed.

End OnGrid.

End GridFloats.


(** ** The planner on a static graph

    The properties of this part are proved of the code on exact numbers;
    the next parts carry them over to float64 on a grid. *)

(** Numbers read from the maps and the graph become variables, every
    exact number is split into its cases, comparisons are decided, and
    arithmetic closes the goal. *)
Ltac xgen :=
  repeat match goal with
  | |- context [get ?m ?v] => let x := fresh "x" in set (x := get m v) in *; clearbody x
  | |- context [Cost ?d ?a ?b] => let x := fresh "x" in set (x := Cost d a b) in *; clearbody x
  | |- context [Dist ?d ?a ?b] => let x := fresh "x" in set (x := Dist d a b) in *; clearbody x
  | H : context [get ?m ?v] |- _ => let x := fresh "x" in set (x := get m v) in *; clearbody x
  | H : context [Cost ?d ?a ?b] |- _ => let x := fresh "x" in set (x := Cost d a b) in *; clearbody x
  | H : context [Dist ?d ?a ?b] |- _ => let x := fresh "x" in set (x := Dist d a b) in *; clearbody x
  end.

Ltac xbool :=
  repeat match goal with
  | |- context [?a <? ?b] => destruct (Z.ltb_spec a b)
  | |- context [?a =? ?b] => destruct (Z.eqb_spec a b)
  | H : context [?a <? ?b] |- _ => destruct (Z.ltb_spec a b)
  | H : context [?a =? ?b] |- _ => destruct (Z.eqb_spec a b)
  end.

Ltac xsimpl :=
  cbn [f_add f_sub f_abs f_min f_ltb f_eqb f_is_inf f_zero f_inf f_smallest_nonzero exact
       Exact.add Exact.sub Exact.opp Exact.abs Exact.min Exact.ltb Exact.eqb Exact.is_inf
       nn A B andb orb negb] in *.

Ltac xarith :=
  xgen; unfold f_leb, f_gtb in *;
  repeat match goal with x : xnum |- _ => destruct x end;
  xsimpl; try contradiction; try discriminate; try reflexivity; try tauto;
  xbool; xsimpl; try contradiction; try discriminate; try reflexivity; try tauto;
  try congruence; try lia; try (f_equal; lia).

Section StaticProofs.
Context {State : Type} `{Countable State}.
Variable Equals : State -> State -> bool.
Variable d : Data State xnum.
Variable t : State.
Variable V : gset State.
Variables C Hh K : Z.
Hypothesis HG : static_graph Equals d t V.
Hypothesis HC0 : 0 <= C.
Hypothesis HC : forall a b, b ∈ Succ d a -> below C (Cost d a b).
Hypothesis HH : forall a v, below Hh (Dist d a v).
Hypothesis HB : C * (Z.of_nat (size V) + 1) + Hh + K <= 2 ^ 53 - 1.
Local Abbreviation planner := (Planner State xnum).
Local Abbreviation core := (static_core d t V C K).
Local Abbreviation inv := (static_run d t V C K).
Implicit Types (p : planner) (v w x st : State) (S : gset State).

(** The queue lemmas, for keys of costs. *)
Lemma key_below_ok (k : key xnum) : key_below k -> xkey_ok k.
Proof.
  intros [Ha Hb]. split; [destruct (A k)|destruct (B k)]; cbn in *; try tauto; lia.
Qed.

Lemma kle_below_refl (k : key xnum) : key_below k -> kle k k.
Proof. intros Hk. apply kle_exact_refl. apply key_below_ok. exact Hk. Qed.

Lemma kle_below_trans (k1 k2 k3 : key xnum) :
  key_below k1 -> key_below k2 -> key_below k3 -> kle k1 k2 -> kle k2 k3 -> kle k1 k3.
Proof. intros H1 H2 H3. apply kle_exact_trans; apply key_below_ok; assumption. Qed.

Lemma lt_kle_below (k1 k2 : key xnum) :
  key_below k1 -> key_below k2 -> compare k1 k2 = -1 -> kle k1 k2.
Proof. intros H1 H2. apply lt_kle_exact; apply key_below_ok; assumption. Qed.

Local Abbreviation x_insert := (insert_key_of key_below kle_below_trans lt_kle_below).
Local Abbreviation x_remove :=
  (remove_key_of key_below kle_below_refl kle_below_trans lt_kle_below).
Local Abbreviation x_update :=
  (update_key_of key_below kle_below_refl kle_below_trans lt_kle_below).
Local Abbreviation x_top := (top_key_of key_below kle_below_refl kle_below_trans).

Lemma h_fin a v : exists z, 0 <= z /\ Dist d a v = XFin z.
Proof. destruct HG as (_ & _ & _ & _ & _ & Hf & _). apply Hf. Qed.

Lemma Equals_eq a b : Equals a b = true <-> a = b.
Proof. destruct HG as (HE & _). apply HE. Qed.

Lemma Equals_neq a b : negb (Equals a b) = true <-> a <> b.
Proof.
  rewrite negb_true_iff, <- not_true_iff_false, Equals_eq. reflexivity.
Qed.

Lemma cost_nn a b : b ∈ Succ d a -> nn (Cost d a b).
Proof. destruct HG as (_ & _ & _ & _ & Hc & _). apply Hc. Qed.

Lemma pred_succ a b : a ∈ Pred d b <-> b ∈ Succ d a.
Proof. destruct HG as (_ & _ & _ & Hps & _). apply Hps. Qed.

Lemma h_consistent s a b :
  b ∈ Succ d a -> f_leb (Dist d s b) (f_add (Dist d s a) (Cost d a b)) = true.
Proof. destruct HG as (_ & _ & _ & _ & _ & _ & Hc & _). apply Hc. Qed.

Lemma h_triangle a b v : f_leb (Dist d a v) (f_add (Dist d a b) (Dist d b v)) = true.
Proof. destruct HG as (_ & _ & _ & _ & _ & _ & _ & Hc). apply Hc. Qed.

Lemma below_nn (b : Z) (y : xnum) : below b y -> nn y.
Proof. destruct y; cbn; try tauto; lia. Qed.

Lemma below_le (b b' : Z) (y : xnum) : b <= b' -> below b y -> below b' y.
Proof. destruct y; cbn; try tauto; lia. Qed.

Lemma core_nn p x rest v :
  core x rest p -> nn (get (g p) v) /\ nn (get (rhs p) v).
Proof.
  intros (_ & _ & Hnn & _). destruct (Hnn v) as [Hg Hr].
  split; [exact (below_nn _ _ Hg)|exact (below_nn _ _ Hr)].
Qed.

(** The states with a stored g are states of the graph. *)
Lemma g_dom_V p x rest : core x rest p -> dom (g p) ⊆ V.
Proof.
  intros (Hends & Hq & Hnn & Hrt & HR1 & HR2 & HG' & HD1 & HD2 & HV & Hdom) v Hv.
  apply elem_of_dom in Hv as [y Hy]. apply HV.
  assert (get (g p) v = y) as Eg by (unfold get; rewrite Hy; reflexivity).
  pose proof (Hdom v y Hy) as Ny.
  destruct (HG' v) as [E|E]; [congruence|]. rewrite <- E, Eg. exact Ny.
Qed.

(** The keys that [calcKey] gives are on the grid. *)
Lemma calcKey_below p x rest v : core x rest p -> key_below (calcKey d p v).
Proof.
  intros Hcore. pose proof (subseteq_size _ _ (g_dom_V p x rest Hcore)) as Hsz.
  destruct Hcore as ((_ & k & Hk0 & Hk) & _ & Hnn & _).
  destruct (Hnn v) as [Hg Hr]. pose proof (HH (start p) v) as Hhv.
  unfold calcKey, key_below. cbn [A B]. rewrite Hk.
  destruct (h_fin (start p) v) as (z & Hz & Ez). rewrite Ez in *.
  revert Hg Hr. generalize (get (g p) v) (get (rhs p) v). intros y1 y2 Hg Hr.
  assert (C * Z.of_nat (size (dom (g p))) <= C * Z.of_nat (size V)) as Hmul by nia.
  cbn [below] in Hhv.
  split; destruct y1, y2; cbn in *; try contradiction; try exact I;
    repeat match goal with
    | |- context [?a <? ?b] => destruct (Z.ltb_spec a b)
    end; cbn; try exact I; lia.
Qed.

Lemma calcKey_ok p x rest v : core x rest p -> xkey_ok (calcKey d p v).
Proof. intros Hcore. apply key_below_ok. exact (calcKey_below p x rest v Hcore). Qed.

(** The first components of ordered keys are ordered. *)
Lemma kle_A (k1 k2 : key xnum) :
  xkey_ok k1 -> xkey_ok k2 -> kle k1 k2 -> f_leb (A k1) (A k2) = true.
Proof.
  intros O1 O2 Hle. unfold kle in Hle. rewrite (compare_exact_lt _ _ O2 O1) in Hle.
  destruct O1 as [O1 _], O2 as [O2 _]. apply (leb_exact _ _ O1 O2).
  destruct (f_ltb (A k2) (A k1)); [|reflexivity]. exfalso. apply Hle. left. reflexivity.
Qed.

(** A key with the second component of a key above it that is not below
    that key is that key. *)
Lemma key_squeeze (k1 k2 : key xnum) :
  xkey_ok k1 -> xkey_ok k2 -> B k1 = B k2 -> f_leb (A k1) (A k2) = true ->
  compare k1 k2 <> -1 -> k1 = k2.
Proof.
  intros O1 O2 EB LA Hc. rewrite (compare_exact_lt _ _ O1 O2) in Hc.
  destruct k1 as [a1 b1], k2 as [a2 b2]. cbn [A B] in *. subst b2.
  destruct O1 as [O1 _], O2 as [O2 _]. cbn [A B] in *.
  assert (a1 = a2) as ->; [|reflexivity].
  destruct (f_ltb a1 a2) eqn:L; [exfalso; apply Hc; left; reflexivity|].
  clear Hc. xarith.
Qed.

(** [updateVertex] on the queue as a map: the entry of [v] is set to what
    g(v) and rhs(v) ask for; no other entry changes. *)
Lemma updateVertex_exact p v :
  queue_inv key_below (u p) -> nn (get (g p) v) -> nn (get (rhs p) v) ->
  key_below (calcKey d p v) ->
  exists p', updateVertex d p v = Returns p' /\ same_fields p p' /\
    queue_inv key_below (u p') /\
    forall w, key_of (u p') w =
      if decide (w = v)
      then (if f_eqb (get (g p) v) (get (rhs p) v) then None else Some (calcKey d p v))
      else key_of (u p) w.
Proof.
  intros Hq Hg Hr Hk. pose proof Hq as (Hi & _ & Hok).
  unfold updateVertex. rewrite (float64Equals_exact _ _ Hg Hr).
  destruct (f_eqb (get (g p) v) (get (rhs p) v)) eqn:Eq;
    destruct (pq.contains (u p) v) eqn:Hc; cbn [negb andb].
  - destruct (x_remove (u p) v Hq Hc)
      as (q' & -> & Hq' & K').
    eexists. split; [reflexivity|]. split; [repeat split|]. split; [exact Hq'|exact K'].
  - exists p. split; [reflexivity|]. split; [repeat split|]. split; [exact Hq|].
    intros w. destruct (decide (w = v)) as [->|]; [|reflexivity].
    destruct (key_of (u p) v) as [kc|] eqn:Hkc; [|reflexivity].
    assert (pq.contains (u p) v = true) by (apply (key_of_contains _ _ Hi); eauto).
    congruence.
  - apply (key_of_contains _ _ Hi) in Hc as [kc Hkc].
    assert (xkey_ok kc) as Hkcok.
    { apply (key_of_elem _ _ _ Hi) in Hkc. apply key_below_ok. apply (Hok _ Hkc). }
    destruct (x_update (u p) v _ kc Hq Hkc Hk)
      as (q' & -> & Hq' & K').
    eexists. split; [reflexivity|]. split; [repeat split|]. split; [exact Hq'|].
    intros w. rewrite K'. destruct (decide (w = v)); [|reflexivity].
    destruct (decide (compare kc (calcKey d p v) = 0)) as [E0|]; [|reflexivity].
    apply (compare_exact_eq _ _ Hkcok (key_below_ok _ Hk)) in E0. congruence.
  - destruct (x_insert (u p) v _ Hq Hc Hk)
      as (q' & -> & Hq' & K').
    eexists. split; [reflexivity|]. split; [repeat split|]. split; [exact Hq'|exact K'].
Qed.

Lemma route_nn w l c : route d t w l c -> nn c.
Proof.
  induction 1 as [|v w l c Hw _ IH]; [cbn; lia|].
  pose proof (cost_nn v w Hw). xarith.
Qed.

(** A state of the queue has no g and a finite rhs; its key has the
    second component of the key that [calcKey] gives now, and a first
    component that is not above. *)
Lemma queued_over p x rest S w kw :
  inv x rest S p -> key_of (u p) w = Some kw ->
  get (g p) w = XPInf /\ get (rhs p) w <> XPInf /\ xkey_ok kw /\
  B kw = B (calcKey d p w) /\ f_leb (A kw) (A (calcKey d p w)) = true /\
  (w ∉ S -> kw = calcKey d p w).
Proof.
  intros (Hcore & HK) Hkw.
  pose proof Hcore as (Hends & Hq & Hnn & Hrt & HR1 & HR2 & HG' & HD1 & HD2 & HV & Hdom).
  destruct Hends as (Hg & Hkm). pose proof Hq as (Hi & _ & Hok).
  destruct (core_nn p x rest w Hcore) as [Hgw Hrw].
  pose proof (calcKey_ok p x rest w Hcore) as Okw.
  assert (xkey_ok kw) as Ok.
  { apply (key_of_elem _ _ _ Hi) in Hkw. apply key_below_ok. apply (Hok _ Hkw). }
  assert (f_eqb (get (g p) w) (get (rhs p) w) = false /\
          B kw = B (calcKey d p w) /\ f_leb (A kw) (A (calcKey d p w)) = true /\
          (w ∉ S -> kw = calcKey d p w)) as (Eq & EB & LA & Ecur).
  { pose proof (HK w) as Kw. unfold stored_ok in Kw. rewrite Hkw in Kw.
    destruct (decide (w ∈ S)) as [Hin|Hout].
    - destruct Kw as (k' & [= <-] & Eq & EB & LA).
      split; [exact Eq|]. split; [exact EB|]. split; [exact LA|].
      intros N. contradiction.
    - unfold queue_key in Kw.
      destruct (f_eqb (get (g p) w) (get (rhs p) w)); [discriminate|].
      injection Kw as ->. split; [reflexivity|]. split; [reflexivity|].
      split; [|reflexivity]. apply leb_exact_refl. apply Okw. }
  assert (get (g p) w = XPInf) as Egw.
  { destruct (HG' w) as [E|E]; [exact E|]. rewrite E in Eq.
    rewrite (proj2 (eqb_exact _ _ Hrw Hrw) eq_refl) in Eq. discriminate. }
  assert (get (rhs p) w <> XPInf) as Nrw.
  { intros E. rewrite Egw, E in Eq. discriminate. }
  split; [exact Egw|]. split; [exact Nrw|]. split; [exact Ok|].
  split; [exact EB|]. split; [exact LA|exact Ecur].
Qed.

(** A state without a g and with a finite rhs is in the queue, under a
    key whose first component is not above the one [calcKey] gives. *)
Lemma over_queued p x rest S v :
  inv x rest S p -> get (g p) v = XPInf -> get (rhs p) v <> XPInf ->
  exists kv, key_of (u p) v = Some kv /\ xkey_ok kv /\
    f_leb (A kv) (A (calcKey d p v)) = true.
Proof.
  intros Hinv Egv Nrv. pose proof Hinv as (Hcore & HK).
  destruct (core_nn p x rest v Hcore) as [Hgv Hrv].
  assert (f_eqb (get (g p) v) (get (rhs p) v) = false) as Eqv.
  { rewrite Egv. clear -Nrv Hrv. xarith. }
  assert (exists kv, key_of (u p) v = Some kv) as [kv Hkv].
  { pose proof (HK v) as Kv. unfold stored_ok in Kv.
    destruct (decide (v ∈ S)).
    - destruct Kv as (k' & E & _). eauto.
    - unfold queue_key in Kv. rewrite Eqv in Kv. eauto. }
  exists kv. split; [exact Hkv|].
  destruct (queued_over p x rest S v kv Hinv Hkv) as (_ & _ & Ok & _ & LA & _).
  split; assumption.
Qed.

(** On a route from [w] either [w] has a finite g, or some state [v]
    without one bounds the route from below, by its rhs and by its key. *)
Lemma frontier p x S w l c :
  inv x [] S p -> route d t w l c ->
  get (g p) w <> XPInf \/
  exists v, get (g p) v = XPInf /\
    f_leb (f_add (get (rhs p) v) (Dist d (start p) v))
          (f_add c (Dist d (start p) w)) = true /\
    f_leb (get (rhs p) v) c = true.
Proof.
  intros (Hcore & HK) Hr.
  pose proof Hcore as (Hends & Hq & _ & Hrt & HR1 & HR2 & HG' & HD1 & HD2 & HV & Hdom).
  pose proof (fun v => core_nn p x [] v Hcore) as Hnn.
  set (h := Dist d (start p)).
  induction Hr as [|v w l c Hw Hr IH].
  - destruct (decide (get (g p) t = XPInf)) as [E|NE]; [right|left; exact NE].
    exists t. split; [exact E|]. rewrite Hrt.
    destruct (h_fin (start p) t) as (z & Hz & Ez). subst h. cbv beta. rewrite Ez.
    split; xarith.
  - destruct (decide (get (g p) v = XPInf)) as [E|NE]; [right|left; exact NE].
    pose proof (cost_nn v w Hw) as Hc. pose proof (route_nn w l c Hr) as Hcn.
    pose proof (h_consistent (start p) v w Hw) as Hcons.
    destruct (h_fin (start p) v) as (zv & Hzv & Ehv).
    destruct (h_fin (start p) w) as (zw & Hzw & Ehw).
    subst h. cbv beta in *.
    rewrite Ehv, Ehw in Hcons.
    destruct IH as [Hgw|(v' & Ev' & L1 & L2)].
    + exists v. split; [exact E|].
      pose proof (HD2 w l c Hgw Hr) as Hgc.
      destruct (Hnn v) as [_ Hrv]. destruct (Hnn w) as [Hgwn _].
      assert (f_leb (get (rhs p) v) (f_add (Cost d v w) (get (g p) w)) = true) as Hle.
      { destruct (decide (v = t)) as [->|Hvt].
        - rewrite Hrt. clear -Hc Hgwn. xarith.
        - destruct (HR1 v w Hvt Hw) as [[_ Hin]|Hle]; [|exact Hle].
          apply elem_of_nil in Hin. contradiction. }
      rewrite Ehv. clear -Hle Hgc Hrv Hgwn Hc Hcn Hzv. split; xarith.
    + exists v'. split; [exact Ev'|].
      destruct (Hnn v') as [_ Hrv'].
      destruct (h_fin (start p) v') as (zv' & Hzv' & Ehv').
      rewrite Ehv, Ehv' in *. rewrite Ehw in L1.
      clear -L1 L2 Hcons Hc Hcn Hrv' Hzv Hzw Hzv'. split; xarith.
Qed.

(** The state at the top of the queue, when its key is the one [calcKey]
    gives now: its rhs is at most the cost of every route from it. *)
Lemma top_bound p x S w :
  inv x [] S p -> key_of (u p) w = Some (calcKey d p w) ->
  (forall v kv, key_of (u p) v = Some kv -> kle (calcKey d p w) kv) ->
  forall l c, route d t w l c -> f_leb (get (rhs p) w) c = true.
Proof.
  intros Hinv Hkw Hmin l c Hr.
  pose proof Hinv as (Hcore & HK).
  pose proof Hcore as (Hends & Hq & _ & Hrt & HR1 & HR2 & HG' & HD1 & HD2 & HV & Hdom).
  pose proof (fun v => core_nn p x [] v Hcore) as Hnn.
  destruct Hends as (Hg & k & [Hk0 HkK] & Hkm).
  destruct (queued_over p x [] S w _ Hinv Hkw) as (Egw & Nrw & Okw & _).
  destruct (Hnn w) as [Hgw Hrw].
  pose proof (route_nn w l c Hr) as Hcn.
  destruct (frontier p x S w l c Hinv Hr) as [N|(v & Egv & L1 & L2)]; [contradiction|].
  destruct (Hnn v) as [Hgv Hrv].
  destruct (decide (get (rhs p) v = XPInf)) as [Erv|Nrv].
  { rewrite Erv in L2. clear -L2 Hcn Hrw. xarith. }
  destruct (over_queued p x [] S v Hinv Egv Nrv) as (kv & Hkv & Okv & LA).
  pose proof (kle_A _ _ Okw Okv (Hmin v kv Hkv)) as LB.
  assert (xkey_ok (calcKey d p v)) as Ocv by (apply (calcKey_ok p x []); exact Hcore).
  pose proof (leb_exact_trans _ _ _ (proj1 Okw) (proj1 Okv) (proj1 Ocv) LB LA) as L.
  unfold calcKey in L. cbn [A] in L. rewrite Egv, Egw, Hkm in L.
  destruct (h_fin (start p) v) as (zv & Hzv & Ehv).
  destruct (h_fin (start p) w) as (zw & Hzw & Ehw).
  rewrite Ehv, Ehw in *.
  clear -L L1 L2 Hrv Hrw Hcn Nrv Nrw Hzv Hzw Hk0. xarith.
Qed.

(** When the loop is over, rhs(start) is at most the cost of every route
    from the start. *)
Lemma exit_bound p x S :
  inv x [] S p -> unfinished d p = false ->
  forall l c, route d t (start p) l c -> f_leb (get (rhs p) (start p)) c = true.
Proof.
  intros Hinv Hun l c Hr.
  pose proof Hinv as (Hcore & HK).
  pose proof Hcore as (Hends & Hq & _ & Hrt & HR1 & HR2 & HG' & HD1 & HD2 & HV & Hdom).
  pose proof (fun v => core_nn p x [] v Hcore) as Hnn.
  destruct Hends as (Hg & k & [Hk0 HkK] & Hkm). pose proof Hq as (Hi & _).
  pose proof (route_nn (start p) l c Hr) as Hcn.
  destruct (Hnn (start p)) as [Hgs Hrs].
  destruct (frontier p x S (start p) l c Hinv Hr) as [N|(v & Egv & L1 & L2)].
  { pose proof (HD2 (start p) l c N Hr) as Hle.
    destruct (HG' (start p)) as [E|E]; [contradiction|]. rewrite <- E. exact Hle. }
  destruct (Hnn v) as [Hgv Hrv].
  destruct (decide (get (rhs p) v = XPInf)) as [Erv|Nrv].
  { rewrite Erv in L2. clear -L2 Hcn Hrs. xarith. }
  destruct (over_queued p x [] S v Hinv Egv Nrv) as (kv & Hkv & Okv & LA).
  assert (pq.isEmpty (u p) = false) as Hne.
  { destruct (pq.isEmpty (u p)) eqn:E; [|reflexivity].
    pose proof (proj1 (isEmpty_key_of _ Hi) E v) as E'. rewrite E' in Hkv. discriminate. }
  assert (items (u p) <> []) as Hne'.
  { intros E. apply (isEmpty_items _ Hi) in E. congruence. }
  unfold unfinished in Hun. rewrite Hne in Hun. cbn [negb andb] in Hun.
  apply orb_false_iff in Hun as [Hun1 Hun2]. apply bool_decide_eq_false in Hun1.
  destruct (x_top (u p) Hq Hne') as (y & ky & _ & Etop & Hky & Hmin).
  rewrite Etop in Hun1.
  assert (xkey_ok (calcKey d p v)) as Ocv by (apply (calcKey_ok p x []); exact Hcore).
  assert (xkey_ok (calcKey d p (start p))) as Ocs by (apply (calcKey_ok p x []); exact Hcore).
  assert (xkey_ok ky) as Oky.
  { destruct Hq as (_ & _ & Hok). apply (key_of_elem _ _ _ Hi) in Hky.
    apply key_below_ok. apply (Hok _ Hky). }
  pose proof (kle_exact_trans _ _ _ Ocs Oky Okv Hun1 (Hmin v _ Hkv)) as Hle.
  pose proof (kle_A _ _ Ocs Okv Hle) as LB.
  pose proof (leb_exact_trans _ _ _ (proj1 Ocs) (proj1 Okv) (proj1 Ocv) LB LA) as L.
  unfold calcKey in L. cbn [A] in L. rewrite Egv, Hkm in L.
  destruct (h_fin (start p) v) as (zv & Hzv & Ehv). destruct (h_fin (start p) (start p)) as (zs & Hzs & Ehs).
  rewrite Ehv, Ehs in *.
  clear -L L1 L2 Hun2 Hrv Hrs Hgs Hcn Nrv Hzv Hzs Hk0. xarith.
Qed.

Lemma get_insert_eq (m : gmap State xnum) v y : get (<[v := y]> m) v = y.
Proof. unfold get. rewrite lookup_insert_eq. reflexivity. Qed.

Lemma get_insert_ne (m : gmap State xnum) v w y : v <> w -> get (<[v := y]> m) w = get m w.
Proof. intros Hne. unfold get. rewrite lookup_insert_ne by exact Hne. reflexivity. Qed.

Lemma calcKey_same p p' v :
  start p' = start p -> km p' = km p ->
  get (g p') v = get (g p) v -> get (rhs p') v = get (rhs p) v ->
  calcKey d p' v = calcKey d p v.
Proof. intros Hs Hk Hg Hr. unfold calcKey. rewrite Hs, Hk, Hg, Hr. reflexivity. Qed.

Lemma stored_ok_same S S' p p' v o :
  (v ∈ S' <-> v ∈ S) -> start p' = start p -> km p' = km p ->
  get (g p') v = get (g p) v -> get (rhs p') v = get (rhs p) v ->
  stored_ok d S p v o -> stored_ok d S' p' v o.
Proof.
  intros HS Hs Hk Hg Hr. unfold stored_ok, queue_key.
  rewrite (calcKey_same p p' v Hs Hk Hg Hr), Hg, Hr.
  destruct (decide (v ∈ S)), (decide (v ∈ S')); tauto.
Qed.

(** [updateVertex(st)] restores the agreement of the queue with g and
    rhs once only the entry of [st] is in doubt; the key of [st] is then
    the one [calcKey] gives. *)
Lemma settle p x rest S st :
  core x rest p ->
  (forall v, v <> st -> stored_ok d S p v (key_of (u p) v)) ->
  exists p', updateVertex d p st = Returns p' /\ inv x rest (S ∖ {[st]}) p' /\
    g p' = g p /\ rhs p' = rhs p.
Proof.
  intros Hcore HK.
  pose proof Hcore as (Hends & Hq & Hnn & Hrest).
  destruct (core_nn p x rest st Hcore) as [Hgst Hrst].
  destruct (updateVertex_exact p st Hq Hgst Hrst (calcKey_below p x rest st Hcore))
    as (p' & E & (S1 & S2 & S3 & S4 & S5) & Hq' & K').
  exists p'. split; [exact E|]. split; [|split; assumption].
  split.
  - unfold static_core. rewrite S2, S3, S4, S5.
    split; [exact Hends|]. split; [exact Hq'|]. split; [exact Hnn|exact Hrest].
  - intros v. rewrite K'. destruct (decide (v = st)) as [->|Hne].
    + unfold stored_ok. rewrite decide_False by set_solver.
      unfold queue_key. rewrite S4, S5.
      rewrite (calcKey_same p p' st S1 S3 ltac:(rewrite S5; reflexivity)
                 ltac:(rewrite S4; reflexivity)).
      reflexivity.
    + apply (stored_ok_same S (S ∖ {[st]}) p p' v);
        [set_solver|exact S1|exact S3|rewrite S5; reflexivity|rewrite S4; reflexivity|].
      apply HK. exact Hne.
Qed.

Lemma below_min (b : Z) (y1 y2 : xnum) :
  below b y1 -> below b y2 -> below b (f_min y1 y2).
Proof.
  destruct y1, y2; cbn; try tauto.
  destruct (Z.ltb_spec z z0); cbn; tauto.
Qed.

Lemma below_add (b1 b2 : Z) (y1 y2 : xnum) :
  below b1 y1 -> below b2 y2 -> below (b1 + b2) (f_add y1 y2).
Proof. destruct y1, y2; cbn; try tauto. lia. Qed.

(** One predecessor [st] of the expanded state [x] is updated. *)
Lemma lower_step p x st rest S :
  inv x (st :: rest) S p -> get (g p) x <> XPInf -> st ∈ Pred d x ->
  exists p', lower Equals d x p st = Returns p' /\ inv x rest (S ∖ {[st]}) p' /\
    g p' = g p.
Proof.
  intros Hinv Hgx Hst.
  pose proof Hinv as (Hcore & HK).
  pose proof Hcore as (Hends & Hq & HnnB & Hrt & HR1 & HR2 & HG' & HD1 & HD2 & HV & Hdom).
  pose proof (fun v => core_nn p x _ v Hcore) as Hnn.
  destruct Hends as (Hg & Hkm).
  assert (x ∈ Succ d st) as Hxs by (apply pred_succ; exact Hst).
  pose proof (cost_nn st x Hxs) as Hc.
  unfold lower. rewrite Hg.
  destruct (decide (st = t)) as [->|Hne].
  - (* the goal keeps its rhs *)
    rewrite (proj2 (Equals_eq t t) eq_refl). cbn [negb].
    destruct (settle p x rest S t) as (p' & E & Hinv' & Eg & _).
    + split; [split; assumption|]. split; [exact Hq|]. split; [exact HnnB|].
      split; [exact Hrt|]. split; [|repeat split; assumption].
      intros v w Hv Hw. destruct (HR1 v w Hv Hw) as [[-> Hin]|Hle]; [left|right; exact Hle].
      split; [reflexivity|]. apply elem_of_cons in Hin as [->|Hin]; [contradiction|exact Hin].
    + intros v _. apply HK.
    + exists p'. auto.
  - rewrite (proj2 (Equals_neq st t) Hne).
    set (m := f_min (get (rhs p) st) (f_add (Cost d st x) (get (g p) x))).
    destruct (Hnn st) as [Hgst Hrst]. destruct (Hnn x) as [Hgxn _].
    assert (nn m) as Hm by (apply nn_min; [exact Hrst|apply nn_add; assumption]).
    (* a state with a finite g keeps its rhs *)
    assert (get (g p) st <> XPInf -> m = get (rhs p) st) as Hkeep.
    { intros Hfin. destruct (HD1 x Hgx) as (l & Hl).
      pose proof (HD2 st _ _ Hfin (route_step d t st x l _ Hxs Hl)) as Hle.
      destruct (HG' st) as [E|E]; [contradiction|]. rewrite E in Hle.
      subst m. clear -Hle Hrst Hgxn Hc. xarith. }
    destruct (settle (set_rhs p st m) x rest S st) as (p' & E & Hinv' & Eg & _).
    + unfold static_core, set_rhs. cbn [start goal km u rhs g].
      split; [split; assumption|]. split; [exact Hq|].
      split; [|split; [|split; [|split; [|split; [|split; [|split; [|split; [|exact Hdom]]]]]]]].
      * intros v. split; [apply HnnB|]. destruct (decide (v = st)) as [->|Hv].
        -- rewrite get_insert_eq. subst m. apply below_min; [apply HnnB|].
           replace (C * (Z.of_nat (size (dom (g p))) + 1))
             with (C + C * Z.of_nat (size (dom (g p)))) by lia.
           apply below_add; [apply HC; exact Hxs|apply HnnB].
        -- rewrite get_insert_ne by congruence. apply HnnB.
      * rewrite get_insert_ne by exact Hne. exact Hrt.
      * intros v w Hv Hw. destruct (decide (v = st)) as [->|Hvst].
        -- right. rewrite get_insert_eq.
           destruct (decide (w = x)) as [->|Hwx].
           ++ subst m. clear -Hrst Hgxn Hc. xarith.
           ++ destruct (HR1 st w Hv Hw) as [[-> _]|Hle]; [contradiction|].
              pose proof (cost_nn st w Hw) as Hcw. destruct (Hnn w) as [Hgw _].
              subst m. clear -Hle Hrst Hgxn Hc Hcw Hgw. xarith.
        -- rewrite get_insert_ne by congruence.
           destruct (HR1 v w Hv Hw) as [[-> Hin]|Hle]; [left|right; exact Hle].
           split; [reflexivity|].
           apply elem_of_cons in Hin as [->|Hin]; [contradiction|exact Hin].
      * intros v Hv. destruct (decide (v = st)) as [->|Hvst].
        -- rewrite get_insert_eq.
           destruct (f_ltb (get (rhs p) st) (f_add (Cost d st x) (get (g p) x))) eqn:L.
           ++ assert (m = get (rhs p) st) as ->
                by (subst m; rewrite min_exact, L by (try apply nn_add; assumption); reflexivity).
              apply HR2. exact Hv.
           ++ assert (m = f_add (Cost d st x) (get (g p) x)) as ->
                by (subst m; rewrite min_exact, L by (try apply nn_add; assumption); reflexivity).
              right. exists x. split; [exact Hxs|reflexivity].
        -- rewrite get_insert_ne by congruence. apply HR2. exact Hv.
      * intros v. destruct (decide (v = st)) as [->|Hvst].
        -- rewrite get_insert_eq.
           destruct (decide (get (g p) st = XPInf)) as [E|NE]; [left; exact E|right].
           rewrite (Hkeep NE). destruct (HG' st) as [E|E]; [contradiction|exact E].
        -- rewrite get_insert_ne by congruence. apply HG'.
      * exact HD1.
      * exact HD2.
      * intros v. destruct (decide (v = st)) as [->|Hvst].
        -- intros _. destruct HG as (_ & _ & Hcl & _). apply (Hcl x st); [|exact Hst].
           apply HV. destruct (HG' x) as [E|E]; [contradiction|]. rewrite <- E. exact Hgx.
        -- rewrite get_insert_ne by congruence. apply HV.
    + intros v Hv. unfold set_rhs at 2. cbn [u].
      apply (stored_ok_same S S p (set_rhs p st m) v);
        [reflexivity|reflexivity|reflexivity|reflexivity| |apply HK].
      unfold set_rhs. cbn [rhs]. apply get_insert_ne. congruence.
    + exists p'. split; [exact E|]. split; [exact Hinv'|exact Eg].
Qed.

Lemma lower_all p x l S :
  inv x l S p -> get (g p) x <> XPInf -> (forall st, st ∈ l -> st ∈ Pred d x) ->
  exists p' S', for_range (lower Equals d x) l p = Returns p' /\ inv x [] S' p' /\
    g p' = g p /\ S' ⊆ S.
Proof.
  revert p S. induction l as [|st l IH]; intros p S Hinv Hgx Hl.
  - exists p, S. split; [reflexivity|]. split; [exact Hinv|]. split; reflexivity.
  - destruct (lower_step p x st l S Hinv Hgx) as (p1 & E1 & Hinv1 & Eg1).
    { apply Hl. apply list_elem_of_here. }
    destruct (IH p1 _ Hinv1) as (p' & S' & E' & Hinv' & Eg' & HS').
    { unfold get. rewrite Eg1. exact Hgx. }
    { intros st' Hin. apply Hl. apply list_elem_of_further. exact Hin. }
    exists p', S'. cbn [for_range]. rewrite E1. cbn [mbind res_bind].
    split; [exact E'|]. split; [exact Hinv'|]. split; [congruence|set_solver].
Qed.

(** The state [x] at the top of the queue, under the key that [calcKey]
    gives it, is given its g and leaves the queue; its predecessors wait
    for their update. *)
Lemma expand_start p x0 x S :
  inv x0 [] S p -> key_of (u p) x = Some (calcKey d p x) ->
  (forall v kv, key_of (u p) v = Some kv -> kle (calcKey d p x) kv) ->
  exists q, pq.remove (u p) x = Some q /\
    inv x (Pred d x) (S ∖ {[x]}) (set_u (set_g p x (get (rhs p) x)) q) /\
    g p !! x = None /\ x ∈ V /\ get (rhs p) x <> XPInf.
Proof.
  intros Hinv Hkx Hmin.
  pose proof (top_bound p x0 S x Hinv Hkx Hmin) as Hbound.
  destruct (queued_over p x0 [] S x _ Hinv Hkx) as (Egx & Nrx & _).
  pose proof Hinv as (Hcore & HK).
  pose proof Hcore as (Hends & Hq & HnnB & Hrt & HR1 & HR2 & HG' & HD1 & HD2 & HV & Hdom).
  pose proof (fun v => core_nn p x0 _ v Hcore) as Hnn.
  destruct Hends as (Hg & Hkm). pose proof Hq as (Hi & _).
  assert (pq.contains (u p) x = true) as Hc by (apply (key_of_contains _ _ Hi); eauto).
  destruct (x_remove (u p) x Hq Hc) as (q & E & Hq' & K').
  exists q. split; [exact E|].
  destruct (Hnn x) as [_ Hrx].
  assert (g p !! x = None) as Hnone.
  { destruct (g p !! x) as [y|] eqn:Ey; [exfalso|reflexivity].
    apply (Hdom x y Ey). unfold get in Egx. rewrite Ey in Egx. exact Egx. }
  split; [|split; [exact Hnone|split; [apply HV; exact Nrx|exact Nrx]]].
  assert (Z.of_nat (size (dom (<[x := get (rhs p) x]> (g p))))
          = Z.of_nat (size (dom (g p))) + 1) as Esz.
  { rewrite dom_insert_L, size_union, size_singleton.
    - lia.
    - apply not_elem_of_dom in Hnone. set_solver. }
  unfold set_u, set_g. cbn [start goal rhs g u km]. split.
  - unfold static_core. cbn [start goal rhs g u km].
    split; [split; assumption|]. split; [exact Hq'|].
    split; [|split; [|split; [|split; [|split; [|split; [|split; [|split; [|]]]]]]]].
    + intros v. rewrite Esz. destruct (HnnB v) as [Bg Br]. split.
      * destruct (decide (v = x)) as [->|Hv].
        -- rewrite get_insert_eq. exact Br.
        -- rewrite get_insert_ne by congruence.
           apply (below_le (C * Z.of_nat (size (dom (g p))))); [lia|exact Bg].
      * apply (below_le (C * (Z.of_nat (size (dom (g p))) + 1))); [lia|exact Br].
    + exact Hrt.
    + intros v w Hv Hw. destruct (decide (w = x)) as [->|Hwx].
      * left. split; [reflexivity|]. apply pred_succ. exact Hw.
      * right. rewrite get_insert_ne by congruence.
        destruct (HR1 v w Hv Hw) as [[_ Hin]|Hle]; [|exact Hle].
        apply elem_of_nil in Hin. contradiction.
    + intros v Hv. destruct (HR2 v Hv) as [E'|(w & Hw & E')]; [left; exact E'|].
      destruct (decide (w = x)) as [->|Hwx].
      * left. rewrite E', Egx. pose proof (cost_nn v x Hw) as Hc'. clear -Hc'. xarith.
      * right. exists w. split; [exact Hw|]. rewrite get_insert_ne by congruence. exact E'.
    + intros v. destruct (decide (v = x)) as [->|Hv].
      * right. apply get_insert_eq.
      * rewrite get_insert_ne by congruence. apply HG'.
    + intros v. destruct (decide (v = x)) as [->|Hv].
      * rewrite get_insert_eq. intros _.
        destruct (decide (x = t)) as [->|Hxt].
        -- rewrite Hrt. exists [t]. constructor.
        -- destruct (HR2 x Hxt) as [E'|(w & Hw & E')]; [contradiction|].
           assert (get (g p) w <> XPInf) as Hgw.
           { intros Ew. apply Nrx. rewrite E', Ew.
             pose proof (cost_nn x w Hw) as Hc'. clear -Hc'. xarith. }
           destruct (HD1 w Hgw) as (l & Hl). exists (x :: l). rewrite E'.
           apply route_step; assumption.
      * rewrite get_insert_ne by congruence. apply HD1.
    + intros v l c. destruct (decide (v = x)) as [->|Hv].
      * rewrite get_insert_eq. intros _. apply Hbound.
      * rewrite get_insert_ne by congruence. apply HD2.
    + exact HV.
    + intros v y. destruct (decide (v = x)) as [->|Hv].
      * rewrite lookup_insert_eq. intros [= <-]. exact Nrx.
      * rewrite lookup_insert_ne by congruence. apply Hdom.
  - intros v. rewrite K'.
    destruct (decide (v = x)) as [->|Hv].
    + unfold stored_ok. rewrite decide_False by set_solver.
      unfold queue_key. cbn [rhs g]. rewrite get_insert_eq.
      rewrite (proj2 (eqb_exact _ _ Hrx Hrx) eq_refl). reflexivity.
    + apply (stored_ok_same S (S ∖ {[x]}) p _ v);
        [set_solver|reflexivity|reflexivity| |reflexivity|apply HK].
      cbn [g]. apply get_insert_ne. congruence.
Qed.

(** The state [x] at the top of the queue, under a key below the one
    [calcKey] gives it now, is queued again under that one. *)
Lemma rekey p x0 x kx S :
  inv x0 [] S p -> key_of (u p) x = Some kx -> compare kx (calcKey d p x) = -1 ->
  exists q, pq.update (u p) x (calcKey d p x) = Some q /\
    inv x0 [] (S ∖ {[x]}) (set_u p q) /\ x ∈ S.
Proof.
  intros Hinv Hkx Hlt.
  destruct (queued_over p x0 [] S x kx Hinv Hkx) as (Egx & Nrx & Okx & _ & _ & Ecur).
  pose proof Hinv as (Hcore & HK).
  pose proof Hcore as (Hends & Hq & Hrest).
  assert (x ∈ S) as HxS.
  { destruct (decide (x ∈ S)) as [Hin|Hout]; [exact Hin|exfalso].
    rewrite (Ecur Hout) in Hlt. exact (kle_exact_refl _ (calcKey_ok p x0 [] x Hcore) Hlt). }
  destruct (x_update (u p) x _ kx Hq Hkx (calcKey_below p x0 [] x Hcore))
    as (q & E & Hq' & K').
  exists q. split; [exact E|]. split; [|exact HxS].
  split.
  - unfold static_core, set_u. cbn [start goal rhs g u km].
    split; [exact Hends|]. split; [exact Hq'|exact Hrest].
  - intros v. unfold set_u at 2. cbn [u]. rewrite K'.
    destruct (decide (v = x)) as [->|Hv].
    + unfold stored_ok. rewrite decide_False by set_solver.
      rewrite decide_False by (rewrite Hlt; discriminate).
      unfold queue_key, set_u. cbn [rhs g]. rewrite Egx.
      destruct (core_nn p x0 [] x Hcore) as [_ Hrx].
      assert (f_eqb XPInf (get (rhs p) x) = false) as -> by (clear -Nrx Hrx; xarith).
      reflexivity.
    + apply (stored_ok_same S (S ∖ {[x]}) p _ v);
        [set_solver|reflexivity|reflexivity|reflexivity|reflexivity|apply HK].
Qed.

(** The states whose keys may be out of date are states of the graph
    without a g. *)
Lemma stale_sub p x rest S : inv x rest S p -> S ⊆ V ∖ dom (g p).
Proof.
  intros Hinv v Hv. pose proof Hinv as (Hcore & HK).
  pose proof (HK v) as Kv. unfold stored_ok in Kv. rewrite decide_True in Kv by exact Hv.
  destruct Kv as (k & Hk & _).
  destruct (queued_over p x rest S v k Hinv Hk) as (Egv & Nrv & _).
  destruct Hcore as (_ & _ & _ & _ & _ & _ & _ & _ & _ & HV & Hdom).
  apply elem_of_difference. split; [apply HV; exact Nrv|].
  intros Hin. apply elem_of_dom in Hin as [y Hy].
  apply (Hdom v y Hy). unfold get in Egv. rewrite Hy in Egv. exact Egv.
Qed.

(** One iteration of the loop: the top of the queue is queued again
    under its current key, or it gets its g, leaves the queue, and its
    predecessors wait for their update. *)
Lemma step_cases p x0 S :
  inv x0 [] S p -> unfinished d p = true ->
  exists x kx, pq.top (u p) = Some x /\ pq.topKey (u p) = kx /\
    ((compare kx (calcKey d p x) = -1 /\
      exists q, pq.update (u p) x (calcKey d p x) = Some q /\
        inv x0 [] (S ∖ {[x]}) (set_u p q) /\ x ∈ S) \/
     (compare kx (calcKey d p x) <> -1 /\
      f_gtb (get (g p) x) (get (rhs p) x) = true /\
      exists q, pq.remove (u p) x = Some q /\
        inv x (Pred d x) (S ∖ {[x]}) (set_u (set_g p x (get (rhs p) x)) q) /\
        g p !! x = None /\ x ∈ V /\ get (rhs p) x <> XPInf)).
Proof.
  intros Hinv Hun.
  pose proof Hinv as (Hcore & HK).
  pose proof Hcore as (Hends & Hq & Hrest). pose proof Hq as (Hi & _).
  unfold unfinished in Hun. apply andb_true_iff in Hun as [Hne _].
  apply negb_true_iff in Hne.
  assert (items (u p) <> []) as Hne'.
  { intros E. apply (isEmpty_items _ Hi) in E. congruence. }
  destruct (x_top (u p) Hq Hne') as (x & kx & Etop & Etk & Hkx & Hmin).
  exists x, kx. split; [exact Etop|]. split; [exact Etk|].
  destruct (decide (compare kx (calcKey d p x) = -1)) as [Hlt|Hge].
  - left. split; [exact Hlt|]. exact (rekey p x0 x kx S Hinv Hkx Hlt).
  - right. split; [exact Hge|].
    destruct (queued_over p x0 [] S x kx Hinv Hkx) as (Egx & Nrx & Okx & EB & LA & _).
    pose proof (key_squeeze kx _ Okx (calcKey_ok p x0 [] x Hcore) EB LA Hge) as Ek.
    rewrite Ek in Hkx, Hmin. destruct (core_nn p x0 [] x Hcore) as [_ Hrx].
    split; [rewrite Egx; clear -Nrx Hrx; xarith|].
    exact (expand_start p x0 x S Hinv Hkx Hmin).
Qed.

(** [UpdateStart] keeps the invariant: every key of the queue may now be
    out of date, and none is above the key [calcKey] gives now. *)
Lemma UpdateStart_static p x0 S s' k z :
  inv x0 [] S p -> km p = XFin k -> Dist d (start p) s' = XFin z -> k + z <= K ->
  inv x0 [] (dom (lookups (u p))) (UpdateStart d p s').
Proof.
  intros Hinv Hk Hz HkK. pose proof Hinv as (Hcore & HK).
  pose proof Hcore as (Hends & Hq & Hrest). pose proof Hq as (Hi & _).
  destruct Hends as (Hg & k' & Hk0 & Hkm).
  assert (k' = k) as -> by congruence.
  destruct (h_fin (start p) s') as (z' & Hz0 & Ez'). assert (z' = z) as -> by congruence.
  split.
  - unfold static_core, UpdateStart. cbn [start goal rhs g u km].
    split; [|split; [exact Hq|exact Hrest]].
    split; [exact Hg|]. exists (k + z). split; [lia|]. rewrite Hk, Hz. reflexivity.
  - intros v. unfold stored_ok. cbn [u UpdateStart].
    destruct (key_of (u p) v) as [kv|] eqn:Hkv.
    + assert (v ∈ dom (lookups (u p))) as Hin.
      { apply elem_of_dom. apply contains_true. apply (key_of_contains _ _ Hi). eauto. }
      rewrite decide_True by exact Hin.
      destruct (queued_over p x0 [] S v kv Hinv Hkv) as (Egv & Nrv & Okv & EB & LA & _).
      exists kv. split; [reflexivity|].
      destruct (core_nn p x0 [] v Hcore) as [Hgv Hrv].
      unfold UpdateStart. cbn [rhs g]. split; [rewrite Egv; clear -Nrv Hrv; xarith|].
      split; [exact EB|].
      unfold calcKey in *. cbn [A B start km rhs g] in *. rewrite Egv in *.
      rewrite Hk, Hz in *.
      pose proof (h_triangle (start p) s' v) as Htri. rewrite Hz in Htri.
      destruct (h_fin (start p) v) as (z1 & Hz1 & Ez1).
      destruct (h_fin s' v) as (z2 & Hz2 & Ez2).
      rewrite Ez1, Ez2 in *. destruct Okv as [Oa _].
      revert Oa LA. generalize (A kv). intros a Oa LA.
      clear -Oa LA Htri Hrv Nrv Hz1 Hz2 Hk0 Hz0. xarith.
    + assert (v ∉ dom (lookups (u p))) as Hout.
      { intros Hin. apply elem_of_dom in Hin. apply contains_true in Hin.
        apply (key_of_contains _ _ Hi) in Hin as [kv Hkv']. congruence. }
      rewrite decide_False by exact Hout.
      pose proof (HK v) as Kv. unfold stored_ok in Kv. rewrite Hkv in Kv.
      destruct (decide (v ∈ S)).
      * destruct Kv as (k' & Kv & _). discriminate.
      * unfold queue_key, UpdateStart in *. cbn [rhs g].
        destruct (f_eqb (get (g p) v) (get (rhs p) v)); [reflexivity|discriminate].
Qed.

Lemma get_empty v : get (∅ : gmap State xnum) v = XPInf.
Proof. unfold get. rewrite lookup_empty. reflexivity. Qed.

(** [New] returns a planner that satisfies the invariant. *)
Lemma New_static s0 :
  0 <= K ->
  exists p0, New d s0 t = Returns p0 /\ inv t [] ∅ p0 /\ g p0 = ∅ /\
    start p0 = s0 /\ km p0 = XFin 0.
Proof.
  intros HK0.
  destruct (h_fin s0 t) as (zt & Hzt & Eht).
  pose proof (HH s0 t) as Hht. rewrite Eht in Hht. cbn [below] in Hht.
  assert (0 <= C * (Z.of_nat (size V) + 1)) as Hmul by nia.
  assert (key_below (Key (Dist d s0 t) f_zero)) as Hk.
  { rewrite Eht. split; cbn; lia. }
  destruct (x_insert pq.newPriorityQueue t (Key (Dist d s0 t) f_zero)
              (queue_inv_new key_below) eq_refl Hk) as (q & E & Hq & Kq).
  unfold New. rewrite E. cbn [lift mbind res_bind].
  eexists. split; [reflexivity|]. split; [|repeat split].
  assert (forall v, get (<[t := f_zero]> (∅ : gmap State xnum)) v =
                    if decide (v = t) then XFin 0 else XPInf) as Hrhs.
  { intros v. destruct (decide (v = t)) as [->|Hv].
    - apply get_insert_eq.
    - rewrite get_insert_ne by congruence. apply get_empty. }
  split.
  - unfold static_core. cbn [start goal rhs g u km].
    split; [split; [reflexivity|exists 0; split; [lia|reflexivity]]|]. split; [exact Hq|].
    split; [|split; [|split; [|split; [|split; [|split; [|split; [|split; [|]]]]]]]].
    + intros v. rewrite get_empty, Hrhs. rewrite dom_empty_L, size_empty.
      destruct (decide (v = t)); cbn; split; trivial; lia.
    + rewrite Hrhs, decide_True by reflexivity. reflexivity.
    + intros v w Hv Hw. right. rewrite Hrhs, decide_False by exact Hv. rewrite get_empty.
      pose proof (cost_nn v w Hw) as Hc. clear -Hc. xarith.
    + intros v Hv. left. rewrite Hrhs, decide_False by exact Hv. reflexivity.
    + intros v. left. apply get_empty.
    + intros v Hv. rewrite get_empty in Hv. contradiction.
    + intros v l c Hv. rewrite get_empty in Hv. contradiction.
    + intros v. rewrite Hrhs. destruct (decide (v = t)) as [->|]; [|contradiction].
      intros _. destruct HG as (_ & HtV & _). exact HtV.
    + intros v y Hv. rewrite lookup_empty in Hv. discriminate.
  - intros v. cbn [u]. rewrite Kq. unfold stored_ok. rewrite decide_False by set_solver.
    unfold queue_key, calcKey. cbn [start goal rhs g u km].
    rewrite get_empty, Hrhs. destruct (decide (v = t)) as [->|Hv]; [|reflexivity].
    rewrite Eht. cbn. repeat f_equal. lia.
Qed.

(** When the loop is over, rhs(start) is the cost of a shortest path. *)
Lemma exit_shortest p x S :
  inv x [] S p -> unfinished d p = false ->
  shortest d t (start p) (get (rhs p) (start p)).
Proof.
  intros Hinv Hun. split; [exact (exit_bound p x S Hinv Hun)|].
  destruct Hinv as ((Hends & Hq & Hnn & Hrt & HR1 & HR2 & HG' & HD1 & HD2 & HV & Hdom) & HK).
  destruct (decide (start p = t)) as [->|Hne].
  - right. exists [t]. rewrite Hrt. constructor.
  - destruct (HR2 (start p) Hne) as [E|(w & Hw & E)]; [left; exact E|].
    destruct (decide (get (g p) w = XPInf)) as [Ew|Nw].
    + left. rewrite E, Ew. pose proof (cost_nn (start p) w Hw) as Hc. clear -Hc. xarith.
    + right. destruct (HD1 w Nw) as (l & Hl). exists (start p :: l). rewrite E.
      apply route_step; assumption.
Qed.

(** *** The walk of [Plan] *)

(** The fold of [minSucc]: the least value, and the first state that
    reaches it. *)
Lemma min_fold (c : State -> xnum) (l : list State) (m : xnum) (o : option State) :
  nn m -> (forall w, w ∈ l -> nn (c w)) ->
  let r := fold_left
    (fun (acc : xnum * option State) (sPrime : State) =>
       if f_ltb (c sPrime) (fst acc) then (c sPrime, Some sPrime) else acc)
    l (m, o) in
  nn (fst r) /\ f_leb (fst r) m = true /\
  (forall w, w ∈ l -> f_leb (fst r) (c w) = true) /\
  ((snd r = o /\ fst r = m) \/ exists w, w ∈ l /\ snd r = Some w /\ fst r = c w).
Proof.
  intros Hm Hl. cbv zeta. revert m o Hm.
  induction l as [|a l IH]; intros m o Hm; cbn [fold_left].
  - cbn [fst snd]. split; [exact Hm|]. split; [clear -Hm; xarith|].
    split; [|left; split; reflexivity].
    intros w Hw. apply elem_of_nil in Hw. contradiction.
  - assert (nn (c a)) as Hca by (apply Hl; apply list_elem_of_here).
    assert (forall w, w ∈ l -> nn (c w)) as Hl'
      by (intros w Hw; apply Hl; apply list_elem_of_further; exact Hw).
    cbn [fst]. destruct (f_ltb (c a) m) eqn:L.
    + destruct (IH Hl' (c a) (Some a) Hca) as (N & L1 & L2 & L3).
      split; [exact N|]. split; [|split].
      * clear -L L1 N Hm Hca. revert L L1 N Hm Hca.
        generalize (fst (fold_left
          (fun (acc : xnum * option State) (sPrime : State) =>
             if f_ltb (c sPrime) (fst acc) then (c sPrime, Some sPrime) else acc)
          l (c a, Some a))). generalize (c a). intros x y. xarith.
      * intros w Hw. apply elem_of_cons in Hw as [->|Hw]; [exact L1|apply L2; exact Hw].
      * right. destruct L3 as [[E1 E2]|(w & Hw & E1 & E2)].
        -- exists a. split; [apply list_elem_of_here|]. split; assumption.
        -- exists w. split; [apply list_elem_of_further; exact Hw|]. split; assumption.
    + destruct (IH Hl' m o Hm) as (N & L1 & L2 & L3).
      split; [exact N|]. split; [exact L1|]. split.
      * intros w Hw. apply elem_of_cons in Hw as [->|Hw]; [|apply L2; exact Hw].
        clear -L L1 N Hm Hca. revert L L1 N Hm Hca.
        generalize (fst (fold_left
          (fun (acc : xnum * option State) (sPrime : State) =>
             if f_ltb (c sPrime) (fst acc) then (c sPrime, Some sPrime) else acc)
          l (m, o))). generalize (c a). intros x y. xarith.
      * destruct L3 as [[E1 E2]|(w & Hw & E1 & E2)]; [left; split; assumption|].
        right. exists w. split; [apply list_elem_of_further; exact Hw|]. split; assumption.
Qed.

(** Under the invariant, [minSucc] computes rhs, and names a successor
    that reaches it when it is finite. *)
Lemma minSucc_static p x S st z :
  inv x [] S p -> st <> t -> get (rhs p) st = XFin z ->
  exists w, snd (minSucc d p st) = Some w /\ w ∈ Succ d st /\
    f_add (Cost d st w) (get (g p) w) = XFin z.
Proof.
  intros (Hcore & HK) Hst Hz.
  pose proof (fun v => core_nn p x [] v Hcore) as Hnn.
  destruct Hcore as (Hends & Hq & _ & Hrt & HR1 & HR2 & HG' & HD1 & HD2 & HV & Hdom).
  pose proof (min_fold (fun w => f_add (Cost d st w) (get (g p) w)) (Succ d st) f_inf None I)
    as Hf.
  destruct Hf as (N & _ & L2 & L3).
  { intros w Hw. apply nn_add; [apply cost_nn; exact Hw|apply Hnn]. }
  fold (minSucc d p st) in N, L2, L3.
  destruct (HR2 st Hst) as [E|(w0 & Hw0 & E0)]; [congruence|].
  pose proof (L2 w0 Hw0) as Lw0. rewrite <- E0, Hz in Lw0.
  destruct L3 as [[_ E2]|(w & Hw & E1 & E2)].
  - exfalso. rewrite E2 in Lw0. discriminate.
  - exists w. split; [exact E1|]. split; [exact Hw|].
    destruct (HR1 st w Hst Hw) as [[_ Hin]|Hle].
    { apply elem_of_nil in Hin. contradiction. }
    rewrite <- E2. rewrite Hz in Hle. rewrite E2 in N, Lw0.
    revert N Lw0 Hle. rewrite E2.
    generalize (f_add (Cost d st w) (get (g p) w)). intros y. xarith.
Qed.

Hypothesis Hpos : forall a b, b ∈ Succ d a -> pos_cost (Cost d a b).

(** From a state with a finite rhs, the walk reaches the goal along a
    route of that cost. *)
Lemma walk_route p x S fuel :
  inv x [] S p ->
  forall st z pre, get (rhs p) st = XFin z -> (Z.to_nat z < fuel)%nat ->
  exists l, walk Equals d fuel p st (pre ++ [st]) = Returns (Some (pre ++ l)) /\
    route d t st l (XFin z).
Proof.
  intros Hinv. pose proof Hinv as (Hcore & HK).
  pose proof (fun v => core_nn p x [] v Hcore) as Hnn.
  destruct Hcore as (Hends & Hq & _ & Hrt & HR1 & HR2 & HG' & HD1 & HD2 & HV & Hdom).
  destruct Hends as (Hg & Hkm).
  induction fuel as [|fuel IH]; intros st z pre Hz Hfuel; [lia|].
  cbn [walk]. rewrite Hg.
  destruct (decide (st = t)) as [->|Hst].
  - rewrite (proj2 (Equals_eq t t) eq_refl). exists [t]. split; [reflexivity|].
    rewrite Hrt in Hz. injection Hz as <-. constructor.
  - assert (Equals st t = false) as ->.
    { destruct (Equals st t) eqn:E; [|reflexivity]. apply Equals_eq in E. contradiction. }
    rewrite Hz. cbn [f_is_inf exact Exact.is_inf].
    destruct (minSucc_static p x S st z Hinv Hst Hz) as (w & -> & Hw & Ew).
    pose proof (Hpos st w Hw) as Hc. destruct (Hnn w) as [Hgw Hrw].
    assert (exists z', get (rhs p) w = XFin z' /\ 0 <= z' < z /\
                       f_add (Cost d st w) (XFin z') = XFin z) as (z' & Ez' & Hz' & Esum).
    { destruct (HG' w) as [E|E].
      - exfalso. rewrite E in Ew. clear -Ew Hc. xarith.
      - rewrite <- E. revert Ew Hc Hgw. generalize (get (g p) w) (Cost d st w).
        intros y c0 Ew Hc Hgw. destruct y, c0; cbn in *; try contradiction; try discriminate.
        injection Ew as Ew. exists z0. split; [reflexivity|]. split; [lia|].
        f_equal. exact Ew. }
    destruct (IH w z' (pre ++ [st]) Ez') as (l & El & Hl); [lia|].
    exists (st :: l). split.
    + rewrite El. rewrite <- app_assoc. reflexivity.
    + rewrite <- Esum. apply route_step; assumption.
Qed.

End StaticProofs.


(** ** Plan *)

Section PlanGeneral.
Context {State : Type} `{Countable State} {F : Type} `{Float64 F}.
Variable Equals : State -> State -> bool.
Variable d : Data State F.
Implicit Types (p : Planner State F).

(** More iterations do not change what [computeShortestPath] returns. *)
Lemma computeShortestPath_more fuel fuel' p p' :
  (fuel <= fuel')%nat ->
  computeShortestPath Equals d fuel p = Returns p' ->
  computeShortestPath Equals d fuel' p = Returns p'.
Proof.
  revert fuel' p. induction fuel as [|fuel IH]; intros fuel' p Hle E.
  - cbn in E. destruct (unfinished d p) eqn:U; [discriminate|].
    injection E as <-. apply computeShortestPath_done. exact U.
  - destruct fuel' as [|fuel']; [lia|]. cbn in E. cbn.
    destruct (unfinished d p); [|exact E].
    destruct (step Equals d p) as [p1| |]; cbn in *; try discriminate.
    apply IH; [lia|exact E].
Qed.

(** With rhs(start) infinite after the repair, [Plan] returns nil. *)
Lemma Plan_no_path fuel p p' :
  (0 < fuel)%nat ->
  computeShortestPath Equals d fuel p = Returns p' ->
  Equals (start p) (goal p') = false ->
  f_is_inf (get (rhs p') (start p)) = true ->
  Plan Equals d fuel p = Returns (None, p').
Proof.
  intros Hfuel E Hne Hinf. unfold Plan. rewrite E. cbn [mbind res_bind].
  destruct fuel as [|fuel]; [lia|]. cbn [walk]. rewrite Hne, Hinf. reflexivity.
Qed.

Lemma walk_S fuel p st path :
  walk Equals d (S fuel) p st path =
    if Equals st (goal p) then Returns (Some path)
    else if f_is_inf (get (rhs p) st) then Returns None
    else match snd (minSucc d p st) with
         | None => Panics
         | Some minS => walk Equals d fuel p minS (path ++ [minS])
         end.
Proof. reflexivity. Qed.

End PlanGeneral.

Section Life.
Context {State : Type} `{Countable State} {F : Type} `{Float64 F}.
Variable Equals : State -> State -> bool.
Variable d : Data State F.
Implicit Types (p : Planner State F).

Lemma Plan_ends fuel p r p' :
  Plan Equals d fuel p = Returns (r, p') -> same_ends p p'.
Proof.
  unfold Plan. intros E.
  apply res_bind_Returns in E as (p1 & E1 & E).
  apply res_bind_Returns in E as (r' & E2 & E). injection E as <- <-.
  exact (computeShortestPath_ends _ _ _ _ _ E1).
Qed.

(** Only [UpdateStart] changes km, and it adds a distance to it. *)
Lemma run_call_km p c p' :
  run_call Equals d p c = Returns p' ->
  km p' = km p \/ exists s, c = CallUpdateStart s /\ km p' = f_add (km p) (Dist d (start p) s).
Proof.
  destruct c as [x v cOld cNew|s|fuel]; cbn [run_call]; intros E.
  - left. apply FlagChanged_ends in E as (_ & _ & E). exact E.
  - right. exists s. injection E as <-. split; reflexivity.
  - left. apply res_bind_Returns in E as ([r p1] & E1 & E). injection E as <-.
    apply Plan_ends in E1 as (_ & _ & E1). exact E1.
Qed.

(** km over a sequence of calls, for numbers [good] among which adding
    does not decrease. *)
Section Monotone.
Variable good : F -> Prop.
Hypothesis good_add :
  forall a b, good a -> good b -> good (f_add a b) /\ f_leb a (f_add a b) = true.
Hypothesis leb_refl : forall a, good a -> f_leb a a = true.
Hypothesis leb_trans :
  forall a b c, good a -> good b -> good c ->
    f_leb a b = true -> f_leb b c = true -> f_leb a c = true.
Hypothesis good_Dist : forall a b, good (Dist d a b).

Lemma run_calls_km (cs : list (call State F)) :
  forall p p', good (km p) -> run_calls Equals d p cs = Returns p' ->
    good (km p') /\ f_leb (km p) (km p') = true.
Proof.
  induction cs as [|c cs IH]; intros p p' Hk E.
  - injection E as <-. split; [exact Hk|]. apply leb_refl, Hk.
  - cbn [run_calls] in E. apply res_bind_Returns in E as (p1 & E1 & E).
    assert (good (km p1) /\ f_leb (km p) (km p1) = true) as [Hk1 Hle1].
    { destruct (run_call_km _ _ _ E1) as [-> | (s & _ & ->)].
      - split; [exact Hk|]. apply leb_refl, Hk.
      - apply good_add; [exact Hk|apply good_Dist]. }
    destruct (IH p1 p' Hk1 E) as [Hk' Hle']. split; [exact Hk'|].
    exact (leb_trans _ _ _ Hk Hk1 Hk' Hle1 Hle').
Qed.

Lemma life_km (s0 t : State) (cs1 cs2 : list (call State F)) (p0 p1 p2 : Planner State F) :
  good f_zero ->
  New d s0 t = Returns p0 ->
  run_calls Equals d p0 cs1 = Returns p1 ->
  run_calls Equals d p1 cs2 = Returns p2 ->
  f_leb (km p1) (km p2) = true.
Proof.
  intros Hz E0 E1 E2.
  assert (good (km p0)) as K0.
  { unfold New in E0. apply res_bind_Returns in E0 as (q & _ & E0).
    injection E0 as <-. exact Hz. }
  destruct (run_calls_km cs1 p0 p1 K0 E1) as [K1 _].
  exact (proj2 (run_calls_km cs2 p1 p2 K1 E2)).
Qed.

End Monotone.

End Life.

(** C6.  [UpdateStart] stores the new start and adds
    [Dist oldStart newStart] to km; the goal, g, rhs and the queue are
    those of before.  [FlagChanged] and [Plan] keep km.  So, when no
    distance is negative, km never decreases from one point to a later
    one in the life of a planner that [New] returned: in float64
    arithmetic, where the sum is rounded, and in exact arithmetic. *)
Theorem UpdateStart_effect :
  (forall (State : Type) `(Countable State) (F : Type) `(Float64 F)
          (d : Data State F) (p : Planner State F) (s : State),
     start (UpdateStart d p s) = s /\
     km (UpdateStart d p s) = f_add (km p) (Dist d (start p) s) /\
     goal (UpdateStart d p s) = goal p /\
     g (UpdateStart d p s) = g p /\
     rhs (UpdateStart d p s) = rhs p /\
     u (UpdateStart d p s) = u p) /\
  (forall (State : Type) `(Countable State) (F : Type) `(Float64 F)
          (Equals : State -> State -> bool) (d : Data State F)
          (p p' : Planner State F) (c : call State F),
     run_call Equals d p c = Returns p' ->
     km p' = km p \/
     exists s, c = CallUpdateStart s /\ km p' = f_add (km p) (Dist d (start p) s)) /\
  (forall (State : Type) `(Countable State)
          (Equals : State -> State -> bool) (d : Data State spec_float)
          (s0 t : State) (cs1 cs2 : list (call State spec_float))
          (p0 p1 p2 : Planner State spec_float),
     (forall a b, float_nn (Dist d a b)) ->
     New d s0 t = Returns p0 ->
     run_calls Equals d p0 cs1 = Returns p1 ->
     run_calls Equals d p1 cs2 = Returns p2 ->
     f_leb (km p1) (km p2) = true) /\
  (forall (State : Type) `(Countable State)
          (Equals : State -> State -> bool) (d : Data State xnum)
          (s0 t : State) (cs1 cs2 : list (call State xnum))
          (p0 p1 p2 : Planner State xnum),
     (forall a b, nn (Dist d a b)) ->
     New d s0 t = Returns p0 ->
     run_calls Equals d p0 cs1 = Returns p1 ->
     run_calls Equals d p1 cs2 = Returns p2 ->
     f_leb (km p1) (km p2) = true).
Proof.
  split; [|split; [|split]].
  - intros. repeat split.
  - intros. eapply run_call_km; eassumption.
  - intros State ? ? Equals d s0 t cs1 cs2 p0 p1 p2 Hd E0 E1 E2.
    exact (life_km Equals d float_nn add_ieee_nondecreasing leb_ieee_refl leb_ieee_trans
             Hd s0 t cs1 cs2 p0 p1 p2 float_nn_zero E0 E1 E2).
  - intros State ? ? Equals d s0 t cs1 cs2 p0 p1 p2 Hd E0 E1 E2.
    refine (life_km Equals d nn _ leb_exact_refl leb_exact_trans
             Hd s0 t cs1 cs2 p0 p1 p2 nn_zero E0 E1 E2).
    intros a b Ha Hb. split; [apply nn_add; assumption|apply leb_exact_add; assumption].
Qed.


(** ** The float64 code on a grid computes what the exact code computes *)

(** Bounds of exact numbers. *)

Lemma below_top (b : Z) (y : xnum) : b <= 2 ^ 53 - 1 -> below b y -> below (2 ^ 53 - 1) y.
Proof. destruct y; cbn; try tauto; lia. Qed.

Lemma below_min2 (b : Z) (y1 y2 : xnum) :
  below b y1 -> below b y2 -> below b (f_min y1 y2).
Proof.
  destruct y1, y2; cbn; try tauto.
  destruct (Z.ltb_spec z z0); cbn; tauto.
Qed.

Lemma below_add2 (b1 b2 : Z) (y1 y2 : xnum) :
  below b1 y1 -> below b2 y2 -> below (b1 + b2) (f_add y1 y2).
Proof. destruct y1, y2; cbn; try tauto. lia. Qed.

Lemma below_mono (b b' : Z) (y : xnum) : b <= b' -> below b y -> below b' y.
Proof. destruct y; cbn; try tauto; lia. Qed.

Section Simulation.
Context {State : Type} `{Countable State}.
Variable sc : Z.
Hypothesis Hsc : scale_ok sc.

Local Abbreviation E := (of_exact sc).
Local Abbreviation gk := (grid_key sc).
Local Abbreviation gi := (grid_item (State := State) sc).
Local Abbreviation gq := (grid_queue (State := State) sc).
Local Abbreviation gp := (grid_planner (State := State) sc).
Local Abbreviation top := (2 ^ 53 - 1).
Implicit Types (q : priorityQueue State xnum) (p : Planner State xnum)
  (it : pqItem State xnum) (k : key xnum) (v w x st s : State).

(** *** The queue *)

Lemma grid_items_lookup q i : items (gq q) !! i = gi <$> items q !! i.
Proof. unfold grid_queue. cbn [items]. apply list_lookup_fmap. Qed.

Lemma grid_items_length q : length (items (gq q)) = length (items q).
Proof. unfold grid_queue. cbn [items]. apply length_fmap. Qed.

Lemma sim_Less q i j :
  all_ok key_below (items q) -> pqi.Less (gq q) i j = pqi.Less q i j.
Proof.
  intros Hok. unfold pqi.Less. rewrite !grid_items_lookup.
  destruct (items q !! i) as [a|] eqn:Ea; [|reflexivity].
  destruct (items q !! j) as [b|] eqn:Eb; [|reflexivity].
  cbn [fmap option_fmap option_map mbind option_bind grid_item item_k].
  rewrite (E_compare sc Hsc); [reflexivity| |].
  - exact (all_ok_lookup key_below _ _ _ Hok Ea).
  - exact (all_ok_lookup key_below _ _ _ Hok Eb).
Qed.

Lemma sim_Swap q i j : pqi.Swap (gq q) i j = gq <$> pqi.Swap q i j.
Proof.
  unfold pqi.Swap. rewrite !grid_items_lookup.
  destruct (items q !! i) as [a|] eqn:Ea; [|reflexivity].
  destruct (items q !! j) as [b|] eqn:Eb; [|reflexivity].
  cbn [fmap option_fmap option_map mbind option_bind].
  unfold grid_queue at 1 2 3 4. cbn [items lookups].
  rewrite <- !list_fmap_insert, !list_lookup_fmap.
  destruct (<[j:=a]> (<[i:=b]> (items q)) !! i) as [x1|]; [|reflexivity].
  cbn [fmap option_fmap option_map mbind option_bind].
  destruct (<[j:=a]> (<[i:=b]> (items q)) !! j) as [x2|]; [|reflexivity].
  reflexivity.
Qed.

Lemma sim_Push q it : pqi.Push (gq q) (gi it) = gq (pqi.Push q it).
Proof.
  unfold pqi.Push, grid_queue. cbn [items lookups grid_item item_s].
  rewrite length_fmap, fmap_app. reflexivity.
Qed.

Lemma Push_below q it :
  all_ok key_below (items q) -> key_below (item_k it) ->
  all_ok key_below (items (pqi.Push q it)).
Proof.
  intros Hok Hit x Hx. unfold pqi.Push in Hx. cbn [items] in Hx.
  apply elem_of_app in Hx as [Hx|Hx]; [exact (Hok x Hx)|].
  apply list_elem_of_singleton in Hx. subst x. exact Hit.
Qed.

Lemma sim_Pop q :
  pqi.Pop (gq q) = prod_map gq gi <$> pqi.Pop q.
Proof.
  unfold pqi.Pop. rewrite grid_items_length.
  destruct (length (items q)) as [|m]; [reflexivity|].
  rewrite grid_items_lookup.
  destruct (items q !! m) as [x1|]; [|reflexivity].
  cbn [fmap option_fmap option_map mbind option_bind].
  unfold grid_queue, prod_map. cbn [items lookups fst snd grid_item item_s].
  rewrite fmap_take. reflexivity.
Qed.

Lemma Pop_below q q' it :
  all_ok key_below (items q) -> pqi.Pop q = Some (q', it) ->
  all_ok key_below (items q').
Proof.
  intros Hok HP. unfold pqi.Pop in HP.
  destruct (length (items q)) as [|m]; [discriminate|].
  destruct (items q !! m) as [x1|]; [|discriminate].
  cbn in HP. injection HP as <- <-. cbn [items].
  intros x Hx. apply Hok. apply list_elem_of_lookup in Hx as [i Hi].
  apply lookup_take_Some in Hi as [Hi _]. apply list_elem_of_lookup. eauto.
Qed.

Lemma sim_up_loop fuel q j :
  all_ok key_below (items q) ->
  heap.up_loop fuel (gq q) j = gq <$> heap.up_loop fuel q j.
Proof.
  revert q j. induction fuel as [|fuel IH]; intros q j Hok; cbn [heap.up_loop];
    [reflexivity|].
  destruct (decide (parent j = j)); [reflexivity|].
  rewrite (sim_Less q _ _ Hok).
  destruct (pqi.Less q j (parent j)) as [less|]; [|reflexivity].
  cbn [mbind option_bind]. destruct less; cbn [negb]; [|reflexivity].
  rewrite sim_Swap. destruct (pqi.Swap q (parent j) j) as [q'|] eqn:ES; [|reflexivity].
  cbn [fmap option_fmap option_map mbind option_bind].
  apply IH. exact (Swap_all_ok key_below _ _ _ _ Hok ES).
Qed.

Lemma sim_down_loop fuel q i n :
  all_ok key_below (items q) ->
  heap.down_loop fuel (gq q) i n = prod_map gq id <$> heap.down_loop fuel q i n /\
  forall q' i', heap.down_loop fuel q i n = Some (q', i') -> all_ok key_below (items q').
Proof.
  revert q i. induction fuel as [|fuel IH]; intros q i Hok; cbn [heap.down_loop].
  - split; [reflexivity|]. intros q' i' [= <- <-]. exact Hok.
  - destruct (decide (n ≤ 2 * i + 1)%nat).
    { split; [reflexivity|]. intros q' i' [= <- <-]. exact Hok. }
    rewrite !(sim_Less q _ _ Hok).
    destruct (if decide (2 * i + 1 + 1 < n)%nat
              then pqi.Less q (2 * i + 1 + 1) (2 * i + 1) else Some false) as [lt21|];
      [|split; [reflexivity|discriminate]].
    cbn [mbind option_bind]. rewrite (sim_Less q _ _ Hok).
    destruct (pqi.Less q (if lt21 then (2 * i + 1 + 1)%nat else (2 * i + 1)%nat) i)
      as [less|]; [|split; [reflexivity|discriminate]].
    cbn [mbind option_bind]. destruct less; cbn [negb].
    + rewrite sim_Swap.
      destruct (pqi.Swap q i (if lt21 then (2 * i + 1 + 1)%nat else (2 * i + 1)%nat))
        as [q1|] eqn:ES; [|split; [reflexivity|discriminate]].
      cbn [fmap option_fmap option_map mbind option_bind].
      apply IH. exact (Swap_all_ok key_below _ _ _ _ Hok ES).
    + split; [reflexivity|]. intros q' i' [= <- <-]. exact Hok.
Qed.

Lemma sim_down q i0 n :
  all_ok key_below (items q) ->
  heap.down (gq q) i0 n = prod_map gq id <$> heap.down q i0 n /\
  forall q' b, heap.down q i0 n = Some (q', b) -> all_ok key_below (items q').
Proof.
  intros Hok. unfold heap.down.
  destruct (sim_down_loop n q i0 n Hok) as [-> Hb].
  destruct (heap.down_loop n q i0 n) as [[q1 i1]|]; [|split; [reflexivity|discriminate]].
  cbn. split; [reflexivity|]. intros q' b [= <- <-]. exact (Hb q1 i1 eq_refl).
Qed.

Lemma sim_heap_Push q it :
  all_ok key_below (items q) -> key_below (item_k it) ->
  heap.Push (gq q) (gi it) = gq <$> heap.Push q it /\
  forall q', heap.Push q it = Some q' -> all_ok key_below (items q').
Proof.
  intros Hok Hit. unfold heap.Push, heap.up, pqi.Len.
  pose proof (Push_below q it Hok Hit) as Hok1.
  rewrite sim_Push, grid_items_length. split.
  - apply sim_up_loop. exact Hok1.
  - intros q' Hq'. exact (up_loop_all_ok key_below _ _ _ _ Hok1 Hq').
Qed.

Lemma sim_heap_Remove q i :
  all_ok key_below (items q) ->
  heap.Remove (gq q) i = prod_map gq gi <$> heap.Remove q i /\
  forall q' it, heap.Remove q i = Some (q', it) -> all_ok key_below (items q').
Proof.
  intros Hok. unfold heap.Remove, pqi.Len. rewrite grid_items_length.
  destruct (length (items q)) as [|n]; [split; [reflexivity|discriminate]|].
  destruct (decide (n = i)).
  { split; [apply sim_Pop|]. intros q' it. apply Pop_below. exact Hok. }
  rewrite sim_Swap. destruct (pqi.Swap q i n) as [q1|] eqn:ES;
    [|split; [reflexivity|discriminate]].
  cbn [fmap option_fmap option_map mbind option_bind].
  pose proof (Swap_all_ok key_below _ _ _ _ Hok ES) as Hok1.
  destruct (sim_down q1 i n Hok1) as [-> Hb].
  destruct (heap.down q1 i n) as [[q2 moved]|]; [|split; [reflexivity|discriminate]].
  cbn [fmap option_fmap option_map mbind option_bind prod_map fst snd id].
  pose proof (Hb q2 moved eq_refl) as Hok2.
  destruct moved; cbn [negb].
  - cbn [mbind option_bind]. split; [apply sim_Pop|].
    intros q' it. apply Pop_below. exact Hok2.
  - unfold heap.up. rewrite (sim_up_loop _ q2 i Hok2).
    destruct (heap.up_loop (S i) q2 i) as [q3|] eqn:EU;
      [|split; [reflexivity|discriminate]].
    cbn [fmap option_fmap option_map mbind option_bind].
    pose proof (up_loop_all_ok key_below _ _ _ _ Hok2 EU) as Hok3.
    split; [apply sim_Pop|]. intros q' it. apply Pop_below. exact Hok3.
Qed.

Lemma sim_topKey q : pq.topKey (gq q) = gk (pq.topKey q).
Proof. unfold pq.topKey, grid_queue. cbn [items]. destruct (items q); reflexivity. Qed.

Lemma sim_top q : pq.top (gq q) = pq.top q.
Proof.
  unfold pq.top. rewrite grid_items_lookup. destruct (items q !! 0%nat); reflexivity.
Qed.

Lemma sim_insert q s k :
  all_ok key_below (items q) -> key_below k ->
  pq.insert (gq q) s (gk k) = gq <$> pq.insert q s k.
Proof.
  intros Hok Hk. unfold pq.insert.
  exact (proj1 (sim_heap_Push q (PqItem s k) Hok Hk)).
Qed.

Lemma sim_remove q s :
  all_ok key_below (items q) -> pq.remove (gq q) s = gq <$> pq.remove q s.
Proof.
  intros Hok. unfold pq.remove. cbv zeta.
  change (PriorityQueue (delete s (lookups (gq q))) (items (gq q)))
    with (gq (PriorityQueue (delete s (lookups q)) (items q))).
  change (lookups (gq q)) with (lookups q).
  rewrite (proj1 (sim_heap_Remove (PriorityQueue (delete s (lookups q)) (items q)) _ Hok)).
  destruct (heap.Remove _ _) as [[q2 it]|]; reflexivity.
Qed.

Lemma sim_update q s k :
  all_ok key_below (items q) -> key_below k ->
  pq.update (gq q) s (gk k) = gq <$> pq.update q s k.
Proof.
  intros Hok Hk. unfold pq.update. cbv zeta.
  change (lookups (gq q)) with (lookups q). rewrite grid_items_lookup.
  destruct (items q !! default 0%nat (lookups q !! s)) as [it|] eqn:Eit; [|reflexivity].
  cbn [fmap option_fmap option_map mbind option_bind grid_item item_k].
  rewrite (E_compare sc Hsc _ _ (all_ok_lookup key_below _ _ _ Hok Eit) Hk).
  destruct (decide (compare (item_k it) k ≠ 0)); [|reflexivity].
  destruct (sim_heap_Remove q (default 0%nat (lookups q !! s)) Hok) as [-> Hb].
  destruct (heap.Remove q (default 0%nat (lookups q !! s))) as [[q1 it1]|]; [|reflexivity].
  cbn [fmap option_fmap option_map mbind option_bind prod_map fst snd].
  exact (proj1 (sim_heap_Push q1 (PqItem s k) (Hb q1 it1 eq_refl) Hk)).
Qed.

(** *** The planner *)

Variable Equals : State -> State -> bool.
Variable dx : Data State xnum.
Local Abbreviation d := (grid_host sc dx).

Lemma sim_get (m : gmap State xnum) v : get (E <$> m) v = E (get m v).
Proof. unfold get. rewrite lookup_fmap. destruct (m !! v); reflexivity. Qed.

Lemma gp_set_rhs p s (y : xnum) : set_rhs (gp p) s (E y) = gp (set_rhs p s y).
Proof. unfold set_rhs, grid_planner. cbn. rewrite fmap_insert. reflexivity. Qed.

Lemma gp_set_g p s (y : xnum) : set_g (gp p) s (E y) = gp (set_g p s y).
Proof. unfold set_g, grid_planner. cbn. rewrite fmap_insert. reflexivity. Qed.

Variables Bg Br C Hh K : Z.
Hypothesis HC0 : 0 <= C.
Hypothesis HH0 : 0 <= Hh.
Hypothesis HK0 : 0 <= K.
Hypothesis HBg : 0 <= Bg /\ Bg + C <= Br.
Hypothesis HBr : Br + Hh + K <= top.
Hypothesis HH : forall a v, below Hh (Dist dx a v).
Local Abbreviation tame := (tame Bg Br K).

Lemma tame_g p v : tame p -> below top (get (g p) v).
Proof. intros (_ & Hg & _). apply (below_top Bg); [lia|apply Hg]. Qed.

Lemma tame_rhs p v : tame p -> below top (get (rhs p) v).
Proof. intros (_ & _ & Hr & _). apply (below_top Br); [lia|apply Hr]. Qed.

Lemma sim_calcKey p v :
  tame p -> calcKey d (gp p) v = gk (calcKey dx p v) /\ key_below (calcKey dx p v).
Proof.
  intros Ht. pose proof Ht as (_ & Hg & Hr & Hk).
  unfold calcKey, grid_key, key_below. cbn [A B start km rhs g grid_planner Dist grid_host].
  rewrite !sim_get.
  assert (below Br (f_min (get (g p) v) (get (rhs p) v))) as Hm.
  { apply below_min2; [|apply Hr]. apply (below_mono Bg); [lia|apply Hg]. }
  pose proof (below_add2 _ _ _ _ Hm (HH (start p) v)) as Hs.
  pose proof (below_add2 _ _ _ _ Hs Hk) as Ha.
  rewrite (E_min sc Hsc) by (apply tame_g || apply tame_rhs; exact Ht).
  rewrite (E_add sc Hsc (f_min _ _) (Dist dx (start p) v));
    [|apply (below_top Br); [lia|exact Hm]
     |apply (below_top Hh); [lia|apply HH]
     |apply (below_top (Br + Hh)); [lia|exact Hs]].
  rewrite (E_add sc Hsc _ (km p));
    [|apply (below_top (Br + Hh)); [lia|exact Hs]
     |apply (below_top K); [lia|exact Hk]
     |apply (below_top (Br + Hh + K)); [lia|exact Ha]].
  split; [reflexivity|]. split.
  - apply (below_top (Br + Hh + K)); [lia|exact Ha].
  - apply (below_top Br); [lia|exact Hm].
Qed.

Lemma sim_updateVertex p v :
  tame p -> updateVertex d (gp p) v = res_map gp (updateVertex dx p v).
Proof.
  intros Ht. pose proof Ht as (Hok & _).
  destruct (sim_calcKey p v Ht) as [Ek Hk].
  unfold updateVertex. rewrite Ek. cbn [u rhs g grid_planner].
  rewrite !sim_get.
  rewrite (E_float64Equals sc Hsc) by (apply tame_g || apply tame_rhs; exact Ht).
  change (pq.contains (gq (u p)) v) with (pq.contains (u p) v).
  destruct (negb (float64Equals (get (g p) v) (get (rhs p) v)) && pq.contains (u p) v).
  { rewrite (sim_update _ _ _ Hok Hk).
    destruct (pq.update (u p) v (calcKey dx p v)); reflexivity. }
  destruct (negb (float64Equals (get (g p) v) (get (rhs p) v)) &&
            negb (pq.contains (u p) v)).
  { rewrite (sim_insert _ _ _ Hok Hk).
    destruct (pq.insert (u p) v (calcKey dx p v)); reflexivity. }
  destruct (float64Equals (get (g p) v) (get (rhs p) v) && pq.contains (u p) v).
  { rewrite (sim_remove _ _ Hok). destruct (pq.remove (u p) v); reflexivity. }
  reflexivity.
Qed.

(** [minSucc] on the grid; its value is one of the sums, or +Inf. *)
Lemma sim_minSucc p st :
  tame p -> (forall w, w ∈ Succ dx st -> below C (Cost dx st w)) ->
  minSucc d (gp p) st = (E (fst (minSucc dx p st)), snd (minSucc dx p st)) /\
  below Br (fst (minSucc dx p st)).
Proof.
  intros Ht Hc. pose proof Ht as (_ & Hg & _).
  unfold minSucc. cbn [Succ Cost grid_host g grid_planner].
  assert (forall l (acc : xnum * option State),
            (forall w, w ∈ l -> below C (Cost dx st w)) -> below Br (fst acc) ->
            fold_left
              (fun (a : spec_float * option State) (sPrime : State) =>
                 if f_ltb (f_add (E (Cost dx st sPrime)) (get (E <$> g p) sPrime)) (fst a)
                 then (f_add (E (Cost dx st sPrime)) (get (E <$> g p) sPrime), Some sPrime)
                 else a)
              l (E (fst acc), snd acc)
            = (E (fst (fold_left
                 (fun (a : xnum * option State) (sPrime : State) =>
                    if f_ltb (f_add (Cost dx st sPrime) (get (g p) sPrime)) (fst a)
                    then (f_add (Cost dx st sPrime) (get (g p) sPrime), Some sPrime)
                    else a) l acc)),
               snd (fold_left
                 (fun (a : xnum * option State) (sPrime : State) =>
                    if f_ltb (f_add (Cost dx st sPrime) (get (g p) sPrime)) (fst a)
                    then (f_add (Cost dx st sPrime) (get (g p) sPrime), Some sPrime)
                    else a) l acc)) /\
            below Br (fst (fold_left
                 (fun (a : xnum * option State) (sPrime : State) =>
                    if f_ltb (f_add (Cost dx st sPrime) (get (g p) sPrime)) (fst a)
                    then (f_add (Cost dx st sPrime) (get (g p) sPrime), Some sPrime)
                    else a) l acc))) as Hfold.
  { induction l as [|a l IH]; intros acc Hl Hacc; cbn [fold_left].
    - split; [reflexivity|exact Hacc].
    - assert (below C (Cost dx st a)) as Hca by (apply Hl; apply list_elem_of_here).
      assert (below Br (f_add (Cost dx st a) (get (g p) a))) as Hsum.
      { apply (below_mono (C + Bg)); [lia|]. apply below_add2; [exact Hca|apply Hg]. }
      cbn [fst snd]. rewrite sim_get.
      rewrite (E_add sc Hsc (Cost dx st a) (get (g p) a));
        [|apply (below_top C); [lia|exact Hca]
         |apply tame_g; exact Ht
         |apply (below_top Br); [lia|exact Hsum]].
      rewrite (E_ltb sc Hsc);
        [|apply (below_top Br); [lia|exact Hsum]|apply (below_top Br); [lia|exact Hacc]].
      assert (forall w, w ∈ l -> below C (Cost dx st w)) as Hl'
        by (intros w Hw; apply Hl; apply list_elem_of_further; exact Hw).
      destruct (f_ltb (f_add (Cost dx st a) (get (g p) a)) (fst acc)).
      + exact (IH (f_add (Cost dx st a) (get (g p) a), Some a) Hl' Hsum).
      + exact (IH acc Hl' Hacc). }
  exact (Hfold (Succ dx st) (XPInf, None) Hc I).
Qed.

Lemma tame_set_rhs p st (y : xnum) : tame p -> below Br y -> tame (set_rhs p st y).
Proof.
  intros (Hok & Hg & Hr & Hk) Hy. hnf. unfold set_rhs. cbn [u g rhs km].
  split; [exact Hok|]. split; [exact Hg|]. split; [|exact Hk].
  intros v. unfold get. destruct (decide (st = v)) as [->|Hne].
  - rewrite lookup_insert_eq. exact Hy.
  - rewrite lookup_insert_ne by exact Hne. apply Hr.
Qed.

Lemma sim_lower x p st :
  tame p -> below C (Cost dx st x) ->
  lower Equals d x (gp p) st = res_map gp (lower Equals dx x p st).
Proof.
  intros Ht Hc. pose proof Ht as (_ & Hg & Hr & _).
  unfold lower. cbn [goal rhs g grid_planner Cost grid_host].
  assert (below Br (f_add (Cost dx st x) (get (g p) x))) as Hsum.
  { apply (below_mono (C + Bg)); [lia|]. apply below_add2; [exact Hc|apply Hg]. }
  destruct (negb (Equals st (goal p))).
  - rewrite !sim_get.
    rewrite (E_add sc Hsc (Cost dx st x) (get (g p) x));
      [|apply (below_top C); [lia|exact Hc]
       |apply tame_g; exact Ht
       |apply (below_top Br); [lia|exact Hsum]].
    rewrite (E_min sc Hsc);
      [|apply tame_rhs; exact Ht|apply (below_top Br); [lia|exact Hsum]].
    rewrite gp_set_rhs. apply sim_updateVertex.
    apply tame_set_rhs; [exact Ht|]. apply below_min2; [apply Hr|exact Hsum].
  - apply sim_updateVertex. exact Ht.
Qed.

Lemma sim_unfinished p : tame p -> unfinished d (gp p) = unfinished dx p.
Proof.
  intros Ht. pose proof Ht as (Hok & _).
  destruct (sim_calcKey p (start p) Ht) as [Ek Hk].
  unfold unfinished, f_gtb. cbn [u start rhs g grid_planner].
  change (pq.isEmpty (gq (u p))) with (pq.isEmpty (u p)).
  change (start (gp p)) with (start p) in Ek. rewrite Ek, sim_topKey, !sim_get.
  rewrite (E_ltb sc Hsc) by (apply tame_g || apply tame_rhs; exact Ht).
  destruct (pq.isEmpty (u p)) eqn:Em; [reflexivity|]. cbn [negb andb].
  rewrite (E_compare sc Hsc); [reflexivity| |exact Hk].
  unfold pq.topKey. unfold all_ok in Hok.
  destruct (items _) as [|it l].
  - split; exact I.
  - apply Hok. apply list_elem_of_here.
Qed.

Lemma sim_walk fuel p :
  tame p -> (forall a b, b ∈ Succ dx a -> below C (Cost dx a b)) ->
  forall st path, walk Equals d fuel (gp p) st path = walk Equals dx fuel p st path.
Proof.
  intros Ht Hc. induction fuel as [|fuel IH]; intros st path; cbn [walk];
    cbn [goal rhs grid_planner]; [reflexivity|].
  destruct (Equals st (goal p)); [reflexivity|].
  rewrite sim_get, (E_is_inf sc Hsc) by (apply tame_rhs; exact Ht).
  destruct (f_is_inf (get (rhs p) st)); [reflexivity|].
  destruct (sim_minSucc p st Ht (Hc st)) as [-> _]. cbn [snd].
  destruct (snd (minSucc dx p st)); [apply IH|reflexivity].
Qed.

Lemma sim_New s0 t : New d s0 t = res_map gp (New dx s0 t).
Proof.
  unfold New. cbn [Dist grid_host].
  change (@pq.newPriorityQueue State _ _ spec_float)
    with (gq (@pq.newPriorityQueue State _ _ xnum)).
  change (Key (E (Dist dx s0 t)) f_zero) with (gk (Key (Dist dx s0 t) (XFin 0))).
  rewrite sim_insert.
  - destruct (pq.insert _ t _) eqn:Ei; cbn; [|reflexivity].
    unfold grid_planner. cbn. rewrite fmap_insert, !fmap_empty. reflexivity.
  - intros it Hit. cbn in Hit. apply elem_of_nil in Hit. contradiction.
  - split; cbn [A B]; [apply (below_top Hh); [lia|apply HH]|cbn; lia].
Qed.

Lemma sim_UpdateStart p s :
  below K (km p) -> below K (f_add (km p) (Dist dx (start p) s)) ->
  UpdateStart d (gp p) s = gp (UpdateStart dx p s).
Proof.
  intros Hk Hk'. unfold UpdateStart, grid_planner.
  cbn [start goal rhs g u km Dist grid_host].
  rewrite (E_add sc Hsc);
    [reflexivity|apply (below_top K); [lia|exact Hk]
    |apply (below_top Hh); [lia|apply HH]|apply (below_top K); [lia|exact Hk']].
Qed.

End Simulation.

(** *** The float64 planner on a static graph *)

Section StaticSim.
Context {State : Type} `{Countable State}.
Variable sc : Z.
Hypothesis Hsc : scale_ok sc.
Variable Equals : State -> State -> bool.
Variable dx : Data State xnum.
Variable t : State.
Variable V : gset State.
Variables C Hh K : Z.
Hypothesis HG : static_graph Equals dx t V.
Hypothesis HC0 : 0 <= C.
Hypothesis HC : forall a b, b ∈ Succ dx a -> below C (Cost dx a b).
Hypothesis HH : forall a v, below Hh (Dist dx a v).
Hypothesis HB : C * (Z.of_nat (size V) + 1) + Hh + K <= 2 ^ 53 - 1.
Hypothesis HH0 : 0 <= Hh.
Hypothesis HK0 : 0 <= K.

Local Abbreviation d := (grid_host sc dx).
Local Abbreviation gp := (grid_planner (State := State) sc).
Local Abbreviation inv := (static_run dx t V C K).
Local Abbreviation Bg := (C * Z.of_nat (size V)).
Local Abbreviation Br := (C * (Z.of_nat (size V) + 1)).
Implicit Types (p : Planner State xnum) (v w x st s : State) (S : gset State).

Lemma grid_bounds : 0 <= Bg /\ Bg + C <= Br.
Proof. split; nia. Qed.

Local Abbreviation s_calcKey := (sim_calcKey sc Hsc dx Bg Br C Hh K HC0 HH0 HK0 grid_bounds HB HH).
Local Abbreviation s_lower :=
  (sim_lower sc Hsc Equals dx Bg Br C Hh K HC0 HH0 HK0 grid_bounds HB HH).
Local Abbreviation s_unfinished :=
  (sim_unfinished sc Hsc dx Bg Br C Hh K HC0 HH0 HK0 grid_bounds HB HH).
Local Abbreviation s_walk :=
  (sim_walk sc Hsc Equals dx Bg Br C Hh K HC0 HH0 HK0 grid_bounds HB).
Local Abbreviation l_step := (lower_step Equals dx t V C Hh K HG HC0 HC HH HB).
Local Abbreviation l_all := (lower_all Equals dx t V C Hh K HG HC0 HC HH HB).

(** Under the invariant no sum of the code leaves the grid. *)
Lemma inv_tame p x rest S : inv x rest S p -> tame Bg Br K p.
Proof.
  intros (Hcore & _). pose proof (subseteq_size _ _ (g_dom_V dx t V C K p x rest Hcore)) as Hsz.
  destruct Hcore as ((_ & k & Hk & Ek) & (_ & _ & Hok) & Hnn & _).
  assert (C * Z.of_nat (size (dom (g p))) <= Bg) as Hmul by nia.
  split; [exact Hok|]. split; [|split].
  - intros v. destruct (Hnn v) as [Hg _]. revert Hg. apply below_mono. exact Hmul.
  - intros v. destruct (Hnn v) as [_ Hr]. revert Hr. apply below_mono. lia.
  - rewrite Ek. cbn. lia.
Qed.

Lemma lower_all_sim p x l S :
  inv x l S p -> get (g p) x <> XPInf -> (forall st, st ∈ l -> st ∈ Pred dx x) ->
  for_range (lower Equals d x) l (gp p) = res_map gp (for_range (lower Equals dx x) l p).
Proof.
  revert p S. induction l as [|st l IH]; intros p S Hinv Hgx Hl; [reflexivity|].
  cbn [for_range].
  assert (st ∈ Pred dx x) as Hst by (apply Hl; apply list_elem_of_here).
  assert (below C (Cost dx st x)) as Hc.
  { apply HC. destruct HG as (_ & _ & _ & Hps & _). apply Hps. exact Hst. }
  rewrite (s_lower x p st (inv_tame p x _ S Hinv) Hc).
  destruct (l_step p x st l S Hinv Hgx Hst) as (p1 & E1 & Hinv1 & Eg1).
  rewrite E1. cbn [res_map mbind res_bind].
  apply (IH p1 _ Hinv1).
  - unfold get. rewrite Eg1. exact Hgx.
  - intros st' Hin. apply Hl. apply list_elem_of_further. exact Hin.
Qed.

(** One iteration of the loop, on exact numbers and on the grid. *)
Lemma step_sim p x0 S :
  inv x0 [] S p -> unfinished dx p = true ->
  exists p' x' S', step Equals dx p = Returns p' /\
    step Equals d (gp p) = Returns (gp p') /\ inv x' [] S' p' /\
    (size V - size (dom (g p')) + size S' < size V - size (dom (g p)) + size S)%nat.
Proof.
  intros Hinv Hun. pose proof (inv_tame p x0 [] S Hinv) as Ht.
  pose proof Ht as (Hok & _).
  destruct (step_cases Equals dx t V C Hh K HG HC0 HC HH HB p x0 S Hinv Hun)
    as (x & kx & Etop & Etk & Hcases).
  destruct (s_calcKey p x Ht) as [Ek Hk].
  assert (key_below kx) as Hkx.
  { rewrite <- Etk. unfold pq.top in Etop. unfold pq.topKey. unfold all_ok in Hok.
    destruct (items _) as [|it l]; [discriminate|]. apply Hok. apply list_elem_of_here. }
  unfold step. cbn [u grid_planner]. rewrite sim_top, Etop. cbn [lift mbind res_bind].
  rewrite sim_topKey, Etk.
  change (calcKey d (Build_Planner (start p) (goal p) (of_exact sc <$> rhs p)
            (of_exact sc <$> g p) (grid_queue sc (u p)) (of_exact sc (km p))) x)
    with (calcKey d (gp p) x).
  rewrite Ek, (E_compare sc Hsc _ _ Hkx Hk).
  destruct Hcases as [(Hlt & q & Eq & Hinv' & HxS)|(Hge & Hgt & q & Eq & Hinv' & Hnone & HxV & Nrx)].
  - rewrite !decide_True by exact Hlt.
    rewrite (sim_update sc Hsc _ _ _ Hok Hk), Eq. cbn [fmap option_fmap option_map lift mbind res_bind].
    exists (set_u p q), x0, (S ∖ {[x]}). split; [reflexivity|]. split; [reflexivity|].
    split; [exact Hinv'|]. cbn [set_u g].
    assert (S ∖ {[x]} ⊂ S) as Hsub by set_solver.
    pose proof (subset_size _ _ Hsub). lia.
  - rewrite !decide_False by exact Hge.
    unfold f_gtb in *. cbn [g rhs grid_planner]. rewrite !sim_get.
    rewrite (E_ltb sc Hsc);
      [|exact (tame_rhs Bg Br Hh K HH0 HK0 HB p x Ht)
       |exact (tame_g Bg Br C Hh K HC0 HH0 HK0 grid_bounds HB p x Ht)].
    rewrite Hgt.
    change (set_g (Build_Planner (start p) (goal p) (of_exact sc <$> rhs p)
              (of_exact sc <$> g p) (grid_queue sc (u p)) (of_exact sc (km p))) x
              (of_exact sc (get (rhs p) x)))
      with (set_g (gp p) x (of_exact sc (get (rhs p) x))).
    rewrite gp_set_g. cbn [u set_g grid_planner].
    rewrite (sim_remove sc Hsc _ _ Hok), Eq.
    cbn [fmap option_fmap option_map lift mbind res_bind].
    assert (get (g (set_u (set_g p x (get (rhs p) x)) q)) x <> XPInf) as Hgx.
    { unfold set_u, set_g, get. cbn [g]. rewrite lookup_insert_eq. exact Nrx. }
    destruct (l_all _ x (Pred dx x) _ Hinv' Hgx ltac:(auto)) as (p' & S' & E' & Hinv'' & Eg' & HS').
    pose proof (lower_all_sim _ x (Pred dx x) _ Hinv' Hgx ltac:(auto)) as Esim.
    rewrite E' in Esim. cbn [res_map] in Esim.
    exists p', x, S'. split; [exact E'|]. split; [exact Esim|]. split; [exact Hinv''|].
    rewrite Eg'. cbn [set_u set_g g].
    assert (size (dom (<[x := get (rhs p) x]> (g p))) = Datatypes.S (size (dom (g p)))) as Esz.
    { rewrite dom_insert_L, size_union, size_singleton; [reflexivity|].
      apply not_elem_of_dom in Hnone. set_solver. }
    rewrite Esz.
    pose proof (subseteq_size _ _ (g_dom_V dx t V C K p' x [] (proj1 Hinv''))) as Hsz.
    rewrite Eg' in Hsz. cbn [set_u set_g g] in Hsz. rewrite Esz in Hsz.
    assert (S' ⊆ S) as Hsub by set_solver.
    pose proof (subseteq_size _ _ Hsub). lia.
Qed.

(** The loop returns, on the grid as on exact numbers, within twice as
    many iterations as the graph has states. *)
Lemma repair_sim fuel p x0 S :
  inv x0 [] S p -> (size V - size (dom (g p)) + size S <= fuel)%nat ->
  exists p' x' S', computeShortestPath Equals d fuel (gp p) = Returns (gp p') /\
    inv x' [] S' p' /\ unfinished dx p' = false /\ same_ends p p'.
Proof.
  revert p x0 S. induction fuel as [|fuel IH]; intros p x0 S Hinv Hm;
    cbn [computeShortestPath]; rewrite (s_unfinished p (inv_tame p x0 [] S Hinv));
    destruct (unfinished dx p) eqn:Hun.
  - exfalso. destruct (step_sim p x0 S Hinv Hun) as (p' & x' & S' & _ & _ & _ & Hlt). lia.
  - exists p, x0, S. split; [reflexivity|]. split; [exact Hinv|]. split; [exact Hun|].
    apply same_ends_refl.
  - destruct (step_sim p x0 S Hinv Hun) as (p1 & x1 & S1 & E1 & E1' & Hinv1 & Hlt).
    rewrite E1'. cbn [mbind res_bind].
    destruct (IH p1 x1 S1 Hinv1) as (p' & x' & S' & E' & Hinv' & Hun' & Hends); [lia|].
    exists p', x', S'. split; [exact E'|]. split; [exact Hinv'|]. split; [exact Hun'|].
    exact (same_ends_trans _ _ _ (step_ends Equals dx p p1 E1) Hends).
  - exists p, x0, S. split; [reflexivity|]. split; [exact Hinv|]. split; [exact Hun|].
    apply same_ends_refl.
Qed.

(** Moving the start adds a cost to km. *)
Lemma travel_nn (cs : list (call State spec_float)) :
  forall s, exists z, 0 <= z /\ travel dx s cs = XFin z.
Proof.
  induction cs as [|c cs IH]; intros s; cbn [travel].
  - exists 0. split; [lia|reflexivity].
  - destruct c as [? ? ? ?|s'|?]; [apply IH| |apply IH].
    destruct (IH s') as (z & Hz & ->).
    destruct (h_fin Equals dx t V HG s s') as (z1 & Hz1 & ->).
    exists (z1 + z). split; [lia|reflexivity].
Qed.

(** The planner during a life of [UpdateStart] and [Plan]: the float64
    planner is the exact one, on the grid, and the exact one satisfies the
    invariant. *)
Lemma life_sim (cs : list (call State spec_float)) :
  forall p x0 S k pi,
    inv x0 [] S p -> km p = XFin k -> Forall static_call cs ->
    below (K - k) (travel dx (start p) cs) ->
    run_calls Equals d (gp p) cs = Returns pi ->
    exists p' x' S', pi = gp p' /\ inv x' [] S' p'.
Proof.
  induction cs as [|c cs IH]; intros p x0 S k pi Hinv Hk Hcs Htr Hrun.
  - cbn in Hrun. injection Hrun as <-. eauto.
  - apply Forall_cons in Hcs as [Hc Hcs]. cbn [run_calls] in Hrun.
    apply res_bind_Returns in Hrun as (p1 & E1 & Hrun).
    destruct c as [? ? ? ?|s'|fuel]; [contradiction| |].
    + (* UpdateStart *)
      cbn [run_call] in E1. injection E1 as <-. cbn [travel] in Htr.
      destruct (travel_nn cs s') as (z & Hz & Ez).
      destruct (h_fin Equals dx t V HG (start p) s') as (z1 & Hz1 & Ez1).
      rewrite Ez, Ez1 in Htr. cbn in Htr.
      assert (0 <= k <= K) as Hk0.
      { destruct Hinv as (((_ & k' & Hk' & Ek') & _) & _). assert (k' = k) by congruence. lia. }
      rewrite (sim_UpdateStart sc Hsc dx Bg Br C Hh K HC0 HH0 HK0 grid_bounds HB HH) in Hrun;
        [|rewrite Hk; cbn; lia|rewrite Hk, Ez1; cbn; lia].
      pose proof (UpdateStart_static Equals dx t V C Hh K HG HC0 HH HB p x0 S s' k z1
                    Hinv Hk Ez1 ltac:(lia)) as Hinv1.
      apply (IH (UpdateStart dx p s') x0 _ (k + z1) pi Hinv1); [|exact Hcs| |exact Hrun].
      * unfold UpdateStart. cbn [km]. rewrite Hk, Ez1. reflexivity.
      * unfold UpdateStart. cbn [start]. rewrite Ez. cbn. lia.
    + (* Plan *)
      cbn [run_call] in E1. apply res_bind_Returns in E1 as ([r p2] & E1 & E2).
      cbn [snd] in E2. injection E2 as ->.
      unfold Plan in E1. apply res_bind_Returns in E1 as (p3 & E3 & E1).
      apply res_bind_Returns in E1 as (path & _ & E1). injection E1 as _ ->.
      set (m := Nat.max fuel (size V - size (dom (g p)) + size S)).
      assert (fuel <= m)%nat as Hm1 by apply Nat.le_max_l.
      assert (size V - size (dom (g p)) + size S <= m)%nat as Hm2 by apply Nat.le_max_r.
      destruct (repair_sim m p x0 S Hinv Hm2)
        as (p' & x' & S' & E' & Hinv' & _ & (Hs' & _ & Hk')).
      rewrite (computeShortestPath_more Equals d fuel m _ _ Hm1 E3) in E'.
      injection E' as ->.
      apply (IH p' x' S' k pi Hinv'); [congruence|exact Hcs| |exact Hrun].
      rewrite Hs'. exact Htr.
Qed.

(** The planner that [New] returns, on the grid. *)
Lemma New_sim s0 :
  exists p0, New d s0 t = Returns (gp p0) /\ inv t [] ∅ p0 /\
    start p0 = s0 /\ km p0 = XFin 0.
Proof.
  destruct (New_static Equals dx t V C Hh K HG HC0 HC HH HB s0 HK0)
    as (p0 & E0 & Hinv0 & _ & Hs0 & Hk0).
  exists p0. split; [|auto].
  rewrite (sim_New sc Hsc dx Bg Br C Hh K HC0 HK0 grid_bounds HB HH), E0. reflexivity.
Qed.

(** The measure of the loop is at most twice the number of states. *)
Lemma measure_bound p x S :
  inv x [] S p -> (size V - size (dom (g p)) + size S <= 2 * size V)%nat.
Proof.
  intros Hinv.
  pose proof (subseteq_size _ _ (stale_sub Equals dx t V C Hh K HG HC0 HH HB p x [] S Hinv)) as H1.
  pose proof (subseteq_size _ _ (g_dom_V dx t V C K p x [] (proj1 Hinv))) as H2.
  assert (size (V ∖ dom (g p)) <= size V)%nat by (apply subseteq_size; set_solver).
  lia.
Qed.

(** After [New] and calls of [UpdateStart] and [Plan] that returned, the
    loop returns with rhs(start) the float64 of the cost of a shortest
    path. *)
Lemma repair_life s0 (cs : list (call State spec_float))
    (y0 y : Planner State spec_float) (fuel : nat) :
  New d s0 t = Returns y0 -> Forall static_call cs -> below K (travel dx s0 cs) ->
  run_calls Equals d y0 cs = Returns y -> (2 * size V <= fuel)%nat ->
  exists p' x' S', computeShortestPath Equals d fuel y = Returns (gp p') /\
    inv x' [] S' p' /\ unfinished dx p' = false /\ start y = start p' /\
    goal p' = t.
Proof.
  intros E0 Hcs Htr Hrun Hfuel.
  destruct (New_sim s0) as (px0 & E0' & Hinv0 & Hs0 & Hk0).
  rewrite E0 in E0'. injection E0' as ->.
  destruct (life_sim cs px0 t ∅ 0 y Hinv0 Hk0 Hcs) as (p & x & S & -> & Hinv);
    [rewrite Hs0, Z.sub_0_r; exact Htr|exact Hrun|].
  destruct (repair_sim fuel p x S Hinv) as (p' & x' & S' & E' & Hinv' & Hun' & (Hs' & Hg' & _)).
  { pose proof (measure_bound p x S Hinv). lia. }
  exists p', x', S'. split; [exact E'|]. split; [exact Hinv'|]. split; [exact Hun'|].
  split; [symmetry; exact Hs'|]. destruct Hinv' as (((Hg & _) & _) & _). exact Hg.
Qed.

(** What the loop leaves at the start. *)
Lemma repair_life_shortest s0 (cs : list (call State spec_float))
    (y0 y : Planner State spec_float) (fuel : nat) :
  New d s0 t = Returns y0 -> Forall static_call cs -> below K (travel dx s0 cs) ->
  run_calls Equals d y0 cs = Returns y -> (2 * size V <= fuel)%nat ->
  exists y' (c : xnum), computeShortestPath Equals d fuel y = Returns y' /\
    shortest dx t (start y) c /\ below (2 ^ 53 - 1) c /\
    get (rhs y') (start y) = of_exact sc c /\
    (get (g y') (start y) = get (rhs y') (start y) \/
     get (g y') (start y) = S754_infinity false).
Proof.
  intros E0 Hcs Htr Hrun Hfuel.
  destruct (repair_life s0 cs y0 y fuel E0 Hcs Htr Hrun Hfuel)
    as (p' & x' & S' & E' & Hinv' & Hun' & Hs' & Hg').
  exists (gp p'), (get (rhs p') (start p')). split; [exact E'|].
  rewrite Hs'. split; [|split].
  - exact (exit_shortest Equals dx t V C Hh K HG HC0 HH HB p' x' S' Hinv' Hun').
  - exact (tame_rhs Bg Br Hh K HH0 HK0 HB p' (start p') (inv_tame p' x' [] S' Hinv')).
  - cbn [rhs g grid_planner]. rewrite !sim_get. split; [reflexivity|].
    destruct Hinv' as ((_ & _ & _ & _ & _ & _ & HG' & _) & _).
    destruct (HG' (start p')) as [-> | ->]; [right|left]; reflexivity.
Qed.

(** *** The planner after a repair *)

Lemma sim_key_of (q : priorityQueue State xnum) v :
  key_of (grid_queue sc q) v = grid_key sc <$> key_of q v.
Proof.
  unfold key_of. change (lookups (grid_queue sc q)) with (lookups q).
  destruct (lookups q !! v) as [i|]; [|reflexivity].
  cbn [mbind option_bind]. rewrite grid_items_lookup.
  destruct (items q !! i); reflexivity.
Qed.

(** A state with a finite g is settled. *)
Lemma inv_settled p x S v :
  inv x [] S p -> get (g p) v <> XPInf ->
  get (g p) v = get (rhs p) v /\ shortest dx t v (get (g p) v) /\
  pq.contains (u p) v = false.
Proof.
  intros Hinv Hv. pose proof Hinv as (Hcore & HK).
  destruct (core_nn dx t V C K p x [] v Hcore) as [Hg Hr].
  destruct Hcore as (_ & Hq & _ & _ & _ & _ & HGr & HD1 & HD2 & _).
  destruct (HGr v) as [Hinf|Heq]; [contradiction|].
  split; [exact Heq|]. split.
  - split; [intros l c Hrt; exact (HD2 v l c Hv Hrt)|right; exact (HD1 v Hv)].
  - destruct (pq.contains (u p) v) eqn:Hc; [|reflexivity].
    apply (key_of_contains (u p) v (proj1 Hq)) in Hc as [k Hk].
    destruct (queued_over Equals dx t V C Hh K HG HC0 HH HB p x [] S v k Hinv Hk)
      as (Egv & _). contradiction.
Qed.

(** The queue holds the states whose g and rhs differ, each under a key
    that is not above the one [calcKey] gives now. *)
Lemma inv_queue p x S :
  inv x [] S p ->
  (forall v, pq.contains (u p) v = true <->
             f_eqb (get (g p) v) (get (rhs p) v) = false) /\
  (forall v k, key_of (u p) v = Some k ->
     key_below k /\ compare (calcKey dx p v) k <> -1).
Proof.
  intros Hinv. pose proof Hinv as (Hcore & HK).
  pose proof Hcore as (_ & Hq & _). pose proof Hq as (Hi & _ & Hok).
  split.
  - intros v. rewrite (key_of_contains (u p) v Hi). split.
    + intros [k Hk].
      destruct (queued_over Equals dx t V C Hh K HG HC0 HH HB p x [] S v k Hinv Hk)
        as (Egv & Nrv & _).
      destruct (core_nn dx t V C K p x [] v Hcore) as [_ Hr].
      rewrite Egv. destruct (get (rhs p) v); cbn in *; try contradiction; try reflexivity;
        congruence.
    + intros Hne. pose proof (HK v) as Kv. unfold stored_ok in Kv.
      destruct (decide (v ∈ S)).
      * destruct Kv as (k & Ek & _). eauto.
      * unfold queue_key in Kv. rewrite Hne in Kv. eauto.
  - intros v k Hk.
    destruct (queued_over Equals dx t V C Hh K HG HC0 HH HB p x [] S v k Hinv Hk)
      as (_ & _ & Ok & EB & LA & _).
    split; [apply (Hok (PqItem v k)); apply (key_of_elem _ _ _ Hi); exact Hk|].
    pose proof (calcKey_ok Equals dx t V C Hh K HG HC0 HH HB p x [] v Hcore) as Oc.
    rewrite (compare_exact_lt _ _ Oc Ok). intros [L|[EA L]].
    + apply (leb_exact _ _ (proj1 Ok) (proj1 Oc)) in LA. congruence.
    + rewrite EB in L. destruct Oc as [_ Ob].
      destruct (B (calcKey dx p v)); cbn in *; try contradiction; try discriminate.
      rewrite Z.ltb_irrefl in L. discriminate.
Qed.

(** The same of the float64 planner. *)
Lemma grid_settled p x S v :
  inv x [] S p -> f_is_inf (get (g (gp p)) v) = false ->
  get (g (gp p)) v = get (rhs (gp p)) v /\
  (exists c, shortest dx t v c /\ below (2 ^ 53 - 1) c /\
             get (g (gp p)) v = of_exact sc c) /\
  pq.contains (u (gp p)) v = false.
Proof.
  intros Hinv Hv. pose proof (inv_tame p x [] S Hinv) as Ht.
  pose proof (tame_g Bg Br C Hh K HC0 HH0 HK0 grid_bounds HB p v Ht) as Hb.
  cbn [g rhs u grid_planner] in *. rewrite !sim_get in *.
  assert (get (g p) v <> XPInf) as Nv by (intros E; rewrite E in Hv; discriminate).
  destruct (inv_settled p x S v Hinv Nv) as (Eq & Hsh & Hc).
  split; [rewrite Eq; reflexivity|]. split; [eauto|exact Hc].
Qed.

Lemma grid_queue_keys p x S :
  inv x [] S p ->
  (forall v, pq.contains (u (gp p)) v = true <->
             f_eqb (get (g (gp p)) v) (get (rhs (gp p)) v) = false) /\
  (forall v k, key_of (u (gp p)) v = Some k -> compare (calcKey d (gp p) v) k <> -1).
Proof.
  intros Hinv. pose proof (inv_tame p x [] S Hinv) as Ht.
  destruct (inv_queue p x S Hinv) as [Hiff Hkeys].
  split.
  - intros v. cbn [g rhs u grid_planner]. rewrite !sim_get.
    rewrite (E_eqb sc Hsc);
      [|exact (tame_g Bg Br C Hh K HC0 HH0 HK0 grid_bounds HB p v Ht)
       |exact (tame_rhs Bg Br Hh K HH0 HK0 HB p v Ht)].
    apply Hiff.
  - intros v k Hk. cbn [u grid_planner] in Hk. rewrite sim_key_of in Hk.
    destruct (key_of (u p) v) as [kx|] eqn:Ekx; [|discriminate].
    cbn in Hk. injection Hk as <-.
    destruct (Hkeys v kx Ekx) as [Hb Hc].
    destruct (s_calcKey p v Ht) as [-> Hcb].
    rewrite (E_compare sc Hsc _ _ Hcb Hb). exact Hc.
Qed.

Hypothesis Hpos : forall a b, b ∈ Succ dx a -> pos_cost (Cost dx a b).

(** With edge costs above zero [Plan] returns: nil when rhs(start) is
    +Inf, and otherwise the states of a route from the start to the goal
    whose cost is rhs(start). *)
Lemma plan_life s0 (cs : list (call State spec_float)) (y0 y : Planner State spec_float) :
  New d s0 t = Returns y0 -> Forall static_call cs -> below K (travel dx s0 cs) ->
  run_calls Equals d y0 cs = Returns y ->
  exists y' fuel0,
    (forall fuel, (fuel0 <= fuel)%nat ->
       computeShortestPath Equals d fuel y = Returns y') /\
    ((get (rhs y') (start y) = S754_infinity false /\
      forall fuel, (fuel0 <= fuel)%nat -> Plan Equals d fuel y = Returns (None, y')) \/
     (exists l z, 0 <= z <= 2 ^ 53 - 1 /\
        get (rhs y') (start y) = of_exact sc (XFin z) /\
        f_is_inf (get (rhs y') (start y)) = false /\
        route dx t (start y) l (XFin z) /\
        forall fuel, (fuel0 <= fuel)%nat -> Plan Equals d fuel y = Returns (Some l, y'))).
Proof.
  intros E0 Hcs Htr Hrun.
  destruct (repair_life s0 cs y0 y (2 * size V) E0 Hcs Htr Hrun (Nat.le_refl _))
    as (p' & x' & S' & E' & Hinv' & Hun' & Hs' & Hg').
  pose proof (inv_tame p' x' [] S' Hinv') as Ht'.
  destruct (core_nn dx t V C K p' x' [] (start p') (proj1 Hinv')) as [_ Hr].
  exists (gp p').
  destruct (get (rhs p') (start p')) as [z| | |] eqn:Ez; try contradiction.
  - (* a finite rhs(start): the walk reaches the goal *)
    exists (Nat.max (2 * size V) (Datatypes.S (Z.to_nat z))). split.
    { intros fuel Hfuel.
      apply (computeShortestPath_more Equals d (2 * size V)); [lia|exact E']. }
    right.
    destruct (walk_route Equals dx t V C K HG Hpos p' x' S' (Datatypes.S (Z.to_nat z)) Hinv'
                (start p') z [] Ez) as (l & El & Hl); [lia|].
    pose proof (tame_rhs Bg Br Hh K HH0 HK0 HB p' (start p') Ht') as Hb.
    rewrite Ez in Hb.
    exists l, z. rewrite Hs'. cbn [rhs grid_planner]. rewrite sim_get, Ez.
    split; [exact Hb|]. split; [reflexivity|]. split.
    { rewrite (E_is_inf sc Hsc); [reflexivity|exact Hb]. }
    split; [exact Hl|].
    intros fuel Hfuel. unfold Plan.
    rewrite (computeShortestPath_more Equals d (2 * size V) fuel y (gp p') ltac:(lia) E').
    cbn [mbind res_bind]. rewrite Hs'.
    rewrite (s_walk fuel p' Ht' HC).
    rewrite (walk_more Equals dx (Datatypes.S (Z.to_nat z)) fuel p' (start p') [start p']
               (Some l) ltac:(lia) El).
    reflexivity.
  - (* rhs(start) infinite: nil *)
    exists (Nat.max (2 * size V) 1). split.
    { intros fuel Hfuel.
      apply (computeShortestPath_more Equals d (2 * size V)); [lia|exact E']. }
    left. rewrite Hs'. cbn [rhs grid_planner]. rewrite sim_get, Ez.
    split; [reflexivity|]. intros fuel Hfuel.
    apply Plan_no_path; [lia| | |].
    + apply (computeShortestPath_more Equals d (2 * size V)); [lia|exact E'].
    + rewrite Hs'. cbn [goal grid_planner]. rewrite Hg'.
      destruct (Equals (start p') t) eqn:E; [|reflexivity].
      destruct HG as (HE & _). apply HE in E.
      destruct Hinv' as ((_ & _ & _ & Hrt & _) & _).
      rewrite <- E, Ez in Hrt. discriminate.
    + rewrite Hs'. cbn [rhs grid_planner]. rewrite sim_get, Ez. reflexivity.
Qed.

End StaticSim.


(** ** The repair and the plan on a static graph, in float64 *)

(** The heuristic bound of a grid is not negative. *)
Lemma on_grid_heuristic {State : Type} `{Countable State}
    (Equals : State -> State -> bool) (dx : Data State xnum) (t : State)
    (V : gset State) (C Hh K : Z) :
  static_graph Equals dx t V -> on_grid dx (size V) C Hh K -> 0 <= Hh.
Proof.
  intros HG (_ & _ & _ & HH & _).
  destruct (h_fin Equals dx t V HG t t) as (z & Hz & Ez).
  pose proof (HH t t) as Hb. rewrite Ez in Hb. cbn in Hb. lia.
Qed.

(** C1, as the code has it.  The host is a finite static graph whose
    edge costs and heuristic are float64 on a grid: multiples of one power
    of 2, not negative, small enough for the sums of the planner to stay
    below 2^53 units (so that no addition rounds); the heuristic is
    consistent.  Then [New] returns a planner, and after any calls of
    [UpdateStart] and [Plan] that returned, [computeShortestPath] returns
    within twice as many iterations as the graph has states; rhs(start) is
    then the cost of a shortest path from the start to the goal, a number
    of units below 2^53 and so the float64 of that cost (+Inf when there is
    no path), and g(start) is that cost too or is still +Inf. *)
Theorem repair_shortest {State : Type} `{Countable State}
    (Equals : State -> State -> bool) (dx : Data State xnum) (s0 t : State)
    (V : gset State) (sc C Hh K : Z) :
  scale_ok sc -> static_graph Equals dx t V -> on_grid dx (size V) C Hh K ->
  exists p0, New (grid_host sc dx) s0 t = Returns p0 /\
    forall (cs : list (call State spec_float)) (p : Planner State spec_float) (fuel : nat),
      Forall static_call cs -> below K (travel dx s0 cs) ->
      run_calls Equals (grid_host sc dx) p0 cs = Returns p ->
      (2 * size V <= fuel)%nat ->
      exists p' (c : xnum),
        computeShortestPath Equals (grid_host sc dx) fuel p = Returns p' /\
        shortest dx t (start p) c /\ below (2 ^ 53 - 1) c /\
        get (rhs p') (start p) = of_exact sc c /\
        (get (g p') (start p) = get (rhs p') (start p) \/
         get (g p') (start p) = S754_infinity false).
Proof.
  intros Hsc HG HO. pose proof (on_grid_heuristic Equals dx t V C Hh K HG HO) as HH0.
  destruct HO as (HC0 & HK0 & HC & HH & HB).
  destruct (New_sim sc Hsc Equals dx t V C Hh K HG HC0 HC HH HB HK0 s0)
    as (px0 & E0 & _).
  exists (grid_planner sc px0). split; [exact E0|].
  intros cs p fuel Hcs Htr Hrun Hfuel.
  exact (repair_life_shortest sc Hsc Equals dx t V C Hh K HG HC0 HC HH HB HH0 HK0
           s0 cs _ p fuel E0 Hcs Htr Hrun Hfuel).
Qed.



(** ** Runs on concrete queues *)

(** [queue13] is what two calls of [insert] build. *)
Lemma queue13_built :
  (q ← pq.insert pq.newPriorityQueue 3%nat (Key (fl 3) (fl 0));
   pq.insert q 1%nat (Key (fl 1) (fl 1))) = Some queue13.
Proof. vm_compute. reflexivity. Qed.

Lemma queue13_inv : queue_inv key_ok queue13.
Proof.
  pose proof (queue_inv_new (State := nat) (F := spec_float) key_ok) as I0.
  destruct (insert_spec key_ok kle_ieee_trans lt_kle_ieee pq.newPriorityQueue 3%nat (Key (fl 3) (fl 0)) I0)
    as (q1 & E1 & I1 & _); [reflexivity|split; reflexivity|].
  destruct (insert_spec key_ok kle_ieee_trans lt_kle_ieee q1 1%nat (Key (fl 1) (fl 1)) I1)
    as (q2 & E2 & I2 & _).
  { vm_compute in E1. injection E1 as <-. reflexivity. }
  { split; reflexivity. }
  pose proof queue13_built as B. rewrite E1 in B. cbn [mbind option_bind] in B.
  rewrite E2 in B. injection B as <-. exact I2.
Qed.

(** The theorem on [queue13]: swapping its two slots, popping, updating
    state 3 and removing state 1 all return a queue with a consistent
    index. *)
Lemma index_ok_preserved_witness :
  index_ok queue13 /\
  (exists q', pqi.Swap queue13 0 1 = Some q' /\ index_ok q') /\
  (exists q' s, pq.pop queue13 = Some (q', s) /\ index_ok q') /\
  (exists q', pq.update queue13 3%nat (Key (fl 0) (fl 0)) = Some q' /\ index_ok q') /\
  (exists q', pq.remove queue13 1%nat = Some q' /\ index_ok q').
Proof.
  assert (index_ok queue13) as Hq by (apply index_ok_inv; apply queue13_inv).
  split; [exact Hq|].
  destruct (index_ok_preserved queue13 Hq) as (HS & _ & _ & _ & HP & HU & HR).
  split; [apply HS; cbn; lia|].
  split; [apply HP; discriminate|].
  split; [apply HU; reflexivity|apply HR; reflexivity].
Defined.

(** The theorem on [queue13] and key(0, 0): state 3 is queued under
    key(3, 0), which differs, so [update] is [remove] then [insert]. *)
Lemma update_remove_insert_witness :
  index_ok queue13 /\
  key_of queue13 3%nat = Some (Key (fl 3) (fl 0)) /\
  is_Some (pq.update queue13 3%nat (Key (fl 0) (fl 0))) /\
  pq.update queue13 3%nat (Key (fl 0) (fl 0)) =
    (q1 ← pq.remove queue13 3%nat; pq.insert q1 3%nat (Key (fl 0) (fl 0))).
Proof.
  assert (index_ok queue13) as Hq by (apply index_ok_inv; apply queue13_inv).
  split; [exact Hq|]. split; [reflexivity|].
  apply (update_remove_insert queue13 3%nat (Key (fl 0) (fl 0)) (Key (fl 3) (fl 0)) Hq eq_refl).
  discriminate.
Defined.

(** The theorem on [queue13]: its least key is key(1, 1). *)
Lemma topKey_sentinel_or_minimum_witness :
  (index_ok queue13 /\ heap_ok queue13 /\ all_ok key_ok (items queue13)) /\
  pq.isEmpty queue13 = false /\
  (exists it, it ∈ items queue13 /\ pq.topKey queue13 = item_k it) /\
  (forall it, it ∈ items queue13 -> compare (item_k it) (pq.topKey queue13) <> -1).
Proof.
  destruct queue13_inv as (Hi & Hh & Hok).
  assert (index_ok queue13) as Hq by (apply index_ok_inv; exact Hi).
  split; [auto|]. split; [reflexivity|].
  apply (topKey_sentinel_or_minimum queue13 Hq Hh Hok). reflexivity.
Defined.

(** ** Runs of the planner on concrete graphs *)

Lemma line4g_static : static_graph nat_equals line4g 3%nat line4_states.
Proof.
  unfold static_graph, line4_states. split; [|split; [|split; [|split; [|split; [|split; [|split]]]]]].
  - intros a b. unfold nat_equals. apply bool_decide_eq_true.
  - set_solver.
  - intros v p Hv Hp.
    assert (v = 0 \/ v = 1 \/ v = 2 \/ v = 3)%nat as Hcases by set_solver.
    destruct Hcases as [-> | [-> | [-> | ->]]]; cbn in Hp; set_solver.
  - intros a b. cbn.
    do 4 (destruct a as [|a]; [do 4 (destruct b as [|b]; [set_solver|]); set_solver|]).
    do 4 (destruct b as [|b]; [set_solver|]). set_solver.
  - intros a b _. cbn. lia.
  - intros a v. eexists. split; [|reflexivity]. lia.
  - intros s a b Hb. cbn in Hb.
    assert (Z.abs (Z.of_nat (b `min` 3) - Z.of_nat (a `min` 3)) <= 1) as Hab.
    { do 4 (destruct a as [|a]; [set_unfold; cbn; lia|]). set_solver. }
    unfold f_leb. cbn [f_ltb f_eqb f_add exact Exact.ltb Exact.eqb Exact.add Dist Cost line4g].
    rewrite orb_true_iff, Z.ltb_lt, Z.eqb_eq. lia.
  - intros a b v.
    unfold f_leb. cbn [f_ltb f_eqb f_add exact Exact.ltb Exact.eqb Exact.add Dist Cost line4g].
    rewrite orb_true_iff, Z.ltb_lt, Z.eqb_eq. lia.
Qed.

Lemma line4g_grid : on_grid line4g (size line4_states) 1 3 3.
Proof.
  split; [lia|]. split; [lia|]. split; [intros a b _; cbn; lia|].
  split; [intros a v; cbn; lia|].
  replace (size line4_states) with 4%nat by (vm_compute; reflexivity).
  vm_compute. intros E. discriminate E.
Qed.

(** The theorem on the line 0 - 1 - 2 - 3 with costs and heuristic in
    halves: after [Plan], [UpdateStart(1)], the repair leaves rhs(1) = 1,
    two halves, the cost of a shortest path from 1 to 3. *)
Lemma repair_shortest_witness :
  scale_ok (-1) /\ static_graph nat_equals line4g 3%nat line4_states /\
  on_grid line4g (size line4_states) 1 3 3 /\
  exists p0 p p', New (grid_host (-1) line4g) 0%nat 3%nat = Returns p0 /\
    run_calls nat_equals (grid_host (-1) line4g) p0 [CallPlan 9; CallUpdateStart 1%nat]
      = Returns p /\
    computeShortestPath nat_equals (grid_host (-1) line4g) 8 p = Returns p' /\
    (exists c, shortest line4g 3%nat (start p) c /\ below (2 ^ 53 - 1) c /\
               get (rhs p') (start p) = of_exact (-1) c) /\
    start p = 1%nat /\ get (rhs p') 1%nat = fl 1.
Proof.
  assert (scale_ok (-1)) as Hsc by (unfold scale_ok; lia).
  split; [exact Hsc|]. split; [exact line4g_static|]. split; [exact line4g_grid|].
  destruct (repair_shortest nat_equals line4g 0%nat 3%nat line4_states (-1) 1 3 3
              Hsc line4g_static line4g_grid) as (p0 & E0 & Hrun).
  pose (cs := [CallPlan 9; CallUpdateStart 1%nat] : list (call nat spec_float)).
  let v := eval vm_compute in
             (p ← New (grid_host (-1) line4g) 0%nat 3%nat;
              run_calls nat_equals (grid_host (-1) line4g) p cs) in
  match v with Returns ?p => pose (pv := p) end.
  assert (run_calls nat_equals (grid_host (-1) line4g) p0 cs = Returns pv) as Ep
    by (vm_compute in E0; injection E0 as <-; vm_compute; reflexivity).
  destruct (Hrun cs pv 8%nat) as (p' & c & E' & Hsh & Hb & Er & _).
  - constructor; [exact I|]. constructor; [exact I|]. constructor.
  - cbn. lia.
  - exact Ep.
  - vm_compute. lia.
  - exists p0, pv, p'. split; [exact E0|]. split; [exact Ep|]. split; [exact E'|].
    split; [exists c; split; [exact Hsh|split; [exact Hb|exact Er]]|].
    split; [reflexivity|].
    vm_compute in E'. injection E' as <-. vm_compute. reflexivity.
Defined.

(** Every route of [big5] to 4 and its cost. *)
Lemma big5_routes :
  forall (v : nat) (l : list nat) (c : xnum),
  route big5 4%nat v l c ->
  match v with
  | 0 => c = XFin (2 ^ 53 + 3) \/ c = XFin (2 ^ 53 + 2)
  | 1 => c = XFin (2 ^ 53 + 2)
  | 2 => c = XFin (2 ^ 53 + 1)
  | 3 => c = XFin (2 ^ 53)
  | 4 => c = XFin 0
  | _ => False
  end%nat.
Proof.
  intros v0 l0 c0 Hr0. induction Hr0 as [|v w l c Hw Hr IH]; [reflexivity|].
  destruct v as [|[|[|[|[|v]]]]]; cbn in Hw.
  - apply elem_of_cons in Hw as [->|Hw]; [|apply list_elem_of_singleton in Hw as ->];
      cbn in IH; subst c; [left|right];
      cbn [Cost big5 f_add exact Exact.add]; first [reflexivity|f_equal; lia].
  - apply list_elem_of_singleton in Hw as ->. cbn in IH. subst c.
    cbn [Cost big5 f_add exact Exact.add]. first [reflexivity|f_equal; lia].
  - apply list_elem_of_singleton in Hw as ->. cbn in IH. subst c.
    cbn [Cost big5 f_add exact Exact.add]. first [reflexivity|f_equal; lia].
  - apply list_elem_of_singleton in Hw as ->. cbn in IH. subst c.
    cbn [Cost big5 f_add exact Exact.add]. first [reflexivity|f_equal; lia].
  - apply elem_of_nil in Hw. contradiction.
  - apply elem_of_nil in Hw. contradiction.
Qed.

Lemma big5_static : static_graph nat_equals big5 4%nat big5_states.
Proof.
  unfold static_graph, big5_states. split; [|split; [|split; [|split; [|split; [|split; [|split]]]]]].
  - intros a b. unfold nat_equals. apply bool_decide_eq_true.
  - set_solver.
  - intros v p Hv Hp.
    assert (v = 0 \/ v = 1 \/ v = 2 \/ v = 3 \/ v = 4)%nat as Hcases by set_solver.
    destruct Hcases as [-> | [-> | [-> | [-> | ->]]]]; cbn in Hp; set_solver.
  - intros a b. cbn.
    do 5 (destruct a as [|a]; [do 5 (destruct b as [|b]; [set_solver|]); set_solver|]).
    do 5 (destruct b as [|b]; [set_solver|]). set_solver.
  - intros a b _. unfold big5. cbn [Cost].
    do 4 (destruct a as [|a]; [do 5 (destruct b as [|b]; [cbn; lia|]); cbn; lia|]). cbn. lia.
  - intros a v. exists 0. split; [lia|reflexivity].
  - intros s a b _. unfold big5. cbn [Cost Dist].
    do 4 (destruct a as [|a]; [do 5 (destruct b as [|b]; [reflexivity|]); reflexivity|]).
    reflexivity.
  - intros a b v. reflexivity.
Qed.

(** C1 as stated fails in two ways.  On the edge 0 -> 1 of cost 1 the
    repair leaves rhs(start) = 1, the cost of the shortest path, and
    g(start) = +Inf: the loop stops as soon as the start is at the top of
    the queue.  And on [big5], a static graph with a consistent heuristic
    whose costs are float64, the repair leaves rhs(start) = 2^53, below the
    cost 2^53 + 2 of the shortest path: 1 + 2^53 is rounded to 2^53. *)
Lemma repair_g_infinite_or_rounded :
  ((p0 ← New pair64 0%nat 1%nat;
    p' ← computeShortestPath nat_equals pair64 5 p0;
    Returns (get (rhs p') 0%nat, get (g p') 0%nat, unfinished pair64 p'))
   = Returns (fl 1, S754_infinity false, false) /\
   f_eqb (fl 1) (S754_infinity false) = false) /\
  (static_graph nat_equals big5 4%nat big5_states /\
   (p0 ← New (grid_host 0 big5) 0%nat 4%nat;
    p' ← computeShortestPath nat_equals (grid_host 0 big5) 10 p0;
    Returns (get (rhs p') 0%nat, unfinished (grid_host 0 big5) p'))
   = Returns (of_exact 0 (XFin (2 ^ 53)), false) /\
   shortest big5 4%nat 0%nat (XFin (2 ^ 53 + 2)) /\
   f_ltb (of_exact 0 (XFin (2 ^ 53))) (of_exact 0 (XFin (2 ^ 53 + 2))) = true).
Proof.
  split; [split; vm_compute; reflexivity|].
  split; [exact big5_static|]. split; [vm_compute; reflexivity|].
  split; [|vm_compute; reflexivity].
  split.
  - intros l c Hr. apply big5_routes in Hr. destruct Hr as [-> | ->];
      unfold f_leb; cbn [f_ltb f_eqb exact Exact.ltb Exact.eqb];
      rewrite orb_true_iff, Z.ltb_lt, Z.eqb_eq; lia.
  - right. exists [0; 4]%nat.
    replace (XFin (2 ^ 53 + 2)) with (f_add (Cost big5 0%nat 4%nat) (XFin 0))
      by (cbn [Cost big5 f_add exact Exact.add]; f_equal; lia).
    apply route_step; [cbn; set_solver|constructor].
Qed.

(** On [cycle64] the walk of [Plan] never leaves the cycle 1 <-> 2. *)
Lemma cycle64_walk fuel :
  forall path,
    walk nat_equals cycle64 fuel cycle64_repaired 1%nat path = Diverges /\
    walk nat_equals cycle64 fuel cycle64_repaired 2%nat path = Diverges.
Proof.
  assert (snd (minSucc cycle64 cycle64_repaired 1%nat) = Some 2%nat) as M1
    by (vm_compute; reflexivity).
  assert (snd (minSucc cycle64 cycle64_repaired 2%nat) = Some 1%nat) as M2
    by (vm_compute; reflexivity).
  assert (f_is_inf (get (rhs cycle64_repaired) 1%nat) = false) as I1
    by (vm_compute; reflexivity).
  assert (f_is_inf (get (rhs cycle64_repaired) 2%nat) = false) as I2
    by (vm_compute; reflexivity).
  induction fuel as [|fuel IH]; intros path; [split; reflexivity|].
  assert (nat_equals 1 (goal cycle64_repaired) = false) as G1 by reflexivity.
  assert (nat_equals 2 (goal cycle64_repaired) = false) as G2 by reflexivity.
  rewrite !walk_S, M1, M2, I1, I2, G1, G2.
  split; apply IH.
Qed.

(** On [round4] in float64 the walk of [Plan] never leaves the cycle
    1 <-> 2. *)
Lemma round4_walk fuel :
  forall path,
    walk nat_equals (grid_host 0 round4) fuel round4_repaired 1%nat path = Diverges /\
    walk nat_equals (grid_host 0 round4) fuel round4_repaired 2%nat path = Diverges.
Proof.
  assert (snd (minSucc (grid_host 0 round4) round4_repaired 1%nat) = Some 2%nat) as M1
    by (vm_compute; reflexivity).
  assert (snd (minSucc (grid_host 0 round4) round4_repaired 2%nat) = Some 1%nat) as M2
    by (vm_compute; reflexivity).
  assert (f_is_inf (get (rhs round4_repaired) 1%nat) = false) as I1
    by (vm_compute; reflexivity).
  assert (f_is_inf (get (rhs round4_repaired) 2%nat) = false) as I2
    by (vm_compute; reflexivity).
  induction fuel as [|fuel IH]; intros path; [split; reflexivity|].
  assert (nat_equals 1 (goal round4_repaired) = false) as G1 by reflexivity.
  assert (nat_equals 2 (goal round4_repaired) = false) as G2 by reflexivity.
  rewrite !walk_S, M1, M2, I1, I2, G1, G2.
  split; apply IH.
Qed.

Lemma round4_static : static_graph nat_equals round4 3%nat line4_states.
Proof.
  unfold static_graph, line4_states. split; [|split; [|split; [|split; [|split; [|split; [|split]]]]]].
  - intros a b. unfold nat_equals. apply bool_decide_eq_true.
  - set_solver.
  - intros v p Hv Hp.
    assert (v = 0 \/ v = 1 \/ v = 2 \/ v = 3)%nat as Hcases by set_solver.
    destruct Hcases as [-> | [-> | [-> | ->]]]; cbn in Hp; set_solver.
  - intros a b. cbn.
    do 4 (destruct a as [|a]; [do 4 (destruct b as [|b]; [set_solver|]); set_solver|]).
    do 4 (destruct b as [|b]; [set_solver|]). set_solver.
  - intros a b _. unfold round4. cbn [Cost].
    do 3 (destruct a as [|a]; [do 4 (destruct b as [|b]; [cbn; lia|]); cbn; lia|]). cbn. lia.
  - intros a v. exists 0. split; [lia|reflexivity].
  - intros s a b _. unfold round4. cbn [Cost Dist].
    do 3 (destruct a as [|a]; [do 4 (destruct b as [|b]; [reflexivity|]); reflexivity|]).
    reflexivity.
  - intros a b v. reflexivity.
Qed.

(** On [detour4] in float64, once [FlagChanged] has reported the cost 1
    from 1 to 3, the walk of [Plan] never leaves the cycle 1 <-> 2. *)
Lemma detour4_walk fuel :
  forall path,
    walk nat_equals (grid_host 0 detour4) fuel detour4_repaired 1%nat path = Diverges /\
    walk nat_equals (grid_host 0 detour4) fuel detour4_repaired 2%nat path = Diverges.
Proof.
  assert (snd (minSucc (grid_host 0 detour4) detour4_repaired 1%nat) = Some 2%nat) as M1
    by (vm_compute; reflexivity).
  assert (snd (minSucc (grid_host 0 detour4) detour4_repaired 2%nat) = Some 1%nat) as M2
    by (vm_compute; reflexivity).
  assert (f_is_inf (get (rhs detour4_repaired) 1%nat) = false) as I1
    by (vm_compute; reflexivity).
  assert (f_is_inf (get (rhs detour4_repaired) 2%nat) = false) as I2
    by (vm_compute; reflexivity).
  induction fuel as [|fuel IH]; intros path; [split; reflexivity|].
  assert (nat_equals 1 (goal detour4_repaired) = false) as G1 by reflexivity.
  assert (nat_equals 2 (goal detour4_repaired) = false) as G2 by reflexivity.
  rewrite !walk_S, M1, M2, I1, I2, G1, G2.
  split; apply IH.
Qed.

Lemma detour4_static : static_graph nat_equals detour4 3%nat line4_states.
Proof.
  unfold static_graph, line4_states. split; [|split; [|split; [|split; [|split; [|split; [|split]]]]]].
  - intros a b. unfold nat_equals. apply bool_decide_eq_true.
  - set_solver.
  - intros v p Hv Hp.
    assert (v = 0 \/ v = 1 \/ v = 2 \/ v = 3)%nat as Hcases by set_solver.
    destruct Hcases as [-> | [-> | [-> | ->]]]; cbn in Hp; set_solver.
  - intros a b. cbn.
    do 4 (destruct a as [|a]; [do 4 (destruct b as [|b]; [set_solver|]); set_solver|]).
    do 4 (destruct b as [|b]; [set_solver|]). set_solver.
  - intros a b _. unfold detour4. cbn [Cost].
    do 3 (destruct a as [|a]; [do 4 (destruct b as [|b]; [cbn; lia|]); cbn; lia|]). cbn. lia.
  - intros a v. exists 0. split; [lia|reflexivity].
  - intros s a b _. unfold detour4. cbn [Cost Dist].
    do 3 (destruct a as [|a]; [do 4 (destruct b as [|b]; [reflexivity|]); reflexivity|]).
    reflexivity.
  - intros a b v. reflexivity.
Qed.

Lemma detour4_grid : on_grid detour4 (size line4_states) 5 0 0.
Proof.
  split; [lia|]. split; [lia|]. split.
  { intros a b _. unfold detour4. cbn [Cost].
    do 3 (destruct a as [|a]; [do 4 (destruct b as [|b]; [cbn; lia|]); cbn; lia|]).
    cbn. lia. }
  split; [intros a v; cbn; lia|].
  replace (size line4_states) with 4%nat by (vm_compute; reflexivity).
  vm_compute. intros E. discriminate E.
Qed.


(** The theorem on [planner13] and state 3, queued with g(3) = rhs(3):
    [updateVertex] takes it out of the queue. *)
Lemma updateVertex_frontier_witness :
  index_ok (u planner13) /\
  float64Equals (get (g planner13) 3%nat) (get (rhs planner13) 3%nat) = true /\
  pq.contains (u planner13) 3%nat = true /\
  exists p', updateVertex pair64 planner13 3%nat = Returns p' /\
    index_ok (u p') /\ g p' = g planner13 /\ rhs p' = rhs planner13 /\
    pq.contains (u p') 3%nat = false.
Proof.
  assert (index_ok (u planner13)) as Hq by (apply index_ok_inv; apply queue13_inv).
  split; [exact Hq|]. split; [vm_compute; reflexivity|]. split; [vm_compute; reflexivity|].
  destruct (updateVertex_frontier nat_equals pair64 planner13 3%nat Hq)
    as (p' & E & Hq' & Hg & Hr & Hc).
  exists p'. split; [exact E|]. split; [exact Hq'|]. split; [exact Hg|].
  split; [exact Hr|].
  destruct (pq.contains (u p') 3%nat); [|reflexivity].
  rewrite Hg, Hr in Hc. apply proj1 in Hc. specialize (Hc eq_refl).
  vm_compute in Hc. discriminate Hc.
Defined.

(** The theorem on the line 0 - 1 - 2 - 3: the first [Plan] returns the
    path 0, 1, 2, 3 and a second [Plan] returns it again. *)
Lemma Plan_twice_witness :
  exists p0 p', New line4 0%nat 3%nat = Returns p0 /\
    Plan nat_equals line4 5 p0 = Returns (Some [0; 1; 2; 3]%nat, p') /\
    Plan nat_equals line4 9 p' = Returns (Some [0; 1; 2; 3]%nat, p').
Proof.
  eexists. eexists. split; [vm_compute; reflexivity|].
  match goal with
  | |- ?a = ?b /\ _ => assert (a = b) as E by (vm_compute; reflexivity)
  end.
  split; [exact E|].
  apply (Plan_twice nat_equals line4 5 9 _ _ _ E). lia.
Defined.


(** The theorem on the edge 0 -> 1 in float64: moving the start from 0
    to 1 adds Dist(0, 1) = 1 to km, and km does not decrease along
    [Plan], [UpdateStart], [Plan]. *)
Lemma UpdateStart_effect_witness :
  exists p0 p1 p2, New pair64 0%nat 1%nat = Returns p0 /\
    run_calls nat_equals pair64 p0 [CallPlan 5] = Returns p1 /\
    run_calls nat_equals pair64 p1 [CallUpdateStart 1%nat; CallPlan 5] = Returns p2 /\
    km (UpdateStart pair64 p1 1%nat) = f_add (km p1) (Dist pair64 (start p1) 1%nat) /\
    km p1 = fl 0 /\ km p2 = fl 1 /\
    f_leb (km p1) (km p2) = true.
Proof.
  eexists. eexists. eexists.
  split; [vm_compute; reflexivity|].
  split; [vm_compute; reflexivity|].
  match goal with
  | |- ?a = ?b /\ _ => assert (a = b) as E by (vm_compute; reflexivity)
  end.
  split; [exact E|].
  destruct UpdateStart_effect as (Hframe & _ & Hmono & _).
  split; [apply Hframe|]. split; [reflexivity|]. split; [reflexivity|].
  eapply (Hmono nat _ _ nat_equals pair64 0%nat 1%nat [CallPlan 5] _ _ _ _).
  - intros a b. cbn. destruct (nat_equals a b); split; reflexivity.
  - vm_compute. reflexivity.
  - vm_compute. reflexivity.
  - exact E.
Defined.


(** ** The queue as its clients see it *)

Section QueuePop.
Context {State : Type} `{Countable State} {F : Type} `{Float64 F}.
Variable ok : key F -> Prop.
Hypothesis kle_refl : forall x, ok x -> kle x x.
Hypothesis kle_trans : forall x y z, ok x -> ok y -> ok z -> kle x y -> kle y z -> kle x z.
Hypothesis lt_kle : forall x y, ok x -> ok y -> compare x y = -1 -> kle x y.
Implicit Types (q : priorityQueue State F).

Lemma pop_spec q x :
  queue_inv ok q -> items q !! 0%nat = Some x ->
  exists q', pq.pop q = Some (q', item_s x) /\ queue_inv ok q' /\
    (forall it, it ∈ items q' <-> it ∈ items q /\ it <> x).
Proof.
  intros (Hi & Hh & Hok) Hx.
  destruct (heap_Pop_index q x Hi Hx) as (q' & E & I' & _ & M).
  destruct (heap_Pop_heap ok kle_refl kle_trans lt_kle q q' x Hok Hh E) as [Hh' Hok'].
  exists q'. unfold pq.pop. rewrite E. cbn. split; [reflexivity|].
  split; [split; [exact I'|split; assumption]|exact M].
Qed.

Lemma pop_key_of q :
  queue_inv ok q -> items q <> [] ->
  exists s k q', pq.top q = Some s /\ pq.topKey q = k /\ key_of q s = Some k /\
    (forall w kw, key_of q w = Some kw -> kle k kw) /\
    pq.pop q = Some (q', s) /\ queue_inv ok q' /\
    forall w, key_of q' w = if decide (w = s) then None else key_of q w.
Proof.
  intros Hq Hne. pose proof Hq as (Hi & _).
  destruct (top_spec ok kle_refl kle_trans q Hq Hne) as (x & Hx & Ht & Hk & Hmin).
  destruct (pop_spec q x Hq Hx) as (q' & E & Hq' & M).
  assert (key_of q (item_s x) = Some (item_k x)) as Hkx.
  { apply (key_of_elem q _ _ Hi). apply list_elem_of_lookup. exists 0%nat.
    rewrite Hx. destruct x; reflexivity. }
  exists (item_s x), (item_k x), q'.
  split; [exact Ht|]. split; [exact Hk|]. split; [exact Hkx|]. split.
  { intros w kw Hw. apply (key_of_elem q w kw Hi) in Hw. apply (Hmin _ Hw). }
  split; [exact E|]. split; [exact Hq'|].
  destruct Hq' as (Hi' & _).
  intros w. apply option_ext. intros kw.
  rewrite (key_of_elem q' w kw Hi'), M.
  destruct (decide (w = item_s x)) as [->|Hnw].
  - split; [|discriminate]. intros [Hin Hnx]. exfalso. apply Hnx.
    apply (key_of_elem q _ _ Hi) in Hin. rewrite Hkx in Hin. injection Hin as <-.
    destruct x; reflexivity.
  - rewrite (key_of_elem q w kw Hi). split; [tauto|].
    intros Hin. split; [exact Hin|]. intros <-. apply Hnw. reflexivity.
Qed.

End QueuePop.

Section QueueClients.
Context {State : Type} `{Countable State}.
Implicit Types (q : priorityQueue State spec_float) (s w : State) (k : key spec_float).

Lemma wf_queue_inv q : wf_queue q <-> queue_inv key_ok q.
Proof. unfold wf_queue, queue_inv. rewrite index_ok_inv. reflexivity. Qed.

(** X1.  [insert(s, k)] on a well-formed queue that does not hold [s],
    with a key without NaN: it returns, the queue is well formed and one
    entry longer, [s] is queued under [k] and every other state is queued
    as before. *)
Theorem insert_queues q s k :
  wf_queue q -> pq.contains q s = false -> key_ok k ->
  exists q', pq.insert q s k = Some q' /\ wf_queue q' /\
    pqi.Len q' = S (pqi.Len q) /\
    forall w, key_of q' w = if decide (w = s) then Some k else key_of q w.
Proof.
  intros Hq Hc Hk. apply wf_queue_inv in Hq.
  destruct (insert_key_of key_ok kle_ieee_trans lt_kle_ieee q s k Hq Hc Hk)
    as (q' & E & Hq' & Hkeys).
  destruct (insert_index q s k (proj1 Hq) Hc) as (q2 & E2 & _ & Hlen & _).
  rewrite E in E2. injection E2 as <-.
  exists q'. split; [exact E|]. split; [apply wf_queue_inv; exact Hq'|].
  split; [exact Hlen|exact Hkeys].
Qed.

(** X2.  [remove(s)] on a well-formed queue that holds [s]: it returns,
    the queue is well formed and one entry shorter, [s] is no longer
    queued and every other state is queued as before. *)
Theorem remove_unqueues q s :
  wf_queue q -> pq.contains q s = true ->
  exists q', pq.remove q s = Some q' /\ wf_queue q' /\
    S (pqi.Len q') = pqi.Len q /\
    pq.contains q' s = false /\
    forall w, key_of q' w = if decide (w = s) then None else key_of q w.
Proof.
  intros Hq Hc. apply wf_queue_inv in Hq. pose proof Hq as (Hi & _).
  destruct (remove_key_of key_ok kle_ieee_refl kle_ieee_trans lt_kle_ieee q s Hq Hc)
    as (q' & E & Hq' & Hkeys).
  pose proof Hc as Hc'. apply contains_true in Hc' as [i Hs].
  destruct (index_inv_item q s i Hi Hs) as (x & Hx & _).
  destruct (remove_index q s i x Hi Hs Hx) as (q2 & E2 & _ & Hlen & _).
  rewrite E in E2. injection E2 as <-.
  exists q'. split; [exact E|]. split; [apply wf_queue_inv; exact Hq'|].
  split; [exact Hlen|]. split; [exact (remove_contains q s q' Hi Hc E)|exact Hkeys].
Qed.

(** X3.  [update(s, k)] on a well-formed queue that holds [s] under the
    key [kc], with a key [k] without NaN: it returns a well-formed queue
    of the same length, where [s] is queued under [k], or still under
    [kc] when the two compare equal, and every other state is queued as
    before. *)
Theorem update_rekeys q s k kc :
  wf_queue q -> key_of q s = Some kc -> key_ok k ->
  exists q', pq.update q s k = Some q' /\ wf_queue q' /\
    forall w, key_of q' w =
      if decide (w = s) then Some (if decide (compare kc k = 0) then kc else k)
      else key_of q w.
Proof.
  intros Hq Hkc Hk. apply wf_queue_inv in Hq.
  destruct (update_key_of key_ok kle_ieee_refl kle_ieee_trans lt_kle_ieee q s k kc Hq Hkc Hk)
    as (q' & E & Hq' & Hkeys).
  exists q'. split; [exact E|]. split; [apply wf_queue_inv; exact Hq'|exact Hkeys].
Qed.

(** X4.  [pop()] on a well-formed queue that is not empty: it returns
    the state that [top()] names, which is queued under [topKey()], a key
    that no queued key is below; the queue left is well formed, no longer
    holds that state and holds every other state as before. *)
Theorem pop_least q :
  wf_queue q -> pq.isEmpty q = false ->
  exists s q', pq.pop q = Some (q', s) /\ pq.top q = Some s /\
    key_of q s = Some (pq.topKey q) /\
    (forall w kw, key_of q w = Some kw -> compare kw (pq.topKey q) <> -1) /\
    wf_queue q' /\
    forall w, key_of q' w = if decide (w = s) then None else key_of q w.
Proof.
  intros Hq He. apply wf_queue_inv in Hq. pose proof Hq as (Hi & _).
  assert (items q <> []) as Hne.
  { intros E. apply (isEmpty_items q Hi) in E. congruence. }
  destruct (pop_key_of key_ok kle_ieee_refl kle_ieee_trans lt_kle_ieee q Hq Hne)
    as (s & k & q' & Ht & Hk & Hs & Hmin & E & Hq' & Hkeys).
  subst k. exists s, q'. split; [exact E|]. split; [exact Ht|]. split; [exact Hs|].
  split; [exact Hmin|]. split; [apply wf_queue_inv; exact Hq'|exact Hkeys].
Qed.

(** X5.  Two [pop()] in a row deliver keys in order: the key of the
    state popped second is not below the key of the state popped first. *)
Theorem pop_pop_ordered q q1 q2 s1 s2 k1 k2 :
  wf_queue q ->
  pq.pop q = Some (q1, s1) -> pq.pop q1 = Some (q2, s2) ->
  key_of q s1 = Some k1 -> key_of q s2 = Some k2 ->
  s1 <> s2 /\ compare k2 k1 <> -1.
Proof.
  intros Hq E1 E2 K1 K2. apply wf_queue_inv in Hq. pose proof Hq as (Hi & _).
  assert (items q <> []) as Hne.
  { intros E. unfold pq.pop, heap.Pop, pqi.Len in E1. rewrite E in E1. discriminate. }
  destruct (pop_key_of key_ok kle_ieee_refl kle_ieee_trans lt_kle_ieee q Hq Hne)
    as (s & k & q' & _ & _ & Hs & Hmin & E & Hq' & Hkeys).
  rewrite E1 in E. injection E as <- <-.
  rewrite K1 in Hs. injection Hs as <-.
  assert (items q1 <> []) as Hne1.
  { intros E. unfold pq.pop, heap.Pop, pqi.Len in E2. rewrite E in E2. discriminate. }
  destruct (pop_key_of key_ok kle_ieee_refl kle_ieee_trans lt_kle_ieee q1 Hq' Hne1)
    as (s' & k' & q'' & _ & _ & Hs' & _ & E' & _ & _).
  rewrite E2 in E'. injection E' as <- <-.
  rewrite Hkeys in Hs'. destruct (decide (s2 = s1)) as [->|Hne2]; [discriminate|].
  split; [congruence|]. exact (Hmin s2 k2 K2).
Qed.

End QueueClients.

(** ** Calls outside the queue's preconditions *)

Section QueueEdges.
Context {State : Type} `{Countable State} {F : Type} `{Float64 F}.
Implicit Types (q : priorityQueue State F) (s w : State) (k : key F).

(** Exchanging a slot with itself changes nothing in a consistent queue. *)
Lemma Swap_same q i x :
  index_inv q -> items q !! i = Some x -> pqi.Swap q i i = Some q.
Proof.
  intros Hi Hx. rewrite (Swap_Some q i i x x Hx Hx). f_equal.
  assert (lookups q !! item_s x = Some i) as Hl
    by (apply Hi; rewrite states_lookup, Hx; reflexivity).
  destruct q as [lk it]. cbn [lookups items] in *. f_equal.
  - rewrite insert_insert_eq. apply insert_id. exact Hl.
  - rewrite list_insert_insert_eq. apply list_insert_id. exact Hx.
Qed.

(** At index 0 [heap.Remove] does what [heap.Pop] does. *)
Lemma heap_Remove_0 q : index_inv q -> heap.Remove q 0 = heap.Pop q.
Proof.
  intros Hi. unfold heap.Remove, heap.Pop.
  destruct (pqi.Len q) as [|n] eqn:En; [reflexivity|].
  destruct (decide (n = 0%nat)) as [->|Hn].
  - unfold pqi.Len in En.
    destruct (items q !! 0%nat) as [x|] eqn:Hx.
    + rewrite (Swap_same q 0 x Hi Hx). reflexivity.
    + apply lookup_ge_None in Hx. lia.
  - destruct (pqi.Swap q 0 n) as [q1|]; [|reflexivity]. cbn [mbind option_bind].
    destruct (heap.down q1 0 n) as [[q2 moved]|]; [|reflexivity]. cbn [mbind option_bind].
    destruct moved; reflexivity.
Qed.

(** X6.  [isEmpty()] looks at the index map and [Len()], [topKey()] at
    the array; on a queue with a consistent index they agree, and the
    queue is empty exactly when it holds no state. *)
Theorem isEmpty_agrees q :
  index_ok q ->
  (pq.isEmpty q = true <-> pqi.Len q = 0%nat) /\
  (pq.isEmpty q = true <-> forall s, pq.contains q s = false).
Proof.
  intros Hq. apply index_ok_inv in Hq. split.
  - rewrite (isEmpty_items q Hq). unfold pqi.Len. split.
    + intros ->. reflexivity.
    + apply length_zero_iff_nil.
  - rewrite (isEmpty_key_of q Hq). split; intros Hall s.
    + destruct (pq.contains q s) eqn:Hc; [|reflexivity].
      apply (key_of_contains q s Hq) in Hc as [k Hk]. rewrite Hall in Hk. discriminate.
    + destruct (key_of q s) as [k|] eqn:Hk; [|reflexivity].
      assert (pq.contains q s = true) as Hc by (apply (key_of_contains q s Hq); eauto).
      rewrite Hall in Hc. discriminate.
Qed.

(** X7.  [remove(s)] of a state that is not queued does not fail on a
    queue that holds other states: the map yields index 0 for the absent
    [s], and the entry at the top is removed, as [pop()] would.  On the
    empty queue it panics. *)
Theorem remove_absent_pops q s :
  index_ok q -> pq.contains q s = false ->
  pq.remove q s = (r ← pq.pop q; Some r.1) /\
  (pq.isEmpty q = true -> pq.remove q s = None).
Proof.
  intros Hq Hc. apply index_ok_inv in Hq. apply contains_false in Hc.
  assert (pq.remove q s = (r ← pq.pop q; Some r.1)) as E.
  { unfold pq.remove, pq.pop. cbv zeta. rewrite Hc. cbn [default from_option id].
    rewrite delete_id by exact Hc.
    replace (PriorityQueue (lookups q) (items q)) with q by (destruct q; reflexivity).
    rewrite (heap_Remove_0 q Hq).
    destruct (heap.Pop q) as [[q' it]|]; reflexivity. }
  split; [exact E|]. intros He. rewrite E.
  apply (isEmpty_items q Hq) in He. unfold pq.pop, heap.Pop, pqi.Len. rewrite He. reflexivity.
Qed.

(** X8.  [update(s, k)] of a state that is not queued acts on the entry
    at the top: when the key there compares equal to [k] nothing happens
    and [s] stays out of the queue; otherwise that entry is taken out, as
    by [pop()], and [s] is queued under [k].  On the empty queue it
    panics. *)
Theorem update_absent_replaces_top q s k :
  index_ok q -> pq.contains q s = false ->
  pq.update q s k =
    match items q with
    | [] => None
    | it :: _ =>
        if decide (compare (item_k it) k = 0) then Some q
        else r ← pq.pop q; pq.insert r.1 s k
    end.
Proof.
  intros Hq Hc. apply index_ok_inv in Hq. apply contains_false in Hc.
  unfold pq.update, pq.pop, pq.insert. cbv zeta. rewrite Hc. cbn [default from_option id].
  destruct (items q) as [|it l] eqn:Ei; [reflexivity|].
  cbn [lookup list_lookup mbind option_bind].
  rewrite (heap_Remove_0 q Hq).
  destruct (decide (compare (item_k it) k <> 0)) as [NE|E];
    destruct (decide (compare (item_k it) k = 0)) as [E'|NE']; try contradiction;
    try reflexivity.
  destruct (heap.Pop q) as [[q' it']|]; reflexivity.
Qed.

End QueueEdges.

(** *** The theorems on [queue13] *)

Lemma queue13_wf : wf_queue queue13.
Proof. apply wf_queue_inv. exact queue13_inv. Qed.

Lemma insert_queues_witness :
  wf_queue queue13 /\ pq.contains queue13 2%nat = false /\ key_ok (Key (fl 2) (fl 0)) /\
  exists q', pq.insert queue13 2%nat (Key (fl 2) (fl 0)) = Some q' /\ wf_queue q' /\
    pqi.Len q' = 3%nat /\
    key_of q' 2%nat = Some (Key (fl 2) (fl 0)) /\
    key_of q' 1%nat = Some (Key (fl 1) (fl 1)).
Proof.
  assert (key_ok (Key (fl 2) (fl 0))) as Hk by (split; reflexivity).
  split; [exact queue13_wf|]. split; [reflexivity|]. split; [exact Hk|].
  destruct (insert_queues queue13 2%nat (Key (fl 2) (fl 0)) queue13_wf eq_refl Hk)
    as (q' & E & Hq' & Hlen & Hkeys).
  exists q'. split; [exact E|]. split; [exact Hq'|]. split; [exact Hlen|].
  split; [exact (Hkeys 2%nat)|exact (Hkeys 1%nat)].
Defined.

Lemma remove_unqueues_witness :
  wf_queue queue13 /\ pq.contains queue13 1%nat = true /\
  exists q', pq.remove queue13 1%nat = Some q' /\ wf_queue q' /\
    pqi.Len q' = 1%nat /\ pq.contains q' 1%nat = false /\
    key_of q' 3%nat = Some (Key (fl 3) (fl 0)).
Proof.
  split; [exact queue13_wf|]. split; [reflexivity|].
  destruct (remove_unqueues queue13 1%nat queue13_wf eq_refl)
    as (q' & E & Hq' & Hlen & Hc & Hkeys).
  exists q'. split; [exact E|]. split; [exact Hq'|].
  split; [injection Hlen as ->; reflexivity|]. split; [exact Hc|exact (Hkeys 3%nat)].
Defined.

Lemma update_rekeys_witness :
  wf_queue queue13 /\ key_of queue13 3%nat = Some (Key (fl 3) (fl 0)) /\
  key_ok (Key (fl 0) (fl 0)) /\
  exists q', pq.update queue13 3%nat (Key (fl 0) (fl 0)) = Some q' /\ wf_queue q' /\
    key_of q' 3%nat = Some (Key (fl 0) (fl 0)) /\
    key_of q' 1%nat = Some (Key (fl 1) (fl 1)) /\
    pq.top q' = Some 3%nat.
Proof.
  assert (key_ok (Key (fl 0) (fl 0))) as Hk by (split; reflexivity).
  split; [exact queue13_wf|]. split; [reflexivity|]. split; [exact Hk|].
  destruct (update_rekeys queue13 3%nat (Key (fl 0) (fl 0)) (Key (fl 3) (fl 0))
              queue13_wf eq_refl Hk) as (q' & E & Hq' & Hkeys).
  exists q'. split; [exact E|]. split; [exact Hq'|].
  split; [exact (Hkeys 3%nat)|]. split; [exact (Hkeys 1%nat)|].
  vm_compute in E. injection E as <-. reflexivity.
Defined.

Lemma pop_least_witness :
  wf_queue queue13 /\ pq.isEmpty queue13 = false /\
  exists q', pq.pop queue13 = Some (q', 1%nat) /\ pq.top queue13 = Some 1%nat /\
    key_of queue13 1%nat = Some (pq.topKey queue13) /\
    wf_queue q' /\ key_of q' 1%nat = None /\
    key_of q' 3%nat = Some (Key (fl 3) (fl 0)).
Proof.
  split; [exact queue13_wf|]. split; [reflexivity|].
  destruct (pop_least queue13 queue13_wf eq_refl)
    as (s & q' & E & Ht & Hs & _ & Hq' & Hkeys).
  assert (s = 1%nat) as -> by (vm_compute in Ht; congruence).
  exists q'. split; [exact E|]. split; [exact Ht|]. split; [exact Hs|].
  split; [exact Hq'|]. split; [exact (Hkeys 1%nat)|exact (Hkeys 3%nat)].
Defined.

Lemma pop_pop_ordered_witness :
  exists q1 q2, wf_queue queue13 /\
    pq.pop queue13 = Some (q1, 1%nat) /\ pq.pop q1 = Some (q2, 3%nat) /\
    key_of queue13 1%nat = Some (Key (fl 1) (fl 1)) /\
    key_of queue13 3%nat = Some (Key (fl 3) (fl 0)) /\
    1%nat <> 3%nat /\ compare (Key (fl 3) (fl 0)) (Key (fl 1) (fl 1)) <> -1.
Proof.
  eexists. eexists. split; [exact queue13_wf|].
  match goal with
  | |- ?a = ?b /\ _ => assert (a = b) as E1 by (vm_compute; reflexivity)
  end.
  split; [exact E1|].
  match goal with
  | |- ?a = ?b /\ _ => assert (a = b) as E2 by (vm_compute; reflexivity)
  end.
  split; [exact E2|]. split; [reflexivity|]. split; [reflexivity|].
  exact (pop_pop_ordered queue13 _ _ 1%nat 3%nat _ _ queue13_wf E1 E2 eq_refl eq_refl).
Defined.

Lemma isEmpty_agrees_witness :
  index_ok queue13 /\
  (pq.isEmpty queue13 = true <-> pqi.Len queue13 = 0%nat) /\
  (pq.isEmpty queue13 = true <-> forall s, pq.contains queue13 s = false).
Proof.
  split; [exact (proj1 queue13_wf)|].
  exact (isEmpty_agrees queue13 (proj1 queue13_wf)).
Defined.

Lemma remove_absent_pops_witness :
  index_ok queue13 /\ pq.contains queue13 2%nat = false /\
  pq.remove queue13 2%nat = (r ← pq.pop queue13; Some r.1) /\
  exists q', pq.remove queue13 2%nat = Some q' /\
    pq.contains q' 1%nat = false /\ pq.contains q' 3%nat = true.
Proof.
  split; [exact (proj1 queue13_wf)|]. split; [reflexivity|].
  pose proof (proj1 (remove_absent_pops queue13 2%nat (proj1 queue13_wf) eq_refl)) as E.
  split; [exact E|]. eexists. split; [vm_compute; reflexivity|]. split; reflexivity.
Defined.

Lemma update_absent_replaces_top_witness :
  index_ok queue13 /\ pq.contains queue13 2%nat = false /\
  pq.update queue13 2%nat (Key (fl 5) (fl 0)) =
    (r ← pq.pop queue13; pq.insert r.1 2%nat (Key (fl 5) (fl 0))) /\
  exists q', pq.update queue13 2%nat (Key (fl 5) (fl 0)) = Some q' /\
    pq.contains q' 1%nat = false /\ pq.contains q' 2%nat = true.
Proof.
  split; [exact (proj1 queue13_wf)|]. split; [reflexivity|].
  pose proof (update_absent_replaces_top queue13 2%nat (Key (fl 5) (fl 0))
                (proj1 queue13_wf) eq_refl) as E.
  split; [exact E|]. eexists. split; [vm_compute; reflexivity|]. split; reflexivity.
Defined.


(** ** What the planner leaves alone, and what [Plan] returns *)

Section PlannerClients.
Context {State : Type} `{Countable State} {F : Type} `{Float64 F}.
Variable Equals : State -> State -> bool.
Variable d : Data State F.
Implicit Types (p : Planner State F) (st s v w x : State).

(** The successor that the loop over [Succ] picks is one of them, and
    none is picked when no sum is below +Inf. *)
Lemma pick_fold (c : State -> F) (l : list State) (m : F) (o : option State) :
  let r := fold_left
    (fun (acc : F * option State) (sPrime : State) =>
       if f_ltb (c sPrime) (fst acc) then (c sPrime, Some sPrime) else acc)
    l (m, o) in
  (snd r = o /\ fst r = m) \/ (exists w, w ∈ l /\ snd r = Some w /\ fst r = c w).
Proof.
  revert m o. induction l as [|a l IH]; intros m o; cbn [fold_left].
  - left. split; reflexivity.
  - cbn [fst]. destruct (f_ltb (c a) m).
    + right. destruct (IH (c a) (Some a)) as [[E1 E2]|(w & Hw & E1 & E2)].
      * exists a. split; [left|split; assumption].
      * exists w. split; [right; exact Hw|split; assumption].
    + destruct (IH m o) as [[E1 E2]|(w & Hw & E1 & E2)].
      * left. split; assumption.
      * right. exists w. split; [right; exact Hw|split; assumption].
Qed.

Lemma minSucc_in p st w : snd (minSucc d p st) = Some w -> w ∈ Succ d st.
Proof.
  unfold minSucc. intros E.
  destruct (pick_fold (fun s' => f_add (Cost d st s') (get (g p) s')) (Succ d st) f_inf None)
    as [[E1 _]|(w' & Hw & E1 & _)]; cbv zeta in *.
  - rewrite E in E1. discriminate.
  - rewrite E in E1. injection E1 as ->. exact Hw.
Qed.

Lemma minSucc_none p st :
  (forall w, w ∈ Succ d st ->
     f_ltb (f_add (Cost d st w) (get (g p) w)) f_inf = false) ->
  minSucc d p st = (f_inf, None).
Proof.
  unfold minSucc. generalize (Succ d st). intros l Hall.
  induction l as [|a l IH]; [reflexivity|].
  cbn [fold_left fst]. rewrite (Hall a) by left.
  apply IH. intros w Hw. apply Hall. right. exact Hw.
Qed.

Lemma walk_chain fuel p :
  forall st pre path,
  walk Equals d fuel p st (pre ++ [st]) = Returns (Some path) ->
  exists l, path = pre ++ st :: l /\ chain d (st :: l) /\
    (exists x, last (st :: l) = Some x /\ Equals x (goal p) = true) /\
    (forall i x, (st :: l) !! i = Some x -> (S i < length (st :: l))%nat ->
       Equals x (goal p) = false /\ f_is_inf (get (rhs p) x) = false).
Proof.
  induction fuel as [|fuel IH]; intros st pre path E.
  - cbn [walk] in E. destruct (Equals st (goal p)) eqn:Eg; [|discriminate].
    injection E as <-. exists []. split; [reflexivity|]. split; [exact I|].
    split; [exists st; split; [reflexivity|exact Eg]|].
    intros i x _ Hi. cbn in Hi. lia.
  - rewrite walk_S in E. destruct (Equals st (goal p)) eqn:Eg.
    + injection E as <-. exists []. split; [reflexivity|]. split; [exact I|].
      split; [exists st; split; [reflexivity|exact Eg]|].
      intros i x _ Hi. cbn in Hi. lia.
    + destruct (f_is_inf (get (rhs p) st)) eqn:Ei; [discriminate|].
      destruct (snd (minSucc d p st)) as [w|] eqn:Em; [|discriminate].
      destruct (IH w (pre ++ [st]) path E) as (l & -> & Hc & Hlast & Hmid).
      exists (w :: l). split; [rewrite <- app_assoc; reflexivity|].
      split; [split; [exact (minSucc_in p st w Em)|exact Hc]|].
      split; [exact Hlast|].
      intros [|i] x Hx Hi.
      * injection Hx as <-. split; assumption.
      * apply (Hmid i x Hx). cbn [length] in *. lia.
Qed.

(** X9.  A path that [Plan] returns is never partial: it begins at the
    start, each further state is a successor of the state before it, its
    last state is the goal, and no earlier state is the goal or has an
    infinite rhs. *)
Theorem Plan_path_chain (fuel : nat) (p p' : Planner State F) (path : list State) :
  Plan Equals d fuel p = Returns (Some path, p') ->
  (exists rest, path = start p :: rest) /\ chain d path /\
  (exists x, last path = Some x /\ Equals x (goal p) = true) /\
  (forall i x, path !! i = Some x -> (S i < length path)%nat ->
     Equals x (goal p) = false /\ f_is_inf (get (rhs p') x) = false).
Proof.
  unfold Plan. intros E.
  apply res_bind_Returns in E as (p1 & E1 & E).
  apply res_bind_Returns in E as (r & E2 & E). injection E as -> ->.
  pose proof (computeShortestPath_ends _ _ _ _ _ E1) as (_ & Hg & _).
  destruct (walk_chain fuel p' (start p) [] path E2) as (l & -> & Hc & Hlast & Hmid).
  rewrite Hg in Hlast, Hmid. cbn [app].
  split; [exists l; reflexivity|]. split; [exact Hc|]. split; [exact Hlast|exact Hmid].
Qed.

(** X10.  [Plan] panics when the walk stands on a state that is not the
    goal and has a finite rhs while no successor [w] of it has
    [Cost + g(w)] below +Inf (in particular when it has no successor):
    the next state is then nil, and [Equals] is called on it.  Here for
    the start. *)
Theorem Plan_panics_without_successor (fuel : nat) (p p' : Planner State F) :
  (0 < fuel)%nat ->
  computeShortestPath Equals d fuel p = Returns p' ->
  Equals (start p) (goal p') = false ->
  f_is_inf (get (rhs p') (start p)) = false ->
  (forall w, w ∈ Succ d (start p) ->
     f_ltb (f_add (Cost d (start p) w) (get (g p') w)) f_inf = false) ->
  Plan Equals d fuel p = Panics.
Proof.
  intros Hfuel E Hne Hinf Hall. unfold Plan. rewrite E. cbn [mbind res_bind].
  destruct fuel as [|fuel]; [lia|]. rewrite walk_S, Hne, Hinf.
  rewrite (minSucc_none p' (start p) Hall). reflexivity.
Qed.

(** X11.  [FlagChanged(u, v, cOld, cNew)] never writes g, writes rhs
    at [u] only, and not at all when [u] is the goal; start, goal and km
    stay as they are. *)
Theorem FlagChanged_frame (p p' : Planner State F) (x v : State) (cOld cNew : F) :
  FlagChanged Equals d p x v cOld cNew = Returns p' ->
  start p' = start p /\ goal p' = goal p /\ km p' = km p /\
  g p' = g p /\
  (forall s, s <> x -> rhs p' !! s = rhs p !! s) /\
  (Equals x (goal p) = true -> rhs p' = rhs p).
Proof.
  unfold FlagChanged. intros E.
  apply updateVertex_fields in E as (Hs & Hg & Hk & Hr & Hgg).
  rewrite Hs, Hg, Hk, Hr, Hgg.
  destruct (f_gtb cOld cNew); [|destruct (float64Equals _ _)];
    destruct (Equals x (goal p)); cbn [negb set_rhs start goal km g rhs];
    repeat split; try discriminate;
    intros s Hne; apply lookup_insert_ne; congruence.
Qed.

(** *** rhs of the goal *)

Section GoalKept.
Hypothesis Equals_refl : forall a, Equals a a = true.

Lemma keeps_goal_refl p : keeps_goal p p.
Proof. split; reflexivity. Qed.

Lemma keeps_goal_trans p1 p2 p3 : keeps_goal p1 p2 -> keeps_goal p2 p3 -> keeps_goal p1 p3.
Proof. unfold keeps_goal. intros [G1 R1] [G2 R2]. rewrite G1 in G2, R2. split; congruence. Qed.

Lemma set_rhs_keeps_goal p st y :
  keeps_goal p (if negb (Equals st (goal p)) then set_rhs p st y else p).
Proof.
  destruct (Equals st (goal p)) eqn:E; cbn [negb]; [apply keeps_goal_refl|].
  split; [reflexivity|]. cbn [set_rhs rhs]. apply lookup_insert_ne.
  intros ->. rewrite Equals_refl in E. discriminate.
Qed.

Lemma updateVertex_keeps_goal p st p' :
  updateVertex d p st = Returns p' -> keeps_goal p p'.
Proof.
  intros E. apply updateVertex_fields in E as (_ & Hg & _ & Hr & _).
  split; [exact Hg|]. rewrite Hr. reflexivity.
Qed.

Lemma lower_keeps_goal x p st p' : lower Equals d x p st = Returns p' -> keeps_goal p p'.
Proof.
  unfold lower. intros E. apply updateVertex_keeps_goal in E.
  eapply keeps_goal_trans; [apply set_rhs_keeps_goal|exact E].
Qed.

Lemma raise_keeps_goal x gOld p st p' :
  raise Equals d x gOld p st = Returns p' -> keeps_goal p p'.
Proof.
  unfold raise. intros E. apply updateVertex_keeps_goal in E.
  eapply keeps_goal_trans; [|exact E].
  destruct (float64Equals _ _); [apply set_rhs_keeps_goal|apply keeps_goal_refl].
Qed.

Lemma for_range_keeps_goal (body : Planner State F -> State -> res (Planner State F)) :
  (forall p st p', body p st = Returns p' -> keeps_goal p p') ->
  forall l p p', for_range body l p = Returns p' -> keeps_goal p p'.
Proof.
  intros Hb l. induction l as [|st l IH]; intros p p' E; cbn in E.
  - injection E as <-. apply keeps_goal_refl.
  - apply res_bind_Returns in E as (p1 & E1 & E2).
    eapply keeps_goal_trans; [eapply Hb; exact E1|eapply IH; exact E2].
Qed.

Lemma step_keeps_goal p p' : step Equals d p = Returns p' -> keeps_goal p p'.
Proof.
  unfold step. intros E. apply res_bind_Returns in E as (x & _ & E).
  destruct (decide (compare _ _ = -1)).
  - apply res_bind_Returns in E as (q & _ & E). injection E as <-. split; reflexivity.
  - destruct (f_gtb _ _).
    + apply res_bind_Returns in E as (q & _ & E).
      apply (for_range_keeps_goal _ (lower_keeps_goal x)) in E.
      eapply keeps_goal_trans; [|exact E]. split; reflexivity.
    + apply (for_range_keeps_goal _ (raise_keeps_goal x _)) in E.
      eapply keeps_goal_trans; [|exact E]. split; reflexivity.
Qed.

Lemma computeShortestPath_keeps_goal fuel p p' :
  computeShortestPath Equals d fuel p = Returns p' -> keeps_goal p p'.
Proof.
  revert p. induction fuel as [|fuel IH]; intros p E; cbn in E.
  - destruct (unfinished d p); [discriminate|]. injection E as <-. apply keeps_goal_refl.
  - destruct (unfinished d p).
    + apply res_bind_Returns in E as (p1 & E1 & E2).
      eapply keeps_goal_trans; [eapply step_keeps_goal; exact E1|eapply IH; exact E2].
    + injection E as <-. apply keeps_goal_refl.
Qed.

Lemma run_call_keeps_goal p c p' : run_call Equals d p c = Returns p' -> keeps_goal p p'.
Proof.
  destruct c as [x v cOld cNew|s|fuel]; cbn [run_call]; intros E.
  - unfold FlagChanged in E. apply updateVertex_keeps_goal in E.
    eapply keeps_goal_trans; [|exact E].
    destruct (f_gtb cOld cNew); [apply set_rhs_keeps_goal|].
    destruct (float64Equals _ _); [apply set_rhs_keeps_goal|apply keeps_goal_refl].
  - injection E as <-. split; reflexivity.
  - apply res_bind_Returns in E as ([r p1] & E1 & E). injection E as <-.
    unfold Plan in E1. apply res_bind_Returns in E1 as (p2 & E2 & E1).
    apply res_bind_Returns in E1 as (r' & _ & E1). injection E1 as _ <-.
    exact (computeShortestPath_keeps_goal _ _ _ E2).
Qed.

Lemma run_calls_keeps_goal cs : forall p p',
  run_calls Equals d p cs = Returns p' -> keeps_goal p p'.
Proof.
  induction cs as [|c cs IH]; intros p p' E; cbn [run_calls] in E.
  - injection E as <-. apply keeps_goal_refl.
  - apply res_bind_Returns in E as (p1 & E1 & E2).
    eapply keeps_goal_trans; [eapply run_call_keeps_goal; exact E1|eapply IH; exact E2].
Qed.

End GoalKept.

(** X12.  When [Equals] holds of every state with itself, rhs of the
    goal is 0 from [New] on, whatever calls of [FlagChanged],
    [UpdateStart] and [Plan] follow, and the goal stays the goal. *)
Theorem rhs_goal_zero (s0 t : State) (cs : list (call State F)) (p0 p : Planner State F) :
  (forall a, Equals a a = true) ->
  New d s0 t = Returns p0 ->
  run_calls Equals d p0 cs = Returns p ->
  goal p = t /\ get (rhs p) t = f_zero.
Proof.
  intros Hrefl E0 E.
  unfold New in E0. apply res_bind_Returns in E0 as (q & _ & E0). injection E0 as <-.
  destruct (run_calls_keeps_goal Hrefl cs _ _ E) as [Hg Hr]. cbn [goal rhs] in Hg, Hr.
  split; [exact Hg|]. unfold get. rewrite Hr, lookup_insert_eq. reflexivity.
Qed.

End PlannerClients.



(** ** The planner on float64 never leaves its well-formed states *)

Section PlannerSafe.
Context {State : Type} `{Countable State}.
Variable Equals : State -> State -> bool.
Variable d : Data State spec_float.
Hypothesis Hd : data_nn d.
Implicit Types (p : Planner State spec_float) (st s v w x : State).

Lemma float_nn_inf : float_nn (f_inf (F := spec_float)).
Proof. split; reflexivity. Qed.

Lemma min_ieee_either (x y : spec_float) :
  float_nn x -> float_nn y -> f_min x y = x \/ f_min x y = y.
Proof.
  intros Hx Hy. apply float_nn_cases in Hx, Hy.
  change (f_min x y) with (IEEE.min x y). unfold IEEE.min.
  assert (IEEE.is_neg_inf x || IEEE.is_neg_inf y = false) as ->.
  { destruct x as [| [|] | |]; try contradiction; try discriminate;
      destruct y as [| [|] | |]; try contradiction; try discriminate; reflexivity. }
  assert (IEEE.is_nan x || IEEE.is_nan y = false) as ->.
  { destruct x; try contradiction; destruct y; try contradiction; reflexivity. }
  destruct (_ && _); [destruct (IEEE.signbit x)|destruct (IEEE.ltb x y)]; auto.
Qed.

Lemma float_nn_min (x y : spec_float) : float_nn x -> float_nn y -> float_nn (f_min x y).
Proof. intros Hx Hy. destruct (min_ieee_either x y Hx Hy) as [-> | ->]; assumption. Qed.

Lemma float_nn_add (x y : spec_float) : float_nn x -> float_nn y -> float_nn (f_add x y).
Proof. intros Hx Hy. exact (proj1 (add_ieee_nondecreasing x y Hx Hy)). Qed.

Lemma get_insert_nn (m : gmap State spec_float) s (y : spec_float) :
  (forall v, float_nn (get m v)) -> float_nn y -> forall v, float_nn (get (<[s := y]> m) v).
Proof.
  intros Hm Hy v. unfold get. destruct (decide (s = v)) as [->|Hne].
  - rewrite lookup_insert_eq. exact Hy.
  - rewrite lookup_insert_ne by exact Hne. apply Hm.
Qed.

Lemma calcKey_parts p v :
  planner_wf p ->
  float_nn (B (calcKey d p v)) /\ float_nn (A (calcKey d p v)) /\
  f_leb (B (calcKey d p v)) (A (calcKey d p v)) = true.
Proof.
  intros (_ & Hg & Hr & Hk). destruct Hd as [HD _]. unfold calcKey. cbn [A B].
  pose proof (float_nn_min _ _ (Hg v) (Hr v)) as Hm.
  destruct (add_ieee_nondecreasing _ _ Hm (HD (start p) v)) as [H1 L1].
  destruct (add_ieee_nondecreasing _ _ H1 Hk) as [H2 L2].
  split; [exact Hm|]. split; [exact H2|].
  exact (leb_ieee_trans _ _ _ Hm H1 H2 L1 L2).
Qed.

Lemma calcKey_key_ok p v : planner_wf p -> key_ok (calcKey d p v).
Proof.
  intros Hp. destruct (calcKey_parts p v Hp) as (HB & HA & _).
  split; apply float_nn_not_nan; assumption.
Qed.

Lemma minSucc_nn p st : planner_wf p -> float_nn (fst (minSucc d p st)).
Proof.
  intros (_ & Hg & _). destruct Hd as [_ HC]. unfold minSucc.
  destruct (pick_fold (fun s' => f_add (Cost d st s') (get (g p) s')) (Succ d st) f_inf None)
    as [[_ ->]|(w & _ & _ & ->)]; cbv zeta.
  - exact float_nn_inf.
  - apply float_nn_add; [apply HC|apply Hg].
Qed.

Lemma set_u_wf p q : planner_wf p -> wf_queue q -> planner_wf (set_u p q).
Proof. intros (_ & Hg & Hr & Hk) Hq. split; [exact Hq|]. split; [exact Hg|]. split; [exact Hr|exact Hk]. Qed.

Lemma set_rhs_wf p s y : planner_wf p -> float_nn y -> planner_wf (set_rhs p s y).
Proof.
  intros (Hq & Hg & Hr & Hk) Hy. split; [exact Hq|]. split; [exact Hg|].
  split; [|exact Hk]. cbn [set_rhs rhs]. apply get_insert_nn; assumption.
Qed.

Lemma set_g_wf p s y : planner_wf p -> float_nn y -> planner_wf (set_g p s y).
Proof.
  intros (Hq & Hg & Hr & Hk) Hy. split; [exact Hq|]. split; [|split; [exact Hr|exact Hk]].
  cbn [set_g g]. apply get_insert_nn; assumption.
Qed.

(** *** Queue operations on well-formed queues *)

Lemma wf_insert (q : priorityQueue State spec_float) s k :
  wf_queue q -> pq.contains q s = false -> key_ok k ->
  exists q', pq.insert q s k = Some q' /\ wf_queue q'.
Proof.
  intros Hq Hc Hk. apply wf_queue_inv in Hq.
  destruct (insert_key_of key_ok kle_ieee_trans lt_kle_ieee q s k Hq Hc Hk) as (q' & E & Hq' & _).
  exists q'. split; [exact E|apply wf_queue_inv; exact Hq'].
Qed.

Lemma wf_remove (q : priorityQueue State spec_float) s :
  wf_queue q -> pq.contains q s = true ->
  exists q', pq.remove q s = Some q' /\ wf_queue q'.
Proof.
  intros Hq Hc. apply wf_queue_inv in Hq.
  destruct (remove_key_of key_ok kle_ieee_refl kle_ieee_trans lt_kle_ieee q s Hq Hc)
    as (q' & E & Hq' & _).
  exists q'. split; [exact E|apply wf_queue_inv; exact Hq'].
Qed.

Lemma wf_update (q : priorityQueue State spec_float) s k :
  wf_queue q -> pq.contains q s = true -> key_ok k ->
  exists q', pq.update q s k = Some q' /\ wf_queue q'.
Proof.
  intros Hq Hc Hk. apply wf_queue_inv in Hq.
  apply (key_of_contains q s (proj1 Hq)) in Hc as [kc Hkc].
  destruct (update_key_of key_ok kle_ieee_refl kle_ieee_trans lt_kle_ieee q s k kc Hq Hkc Hk)
    as (q' & E & Hq' & _).
  exists q'. split; [exact E|apply wf_queue_inv; exact Hq'].
Qed.

Lemma wf_top (q : priorityQueue State spec_float) :
  wf_queue q -> pq.isEmpty q = false ->
  exists s, pq.top q = Some s /\ pq.contains q s = true.
Proof.
  intros Hq He. apply wf_queue_inv in Hq. pose proof Hq as (Hi & _).
  assert (items q <> []) as Hne.
  { intros E. apply (isEmpty_items q Hi) in E. congruence. }
  destruct (top_key_of key_ok kle_ieee_refl kle_ieee_trans q Hq Hne) as (s & k & Ht & _ & Hs & _).
  exists s. split; [exact Ht|]. apply (key_of_contains q s Hi). eauto.
Qed.

(** *** The operations of the planner *)

Lemma updateVertex_wf p v :
  planner_wf p -> exists p', updateVertex d p v = Returns p' /\ planner_wf p'.
Proof.
  intros Hp. pose proof Hp as (Hq & _). pose proof (calcKey_key_ok p v Hp) as Hk.
  unfold updateVertex.
  destruct (float64Equals (get (g p) v) (get (rhs p) v));
    destruct (pq.contains (u p) v) eqn:Hc; cbn [negb andb].
  - destruct (wf_remove (u p) v Hq Hc) as (q' & -> & Hq').
    eexists. split; [reflexivity|]. apply set_u_wf; assumption.
  - exists p. split; [reflexivity|exact Hp].
  - destruct (wf_update (u p) v (calcKey d p v) Hq Hc Hk) as (q' & -> & Hq').
    eexists. split; [reflexivity|]. apply set_u_wf; assumption.
  - destruct (wf_insert (u p) v (calcKey d p v) Hq Hc Hk) as (q' & -> & Hq').
    eexists. split; [reflexivity|]. apply set_u_wf; assumption.
Qed.

Lemma lower_wf x p st :
  planner_wf p -> exists p', lower Equals d x p st = Returns p' /\ planner_wf p'.
Proof.
  intros Hp. unfold lower. apply updateVertex_wf.
  destruct (negb (Equals st (goal p))); [|exact Hp].
  pose proof Hp as (_ & Hg & Hr & _). destruct Hd as [_ HC].
  apply set_rhs_wf; [exact Hp|].
  apply float_nn_min; [apply Hr|]. apply float_nn_add; [apply HC|apply Hg].
Qed.

Lemma raise_wf x gOld p st :
  planner_wf p -> exists p', raise Equals d x gOld p st = Returns p' /\ planner_wf p'.
Proof.
  intros Hp. unfold raise. apply updateVertex_wf.
  destruct (float64Equals _ _); [|exact Hp].
  destruct (negb (Equals st (goal p))); [|exact Hp].
  apply set_rhs_wf; [exact Hp|]. apply minSucc_nn. exact Hp.
Qed.

Lemma for_range_wf (body : Planner State spec_float -> State -> res (Planner State spec_float)) :
  (forall p st, planner_wf p -> exists p', body p st = Returns p' /\ planner_wf p') ->
  forall l p, planner_wf p -> exists p', for_range body l p = Returns p' /\ planner_wf p'.
Proof.
  intros Hb l. induction l as [|st l IH]; intros p Hp; cbn [for_range].
  - exists p. split; [reflexivity|exact Hp].
  - destruct (Hb p st Hp) as (p1 & -> & Hp1). cbn [mbind res_bind]. apply IH. exact Hp1.
Qed.

Lemma step_wf p :
  planner_wf p -> unfinished d p = true ->
  exists p', step Equals d p = Returns p' /\ planner_wf p'.
Proof.
  intros Hp U. pose proof Hp as (Hq & Hg & Hr & _).
  unfold unfinished in U. apply andb_true_iff in U as [U _]. apply negb_true_iff in U.
  destruct (wf_top (u p) Hq U) as (x & Ht & Hc).
  unfold step. rewrite Ht. cbn [lift mbind res_bind]. cbv zeta.
  destruct (decide (compare (pq.topKey (u p)) (calcKey d p x) = -1)).
  - destruct (wf_update (u p) x (calcKey d p x) Hq Hc (calcKey_key_ok p x Hp)) as (q' & -> & Hq').
    eexists. split; [reflexivity|]. apply set_u_wf; assumption.
  - destruct (f_gtb (get (g p) x) (get (rhs p) x)).
    + cbn [set_g u]. destruct (wf_remove (u p) x Hq Hc) as (q' & -> & Hq').
      cbn [lift mbind res_bind]. apply for_range_wf; [intros; apply lower_wf; assumption|].
      apply set_u_wf; [|exact Hq']. apply (set_g_wf p x _ Hp). apply Hr.
    + apply for_range_wf; [intros; apply raise_wf; assumption|].
      apply (set_g_wf p x _ Hp). exact float_nn_inf.
Qed.

Lemma computeShortestPath_wf fuel : forall p,
  planner_wf p ->
  computeShortestPath Equals d fuel p = Diverges \/
  exists p', computeShortestPath Equals d fuel p = Returns p' /\ planner_wf p'.
Proof.
  induction fuel as [|fuel IH]; intros p Hp; cbn [computeShortestPath].
  - destruct (unfinished d p); [left; reflexivity|right; exists p; split; [reflexivity|exact Hp]].
  - destruct (unfinished d p) eqn:U; [|right; exists p; split; [reflexivity|exact Hp]].
    destruct (step_wf p Hp U) as (p1 & -> & Hp1). cbn [mbind res_bind]. apply IH. exact Hp1.
Qed.

Lemma FlagChanged_wf p x v (cOld cNew : spec_float) :
  planner_wf p -> float_nn cNew ->
  exists p', FlagChanged Equals d p x v cOld cNew = Returns p' /\ planner_wf p'.
Proof.
  intros Hp Hc. pose proof Hp as (_ & Hg & Hr & _).
  unfold FlagChanged. apply updateVertex_wf.
  destruct (f_gtb cOld cNew).
  - destruct (negb (Equals x (goal p))); [|exact Hp].
    apply set_rhs_wf; [exact Hp|].
    apply float_nn_min; [apply Hr|]. apply float_nn_add; [exact Hc|apply Hg].
  - destruct (float64Equals _ _); [|exact Hp].
    destruct (negb (Equals x (goal p))); [|exact Hp].
    apply set_rhs_wf; [exact Hp|]. apply minSucc_nn. exact Hp.
Qed.

Lemma UpdateStart_wf p s : planner_wf p -> planner_wf (UpdateStart d p s).
Proof.
  intros (Hq & Hg & Hr & Hk). destruct Hd as [HD _].
  split; [exact Hq|]. split; [exact Hg|]. split; [exact Hr|].
  cbn [UpdateStart km]. apply float_nn_add; [exact Hk|apply HD].
Qed.

Lemma New_wf s0 t :
  exists p0, New d s0 t = Returns p0 /\ planner_wf p0 /\
    start p0 = s0 /\ goal p0 = t /\ km p0 = f_zero /\ g p0 = ∅ /\
    rhs p0 = {[t := f_zero]} /\
    forall v, key_of (u p0) v =
      if decide (v = t) then Some (Key (Dist d s0 t) f_zero) else None.
Proof.
  destruct Hd as [HD _].
  assert (key_ok (Key (Dist d s0 t) f_zero)) as Hk.
  { split; [apply float_nn_not_nan, HD|reflexivity]. }
  pose proof (queue_inv_new (State := State) (F := spec_float) key_ok) as I0.
  destruct (insert_key_of key_ok kle_ieee_trans lt_kle_ieee pq.newPriorityQueue t _ I0 eq_refl Hk)
    as (q & E & Hq & Hkeys).
  unfold New. cbv zeta. rewrite E. cbn [lift mbind res_bind].
  eexists. split; [reflexivity|]. cbn [start goal km g rhs u].
  split; [|repeat split; try reflexivity; exact Hkeys].
  split; [apply wf_queue_inv; exact Hq|]. cbn [u g rhs km].
  split; [intros v; exact float_nn_inf|].
  split; [|exact float_nn_zero].
  intros v. apply get_insert_nn; [intros w; exact float_nn_inf|exact float_nn_zero].
Qed.

End PlannerSafe.

(** X13.  On a host whose distances and costs are float64 that are not
    negative, [New] returns a well-formed planner: start and goal as
    given, km 0, no g recorded, rhs recorded for the goal alone and 0
    there, and the goal alone in the queue, under
    key(Dist(start, goal), 0). *)
Theorem New_well_formed {State : Type} `{Countable State}
    (d : Data State spec_float) (s0 t : State) :
  data_nn d ->
  exists p0, New d s0 t = Returns p0 /\ planner_wf p0 /\
    start p0 = s0 /\ goal p0 = t /\ km p0 = f_zero /\ g p0 = ∅ /\
    rhs p0 = {[t := f_zero]} /\
    forall v, key_of (u p0) v =
      if decide (v = t) then Some (Key (Dist d s0 t) f_zero) else None.
Proof. intros Hd. exact (New_wf d Hd s0 t). Qed.

(** X14.  On such a host [computeShortestPath] never panics on a
    well-formed planner: every queue operation it makes meets its
    precondition.  It runs on, or returns a well-formed planner. *)
Theorem computeShortestPath_never_panics {State : Type} `{Countable State}
    (Equals : State -> State -> bool) (d : Data State spec_float)
    (p : Planner State spec_float) (fuel : nat) :
  data_nn d -> planner_wf p ->
  computeShortestPath Equals d fuel p = Diverges \/
  exists p', computeShortestPath Equals d fuel p = Returns p' /\ planner_wf p'.
Proof. intros Hd Hp. exact (computeShortestPath_wf Equals d Hd fuel p Hp). Qed.

(** X15.  On such a host [FlagChanged] with a new cost that is not
    negative returns on a well-formed planner, and the planner it
    leaves is well formed. *)
Theorem FlagChanged_returns {State : Type} `{Countable State}
    (Equals : State -> State -> bool) (d : Data State spec_float)
    (p : Planner State spec_float) (x v : State) (cOld cNew : spec_float) :
  data_nn d -> planner_wf p -> float_nn cNew ->
  exists p', FlagChanged Equals d p x v cOld cNew = Returns p' /\ planner_wf p'.
Proof. intros Hd Hp Hc. exact (FlagChanged_wf Equals d Hd p x v cOld cNew Hp Hc). Qed.

(** X16.  The keys that [calcKey] computes on a well-formed planner
    hold no NaN, and their first component is not below the second:
    adding the heuristic and km, with rounding, does not decrease. *)
Theorem calcKey_ordered {State : Type} `{Countable State}
    (d : Data State spec_float) (p : Planner State spec_float) (v : State) :
  data_nn d -> planner_wf p ->
  key_ok (calcKey d p v) /\
  f_leb (B (calcKey d p v)) (A (calcKey d p v)) = true.
Proof.
  intros Hd Hp. split; [exact (calcKey_key_ok d Hd p v Hp)|].
  exact (proj2 (proj2 (calcKey_parts d Hd p v Hp))).
Qed.

(** X17.  On such a host a planner stays well formed for its whole
    life: after [New] and any calls of [FlagChanged] (with new costs that
    are not negative), [UpdateStart] and [Plan] that return, the queue is
    well formed and no g, rhs or km is negative or NaN. *)
Theorem planner_stays_well_formed {State : Type} `{Countable State}
    (Equals : State -> State -> bool) (d : Data State spec_float)
    (s0 t : State) (cs : list (call State spec_float)) (p0 p : Planner State spec_float) :
  data_nn d -> Forall call_nn cs ->
  New d s0 t = Returns p0 ->
  run_calls Equals d p0 cs = Returns p ->
  planner_wf p.
Proof.
  intros Hd Hcs E0 E.
  destruct (New_wf d Hd s0 t) as (p0' & E0' & Hp0 & _).
  rewrite E0 in E0'. injection E0' as <-.
  clear E0. revert p0 Hp0 E. induction Hcs as [|c cs Hc Hcs IH]; intros p0 Hp0 E.
  - injection E as <-. exact Hp0.
  - cbn [run_calls] in E. apply res_bind_Returns in E as (p1 & E1 & E).
    apply (IH p1); [|exact E].
    destruct c as [x v cOld cNew|s|fuel]; cbn [run_call call_nn] in *.
    + destruct (FlagChanged_wf Equals d Hd p0 x v cOld cNew Hp0 Hc) as (p' & E' & Hp').
      rewrite E1 in E'. injection E' as <-. exact Hp'.
    + injection E1 as <-. apply UpdateStart_wf; assumption.
    + apply res_bind_Returns in E1 as ([r p2] & E2 & E1). injection E1 as <-.
      unfold Plan in E2. apply res_bind_Returns in E2 as (p3 & E3 & E2).
      apply res_bind_Returns in E2 as (r' & _ & E2). injection E2 as _ <-.
      destruct (computeShortestPath_wf Equals d Hd fuel p0 Hp0) as [E'|(p' & E' & Hp')];
        rewrite E3 in E'; [discriminate|]. injection E' as <-. exact Hp'.
Qed.

(** ** After a repair on a static graph *)

(** X18.  On a finite static graph whose costs and consistent heuristic
    are float64 on a grid, after [New], any calls of [UpdateStart] and
    [Plan] that returned, and [computeShortestPath], every state whose g
    is finite is settled: its g equals its rhs, g is the float64 of the
    cost of a shortest path from it to the goal, and it is not in the
    queue. *)
Theorem repair_settled {State : Type} `{Countable State}
    (Equals : State -> State -> bool) (dx : Data State xnum) (s0 t : State)
    (V : gset State) (sc C Hh K : Z) :
  scale_ok sc -> static_graph Equals dx t V -> on_grid dx (size V) C Hh K ->
  exists p0, New (grid_host sc dx) s0 t = Returns p0 /\
    forall (cs : list (call State spec_float)) (p : Planner State spec_float) (fuel : nat),
      Forall static_call cs -> below K (travel dx s0 cs) ->
      run_calls Equals (grid_host sc dx) p0 cs = Returns p ->
      (2 * size V <= fuel)%nat ->
      exists p', computeShortestPath Equals (grid_host sc dx) fuel p = Returns p' /\
        forall v, f_is_inf (get (g p') v) = false ->
          get (g p') v = get (rhs p') v /\
          (exists c, shortest dx t v c /\ below (2 ^ 53 - 1) c /\
                     get (g p') v = of_exact sc c) /\
          pq.contains (u p') v = false.
Proof.
  intros Hsc HG HO. pose proof (on_grid_heuristic Equals dx t V C Hh K HG HO) as HH0.
  destruct HO as (HC0 & HK0 & HC & HH & HB).
  destruct (New_sim sc Hsc Equals dx t V C Hh K HG HC0 HC HH HB HK0 s0)
    as (px0 & E0 & _).
  exists (grid_planner sc px0). split; [exact E0|].
  intros cs p fuel Hcs Htr Hrun Hfuel.
  destruct (repair_life sc Hsc Equals dx t V C Hh K HG HC0 HC HH HB HH0 HK0
              s0 cs _ p fuel E0 Hcs Htr Hrun Hfuel)
    as (p' & x' & S' & E' & Hinv' & _).
  exists (grid_planner sc p'). split; [exact E'|]. intros v Hv.
  exact (grid_settled sc Equals dx t V C Hh K HG HC0 HH HB HH0 HK0 p' x' S' v Hinv' Hv).
Qed.

(** X19.  In the same setting, after [computeShortestPath] the queue
    holds exactly the states whose g and rhs differ, each under a key that
    is not above the key [calcKey] gives it now; and either the queue is
    empty or its least key is not below the key of the start, while
    rhs(start) is not above g(start). *)
Theorem repair_queue {State : Type} `{Countable State}
    (Equals : State -> State -> bool) (dx : Data State xnum) (s0 t : State)
    (V : gset State) (sc C Hh K : Z) :
  scale_ok sc -> static_graph Equals dx t V -> on_grid dx (size V) C Hh K ->
  exists p0, New (grid_host sc dx) s0 t = Returns p0 /\
    forall (cs : list (call State spec_float)) (p : Planner State spec_float) (fuel : nat),
      Forall static_call cs -> below K (travel dx s0 cs) ->
      run_calls Equals (grid_host sc dx) p0 cs = Returns p ->
      (2 * size V <= fuel)%nat ->
      exists p', computeShortestPath Equals (grid_host sc dx) fuel p = Returns p' /\
        (forall v, pq.contains (u p') v = true <->
                   f_eqb (get (g p') v) (get (rhs p') v) = false) /\
        (forall v k, key_of (u p') v = Some k ->
                     compare (calcKey (grid_host sc dx) p' v) k <> -1) /\
        (pq.isEmpty (u p') = true \/
         (compare (pq.topKey (u p')) (calcKey (grid_host sc dx) p' (start p')) <> -1 /\
          f_gtb (get (rhs p') (start p')) (get (g p') (start p')) = false)).
Proof.
  intros Hsc HG HO. pose proof (on_grid_heuristic Equals dx t V C Hh K HG HO) as HH0.
  destruct HO as (HC0 & HK0 & HC & HH & HB).
  destruct (New_sim sc Hsc Equals dx t V C Hh K HG HC0 HC HH HB HK0 s0)
    as (px0 & E0 & _).
  exists (grid_planner sc px0). split; [exact E0|].
  intros cs p fuel Hcs Htr Hrun Hfuel.
  destruct (repair_life sc Hsc Equals dx t V C Hh K HG HC0 HC HH HB HH0 HK0
              s0 cs _ p fuel E0 Hcs Htr Hrun Hfuel)
    as (p' & x' & S' & E' & Hinv' & _).
  exists (grid_planner sc p'). split; [exact E'|].
  destruct (grid_queue_keys sc Hsc Equals dx t V C Hh K HG HC0 HH HB HH0 HK0 p' x' S' Hinv')
    as [Hiff Hkeys].
  split; [exact Hiff|]. split; [exact Hkeys|].
  pose proof (computeShortestPath_finished Equals (grid_host sc dx) fuel p _ E') as U.
  unfold unfinished in U. apply andb_false_iff in U as [U|U].
  - left. apply negb_false_iff. exact U.
  - right. apply orb_false_iff in U as [U1 U2]. split; [|exact U2].
    apply bool_decide_eq_false in U1. exact U1.
Qed.


(** ** Keys *)

(** X20.  A NaN in a first component makes [compare] decide on the
    second components alone, whatever the other first component is; with
    a NaN in a second component too, the two keys compare equal
    (result 0). *)
Theorem compare_nan (a b : key spec_float) :
  IEEE.is_nan (A a) = true \/ IEEE.is_nan (A b) = true ->
  compare a b =
    (if f_ltb (B a) (B b) then -1 else if f_gtb (B a) (B b) then 1 else 0) /\
  (IEEE.is_nan (B a) = true \/ IEEE.is_nan (B b) = true -> compare a b = 0).
Proof.
  intros HA.
  assert (f_ltb (A a) (A b) = false /\ f_gtb (A a) (A b) = false) as [L G].
  { unfold f_gtb. destruct HA as [HA|HA];
      destruct (A a) as [| | |]; try discriminate HA;
      destruct (A b) as [| | |]; try discriminate HA; split; reflexivity. }
  unfold compare. rewrite L, G. split; [reflexivity|].
  intros HB.
  assert (f_ltb (B a) (B b) = false /\ f_gtb (B a) (B b) = false) as [L' G'].
  { unfold f_gtb. destruct HB as [HB|HB];
      destruct (B a) as [| | |]; try discriminate HB;
      destruct (B b) as [| | |]; try discriminate HB; split; reflexivity. }
  rewrite L', G'. reflexivity.
Qed.

Lemma compare_nan_witness :
  (IEEE.is_nan (A (Key S754_nan (fl 1))) = true \/ IEEE.is_nan (A (Key (fl 5) (fl 2))) = true) /\
  compare (Key S754_nan (fl 1)) (Key (fl 5) (fl 2)) = -1 /\
  compare (Key S754_nan S754_nan) (Key (fl 5) (fl 2)) = 0.
Proof.
  assert (IEEE.is_nan (A (Key S754_nan (fl 1))) = true \/
          IEEE.is_nan (A (Key (fl 5) (fl 2))) = true) as H1 by (left; reflexivity).
  split; [exact H1|]. split.
  - exact (proj1 (compare_nan (Key S754_nan (fl 1)) (Key (fl 5) (fl 2)) H1)).
  - apply (compare_nan (Key S754_nan S754_nan) (Key (fl 5) (fl 2))); left; reflexivity.
Defined.

(** ** [UpdateStart] and the keys in the queue *)

Section QueueDuplicates.
Context {State : Type} `{Countable State} {F : Type} `{Float64 F}.
Implicit Types (q : priorityQueue State F) (s : State) (k : key F).

(** In a queue with a consistent index the map has one entry per slot. *)
Lemma index_size q : index_ok q -> size (lookups q) = length (items q).
Proof.
  intros (Hdom & Hnd & _).
  rewrite <- states_length, <- (size_list_to_set (C := gset State) (states q) Hnd).
  rewrite <- size_dom. f_equal. apply set_eq. intros s.
  rewrite elem_of_dom, elem_of_list_to_set. apply Hdom.
Qed.

(** X22.  [insert(s, k)] of a state that is queued already does not
    fail and does not replace the entry of [s]: the array grows by one
    entry while the index map keeps its size, so the queue holds two
    entries for [s] and its index is no longer consistent.  The caller
    has to test [contains] first, as [updateVertex] does. *)
Theorem insert_queued_duplicates q s k :
  index_ok q -> pq.contains q s = true ->
  exists q', pq.insert q s k = Some q' /\
    pqi.Len q' = S (pqi.Len q) /\
    size (lookups q') = size (lookups q) /\
    ~ index_ok q'.
Proof.
  intros Hq Hc. pose proof Hq as (Hdom & _ & _).
  apply contains_true in Hc. apply elem_of_dom in Hc.
  unfold pq.insert. destruct (heap_Push_is_Some q (PqItem s k)) as [q' E].
  exists q'. split; [exact E|].
  unfold heap.Push, heap.up in E.
  set (q1 := pqi.Push q (PqItem s k)) in *.
  assert (length (items q1) = S (length (items q))) as L1
    by (subst q1; unfold pqi.Push; cbn [items]; rewrite length_app; cbn; lia).
  unfold pqi.Len in *. rewrite L1 in E. cbn [Nat.sub] in E. rewrite Nat.sub_0_r in E.
  set (n := length (items q)) in *.
  pose (P := fun q0 : priorityQueue State F =>
    dom (lookups q0) = dom (lookups q) /\
    forall it, it ∈ items q0 -> item_s it ∈ dom (lookups q)).
  assert (P q') as [HP1 _].
  { apply (up_loop_preserves P (S n)) with (fuel := S n) (q := q1) (j := n);
      [|lia| |exact E].
    - intros q0 i0 j0 q0' _ _ [D M] HS. split.
      + apply Swap_inv in HS as (a & b & Ha & Hb & ->). cbn [lookups].
        rewrite !dom_insert_L, D.
        assert (item_s a ∈ dom (lookups q)) by (apply M; eapply list_elem_of_lookup_2; exact Ha).
        assert (item_s b ∈ dom (lookups q)) by (apply M; eapply list_elem_of_lookup_2; exact Hb).
        set_solver.
      + intros it Hit. apply M. apply (Swap_elem_of _ _ _ _ it HS). exact Hit.
    - unfold P. subst q1. unfold pqi.Push. cbn [lookups items item_s]. split.
      + rewrite dom_insert_L. set_solver.
      + intros it Hit. apply elem_of_app in Hit as [Hit|Hit].
        * apply elem_of_dom, Hdom. unfold states. apply list_elem_of_fmap.
          exists it. split; [reflexivity|exact Hit].
        * apply list_elem_of_singleton in Hit. subst it. exact Hc. }
  assert (length (items q') = S n) as L' by (rewrite (up_loop_length _ _ _ _ E); exact L1).
  assert (size (lookups q') = size (lookups q)) as Hsize
    by (rewrite <- !size_dom, HP1; reflexivity).
  split; [exact L'|]. split; [exact Hsize|].
  intros Hq'. apply index_size in Hq'. apply index_size in Hq. fold n in Hq. lia.
Qed.

End QueueDuplicates.

Lemma insert_queued_duplicates_witness :
  index_ok queue13 /\ pq.contains queue13 3%nat = true /\
  exists q', pq.insert queue13 3%nat (Key (fl 0) (fl 0)) = Some q' /\
    pqi.Len q' = 3%nat /\ size (lookups q') = 2%nat /\ ~ index_ok q'.
Proof.
  split; [exact (proj1 queue13_wf)|]. split; [reflexivity|].
  destruct (insert_queued_duplicates queue13 3%nat (Key (fl 0) (fl 0))
              (proj1 queue13_wf) eq_refl) as (q' & E & Hl & Hs & Hn).
  exists q'. split; [exact E|]. split; [exact Hl|]. split; [exact Hs|exact Hn].
Defined.

(** ** The empty queue *)

(** X23.  On an empty queue with a consistent index, [top()], [pop()],
    [update] and [remove] panic (they index the empty array), while
    [insert] works and leaves the state at the top. *)
Theorem empty_queue_calls {State : Type} `{Countable State} {F : Type} `{Float64 F}
    (q : priorityQueue State F) (s : State) (k : key F) :
  index_ok q -> pq.isEmpty q = true ->
  pq.top q = None /\ pq.pop q = None /\
  pq.update q s k = None /\ pq.remove q s = None /\
  exists q', pq.insert q s k = Some q' /\ pq.top q' = Some s /\ pq.topKey q' = k /\
    pq.isEmpty q' = false.
Proof.
  intros Hq He. apply index_ok_inv in Hq.
  pose proof (proj1 (isEmpty_items q Hq) He) as Ei.
  assert (lookups q = ∅) as El.
  { unfold pq.isEmpty in He. apply bool_decide_eq_true in He.
    apply map_size_empty_iff in He. exact He. }
  destruct q as [lk it]. cbn [items lookups] in *. subst lk it.
  split; [reflexivity|]. split; [reflexivity|]. split; [reflexivity|].
  split; [reflexivity|].
  exists (PriorityQueue (<[s := 0%nat]> ∅) [PqItem s k]).
  split; [reflexivity|]. split; [reflexivity|]. split; [reflexivity|].
  unfold pq.isEmpty. cbn [lookups]. apply bool_decide_eq_false.
  rewrite map_size_insert_None by apply lookup_empty. discriminate.
Qed.

Lemma empty_queue_calls_witness :
  index_ok (pq.newPriorityQueue (State := nat) (F := spec_float)) /\
  pq.isEmpty (pq.newPriorityQueue (State := nat) (F := spec_float)) = true /\
  pq.pop (pq.newPriorityQueue (State := nat) (F := spec_float)) = None /\
  pq.remove (pq.newPriorityQueue (F := spec_float)) 1%nat = None.
Proof.
  assert (index_ok (pq.newPriorityQueue (State := nat) (F := spec_float))) as Hq.
  { apply index_ok_inv. exact (proj1 (queue_inv_new (State := nat) (F := spec_float) key_ok)). }
  split; [exact Hq|]. split; [reflexivity|].
  destruct (empty_queue_calls pq.newPriorityQueue 1%nat (Key (fl 0) (fl 0)) Hq eq_refl)
    as (_ & Hp & _ & Hr & _).
  split; [exact Hp|exact Hr].
Defined.


(** ** Runs of the further theorems *)

Lemma nat_equals_refl (a : nat) : nat_equals a a = true.
Proof. apply bool_decide_eq_true. reflexivity. Qed.

Lemma pair64_nn : data_nn pair64.
Proof.
  split; intros a b; cbn.
  - destruct (nat_equals a b); split; reflexivity.
  - split; reflexivity.
Qed.

Lemma cycle64_nn : data_nn cycle64.
Proof.
  split; intros a b; cbn; [split; reflexivity|].
  repeat case_match; split; reflexivity.
Qed.

Lemma cycle64_new_wf : planner_wf cycle64_new.
Proof.
  destruct (New_wf cycle64 cycle64_nn 0%nat 3%nat) as (p0 & E & Hp & _).
  vm_compute in E. injection E as <-. exact Hp.
Qed.

(** The first [Plan] on the line 0 - 1 - 2 - 3 returns 0, 1, 2, 3. *)
Lemma Plan_path_chain_witness :
  exists p0 p', New line4 0%nat 3%nat = Returns p0 /\
    Plan nat_equals line4 5 p0 = Returns (Some [0; 1; 2; 3]%nat, p') /\
    chain line4 [0; 1; 2; 3]%nat /\
    (exists x, last [0; 1; 2; 3]%nat = Some x /\ nat_equals x (goal p0) = true).
Proof.
  eexists. eexists. split; [vm_compute; reflexivity|].
  match goal with
  | |- ?a = ?b /\ _ => assert (a = b) as E by (vm_compute; reflexivity)
  end.
  split; [exact E|].
  destruct (Plan_path_chain nat_equals line4 5 _ _ _ E) as (_ & Hc & Hl & _).
  split; [exact Hc|exact Hl].
Defined.

(** On [broken64] state 0 gets rhs 1 through [Pred], has no successor,
    and [Plan] panics. *)
Lemma Plan_panics_without_successor_witness :
  exists p0 p', New broken64 0%nat 1%nat = Returns p0 /\
    computeShortestPath nat_equals broken64 5 p0 = Returns p' /\
    nat_equals (start p0) (goal p') = false /\
    get (rhs p') (start p0) = fl 1 /\
    Plan nat_equals broken64 5 p0 = Panics.
Proof.
  eexists. eexists. split; [vm_compute; reflexivity|].
  match goal with
  | |- ?a = ?b /\ _ => assert (a = b) as E by (vm_compute; reflexivity)
  end.
  split; [exact E|]. split; [reflexivity|]. split; [reflexivity|].
  apply (Plan_panics_without_successor nat_equals broken64 5 _ _ ltac:(lia) E);
    [reflexivity|reflexivity|].
  intros w Hw. cbn in Hw. apply elem_of_nil in Hw. contradiction.
Defined.

(** On [cycle64] after the repair, the cost of 1 -> 2 going from 0 to 1. *)
Lemma FlagChanged_frame_witness :
  exists p', FlagChanged nat_equals cycle64 cycle64_repaired 1%nat 2%nat (fl 0) (fl 1)
             = Returns p' /\
    start p' = 0%nat /\ goal p' = 3%nat /\ km p' = km cycle64_repaired /\
    g p' = g cycle64_repaired /\
    rhs p' !! 0%nat = rhs cycle64_repaired !! 0%nat.
Proof.
  eexists.
  match goal with
  | |- ?a = ?b /\ _ => assert (a = b) as E by (vm_compute; reflexivity)
  end.
  split; [exact E|].
  destruct (FlagChanged_frame nat_equals cycle64 _ _ _ _ _ _ E) as (Hs & Hg & Hk & Hgg & Hr & _).
  split; [exact Hs|]. split; [exact Hg|]. split; [exact Hk|]. split; [exact Hgg|].
  apply Hr. lia.
Defined.

Lemma rhs_goal_zero_witness :
  (forall a, nat_equals a a = true) /\
  exists p0 p, New pair64 0%nat 1%nat = Returns p0 /\
    run_calls nat_equals pair64 p0 [CallPlan 5; CallUpdateStart 1%nat; CallPlan 5]
      = Returns p /\
    goal p = 1%nat /\ get (rhs p) 1%nat = f_zero.
Proof.
  split; [exact nat_equals_refl|].
  eexists. eexists. split; [vm_compute; reflexivity|].
  match goal with
  | |- ?a = ?b /\ _ => assert (a = b) as E by (vm_compute; reflexivity)
  end.
  split; [exact E|].
  refine (rhs_goal_zero nat_equals pair64 0%nat 1%nat _ _ _ nat_equals_refl _ E).
  vm_compute. reflexivity.
Defined.

Lemma New_well_formed_witness :
  data_nn pair64 /\
  exists p0, New pair64 0%nat 1%nat = Returns p0 /\ planner_wf p0 /\
    key_of (u p0) 1%nat = Some (Key (fl 1) (fl 0)) /\ key_of (u p0) 0%nat = None.
Proof.
  split; [exact pair64_nn|].
  destruct (New_well_formed pair64 0%nat 1%nat pair64_nn)
    as (p0 & E & Hp & _ & _ & _ & _ & _ & Hkeys).
  exists p0. split; [exact E|]. split; [exact Hp|].
  split; [exact (Hkeys 1%nat)|exact (Hkeys 0%nat)].
Defined.

Lemma computeShortestPath_never_panics_witness :
  data_nn cycle64 /\ planner_wf cycle64_new /\
  computeShortestPath nat_equals cycle64 10 cycle64_new = Returns cycle64_repaired /\
  planner_wf cycle64_repaired.
Proof.
  split; [exact cycle64_nn|]. split; [exact cycle64_new_wf|].
  assert (computeShortestPath nat_equals cycle64 10 cycle64_new
          = Returns cycle64_repaired) as E by (vm_compute; reflexivity).
  split; [exact E|].
  destruct (computeShortestPath_never_panics nat_equals cycle64 cycle64_new 10
              cycle64_nn cycle64_new_wf) as [E'|(p' & E' & Hp')];
    rewrite E in E'; [discriminate|]. injection E' as <-. exact Hp'.
Defined.

Lemma FlagChanged_returns_witness :
  data_nn cycle64 /\ planner_wf cycle64_new /\ float_nn (fl 1) /\
  exists p', FlagChanged nat_equals cycle64 cycle64_new 1%nat 2%nat (fl 0) (fl 1)
             = Returns p' /\ planner_wf p'.
Proof.
  assert (float_nn (fl 1)) as H1 by (split; reflexivity).
  split; [exact cycle64_nn|]. split; [exact cycle64_new_wf|]. split; [exact H1|].
  exact (FlagChanged_returns nat_equals cycle64 cycle64_new 1%nat 2%nat (fl 0) (fl 1)
           cycle64_nn cycle64_new_wf H1).
Defined.

Lemma calcKey_ordered_witness :
  data_nn cycle64 /\ planner_wf cycle64_new /\
  calcKey cycle64 cycle64_new 3%nat = Key (fl 0) (fl 0) /\
  key_ok (calcKey cycle64 cycle64_new 3%nat) /\
  f_leb (B (calcKey cycle64 cycle64_new 3%nat)) (A (calcKey cycle64 cycle64_new 3%nat)) = true.
Proof.
  split; [exact cycle64_nn|]. split; [exact cycle64_new_wf|]. split; [reflexivity|].
  exact (calcKey_ordered cycle64 cycle64_new 3%nat cycle64_nn cycle64_new_wf).
Defined.

Lemma planner_stays_well_formed_witness :
  data_nn pair64 /\
  Forall call_nn [CallPlan 5; CallUpdateStart 1%nat;
                  CallFlagChanged 0%nat 1%nat (fl 1) (fl 2); CallPlan (F := spec_float) 5] /\
  exists p0 p, New pair64 0%nat 1%nat = Returns p0 /\
    run_calls nat_equals pair64 p0
      [CallPlan 5; CallUpdateStart 1%nat;
       CallFlagChanged 0%nat 1%nat (fl 1) (fl 2); CallPlan 5] = Returns p /\
    planner_wf p.
Proof.
  assert (Forall (call_nn (State := nat))
            [CallPlan 5; CallUpdateStart 1%nat;
             CallFlagChanged 0%nat 1%nat (fl 1) (fl 2); CallPlan 5]) as Hcs.
  { repeat constructor; reflexivity. }
  split; [exact pair64_nn|]. split; [exact Hcs|].
  eexists. eexists.
  match goal with
  | |- ?a = ?b /\ _ => assert (a = b) as E0 by (vm_compute; reflexivity)
  end.
  split; [exact E0|].
  match goal with
  | |- ?a = ?b /\ _ => assert (a = b) as E by (vm_compute; reflexivity)
  end.
  split; [exact E|].
  exact (planner_stays_well_formed nat_equals pair64 0%nat 1%nat _ _ _ pair64_nn Hcs E0 E).
Defined.

(** The theorem on the line 0 - 1 - 2 - 3 with costs and heuristic in
    halves, after [Plan], [UpdateStart(1)]: state 2 has g = 1/2, the cost
    of the edge to the goal, and is not in the queue. *)
Lemma repair_settled_witness :
  scale_ok (-1) /\ static_graph nat_equals line4g 3%nat line4_states /\
  on_grid line4g (size line4_states) 1 3 3 /\
  exists p0 p p', New (grid_host (-1) line4g) 0%nat 3%nat = Returns p0 /\
    run_calls nat_equals (grid_host (-1) line4g) p0 [CallPlan 9; CallUpdateStart 1%nat]
      = Returns p /\
    computeShortestPath nat_equals (grid_host (-1) line4g) 8 p = Returns p' /\
    f_is_inf (get (g p') 2%nat) = false /\
    get (g p') 2%nat = get (rhs p') 2%nat /\
    (exists c, shortest line4g 3%nat 2%nat c /\ below (2 ^ 53 - 1) c /\
               get (g p') 2%nat = of_exact (-1) c) /\
    pq.contains (u p') 2%nat = false.
Proof.
  assert (scale_ok (-1)) as Hsc by (unfold scale_ok; lia).
  split; [exact Hsc|]. split; [exact line4g_static|]. split; [exact line4g_grid|].
  destruct (repair_settled nat_equals line4g 0%nat 3%nat line4_states (-1) 1 3 3
              Hsc line4g_static line4g_grid) as (p0 & E0 & Hrun).
  pose (cs := [CallPlan 9; CallUpdateStart 1%nat] : list (call nat spec_float)).
  let v := eval vm_compute in
             (p ← New (grid_host (-1) line4g) 0%nat 3%nat;
              run_calls nat_equals (grid_host (-1) line4g) p cs) in
  match v with Returns ?p => pose (pv := p) end.
  assert (run_calls nat_equals (grid_host (-1) line4g) p0 cs = Returns pv) as Ep
    by (vm_compute in E0; injection E0 as <-; vm_compute; reflexivity).
  destruct (Hrun cs pv 8%nat) as (p' & E' & Hs).
  - constructor; [exact I|]. constructor; [exact I|]. constructor.
  - cbn. lia.
  - exact Ep.
  - vm_compute. lia.
  - exists p0, pv, p'. split; [exact E0|]. split; [exact Ep|]. split; [exact E'|].
    assert (f_is_inf (get (g p') 2%nat) = false) as Hf.
    { vm_compute in E'. injection E' as <-. vm_compute. reflexivity. }
    split; [exact Hf|]. exact (Hs 2%nat Hf).
Defined.

(** The theorem on the same run: state 0, which has no g, is in the
    queue, state 2 is not. *)
Lemma repair_queue_witness :
  scale_ok (-1) /\ static_graph nat_equals line4g 3%nat line4_states /\
  on_grid line4g (size line4_states) 1 3 3 /\
  exists p0 p p', New (grid_host (-1) line4g) 0%nat 3%nat = Returns p0 /\
    run_calls nat_equals (grid_host (-1) line4g) p0 [CallPlan 9; CallUpdateStart 1%nat]
      = Returns p /\
    computeShortestPath nat_equals (grid_host (-1) line4g) 8 p = Returns p' /\
    pq.contains (u p') 0%nat = true /\
    f_eqb (get (g p') 0%nat) (get (rhs p') 0%nat) = false /\
    pq.contains (u p') 2%nat = false /\
    (forall v k, key_of (u p') v = Some k ->
                 compare (calcKey (grid_host (-1) line4g) p' v) k <> -1).
Proof.
  assert (scale_ok (-1)) as Hsc by (unfold scale_ok; lia).
  split; [exact Hsc|]. split; [exact line4g_static|]. split; [exact line4g_grid|].
  destruct (repair_queue nat_equals line4g 0%nat 3%nat line4_states (-1) 1 3 3
              Hsc line4g_static line4g_grid) as (p0 & E0 & Hrun).
  pose (cs := [CallPlan 9; CallUpdateStart 1%nat] : list (call nat spec_float)).
  let v := eval vm_compute in
             (p ← New (grid_host (-1) line4g) 0%nat 3%nat;
              run_calls nat_equals (grid_host (-1) line4g) p cs) in
  match v with Returns ?p => pose (pv := p) end.
  assert (run_calls nat_equals (grid_host (-1) line4g) p0 cs = Returns pv) as Ep
    by (vm_compute in E0; injection E0 as <-; vm_compute; reflexivity).
  destruct (Hrun cs pv 8%nat) as (p' & E' & Hiff & Hkeys & _).
  - constructor; [exact I|]. constructor; [exact I|]. constructor.
  - cbn. lia.
  - exact Ep.
  - vm_compute. lia.
  - exists p0, pv, p'. split; [exact E0|]. split; [exact Ep|]. split; [exact E'|].
    assert (pq.contains (u p') 0%nat = true /\ pq.contains (u p') 2%nat = false) as [H1 H2].
    { vm_compute in E'. injection E' as <-. split; vm_compute; reflexivity. }
    split; [exact H1|]. split; [apply Hiff; exact H1|]. split; [exact H2|exact Hkeys].
Defined.

